(** * MutableVertexPartition: a shallow embedding and its properties

    The development embeds [src/MutableVertexPartition.cpp]: the
    partition of the vertices of a graph into communities, together with
    the per-community aggregates that [init_admin] builds and [move_node]
    maintains incrementally, the pool of empty communities, the
    renumbering and reconstruction operations and the per-vertex cache of
    neighbour-community weights.

    Conventions of the embedding:
    - [size_t] values that are stored and computed with (community sizes,
      node sizes, the possible edges) are integers in [Z] with the
      wrap-around modulo [2^64] written out; vertex ids, edge ids and
      community ids, which are compared and used as vector indices, are
      [nat], and the one sum that the source computes on an id
      ([_membership[i] + 1] in [init_admin]) wraps as it does in
      [size_t];
    - the [double] values of the edge weights and the weight aggregates
      are exact rationals [Qc]: their rounding is not modelled; the
      [double] computation on integers in [move_node] (the change of the
      possible edges) is modelled with its rounding to 53 bits;
    - a [vector] is a [list], an [unordered_set<size_t>] is a [gset nat];
    - a method is a function from the state of the object to an
      [outcome]: it returns, it throws (the state reached when the
      exception leaves the method is kept), or its behaviour is undefined
      (a vector indexed out of range, an invalid iterator erased). *)

From Stdlib Require Import ZArith QArith Qcanon Lia.
From stdpp Require Import base numbers list gmap sorting.

Local Open Scope Z_scope.
Local Open Scope nat_scope.

(** ** The graph provider *)

Inductive igraph_neimode_t := IGRAPH_OUT | IGRAPH_IN | IGRAPH_ALL.

(** The [Graph] class is a collaborator of the partition; only the
    methods that [MutableVertexPartition.cpp] calls are listed.
    [get_neighbours v mode] and [get_neighbour_edges v mode] are parallel
    vectors: the [idx]-th neighbour is reached through the [idx]-th
    edge. *)
Record Graph := {
  vcount : nat;
  is_directed : bool;
  node_size : nat → Z;
  edge_weight : nat → Qc;
  get_neighbours : nat → igraph_neimode_t → list nat;
  get_neighbour_edges : nat → igraph_neimode_t → list nat;
}.

(** Modelled from the spec: [Graph::possible_edges] is not part of the
    sources at hand. Following the interface description, it is
    [n·(n−1)] for a directed graph and [n·(n−1)/2] for an undirected
    one. *)
Definition possible_edges (g : Graph) (n : Z) : Z :=
  (if is_directed g then n * (n - 1) else n * (n - 1) / 2)%Z.

(** The incident edges of [v] as the loops of the source visit them:
    [idx] runs over [neighbours.size()], reading [neighbours[idx]] and
    [neighbour_edges[idx]]. *)
Definition incident (g : Graph) (v : nat) (mode : igraph_neimode_t) : list (nat * nat) :=
  zip (get_neighbours g v mode) (get_neighbour_edges g v mode).

(** ** Machine arithmetic on [size_t] *)

Definition size_t_modulus : Z := (2 ^ 64)%Z.

Definition size_t_add (a b : Z) : Z := ((a + b) mod size_t_modulus)%Z.
Definition size_t_sub (a b : Z) : Z := ((a - b) mod size_t_modulus)%Z.

(** The cast [(ptrdiff_t) x] of a [size_t] value. *)
Definition to_ptrdiff (x : Z) : Z :=
  (if x <? 2 ^ 63 then x else x - size_t_modulus)%Z.

(** [m + 1] on a [size_t] id [m]: the sum wraps to [0] for the id
    [2^64 - 1]. *)
Definition size_t_succ (m : nat) : nat :=
  Z.to_nat ((Z.of_nat m + 1) mod size_t_modulus)%Z.

(** ** [double] arithmetic on integers *)

(** The [double] nearest to the integer [x] (IEEE 754 binary64: 53
    bits of precision, round to nearest, ties to even). Integers of
    magnitude below [2^53] are exact; a larger one is [q·2^k + r] with
    [2^52 ≤ q < 2^53] and is rounded to [q·2^k] or [(q+1)·2^k].
    Magnitudes beyond the range of [double] do not occur. This is the
    conversion [(double) x] and the rounding of a sum or a product of
    two [double]s whose exact value is the integer [x]. *)
Definition round_double (x : Z) : Z :=
  let a := Z.abs x in
  if (a <? 2 ^ 53)%Z then x
  else
    let k := (Z.log2 a - 52)%Z in
    let q := (a / 2 ^ k)%Z in
    let r := (a mod 2 ^ k)%Z in
    let half := (2 ^ (k - 1))%Z in
    let q' := if (r <? half)%Z then q
              else if (half <? r)%Z then (q + 1)%Z
              else if Z.even q then q else (q + 1)%Z in
    (Z.sgn x * (q' * 2 ^ k))%Z.

(** The conversion [(size_t) x] of a [double] with an integer value:
    undefined behaviour when the value is not in the range of
    [size_t]. *)
Definition size_t_of_double (x : Z) : option Z :=
  if bool_decide (0 ≤ x < size_t_modulus)%Z then Some x else None.

(** ** The state of a partition *)

(** One slot of the neighbour-community cache. The source has three of
    them, for the directions IN, OUT and ALL:
    [_current_node_cache_community_from/to/all] (the marker),
    [_cached_weight_from/to/all_community] (the dense weight table) and
    [_cached_neigh_comms_from/to/all] (the communities touched). *)
Record neigh_cache := {
  _current_node_cache_community : nat;
  _cached_weight_community : list Qc;
  _cached_neigh_comms : list nat;
}.

Record MutableVertexPartition := {
  _membership : list nat;
  community : list (gset nat);
  _csize : list Z;
  _total_weight_in_comm : list Qc;
  _total_weight_from_comm : list Qc;
  _total_weight_to_comm : list Qc;
  _total_weight_in_all_comms : Qc;
  _total_possible_edges_in_all_comms : Z;  (* a [size_t] *)
  _empty_communities : list nat;
  cache_from : neigh_cache;
  cache_to : neigh_cache;
  cache_all : neigh_cache;
}.

Definition set_membership (x : list nat) (p : MutableVertexPartition) :=
  {| _membership := x; community := community p; _csize := _csize p;
     _total_weight_in_comm := _total_weight_in_comm p;
     _total_weight_from_comm := _total_weight_from_comm p;
     _total_weight_to_comm := _total_weight_to_comm p;
     _total_weight_in_all_comms := _total_weight_in_all_comms p;
     _total_possible_edges_in_all_comms := _total_possible_edges_in_all_comms p;
     _empty_communities := _empty_communities p;
     cache_from := cache_from p; cache_to := cache_to p; cache_all := cache_all p |}.

Definition set_community (x : list (gset nat)) (p : MutableVertexPartition) :=
  {| _membership := _membership p; community := x; _csize := _csize p;
     _total_weight_in_comm := _total_weight_in_comm p;
     _total_weight_from_comm := _total_weight_from_comm p;
     _total_weight_to_comm := _total_weight_to_comm p;
     _total_weight_in_all_comms := _total_weight_in_all_comms p;
     _total_possible_edges_in_all_comms := _total_possible_edges_in_all_comms p;
     _empty_communities := _empty_communities p;
     cache_from := cache_from p; cache_to := cache_to p; cache_all := cache_all p |}.

Definition set_csize (x : list Z) (p : MutableVertexPartition) :=
  {| _membership := _membership p; community := community p; _csize := x;
     _total_weight_in_comm := _total_weight_in_comm p;
     _total_weight_from_comm := _total_weight_from_comm p;
     _total_weight_to_comm := _total_weight_to_comm p;
     _total_weight_in_all_comms := _total_weight_in_all_comms p;
     _total_possible_edges_in_all_comms := _total_possible_edges_in_all_comms p;
     _empty_communities := _empty_communities p;
     cache_from := cache_from p; cache_to := cache_to p; cache_all := cache_all p |}.

Definition set_total_weight_in_comm (x : list Qc) (p : MutableVertexPartition) :=
  {| _membership := _membership p; community := community p; _csize := _csize p;
     _total_weight_in_comm := x;
     _total_weight_from_comm := _total_weight_from_comm p;
     _total_weight_to_comm := _total_weight_to_comm p;
     _total_weight_in_all_comms := _total_weight_in_all_comms p;
     _total_possible_edges_in_all_comms := _total_possible_edges_in_all_comms p;
     _empty_communities := _empty_communities p;
     cache_from := cache_from p; cache_to := cache_to p; cache_all := cache_all p |}.

Definition set_total_weight_from_comm (x : list Qc) (p : MutableVertexPartition) :=
  {| _membership := _membership p; community := community p; _csize := _csize p;
     _total_weight_in_comm := _total_weight_in_comm p;
     _total_weight_from_comm := x;
     _total_weight_to_comm := _total_weight_to_comm p;
     _total_weight_in_all_comms := _total_weight_in_all_comms p;
     _total_possible_edges_in_all_comms := _total_possible_edges_in_all_comms p;
     _empty_communities := _empty_communities p;
     cache_from := cache_from p; cache_to := cache_to p; cache_all := cache_all p |}.

Definition set_total_weight_to_comm (x : list Qc) (p : MutableVertexPartition) :=
  {| _membership := _membership p; community := community p; _csize := _csize p;
     _total_weight_in_comm := _total_weight_in_comm p;
     _total_weight_from_comm := _total_weight_from_comm p;
     _total_weight_to_comm := x;
     _total_weight_in_all_comms := _total_weight_in_all_comms p;
     _total_possible_edges_in_all_comms := _total_possible_edges_in_all_comms p;
     _empty_communities := _empty_communities p;
     cache_from := cache_from p; cache_to := cache_to p; cache_all := cache_all p |}.

Definition set_total_weight_in_all_comms (x : Qc) (p : MutableVertexPartition) :=
  {| _membership := _membership p; community := community p; _csize := _csize p;
     _total_weight_in_comm := _total_weight_in_comm p;
     _total_weight_from_comm := _total_weight_from_comm p;
     _total_weight_to_comm := _total_weight_to_comm p;
     _total_weight_in_all_comms := x;
     _total_possible_edges_in_all_comms := _total_possible_edges_in_all_comms p;
     _empty_communities := _empty_communities p;
     cache_from := cache_from p; cache_to := cache_to p; cache_all := cache_all p |}.

Definition set_total_possible_edges_in_all_comms (x : Z) (p : MutableVertexPartition) :=
  {| _membership := _membership p; community := community p; _csize := _csize p;
     _total_weight_in_comm := _total_weight_in_comm p;
     _total_weight_from_comm := _total_weight_from_comm p;
     _total_weight_to_comm := _total_weight_to_comm p;
     _total_weight_in_all_comms := _total_weight_in_all_comms p;
     _total_possible_edges_in_all_comms := x;
     _empty_communities := _empty_communities p;
     cache_from := cache_from p; cache_to := cache_to p; cache_all := cache_all p |}.

Definition set_empty_communities (x : list nat) (p : MutableVertexPartition) :=
  {| _membership := _membership p; community := community p; _csize := _csize p;
     _total_weight_in_comm := _total_weight_in_comm p;
     _total_weight_from_comm := _total_weight_from_comm p;
     _total_weight_to_comm := _total_weight_to_comm p;
     _total_weight_in_all_comms := _total_weight_in_all_comms p;
     _total_possible_edges_in_all_comms := _total_possible_edges_in_all_comms p;
     _empty_communities := x;
     cache_from := cache_from p; cache_to := cache_to p; cache_all := cache_all p |}.

(** The cache slot that [cache_neigh_communities] selects by [mode]. *)
Definition cache_of (mode : igraph_neimode_t) (p : MutableVertexPartition) : neigh_cache :=
  match mode with
  | IGRAPH_IN => cache_from p
  | IGRAPH_OUT => cache_to p
  | IGRAPH_ALL => cache_all p
  end.

Definition set_cache (mode : igraph_neimode_t) (x : neigh_cache) (p : MutableVertexPartition) :=
  {| _membership := _membership p; community := community p; _csize := _csize p;
     _total_weight_in_comm := _total_weight_in_comm p;
     _total_weight_from_comm := _total_weight_from_comm p;
     _total_weight_to_comm := _total_weight_to_comm p;
     _total_weight_in_all_comms := _total_weight_in_all_comms p;
     _total_possible_edges_in_all_comms := _total_possible_edges_in_all_comms p;
     _empty_communities := _empty_communities p;
     cache_from := match mode with IGRAPH_IN => x | _ => cache_from p end;
     cache_to := match mode with IGRAPH_OUT => x | _ => cache_to p end;
     cache_all := match mode with IGRAPH_ALL => x | _ => cache_all p end |}.

Definition set_current_node (v : nat) (c : neigh_cache) : neigh_cache :=
  {| _current_node_cache_community := v;
     _cached_weight_community := _cached_weight_community c;
     _cached_neigh_comms := _cached_neigh_comms c |}.

Definition set_cached_weight (w : list Qc) (c : neigh_cache) : neigh_cache :=
  {| _current_node_cache_community := _current_node_cache_community c;
     _cached_weight_community := w;
     _cached_neigh_comms := _cached_neigh_comms c |}.

Definition set_cached_neighs (l : list nat) (c : neigh_cache) : neigh_cache :=
  {| _current_node_cache_community := _current_node_cache_community c;
     _cached_weight_community := _cached_weight_community c;
     _cached_neigh_comms := l |}.

(** ** Outcomes of a method call *)

(** The three sites that throw [Exception], named as the specification
    names them: the constructor ("Membership vector has incorrect
    size."), [add_empty_community] ("There cannot be more communities
    than nodes, ...") and [move_node] ("Incorrect mode for updating the
    admin."). *)
Inductive Exception := InvalidArgument | CapacityExceeded | InvalidDirection.

Inductive outcome (A : Type) :=
| Ok (a : A) (s : MutableVertexPartition)
| Throw (e : Exception) (s : MutableVertexPartition)
| Undefined.
Arguments Ok {A} a s.
Arguments Throw {A} e s.
Arguments Undefined {A}.

Definition M (A : Type) : Type := MutableVertexPartition → outcome A.

#[export] Instance M_ret : MRet M := λ A a s, Ok a s.
#[export] Instance M_bind : MBind M := λ A B k m s,
  match m s with
  | Ok a s' => k a s'
  | Throw e s' => Throw e s'
  | Undefined => Undefined
  end.

Definition get : M MutableVertexPartition := λ s, Ok s s.
Definition gets {A} (f : MutableVertexPartition → A) : M A := λ s, Ok (f s) s.
Definition modify (f : MutableVertexPartition → MutableVertexPartition) : M unit :=
  λ s, Ok () (f s).
Definition throw {A} (e : Exception) : M A := λ s, Throw e s.
Definition undefined {A} : M A := λ _, Undefined.

(** [vec[i]] read: undefined behaviour out of range. *)
Definition index {A} (vec : MutableVertexPartition → list A) (i : nat) : M A :=
  λ s, match vec s !! i with Some x => Ok x s | None => Undefined end.

(** [vec[i] = f (vec[i])] in place: undefined behaviour out of range. *)
Definition modify_at {A} (vec : MutableVertexPartition → list A)
    (set : list A → MutableVertexPartition → MutableVertexPartition)
    (i : nat) (f : A → A) : M unit :=
  λ s, match vec s !! i with
       | Some _ => Ok () (set (alter f i (vec s)) s)
       | None => Undefined
       end.

Definition when (b : bool) (m : M unit) : M unit := if b then m else mret ().

(** [for (...) body] over the values in [l], in order. *)
Fixpoint for_each {A} (l : list A) (body : A → M unit) : M unit :=
  match l with
  | [] => mret ()
  | a :: l' => body a ;; for_each l' body
  end.

(** [erase_last x l] removes the last occurrence of [x], searching from
    the back as the reverse iterator does; [None] when [x] is absent. *)
Fixpoint erase_first (x : nat) (l : list nat) : option (list nat) :=
  match l with
  | [] => None
  | y :: l' => if decide (y = x) then Some l' else cons y <$> erase_first x l'
  end.

Definition erase_last (x : nat) (l : list nat) : option (list nat) :=
  reverse <$> erase_first x (reverse l).

(** Modelled from the spec: the comparator [pairCompareReverseSecond]
    that [renumber_communities] hands to [std::sort] is not part of the
    sources at hand. On pairs [(size, id)] it is the strict order the
    specification describes: larger size first, and among equal sizes
    the smaller original id first. *)
Definition pairCompareReverseSecond (A B : Z * nat) : bool :=
  bool_decide (B.1 < A.1)%Z || (bool_decide (A.1 = B.1) && bool_decide (A.2 < B.2)).

(** [std::sort (first, last, comp)]: the result is a permutation in
    which no element is strictly before an earlier one. The comparator
    above is a strict total order on pairs with distinct ids, so the
    sorted sequence is unique and any sorting algorithm computes it. *)
Definition not_after {A} (comp : A → A → bool) (a b : A) : Prop := comp b a = false.

#[export] Instance not_after_dec {A} (comp : A → A → bool) a b :
  Decision (not_after comp a b).
Proof. unfold not_after. apply _. Defined.

Definition std_sort {A} (comp : A → A → bool) (l : list A) : list A :=
  merge_sort (not_after comp) l.

(** ** The methods of [MutableVertexPartition] *)

Section Methods.
Context (graph : Graph).

(** *** Queries *)

Definition csize (comm : nat) (p : MutableVertexPartition) : Z :=
  match _csize p !! comm with
  | Some x => x
  | None => 0%Z
  end.

Definition nb_communities (p : MutableVertexPartition) : nat := length (community p).

Definition get_community (comm : nat) : M (gset nat) := index community comm.

Definition clean_mem : M unit := modify (set_community []).

(** *** init_admin *)

(** First loop: the number of communities is the largest id plus one,
    the sum [_membership[i] + 1] being computed in [size_t]: for the id
    [2^64 - 1] it is [0] and does not raise [nb_comms]. *)
Fixpoint init_nb_comms (vs : list nat) (nb_comms : nat) : M nat :=
  match vs with
  | [] => mret nb_comms
  | i :: vs' =>
      m ← index _membership i;
      init_nb_comms vs'
        (if bool_decide (nb_comms < size_t_succ m) then size_t_succ m else nb_comms)
  end.

Definition init_cache (n : nat) (c : neigh_cache) : neigh_cache :=
  {| _current_node_cache_community := n + 1;
     _cached_weight_community := resize n 0%Qc (_cached_weight_community c);
     _cached_neigh_comms := _cached_neigh_comms c |}.

(** "Reset administration": the vectors are cleared and resized, the
    cache markers are set to [n + 1] and the weight tables resized to
    [n]. *)
Definition init_reset (nb_comms : nat) (p : MutableVertexPartition) : MutableVertexPartition :=
  let n := vcount graph in
  {| _membership := _membership p;
     community := replicate nb_comms ∅;
     _csize := replicate nb_comms 0%Z;
     _total_weight_in_comm := replicate nb_comms 0%Qc;
     _total_weight_from_comm := replicate nb_comms 0%Qc;
     _total_weight_to_comm := replicate nb_comms 0%Qc;
     _total_weight_in_all_comms := 0%Qc;
     _total_possible_edges_in_all_comms := _total_possible_edges_in_all_comms p;
     _empty_communities := _empty_communities p;
     cache_from := init_cache n (cache_from p);
     cache_to := init_cache n (cache_to p);
     cache_all := init_cache n (cache_all p) |}.

(** The body of the loop over the outgoing edges of [v]. *)
Definition init_admin_edge (v_comm : nat) (ue : nat * nat) : M unit :=
  u_comm ← index _membership ue.1;
  let w := edge_weight graph ue.2 in
  modify_at _total_weight_from_comm set_total_weight_from_comm v_comm (λ x, x + w)%Qc;;
  modify_at _total_weight_to_comm set_total_weight_to_comm u_comm (λ x, x + w)%Qc;;
  when (bool_decide (v_comm = u_comm))
    (let w := (if is_directed graph then w else w / 2)%Qc in
     modify_at _total_weight_in_comm set_total_weight_in_comm v_comm (λ x, x + w)%Qc;;
     modify (λ p, set_total_weight_in_all_comms (_total_weight_in_all_comms p + w)%Qc p)).

Definition init_admin_vertex (v : nat) : M unit :=
  v_comm ← index _membership v;
  modify_at community set_community v_comm (λ s, {[v]} ∪ s);;
  modify_at _csize set_csize v_comm (λ x, size_t_add x (node_size graph v));;
  for_each (incident graph v IGRAPH_OUT) (init_admin_edge v_comm).

(** Last loop: the possible edges summed over the communities. The
    value that [possible_edges] returns is held in a [size_t] local and
    added to the [size_t] scalar: both wrap. *)
Definition init_possible_edges (c : nat) : M unit :=
  modify (λ p, set_total_possible_edges_in_all_comms
                 (size_t_add (_total_possible_edges_in_all_comms p)
                    (possible_edges graph (csize c p) mod size_t_modulus)%Z) p).

Definition init_admin : M unit :=
  let n := vcount graph in
  nb_comms ← init_nb_comms (seq 0 n) 0;
  modify (init_reset nb_comms);;
  for_each (seq 0 n) init_admin_vertex;;
  modify (set_total_possible_edges_in_all_comms 0%Z);;
  for_each (seq 0 nb_comms) init_possible_edges.

(** *** Construction *)

(** The object before the body of a constructor runs: every vector is
    empty (the scalars are assigned by [init_admin] before they are
    read). *)
Definition empty_cache : neigh_cache :=
  {| _current_node_cache_community := 0;
     _cached_weight_community := [];
     _cached_neigh_comms := [] |}.

Definition fresh : MutableVertexPartition :=
  {| _membership := []; community := []; _csize := [];
     _total_weight_in_comm := []; _total_weight_from_comm := [];
     _total_weight_to_comm := [];
     _total_weight_in_all_comms := 0%Qc;
     _total_possible_edges_in_all_comms := 0%Z;
     _empty_communities := [];
     cache_from := empty_cache; cache_to := empty_cache; cache_all := empty_cache |}.

(** [MutableVertexPartition(Graph* graph, vector<size_t> const& membership)] *)
Definition construct (membership : list nat) : M unit :=
  if bool_decide (length membership ≠ vcount graph) then throw InvalidArgument
  else modify (set_membership membership);; init_admin.

(** [MutableVertexPartition(Graph* graph)]: every node in its own
    community. *)
Definition construct_default : M unit :=
  modify (set_membership (seq 0 (vcount graph)));; init_admin.

Definition create (membership : list nat) : outcome unit := construct membership fresh.
Definition create_default : outcome unit := construct_default fresh.

(** *** Renumbering and reconstruction *)

(** [new_comm_id[csizes[i].second] = i] for [i] from [0]. The ids in
    [csizes] are those of [seq 0 nb_comms] in another order, so every
    write is in range. *)
Fixpoint assign_new_comm_id (i : nat) (csizes : list (Z * nat)) (new_comm_id : list nat) : list nat :=
  match csizes with
  | [] => new_comm_id
  | A :: csizes' => assign_new_comm_id (S i) csizes' (<[A.2 := i]> new_comm_id)
  end.

Definition sorted_csizes (p : MutableVertexPartition) : list (Z * nat) :=
  std_sort pairCompareReverseSecond ((λ i, (csize i p, i)) <$> seq 0 (nb_communities p)).

Definition new_comm_ids (p : MutableVertexPartition) : list nat :=
  assign_new_comm_id 0 (sorted_csizes p) (replicate (nb_communities p) 0).

Definition renumber_vertex (new_comm_id : list nat) (i : nat) : M unit :=
  m ← index _membership i;
  match new_comm_id !! m with
  | Some c => modify_at _membership set_membership i (λ _, c)
  | None => undefined
  end.

(** [renumber_communities()] *)
Definition renumber_communities : M unit :=
  new_comm_id ← gets new_comm_ids;
  for_each (seq 0 (vcount graph)) (renumber_vertex new_comm_id);;
  clean_mem;;
  init_admin.

Definition assign_vertex (new_membership : list nat) (i : nat) : M unit :=
  match new_membership !! i with
  | Some c => modify_at _membership set_membership i (λ _, c)
  | None => undefined
  end.

(** [renumber_communities(vector<size_t> const& new_membership)] *)
Definition renumber_communities_with (new_membership : list nat) : M unit :=
  for_each (seq 0 (vcount graph)) (assign_vertex new_membership);;
  clean_mem;;
  init_admin.

Definition coarser_vertex (coarser_partition_membership coarser_node : list nat) (v : nat) : M unit :=
  match coarser_node !! v with
  | Some v_level2 =>
      match coarser_partition_membership !! v_level2 with
      | Some v_comm_level2 => modify_at _membership set_membership v (λ _, v_comm_level2)
      | None => undefined
      end
  | None => undefined
  end.

(** [from_coarser_partition(coarser_partition_membership, coarser_node)] *)
Definition from_coarser_partition_with (coarser_partition_membership coarser_node : list nat) : M unit :=
  for_each (seq 0 (vcount graph)) (coarser_vertex coarser_partition_membership coarser_node);;
  clean_mem;;
  init_admin.

(** [from_coarser_partition(coarser_partition_membership)]: the coarse
    node of a vertex is its current community. The second argument is a
    reference to [_membership] itself, which the loop overwrites as it
    goes: the coarse node of [v] is read after the entries before [v]
    were written. *)
Definition coarser_vertex_self (coarser_partition_membership : list nat) (v : nat) : M unit :=
  v_level2 ← index _membership v;
  match coarser_partition_membership !! v_level2 with
  | Some v_comm_level2 => modify_at _membership set_membership v (λ _, v_comm_level2)
  | None => undefined
  end.

Definition from_coarser_partition (coarser_partition_membership : list nat) : M unit :=
  for_each (seq 0 (vcount graph)) (coarser_vertex_self coarser_partition_membership);;
  clean_mem;;
  init_admin.

(** [from_partition(partition)], on the membership of the other
    partition. *)
Definition from_partition (partition : MutableVertexPartition) : M unit :=
  for_each (seq 0 (vcount graph)) (assign_vertex (_membership partition));;
  clean_mem;;
  init_admin.

(** *** The pool of empty communities *)

Definition add_empty_community : M nat :=
  modify (λ p, set_community (community p ++ [∅]) p);;
  nb_comms ← gets nb_communities;
  if bool_decide (vcount graph < nb_comms) then throw CapacityExceeded
  else
    let new_comm := nb_comms - 1 in
    modify (λ p, set_csize (resize nb_comms 0%Z (_csize p)) p);;
    modify_at _csize set_csize new_comm (λ _, 0%Z);;
    modify (λ p, set_total_weight_in_comm (resize nb_comms 0%Qc (_total_weight_in_comm p)) p);;
    modify_at _total_weight_in_comm set_total_weight_in_comm new_comm (λ _, 0%Qc);;
    modify (λ p, set_total_weight_from_comm (resize nb_comms 0%Qc (_total_weight_from_comm p)) p);;
    modify_at _total_weight_from_comm set_total_weight_from_comm new_comm (λ _, 0%Qc);;
    modify (λ p, set_total_weight_to_comm (resize nb_comms 0%Qc (_total_weight_to_comm p)) p);;
    modify_at _total_weight_to_comm set_total_weight_to_comm new_comm (λ _, 0%Qc);;
    modify (λ p, set_empty_communities (_empty_communities p ++ [new_comm]) p);;
    mret new_comm.

Definition get_empty_community : M nat :=
  empty ← gets (λ p, bool_decide (_empty_communities p = []));
  when empty (add_empty_community ;; mret ());;
  pool ← gets _empty_communities;
  match last pool with
  | Some c => mret c
  | None => undefined
  end.

(** *** move_node *)

(** The change of the possible edges in all communities, from the sizes
    of both communities before they are adapted:
    [2.0*node_size*(ptrdiff_t)(csize_new - csize_old + node_size)
     /(2.0 - is_directed)]. The difference and the sum of the sizes are
    computed in [size_t]; [node_size] and the cast difference are
    converted to [double], and the two products are rounded. The
    divisor is [1.0] or [2.0] and the dividend an even integer, so the
    quotient is exact and an integer. *)
Definition delta_possible_edges_in_comms (node_size csize_new csize_old : Z) : Z :=
  (round_double
     (round_double (2 * round_double node_size)
      * round_double (to_ptrdiff (size_t_add (size_t_sub csize_new csize_old) node_size)))
   / (2 - (if is_directed graph then 1 else 0)))%Z.

(** [_total_possible_edges_in_all_comms += delta]: the [size_t] scalar
    is converted to [double], the sum is rounded and converted back to
    [size_t]. *)
Definition add_possible_edges (total delta : Z) : option Z :=
  size_t_of_double (round_double (round_double total + delta)).

(** The body of the loop over the incident edges of [v] in one [mode]. *)
Definition move_node_edge (v old_comm new_comm : nat) (mode : igraph_neimode_t)
    (ue : nat * nat) : M unit :=
  u_comm ← index _membership ue.1;
  let w := edge_weight graph ue.2 in
  match mode with
  | IGRAPH_OUT =>
      modify_at _total_weight_from_comm set_total_weight_from_comm old_comm (λ x, x - w)%Qc;;
      modify_at _total_weight_from_comm set_total_weight_from_comm new_comm (λ x, x + w)%Qc
  | IGRAPH_IN =>
      modify_at _total_weight_to_comm set_total_weight_to_comm old_comm (λ x, x - w)%Qc;;
      modify_at _total_weight_to_comm set_total_weight_to_comm new_comm (λ x, x + w)%Qc
  | IGRAPH_ALL => throw InvalidDirection
  end;;
  let int_weight :=
    (w / (if is_directed graph then 1 else 2) / (if bool_decide (ue.1 = v) then 2 else 1))%Qc in
  when (bool_decide (old_comm = u_comm))
    (modify_at _total_weight_in_comm set_total_weight_in_comm old_comm (λ x, x - int_weight)%Qc;;
     modify (λ p, set_total_weight_in_all_comms (_total_weight_in_all_comms p - int_weight)%Qc p));;
  when (bool_decide (new_comm = u_comm) || bool_decide (ue.1 = v))
    (modify_at _total_weight_in_comm set_total_weight_in_comm new_comm (λ x, x + int_weight)%Qc;;
     modify (λ p, set_total_weight_in_all_comms (_total_weight_in_all_comms p + int_weight)%Qc p)).

Definition move_node_edges (v old_comm new_comm : nat) (mode : igraph_neimode_t) : M unit :=
  for_each (incident graph v mode) (move_node_edge v old_comm new_comm mode).

(** Removal of [new_comm] from the empty communities: the reverse
    iterator stops at the last occurrence; erasing through it when it
    reached [rend()] is undefined behaviour. *)
Definition remove_from_empty_communities (new_comm : nat) : M unit :=
  pool ← gets _empty_communities;
  match erase_last new_comm pool with
  | Some pool' => modify (set_empty_communities pool')
  | None => undefined
  end.

Definition move_node (v new_comm : nat) : M unit :=
  let node_size := node_size graph v in
  old_comm ← index _membership v;
  when (bool_decide (new_comm ≠ old_comm))
    (csize_new ← index _csize new_comm;
     csize_old ← index _csize old_comm;
     total ← gets _total_possible_edges_in_all_comms;
     match add_possible_edges total
             (delta_possible_edges_in_comms node_size csize_new csize_old) with
     | Some total' => modify (set_total_possible_edges_in_all_comms total')
     | None => undefined
     end);;
  modify_at community set_community old_comm (λ s, s ∖ {[v]});;
  modify_at _csize set_csize old_comm (λ x, size_t_sub x node_size);;
  csize_old ← index _csize old_comm;
  when (bool_decide (csize_old = 0%Z))
    (modify (λ p, set_empty_communities (_empty_communities p ++ [old_comm]) p));;
  csize_new ← index _csize new_comm;
  when (bool_decide (csize_new = 0%Z)) (remove_from_empty_communities new_comm);;
  modify_at community set_community new_comm (λ s, {[v]} ∪ s);;
  modify_at _csize set_csize new_comm (λ x, size_t_add x node_size);;
  for_each [IGRAPH_OUT; IGRAPH_IN] (move_node_edges v old_comm new_comm);;
  modify_at _membership set_membership v (λ _, new_comm).

(** *** The neighbour-community cache *)

Definition cached_weight (mode : igraph_neimode_t) (p : MutableVertexPartition) : list Qc :=
  _cached_weight_community (cache_of mode p).

Definition set_cached_weight_of (mode : igraph_neimode_t) (w : list Qc)
    (p : MutableVertexPartition) : MutableVertexPartition :=
  set_cache mode (set_cached_weight w (cache_of mode p)) p.

Definition cache_edge (v : nat) (mode : igraph_neimode_t) (ue : nat * nat) : M unit :=
  comm ← index _membership ue.1;
  let w := edge_weight graph ue.2 in
  let w := (if bool_decide (ue.1 = v) && negb (is_directed graph) then w / 2 else w)%Qc in
  modify_at (cached_weight mode) (set_cached_weight_of mode) comm (λ x, x + w)%Qc;;
  x ← index (cached_weight mode) comm;
  when (bool_decide (x ≠ 0%Qc))
    (modify (λ p, set_cache mode
                    (set_cached_neighs (_cached_neigh_comms (cache_of mode p) ++ [comm])
                                       (cache_of mode p)) p)).

Definition cache_neigh_communities (v : nat) (mode : igraph_neimode_t) : M unit :=
  cached_neighs ← gets (λ p, _cached_neigh_comms (cache_of mode p));
  for_each cached_neighs
    (λ it, modify_at (cached_weight mode) (set_cached_weight_of mode) it (λ _, 0%Qc));;
  modify (λ p, set_cache mode (set_cached_neighs [] (cache_of mode p)) p);;
  for_each (incident graph v mode) (cache_edge v mode).

(** The lazy refill shared by [weight_to_comm], [weight_from_comm] and
    [get_neigh_comms]: the slot of [mode] is recomputed when its marker
    is not [v]. *)
Definition ensure_cached (v : nat) (mode : igraph_neimode_t) : M unit :=
  marker ← gets (λ p, _current_node_cache_community (cache_of mode p));
  when (bool_decide (marker ≠ v))
    (cache_neigh_communities v mode;;
     modify (λ p, set_cache mode (set_current_node v (cache_of mode p)) p)).

Definition weight_to_comm (v comm : nat) : M Qc :=
  ensure_cached v IGRAPH_OUT;;
  index (cached_weight IGRAPH_OUT) comm.

Definition weight_from_comm (v comm : nat) : M Qc :=
  ensure_cached v IGRAPH_IN;;
  index (cached_weight IGRAPH_IN) comm.

Definition get_neigh_comms (v : nat) (mode : igraph_neimode_t) : M (list nat) :=
  ensure_cached v mode;;
  gets (λ p, _cached_neigh_comms (cache_of mode p)).

End Methods.

(** ** Two small graphs *)

Definition neighbours_of (adj : list (list nat)) (v : nat) : list nat := default [] (adj !! v).

(** The undirected path 0 – 1 – 2 – 3 with unit weights and unit node
    sizes; edge [i] joins [i] and [i + 1]. *)
Definition path4 : Graph :=
  {| vcount := 4;
     is_directed := false;
     node_size := λ _, 1%Z;
     edge_weight := λ _, 1%Qc;
     get_neighbours := λ v _, neighbours_of [[1]; [0; 2]; [1; 3]; [2]] v;
     get_neighbour_edges := λ v _, neighbours_of [[0]; [0; 1]; [1; 2]; [2]] v |}.

(** [n] vertices of size 1 and no edge. *)
Definition edgeless (n : nat) : Graph :=
  {| vcount := n;
     is_directed := false;
     node_size := λ _, 1%Z;
     edge_weight := λ _, 0%Qc;
     get_neighbours := λ _ _, [];
     get_neighbour_edges := λ _ _, [] |}.

(** * Specification vocabulary *)

(** [returns m s Q]: from the state [s] the call [m] returns (it neither
    throws nor runs into undefined behaviour), and its result and final
    state satisfy [Q]. *)
Definition returns {A} (m : M A) (s : MutableVertexPartition)
    (Q : A → MutableVertexPartition → Prop) : Prop :=
  ∃ a s', m s = Ok a s' ∧ Q a s'.

Definition Zsum (l : list Z) : Z := foldr Z.add 0%Z l.

(** The total size of the vertices in [vs] that [m] puts in community
    [c], and the set of these vertices. *)
Definition size_in (g : Graph) (m : list nat) (c : nat) (vs : list nat) : Z :=
  Zsum ((λ v, if decide (m !! v = Some c) then node_size g v else 0%Z) <$> vs).

Definition members (m : list nat) (c : nat) (vs : list nat) : gset nat :=
  list_to_set (filter (λ v, m !! v = Some c) vs).

Definition vertices (g : Graph) : list nat := seq 0 (vcount g).

Definition total_size (g : Graph) : Z := Zsum (node_size g <$> vertices g).

(** What the partition relies on from its graph: neighbours are
    vertices, node sizes are non-negative and their total is far from
    the range of [size_t]. *)
Record wf_graph (g : Graph) : Prop := {
  wf_neighbours : ∀ v mode u, v < vcount g → u ∈ get_neighbours g v mode → u < vcount g;
  wf_node_size : ∀ v, v < vcount g → (0 ≤ node_size g v)%Z;
  wf_total_size : (total_size g < 2 ^ 63)%Z;
}.

(** The administration agrees with the membership vector. *)
Record consistent (g : Graph) (p : MutableVertexPartition) : Prop := {
  cons_membership : length (_membership p) = vcount g;
  cons_community : length (community p) = length (_csize p);
  cons_in : length (_total_weight_in_comm p) = length (_csize p);
  cons_from : length (_total_weight_from_comm p) = length (_csize p);
  cons_to : length (_total_weight_to_comm p) = length (_csize p);
  cons_range : ∀ v c, _membership p !! v = Some c → c < length (_csize p);
  cons_csize : ∀ c, c < length (_csize p) →
    _csize p !! c = Some (size_in g (_membership p) c (vertices g));
  cons_members : ∀ c, c < length (_csize p) →
    community p !! c = Some (members (_membership p) c (vertices g));
}.

(** The community ids that [init_admin] can count: all but the largest
    [size_t] value. *)
Definition valid_ids (m : list nat) : Prop :=
  Forall (λ c, (Z.of_nat c < size_t_modulus - 1)%Z) m.

(** The sizes are so small that [move_node] computes the possible
    edges in [double] without rounding: its products stay below [2^53]
    and the totals, which are even when they reach [2^53], below
    [2^54]. *)
Definition small_sizes (g : Graph) : Prop := (total_size g < 2 ^ 27)%Z.

(** The running number of possible edges is the sum over the
    communities. *)
Definition exact_possible_edges (g : Graph) (p : MutableVertexPartition) : Prop :=
  _total_possible_edges_in_all_comms p = Zsum (possible_edges g <$> _csize p).

(** The number of possible edges that the last loop of [init_admin]
    leaves for the sizes [csizes]: the sum in [size_t]. *)
Definition possible_edges_sum (g : Graph) (csizes : list Z) : Z :=
  foldl (λ total n, size_t_add total (possible_edges g n mod size_t_modulus)%Z) 0%Z csizes.

(** The number of communities that the first loop of [init_admin]
    finds: the largest id plus one, when no id is the largest [size_t]
    value; in general, with the sum in [size_t]. *)
Definition nb_comms_of (m : list nat) (acc : nat) : nat :=
  foldl (λ nb c, if bool_decide (nb < c + 1) then c + 1 else nb) acc m.

Definition nb_comms_wrapped (m : list nat) (acc : nat) : nat :=
  foldl (λ nb c, if bool_decide (nb < size_t_succ c) then size_t_succ c else nb) acc m.

(** [s'] differs from [s] at most in the weight aggregates, whose
    lengths are the same. *)
Record same_but_weights (s s' : MutableVertexPartition) : Prop := {
  sbw_membership : _membership s' = _membership s;
  sbw_community : community s' = community s;
  sbw_csize : _csize s' = _csize s;
  sbw_possible_edges :
    _total_possible_edges_in_all_comms s' = _total_possible_edges_in_all_comms s;
  sbw_empty : _empty_communities s' = _empty_communities s;
  sbw_cache_from : cache_from s' = cache_from s;
  sbw_cache_to : cache_to s' = cache_to s;
  sbw_cache_all : cache_all s' = cache_all s;
  sbw_in : length (_total_weight_in_comm s') = length (_total_weight_in_comm s);
  sbw_from : length (_total_weight_from_comm s') = length (_total_weight_from_comm s);
  sbw_to : length (_total_weight_to_comm s') = length (_total_weight_to_comm s);
}.

(** The invariant of the loop of [init_admin] over the vertices, after
    the vertices [l1] were visited. *)
Record init_inv (g : Graph) (s0 : MutableVertexPartition) (nb : nat)
    (l1 : list nat) (s : MutableVertexPartition) : Prop := {
  ii_membership : _membership s = _membership s0;
  ii_possible_edges :
    _total_possible_edges_in_all_comms s = _total_possible_edges_in_all_comms s0;
  ii_empty : _empty_communities s = _empty_communities s0;
  ii_cache_from : cache_from s = cache_from s0;
  ii_cache_to : cache_to s = cache_to s0;
  ii_cache_all : cache_all s = cache_all s0;
  ii_len_community : length (community s) = nb;
  ii_len_csize : length (_csize s) = nb;
  ii_len_in : length (_total_weight_in_comm s) = nb;
  ii_len_from : length (_total_weight_from_comm s) = nb;
  ii_len_to : length (_total_weight_to_comm s) = nb;
  ii_csize : ∀ c, c < nb → _csize s !! c = Some (size_in g (_membership s0) c l1);
  ii_members : ∀ c, c < nb → community s !! c = Some (members (_membership s0) c l1);
}.

(** What [init_admin] establishes. *)
Record init_post (g : Graph) (p p' : MutableVertexPartition) : Prop := {
  ip_consistent : consistent g p';
  ip_membership : _membership p' = _membership p;
  ip_empty : _empty_communities p' = _empty_communities p;
  ip_nb_comms : length (_csize p') = nb_comms_of (_membership p) 0;
  ip_possible_edges :
    _total_possible_edges_in_all_comms p' = possible_edges_sum g (_csize p');
  ip_cache_from : cache_from p' = init_cache (vcount g) (cache_from p);
  ip_cache_to : cache_to p' = init_cache (vcount g) (cache_to p);
  ip_cache_all : cache_all p' = init_cache (vcount g) (cache_all p);
}.

(** [bump i d l] is the vector [l] after [l[i] += d]; [apply_bumps]
    performs a sequence of such updates, [net c bs] is the total that
    the updates [bs] add at index [c] and [net_all bs] the total they
    add anywhere. *)
Definition bump (i : nat) (d : Qc) (l : list Qc) : list Qc := alter (λ x, x + d)%Qc i l.

Definition apply_bumps (bs : list (nat * Qc)) (l : list Qc) : list Qc :=
  foldl (λ l b, bump b.1 b.2 l) l bs.

Definition net (c : nat) (bs : list (nat * Qc)) : Qc :=
  foldr (λ b acc, if decide (b.1 = c) then b.2 + acc else acc)%Qc 0%Qc bs.

Definition net_all (bs : list (nat * Qc)) : Qc :=
  foldr (λ b acc, b.2 + acc)%Qc 0%Qc bs.

(** The updates that one incident edge of [v] causes in [move_node]. *)
Definition int_weight (g : Graph) (v : nat) (ue : nat * nat) : Qc :=
  (edge_weight g ue.2 / (if is_directed g then 1 else 2)
   / (if bool_decide (ue.1 = v) then 2 else 1))%Qc.

Definition dir_bumps (g : Graph) (old_comm new_comm : nat) (ue : nat * nat) : list (nat * Qc) :=
  [(old_comm, - edge_weight g ue.2)%Qc; (new_comm, edge_weight g ue.2)].

Definition in_bumps (g : Graph) (m : list nat) (v old_comm new_comm : nat) (ue : nat * nat)
    : list (nat * Qc) :=
  (if bool_decide (m !! ue.1 = Some old_comm) then [(old_comm, - int_weight g v ue)%Qc] else [])
  ++ (if bool_decide (m !! ue.1 = Some new_comm) || bool_decide (ue.1 = v)
      then [(new_comm, int_weight g v ue)] else []).

Definition from_bumps (g : Graph) (old_comm new_comm : nat) (mode : igraph_neimode_t)
    (ue : nat * nat) : list (nat * Qc) :=
  match mode with IGRAPH_OUT => dir_bumps g old_comm new_comm ue | _ => [] end.

Definition to_bumps (g : Graph) (old_comm new_comm : nat) (mode : igraph_neimode_t)
    (ue : nat * nat) : list (nat * Qc) :=
  match mode with IGRAPH_IN => dir_bumps g old_comm new_comm ue | _ => [] end.

Definition with_weights (win wfrom wto : list Qc) (tin : Qc) (p : MutableVertexPartition) :=
  {| _membership := _membership p; community := community p; _csize := _csize p;
     _total_weight_in_comm := win;
     _total_weight_from_comm := wfrom;
     _total_weight_to_comm := wto;
     _total_weight_in_all_comms := tin;
     _total_possible_edges_in_all_comms := _total_possible_edges_in_all_comms p;
     _empty_communities := _empty_communities p;
     cache_from := cache_from p; cache_to := cache_to p; cache_all := cache_all p |}.

(** The state after the edges [es] of [v] were visited in [mode]. *)
Definition edges_moved (g : Graph) (v old_comm new_comm : nat) (mode : igraph_neimode_t)
    (es : list (nat * nat)) (s : MutableVertexPartition) : MutableVertexPartition :=
  let I := es ≫= in_bumps g (_membership s) v old_comm new_comm in
  with_weights
    (apply_bumps I (_total_weight_in_comm s))
    (apply_bumps (es ≫= from_bumps g old_comm new_comm mode) (_total_weight_from_comm s))
    (apply_bumps (es ≫= to_bumps g old_comm new_comm mode) (_total_weight_to_comm s))
    (_total_weight_in_all_comms s + net_all I)%Qc s.
(** The state that [move_node (v, new_comm)] reaches from [p] when [v]
    is in [old_comm]: the administration of sizes, sets and empty
    communities first, then the edges of both directions, then the
    membership. *)
Definition move_node_admin (g : Graph) (v old_comm new_comm : nat)
    (p : MutableVertexPartition) : MutableVertexPartition :=
  let node_size := node_size g v in
  let csize1 := alter (λ x, size_t_sub x node_size) old_comm (_csize p) in
  let pool1 :=
    if bool_decide (csize1 !!! old_comm = 0%Z)
    then _empty_communities p ++ [old_comm] else _empty_communities p in
  let pool2 :=
    if bool_decide (csize1 !!! new_comm = 0%Z)
    then default pool1 (erase_last new_comm pool1) else pool1 in
  {| _membership := _membership p;
     community := alter (λ s, {[v]} ∪ s) new_comm (alter (λ s, s ∖ {[v]}) old_comm (community p));
     _csize := alter (λ x, size_t_add x node_size) new_comm csize1;
     _total_weight_in_comm := _total_weight_in_comm p;
     _total_weight_from_comm := _total_weight_from_comm p;
     _total_weight_to_comm := _total_weight_to_comm p;
     _total_weight_in_all_comms := _total_weight_in_all_comms p;
     _total_possible_edges_in_all_comms :=
       if bool_decide (new_comm ≠ old_comm)
       then default 0%Z
              (add_possible_edges (_total_possible_edges_in_all_comms p)
                 (delta_possible_edges_in_comms g node_size
                    (_csize p !!! new_comm) (_csize p !!! old_comm)))
       else _total_possible_edges_in_all_comms p;
     _empty_communities := pool2;
     cache_from := cache_from p; cache_to := cache_to p; cache_all := cache_all p |}.

Definition move_node_result (g : Graph) (v old_comm new_comm : nat)
    (p : MutableVertexPartition) : MutableVertexPartition :=
  set_membership (alter (λ _, new_comm) v (_membership p))
    (edges_moved g v old_comm new_comm IGRAPH_IN (incident g v IGRAPH_IN)
       (edges_moved g v old_comm new_comm IGRAPH_OUT (incident g v IGRAPH_OUT)
          (move_node_admin g v old_comm new_comm p))).

(** The running number of possible edges after the move of [v] from
    [old_comm] to another community [new_comm], when the conversion to
    [size_t] is defined. *)
Definition moved_possible_edges (g : Graph) (v old_comm new_comm : nat)
    (p : MutableVertexPartition) : option Z :=
  add_possible_edges (_total_possible_edges_in_all_comms p)
    (delta_possible_edges_in_comms g (node_size g v)
       (_csize p !!! new_comm) (_csize p !!! old_comm)).

(** What [move_node (v, new_comm)] needs to stay within defined
    behaviour: its indices are in range, the new number of possible
    edges is in the range of [size_t], and [new_comm], when it is
    empty once [v] has left its community, is among the empty
    communities. *)
Record move_node_pre (g : Graph) (v old_comm new_comm : nat)
    (p : MutableVertexPartition) : Prop := {
  mp_possible_edges :
    new_comm ≠ old_comm → is_Some (moved_possible_edges g v old_comm new_comm p);
  mp_old : _membership p !! v = Some old_comm;
  mp_old_lt : old_comm < length (_csize p);
  mp_new_lt : new_comm < length (_csize p);
  mp_community : length (community p) = length (_csize p);
  mp_in : length (_total_weight_in_comm p) = length (_csize p);
  mp_from : length (_total_weight_from_comm p) = length (_csize p);
  mp_to : length (_total_weight_to_comm p) = length (_csize p);
  mp_neighbours : ∀ mode u, u ∈ get_neighbours g v mode → u < length (_membership p);
  mp_pool :
    alter (λ x, size_t_sub x (node_size g v)) old_comm (_csize p) !!! new_comm = 0%Z →
    is_Some (erase_last new_comm
      (if bool_decide (alter (λ x, size_t_sub x (node_size g v)) old_comm (_csize p)
                         !!! old_comm = 0%Z)
       then _empty_communities p ++ [old_comm] else _empty_communities p));
}.

(** [new_comm] is a community that [move_node] may be given: its slot
    is allocated and, when its size is zero, it is listed among the
    empty communities (the caller obtains an empty community from the
    pool). *)
Definition valid_target (p : MutableVertexPartition) (new_comm : nat) : Prop :=
  new_comm < length (_csize p)
  ∧ (_csize p !! new_comm = Some 0%Z → new_comm ∈ _empty_communities p).

(** The membership, the community sets and all the aggregates of two
    states are the same (the empty communities and the caches are not
    compared). *)
Record same_aggregates (p q : MutableVertexPartition) : Prop := {
  sa_membership : _membership q = _membership p;
  sa_community : community q = community p;
  sa_csize : _csize q = _csize p;
  sa_in : _total_weight_in_comm q = _total_weight_in_comm p;
  sa_from : _total_weight_from_comm q = _total_weight_from_comm p;
  sa_to : _total_weight_to_comm q = _total_weight_to_comm p;
  sa_in_all : _total_weight_in_all_comms q = _total_weight_in_all_comms p;
  sa_possible_edges :
    _total_possible_edges_in_all_comms q = _total_possible_edges_in_all_comms p;
}.



(** The state in which [add_empty_community] returns: one more slot,
    empty and of size and weights zero, listed as empty. *)
Definition with_empty_community (p : MutableVertexPartition) : MutableVertexPartition :=
  let nb_comms := S (length (community p)) in
  let new_comm := length (community p) in
  {| _membership := _membership p;
     community := community p ++ [∅];
     _csize := <[new_comm := 0%Z]> (resize nb_comms 0%Z (_csize p));
     _total_weight_in_comm := <[new_comm := 0%Qc]> (resize nb_comms 0%Qc (_total_weight_in_comm p));
     _total_weight_from_comm :=
       <[new_comm := 0%Qc]> (resize nb_comms 0%Qc (_total_weight_from_comm p));
     _total_weight_to_comm := <[new_comm := 0%Qc]> (resize nb_comms 0%Qc (_total_weight_to_comm p));
     _total_weight_in_all_comms := _total_weight_in_all_comms p;
     _total_possible_edges_in_all_comms := _total_possible_edges_in_all_comms p;
     _empty_communities := _empty_communities p ++ [new_comm];
     cache_from := cache_from p; cache_to := cache_to p; cache_all := cache_all p |}.

(** The weight of an incident edge of [v] as the cache counts it: a
    self loop of an undirected graph appears twice among the incident
    edges and counts for half each time. *)
Definition cached_edge_weight (g : Graph) (v : nat) (ue : nat * nat) : Qc :=
  (if bool_decide (ue.1 = v) && negb (is_directed g)
   then edge_weight g ue.2 / 2 else edge_weight g ue.2)%Qc.

Definition Qcsum (l : list Qc) : Qc := foldr Qcplus 0%Qc l.

(** The direct computation: the total weight of the edges incident to
    [v] in direction [mode] whose other end is in community [comm]
    under the membership [m]. *)
Definition weight_between (g : Graph) (m : list nat) (v : nat) (mode : igraph_neimode_t)
    (comm : nat) : Qc :=
  Qcsum ((λ ue, if decide (m !! ue.1 = Some comm) then cached_edge_weight g v ue else 0%Qc)
           <$> incident g v mode).

(** The updates of the weight table that [cache_neigh_communities]
    performs for the edges [es]. *)
Definition cache_bumps (g : Graph) (m : list nat) (v : nat) (es : list (nat * nat))
    : list (nat * Qc) :=
  (λ ue, (default 0 (m !! ue.1), cached_edge_weight g v ue)) <$> es.

(** A cache slot is in order when its weight table has one entry per
    vertex and every non-zero entry is listed among the communities
    touched, which are in range. *)
Record cache_ok (n : nat) (c : neigh_cache) : Prop := {
  co_length : length (_cached_weight_community c) = n;
  co_neighs : ∀ i, i ∈ _cached_neigh_comms c → i < n;
  co_listed : ∀ i x, _cached_weight_community c !! i = Some x → x ≠ 0%Qc →
    i ∈ _cached_neigh_comms c;
}.

(** The communities of the neighbours of [v] are below the vertex
    count, the size of the weight tables. *)
Definition neighbours_cacheable (g : Graph) (p : MutableVertexPartition) (v : nat)
    (mode : igraph_neimode_t) : Prop :=
  ∀ u, u ∈ get_neighbours g v mode →
    ∃ c, _membership p !! u = Some c ∧ c < vcount g.

(** The slot of [mode] holds the weights of [v] for the membership
    [m]. *)
Definition cache_holds (g : Graph) (m : list nat) (v : nat) (mode : igraph_neimode_t)
    (p : MutableVertexPartition) : Prop :=
  _current_node_cache_community (cache_of mode p) = v
  ∧ ∀ comm, comm < vcount g →
      cached_weight mode p !! comm = Some (weight_between g m v mode comm).

Definition caches_ok (g : Graph) (p : MutableVertexPartition) : Prop :=
  cache_ok (vcount g) (cache_from p) ∧ cache_ok (vcount g) (cache_to p)
  ∧ cache_ok (vcount g) (cache_all p).

(** The states that a partition of [g] goes through: it is constructed,
    and then changed by calls that return. The calls are made with the
    arguments that the methods expect: [move_node] is given a valid
    target, a reconstruction vectors that cover what it reads, a query
    of the cache a vertex whose neighbours have communities within the
    weight table. *)
Inductive reachable (g : Graph) : MutableVertexPartition → Prop :=
| reach_create membership p :
    create g membership = Ok () p → reachable g p
| reach_create_default p :
    create_default g = Ok () p → reachable g p
| reach_move_node p v new_comm p' :
    reachable g p → valid_target p new_comm →
    move_node g v new_comm p = Ok () p' → reachable g p'
| reach_add_empty_community p c p' :
    reachable g p → add_empty_community g p = Ok c p' → reachable g p'
| reach_get_empty_community p c p' :
    reachable g p → get_empty_community g p = Ok c p' → reachable g p'
| reach_renumber_communities p p' :
    reachable g p → renumber_communities g p = Ok () p' → reachable g p'
| reach_renumber_communities_with p new_membership p' :
    reachable g p → vcount g ≤ length new_membership →
    renumber_communities_with g new_membership p = Ok () p' → reachable g p'
| reach_from_partition p partition p' :
    reachable g p → vcount g ≤ length (_membership partition) →
    from_partition g partition p = Ok () p' → reachable g p'
| reach_from_coarser_partition p coarser_partition_membership p' :
    reachable g p →
    (∀ c, c ∈ _membership p → c < length coarser_partition_membership) →
    from_coarser_partition g coarser_partition_membership p = Ok () p' → reachable g p'
| reach_from_coarser_partition_with p coarser_partition_membership coarser_node p' :
    reachable g p →
    (∀ v, v < vcount g →
       ∃ v_level2, coarser_node !! v = Some v_level2
                   ∧ v_level2 < length coarser_partition_membership) →
    from_coarser_partition_with g coarser_partition_membership coarser_node p = Ok () p' →
    reachable g p'
| reach_weight_to_comm p v comm w p' :
    reachable g p → neighbours_cacheable g p v IGRAPH_OUT →
    weight_to_comm g v comm p = Ok w p' → reachable g p'
| reach_weight_from_comm p v comm w p' :
    reachable g p → neighbours_cacheable g p v IGRAPH_IN →
    weight_from_comm g v comm p = Ok w p' → reachable g p'
| reach_get_neigh_comms p v mode comms p' :
    reachable g p → neighbours_cacheable g p v mode →
    get_neigh_comms g v mode p = Ok comms p' → reachable g p'.

(** [no_throw m]: no exception leaves the call [m], from any state. *)
(** [moves g P p p']: the state [p'] is reached from [p] by calls of
    [move_node] alone, each with a valid target, that returned; every
    vertex that is moved satisfies [P]. *)
Inductive moves (g : Graph) (P : nat → Prop) :
    MutableVertexPartition → MutableVertexPartition → Prop :=
| moves_none p : moves g P p p
| moves_move_node p u new_comm p1 p2 :
    P u → valid_target p new_comm → move_node g u new_comm p = Ok () p1 →
    moves g P p1 p2 → moves g P p p2.

Definition no_throw {A} (m : M A) : Prop :=
  ∀ s e s', m s ≠ Throw e s'.
(** [n] vertices with the node sizes [sizes] and no edge. *)
Definition sized (sizes : list Z) : Graph :=
  {| vcount := length sizes;
     is_directed := false;
     node_size := λ v, default 0%Z (sizes !! v);
     edge_weight := λ _, 0%Qc;
     get_neighbours := λ _ _, [];
     get_neighbour_edges := λ _ _, [] |}.

(** The state an outcome leaves the object in, when there is one. *)
Definition state_of {A} (o : outcome A) : option MutableVertexPartition :=
  match o with
  | Ok _ s => Some s
  | Throw _ s => Some s
  | Undefined => None
  end.

Definition after {A} (o : outcome A) : MutableVertexPartition := default fresh (state_of o).

(** The path with every vertex in its own community, and the same
    after vertex 1 joined community 0 and vertex 2 followed. *)
Definition path4_singletons : MutableVertexPartition := after (create_default path4).

Definition path4_moved : MutableVertexPartition :=
  after ((move_node path4 1 0 ;; move_node path4 2 0) path4_singletons).





(** Every vertex weighs something: the size of a vertex is the number
    of vertices it stands for. *)
Definition positive_sizes (g : Graph) : Prop :=
  ∀ v, v < vcount g → (0 < node_size g v)%Z.
(** The number of community slots that hold a vertex. *)
Definition nb_nonempty (p : MutableVertexPartition) : nat :=
  length (filter (λ c, c ∈ _membership p) (seq 0 (nb_communities p))).

(** What [renumber_communities ()] achieves from [p] to [p'], for the
    communities [c] and [c'] of any two vertices before the call and
    their communities [d] and [d'] after it. *)
Record renumbered (p p' : MutableVertexPartition) : Prop := {
  rn_nb_communities : nb_communities p' = nb_nonempty p;
  rn_ids : ∀ j, j ∈ _membership p' ↔ j < nb_nonempty p;
  rn_no_empty_slot : ∀ j, j < nb_nonempty p →
    ∃ S : gset nat, community p' !! j = Some S ∧ S ≠ ∅;
  rn_sizes : ∀ i j, i ≤ j → j < nb_nonempty p → (csize j p' ≤ csize i p')%Z;
  rn_classes : ∀ u v c c' d d',
    _membership p !! u = Some c → _membership p !! v = Some c' →
    _membership p' !! u = Some d → _membership p' !! v = Some d' →
    (d = d' ↔ c = c')
    ∧ csize d p' = csize c p
    ∧ (d < d' ↔ (csize c' p < csize c p)%Z ∨ (csize c p = csize c' p ∧ c < c'));
}.

(** The total size of the vertices in a set. *)
Definition set_size (g : Graph) (S : gset nat) : Z := Zsum (node_size g <$> elements S).

(** The pool of empty communities is exact: it lists, once each, the
    communities of size zero. *)
Definition pool_exact (p : MutableVertexPartition) : Prop :=
  NoDup (_empty_communities p)
  ∧ ∀ c, c ∈ _empty_communities p ↔ _csize p !! c = Some 0%Z.

(** [from_coarser_partition(MutableVertexPartition* coarser_partition)]
    and [from_coarser_partition(MutableVertexPartition* coarser_partition,
    vector<size_t> const& coarser_node)]: the overloads that take the
    coarser partition itself pass its membership vector on. *)
Definition from_coarser_partition_of (g : Graph) (coarser_partition : MutableVertexPartition)
    : M unit :=
  from_coarser_partition g (_membership coarser_partition).

Definition from_coarser_partition_of_with (g : Graph)
    (coarser_partition : MutableVertexPartition) (coarser_node : list nat) : M unit :=
  from_coarser_partition_with g (_membership coarser_partition) coarser_node.

(** The out-edges of the graph as [init_admin] visits them: [(v, (u, e))]
    for every vertex [v] and every entry [(u, e)] of its outgoing
    neighbours and edges. *)
Definition out_edges_of (g : Graph) (vs : list nat) : list (nat * (nat * nat)) :=
  v ← vs; (λ ue, (v, ue)) <$> incident g v IGRAPH_OUT.

Definition out_edges (g : Graph) : list (nat * (nat * nat)) := out_edges_of g (vertices g).

(** The weight that an out-edge within a community adds to the weight
    inside the community: an undirected edge is met from both ends and
    counts for half each time. *)
Definition internal_weight (g : Graph) (e : nat) : Qc :=
  (if is_directed g then edge_weight g e else edge_weight g e / 2)%Qc.

(** The weight aggregates computed from scratch for the membership
    [m]: the total weight of the out-edges that leave community [c],
    that arrive in it and that lie within it, and the total weight of
    the out-edges within any community. *)
Definition weight_from_of (g : Graph) (m : list nat) (c : nat) : Qc :=
  Qcsum ((λ x, if decide (m !! x.1 = Some c) then edge_weight g x.2.2 else 0%Qc)
           <$> out_edges g).

Definition weight_to_of (g : Graph) (m : list nat) (c : nat) : Qc :=
  Qcsum ((λ x, if decide (m !! x.2.1 = Some c) then edge_weight g x.2.2 else 0%Qc)
           <$> out_edges g).

Definition weight_in_of (g : Graph) (m : list nat) (c : nat) : Qc :=
  Qcsum ((λ x, if decide (m !! x.1 = Some c ∧ m !! x.2.1 = Some c)
               then internal_weight g x.2.2 else 0%Qc) <$> out_edges g).

Definition weight_in_all_of (g : Graph) (m : list nat) : Qc :=
  Qcsum ((λ x, if decide (m !! x.1 = m !! x.2.1) then internal_weight g x.2.2 else 0%Qc)
           <$> out_edges g).

(** The weight aggregates of [p] are those computed from scratch for
    its membership. *)
Record weights_consistent (g : Graph) (p : MutableVertexPartition) : Prop := {
  wc_from : ∀ c, c < length (_csize p) →
    _total_weight_from_comm p !! c = Some (weight_from_of g (_membership p) c);
  wc_to : ∀ c, c < length (_csize p) →
    _total_weight_to_comm p !! c = Some (weight_to_of g (_membership p) c);
  wc_in : ∀ c, c < length (_csize p) →
    _total_weight_in_comm p !! c = Some (weight_in_of g (_membership p) c);
  wc_in_all : _total_weight_in_all_comms p = weight_in_all_of g (_membership p);
}.

(** The updates that [init_admin] makes for the out-edge [x]. *)
Definition init_from_bump (g : Graph) (m : list nat) (x : nat * (nat * nat)) : nat * Qc :=
  (default 0 (m !! x.1), edge_weight g x.2.2).

Definition init_to_bump (g : Graph) (m : list nat) (x : nat * (nat * nat)) : nat * Qc :=
  (default 0 (m !! x.2.1), edge_weight g x.2.2).

Definition init_in_bump (g : Graph) (m : list nat) (x : nat * (nat * nat)) : list (nat * Qc) :=
  if bool_decide (default 0 (m !! x.1) = default 0 (m !! x.2.1))
  then [(default 0 (m !! x.1), internal_weight g x.2.2)] else [].

(** The weight aggregates of [s'] are those of [s] after the updates
    [I] of the weights inside, [F] of the weights from and [T] of the
    weights to the communities. *)
Record weights_bumped (I F T : list (nat * Qc)) (s s' : MutableVertexPartition) : Prop := {
  wb_in : _total_weight_in_comm s' = apply_bumps I (_total_weight_in_comm s);
  wb_from : _total_weight_from_comm s' = apply_bumps F (_total_weight_from_comm s);
  wb_to : _total_weight_to_comm s' = apply_bumps T (_total_weight_to_comm s);
  wb_in_all : _total_weight_in_all_comms s' = (_total_weight_in_all_comms s + net_all I)%Qc;
}.

(** The total weight of the out-edges of the graph. *)
Definition total_weight (g : Graph) : Qc :=
  Qcsum ((λ x, edge_weight g x.2.2) <$> out_edges g).

(** The totals of the weight aggregates: the total weight within
    communities is the sum of the weights within each (the check that
    [move_node] prints when built with DEBUG), and the weights leaving
    the communities, like those arriving in them, add up to the total
    weight of the out-edges. *)
Definition weights_balanced (g : Graph) (p : MutableVertexPartition) : Prop :=
  _total_weight_in_all_comms p = Qcsum (_total_weight_in_comm p)
  ∧ Qcsum (_total_weight_from_comm p) = total_weight g
  ∧ Qcsum (_total_weight_to_comm p) = total_weight g.

(** The entries [(x, e)] that the outgoing lists of all vertices [x]
    hold for the neighbour [v]. *)
Definition in_edges_of_out (g : Graph) (v : nat) : list (nat * nat) :=
  x ← out_edges g; if decide (x.2.1 = v) then [(x.1, x.2.2)] else [].

(** The incoming and the outgoing lists of the graph describe the same
    edges: the incoming list of [v] has, in some order, one entry
    [(x, e)] for every entry [(v, e)] in the outgoing list of a vertex
    [x]. (For an undirected graph both lists of a vertex hold all its
    incident edges, a self-loop twice.) *)
Definition adjacency_coherent (g : Graph) : Prop :=
  ∀ v, v < vcount g → incident g v IGRAPH_IN ≡ₚ in_edges_of_out g v.

(** The communities of the neighbours of [v] in direction [mode], one
    entry per incident edge, in the order of the incidence list. *)
Definition neighbour_comms (g : Graph) (m : list nat) (v : nat) (mode : igraph_neimode_t)
    : list nat :=
  (λ ue, default 0 (m !! ue.1)) <$> incident g v mode.

(** [get_neigh_comms(v, mode, constrained_membership)]: the set of the
    communities of the neighbours of [v] that are in the group of [v]
    under [constrained_membership]. The cache is not used. The loop
    runs [i] over [degree], the value that [graph->degree(v, mode)]
    returned, and reads [neigh[i]], [constrained_membership[v]],
    [constrained_membership[u]] and the membership of [u]; a read out
    of range is undefined behaviour. [neigh_comms] is the set built so
    far. *)
Fixpoint constrained_neigh_comms (neigh : list nat) (v : nat) (constrained_membership : list nat)
    (idxs : list nat) (neigh_comms : gset nat) : M (gset nat) :=
  match idxs with
  | [] => mret neigh_comms
  | i :: idxs' =>
      match neigh !! i with
      | None => undefined
      | Some u =>
          match constrained_membership !! v, constrained_membership !! u with
          | Some cv, Some cu =>
              if bool_decide (cv = cu)
              then c ← index _membership u;
                   constrained_neigh_comms neigh v constrained_membership idxs' ({[c]} ∪ neigh_comms)
              else constrained_neigh_comms neigh v constrained_membership idxs' neigh_comms
          | _, _ => undefined
          end
      end
  end.

Definition get_neigh_comms_constrained (g : Graph) (degree : nat) (v : nat)
    (mode : igraph_neimode_t) (constrained_membership : list nat) : M (gset nat) :=
  constrained_neigh_comms (get_neighbours g v mode) v constrained_membership (seq 0 degree) ∅.

(** The communities (under [m]) of the vertices in [us] that share the
    group of [v] under [cm]. *)
Definition comms_in_group (m cm : list nat) (v : nat) (us : list nat) : gset nat :=
  list_to_set (omap (λ u, if decide (cm !! u = cm !! v) then m !! u else None) us).












(** * Reasoning about method calls *)


Lemma returns_mono {A} (m : M A) s (Q Q' : A → MutableVertexPartition → Prop) :
  returns m s Q → (∀ a s', Q a s' → Q' a s') → returns m s Q'.
Proof. intros (a & s' & Hm & HQ) HQQ. exists a, s'. auto. Qed.

Lemma returns_ret {A} (a : A) s (Q : A → MutableVertexPartition → Prop) :
  Q a s → returns (mret a) s Q.
Proof. intros HQ. exists a, s. auto. Qed.

Lemma returns_bind {A B} (m : M A) (k : A → M B) s (Q : B → MutableVertexPartition → Prop) :
  returns m s (λ a s', returns (k a) s' Q) → returns (m ≫= k) s Q.
Proof.
  intros (a & s' & Hm & b & s'' & Hk & HQ). exists b, s''. split; [|done].
  unfold mbind, M_bind. by rewrite Hm.
Qed.

Lemma returns_bind_inv {A B} (m : M A) (k : A → M B) s (Q : B → MutableVertexPartition → Prop) :
  returns (m ≫= k) s Q → returns m s (λ a s', returns (k a) s' Q).
Proof.
  intros (b & s'' & Hm & HQ). unfold mbind, M_bind in Hm.
  destruct (m s) as [a s'| |] eqn:E; try done.
  exists a, s'. split; [done|]. by exists b, s''.
Qed.

Lemma returns_gets {A} (f : MutableVertexPartition → A) s (Q : A → MutableVertexPartition → Prop) :
  Q (f s) s → returns (gets f) s Q.
Proof. intros HQ. by exists (f s), s. Qed.

Lemma returns_index {A} (vec : MutableVertexPartition → list A) i s x
    (Q : A → MutableVertexPartition → Prop) :
  vec s !! i = Some x → Q x s → returns (index vec i) s Q.
Proof. intros Hx HQ. exists x, s. unfold index. by rewrite Hx. Qed.

Lemma returns_modify_at {A} (vec : MutableVertexPartition → list A) set i f s
    (Q : unit → MutableVertexPartition → Prop) :
  i < length (vec s) → Q () (set (alter f i (vec s)) s) →
  returns (modify_at vec set i f) s Q.
Proof.
  intros Hi HQ. destruct (lookup_lt_is_Some_2 _ _ Hi) as [x Hx].
  eexists _, _. unfold modify_at. rewrite Hx. eauto.
Qed.

Lemma returns_for_each {A} (body : A → M unit) (Inv : list A → MutableVertexPartition → Prop)
    (l : list A) s :
  Inv [] s →
  (∀ l1 a l2 s1, l = l1 ++ a :: l2 → Inv l1 s1 →
     returns (body a) s1 (λ _ s2, Inv (l1 ++ [a]) s2)) →
  returns (for_each l body) s (λ _ s', Inv l s').
Proof.
  revert Inv s. induction l as [|a l IH]; intros Inv s H0 Hstep.
  - by apply returns_ret.
  - simpl. apply returns_bind.
    eapply returns_mono; [apply (Hstep [] a l s); done|].
    intros [] s1 H1. simpl in H1.
    apply (IH (λ l1 s', Inv (a :: l1) s')); [done|].
    intros l1 b l2 s2 -> H2. apply (Hstep (a :: l1) b l2); by simpl.
Qed.

Lemma returns_modify (f : MutableVertexPartition → MutableVertexPartition) s
    (Q : unit → MutableVertexPartition → Prop) :
  Q () (f s) → returns (modify f) s Q.
Proof. intros HQ. by exists (), (f s). Qed.

Lemma returns_when (b : bool) (m : M unit) s (Q : unit → MutableVertexPartition → Prop) :
  (b = true → returns m s Q) → (b = false → Q () s) → returns (when b m) s Q.
Proof. destruct b; simpl; intros H1 H2; [by apply H1 | by apply returns_ret, H2]. Qed.

(** Two states with the same fields are the same state. *)
Lemma partition_eq (p q : MutableVertexPartition) :
  _membership p = _membership q → community p = community q → _csize p = _csize q →
  _total_weight_in_comm p = _total_weight_in_comm q →
  _total_weight_from_comm p = _total_weight_from_comm q →
  _total_weight_to_comm p = _total_weight_to_comm q →
  _total_weight_in_all_comms p = _total_weight_in_all_comms q →
  _total_possible_edges_in_all_comms p = _total_possible_edges_in_all_comms q →
  _empty_communities p = _empty_communities q →
  cache_from p = cache_from q → cache_to p = cache_to q → cache_all p = cache_all q →
  p = q.
Proof. destruct p, q; simpl; intros; by subst. Qed.

(** * Sums over vectors *)

Lemma Zsum_app l1 l2 : Zsum (l1 ++ l2) = (Zsum l1 + Zsum l2)%Z.
Proof. induction l1 as [|x l1 IH]; simpl; lia. Qed.

Lemma Zsum_alter (f g : Z → Z) (l : list Z) i x :
  l !! i = Some x →
  Zsum (f <$> alter g i l) = (Zsum (f <$> l) - f x + f (g x))%Z.
Proof.
  revert i. induction l as [|y l IH]; intros [|i] Hi; simplify_eq/=; [lia|].
  rewrite (IH _ Hi). lia.
Qed.

Lemma Zsum_nonneg l : Forall (λ x, 0 ≤ x)%Z l → (0 ≤ Zsum l)%Z.
Proof. induction 1; simpl; lia. Qed.

(** * Initialisation *)

Lemma size_t_succ_valid c : (Z.of_nat c < size_t_modulus - 1)%Z → size_t_succ c = c + 1.
Proof.
  intros Hc. unfold size_t_succ. rewrite Z.mod_small by lia. lia.
Qed.

Lemma size_t_succ_lt c : (Z.of_nat (size_t_succ c) < size_t_modulus)%Z.
Proof.
  unfold size_t_succ.
  pose proof (Z.mod_pos_bound (Z.of_nat c + 1) size_t_modulus ltac:(done)). lia.
Qed.

Lemma nb_comms_wrapped_valid m acc : valid_ids m → nb_comms_wrapped m acc = nb_comms_of m acc.
Proof.
  intros Hm. revert acc. induction Hm as [|c m Hc Hm IH]; intros acc; [done|].
  simpl. rewrite (size_t_succ_valid c Hc). apply IH.
Qed.

Lemma nb_comms_wrapped_lt m acc :
  (Z.of_nat acc < size_t_modulus)%Z → (Z.of_nat (nb_comms_wrapped m acc) < size_t_modulus)%Z.
Proof.
  revert acc. induction m as [|c m IH]; intros acc Hacc; [done|].
  simpl. apply IH. case_bool_decide; [apply size_t_succ_lt|done].
Qed.

Lemma valid_ids_elem m c : valid_ids m → c ∈ m → (Z.of_nat c < size_t_modulus - 1)%Z.
Proof. intros Hm Hc. by apply (proj1 (Forall_forall _ _) Hm). Qed.

Lemma init_nb_comms_wrapped s k rest acc :
  drop k (_membership s) = rest →
  returns (init_nb_comms (seq k (length rest)) acc) s
    (λ nb s', s' = s ∧ nb = nb_comms_wrapped rest acc).
Proof.
  revert k acc. induction rest as [|c rest IH]; intros k acc Hd; simpl.
  - by apply returns_ret.
  - assert (_membership s !! k = Some c) as Hk.
    { rewrite <-(Nat.add_0_r k), <-lookup_drop, Hd. done. }
    apply returns_bind. eapply returns_index; [done|].
    apply IH. rewrite (drop_S _ _ _ Hk) in Hd. by simplify_eq.
Qed.

Lemma init_nb_comms_returns s k rest acc :
  drop k (_membership s) = rest → valid_ids rest →
  returns (init_nb_comms (seq k (length rest)) acc) s
    (λ nb s', s' = s ∧ nb = nb_comms_of rest acc).
Proof.
  intros Hd Hv. rewrite <-(nb_comms_wrapped_valid rest acc Hv).
  by apply init_nb_comms_wrapped.
Qed.

Lemma nb_comms_of_ge m acc : acc ≤ nb_comms_of m acc.
Proof.
  revert acc. induction m as [|c m IH]; intros acc; simpl; [done|].
  case_bool_decide; etrans; [|apply IH| |apply IH]; lia.
Qed.

Lemma nb_comms_of_bound m acc c : c ∈ m → c < nb_comms_of m acc.
Proof.
  revert acc. induction m as [|d m IH]; intros acc Hc; [by apply elem_of_nil in Hc|].
  apply elem_of_cons in Hc as [->|Hc]; simpl; [|by apply IH].
  eapply Nat.lt_le_trans; [|apply nb_comms_of_ge]. case_bool_decide; lia.
Qed.

Lemma nb_comms_of_attained m acc :
  nb_comms_of m acc = acc ∨ ∃ c, c ∈ m ∧ nb_comms_of m acc = c + 1.
Proof.
  revert acc. induction m as [|d m IH]; intros acc; simpl; [by left|].
  destruct (IH (if bool_decide (acc < d + 1) then d + 1 else acc)) as [->|(c & Hc & ->)].
  - case_bool_decide; [right; exists d; split; [left|done] | by left].
  - right. exists c. split; [by right|done].
Qed.

Lemma same_but_weights_refl s : same_but_weights s s.
Proof. by split. Qed.

Lemma same_but_weights_trans s1 s2 s3 :
  same_but_weights s1 s2 → same_but_weights s2 s3 → same_but_weights s1 s3.
Proof. intros [] []. split; congruence. Qed.

Ltac mstep :=
  lazymatch goal with
  | |- returns (mbind _ _) _ _ => apply returns_bind
  | |- returns (mret _) _ _ => apply returns_ret
  | |- returns (modify _) _ _ => apply returns_modify
  | |- returns (gets _) _ _ => apply returns_gets
  | |- returns (when _ _) _ _ => apply returns_when; intros ?
  end.

Lemma init_admin_edge_returns g v_comm ue s u_comm :
  _membership s !! ue.1 = Some u_comm →
  v_comm < length (_total_weight_from_comm s) →
  u_comm < length (_total_weight_to_comm s) →
  v_comm < length (_total_weight_in_comm s) →
  returns (init_admin_edge g v_comm ue) s (λ _ s', same_but_weights s s').
Proof.
  intros Hu Hfrom Hto Hin. unfold init_admin_edge.
  mstep. eapply returns_index; [done|].
  mstep. apply returns_modify_at; [done|].
  mstep. apply returns_modify_at; [done|].
  mstep.
  - mstep. apply returns_modify_at; [done|]. mstep.
    split; simpl; rewrite ?length_alter; reflexivity.
  - split; simpl; rewrite ?length_alter; reflexivity.
Qed.

Lemma incident_neighbour g v mode ue :
  ue ∈ incident g v mode → ue.1 ∈ get_neighbours g v mode.
Proof. destruct ue as [u e]. unfold incident. apply elem_of_zip_l. Qed.

Lemma init_admin_edges_returns g v v_comm mode s nb :
  wf_graph g → v < vcount g →
  length (_membership s) = vcount g →
  (∀ u c, _membership s !! u = Some c → c < nb) →
  length (_total_weight_from_comm s) = nb →
  length (_total_weight_to_comm s) = nb →
  length (_total_weight_in_comm s) = nb →
  v_comm < nb →
  returns (for_each (incident g v mode) (init_admin_edge g v_comm)) s
    (λ _ s', same_but_weights s s').
Proof.
  intros Hg Hv Hm Hr Hfrom Hto Hin Hc.
  apply (returns_for_each _ (λ _ s', same_but_weights s s')).
  { apply same_but_weights_refl. }
  intros l1 ue l2 s1 Hl Hs1.
  assert (ue.1 < vcount g) as Hu.
  { eapply (wf_neighbours g Hg v mode); [done|].
    apply incident_neighbour. rewrite Hl. apply elem_of_app. right. left. }
  destruct (lookup_lt_is_Some_2 (_membership s) ue.1) as [u_comm Hu_comm]; [lia|].
  destruct Hs1.
  eapply returns_mono.
  { specialize (Hr _ _ Hu_comm).
    eapply (init_admin_edge_returns g v_comm ue s1 u_comm); [congruence|lia..]. }
  intros [] s2 Hs2. simpl in Hs2. destruct Hs2. split; congruence.
Qed.

Lemma size_in_app g m c l1 l2 :
  size_in g m c (l1 ++ l2) = (size_in g m c l1 + size_in g m c l2)%Z.
Proof. unfold size_in. by rewrite fmap_app, Zsum_app. Qed.

Lemma members_app m c l1 l2 :
  members m c (l1 ++ l2) = members m c l1 ∪ members m c l2.
Proof. unfold members. rewrite filter_app, list_to_set_app_L. done. Qed.

Lemma size_in_cons g m c v vs :
  size_in g m c (v :: vs)
  = ((if decide (m !! v = Some c) then node_size g v else 0) + size_in g m c vs)%Z.
Proof. done. Qed.

Lemma Zsum_cons x l : Zsum (x :: l) = (x + Zsum l)%Z.
Proof. done. Qed.

Lemma size_in_bounds g m c vs :
  (∀ v, v ∈ vs → 0 ≤ node_size g v)%Z →
  (0 ≤ size_in g m c vs ≤ Zsum (node_size g <$> vs))%Z.
Proof.
  induction vs as [|v vs IH]; intros Hvs; [done|].
  rewrite size_in_cons, fmap_cons, Zsum_cons.
  assert (0 ≤ node_size g v)%Z by (apply Hvs; left).
  ospecialize (IH _). { intros; apply Hvs; by right. }
  case_decide; lia.
Qed.

Lemma Zsum_node_size_nonneg g vs :
  (∀ v, v ∈ vs → 0 ≤ node_size g v)%Z → (0 ≤ Zsum (node_size g <$> vs))%Z.
Proof.
  intros Hvs. apply Zsum_nonneg, Forall_fmap, Forall_forall. intros v Hv. by apply Hvs.
Qed.

Lemma vertices_elem g v : v ∈ vertices g ↔ v < vcount g.
Proof. unfold vertices. rewrite elem_of_seq. lia. Qed.

(** The sizes met while the vertices are visited in order stay within
    the total size. *)
Lemma size_in_prefix g m c l1 l2 :
  wf_graph g → vertices g = l1 ++ l2 →
  (0 ≤ size_in g m c l1 ∧ size_in g m c l1 ≤ total_size g)%Z.
Proof.
  intros Hg Hl.
  assert (∀ v, v ∈ l1 ++ l2 → 0 ≤ node_size g v)%Z as Hnn.
  { intros v Hv. rewrite <-Hl in Hv. apply (wf_node_size g Hg), vertices_elem, Hv. }
  pose proof (size_in_bounds g m c l1) as H1.
  pose proof (Zsum_node_size_nonneg g l2) as H2.
  unfold total_size. rewrite Hl, fmap_app, Zsum_app.
  ospecialize (H1 _). { intros; apply Hnn, elem_of_app; by left. }
  ospecialize (H2 _). { intros; apply Hnn, elem_of_app; by right. }
  lia.
Qed.

Lemma size_t_add_exact a b :
  (0 ≤ a + b < size_t_modulus)%Z → size_t_add a b = (a + b)%Z.
Proof. intros. unfold size_t_add. by apply Z.mod_small. Qed.

Lemma size_t_sub_exact a b :
  (0 ≤ a - b < size_t_modulus)%Z → size_t_sub a b = (a - b)%Z.
Proof. intros. unfold size_t_sub. by apply Z.mod_small. Qed.

Lemma size_in_snoc g m c l1 v :
  size_in g m c (l1 ++ [v])
  = (size_in g m c l1 + if decide (m !! v = Some c) then node_size g v else 0)%Z.
Proof. rewrite size_in_app, size_in_cons. unfold size_in. simpl. lia. Qed.

Lemma members_snoc m c l1 v :
  members m c (l1 ++ [v])
  = if decide (m !! v = Some c) then {[v]} ∪ members m c l1 else members m c l1.
Proof.
  rewrite members_app. unfold members at 2. rewrite filter_cons, filter_nil.
  case_decide; simpl; set_solver.
Qed.

Lemma init_admin_vertex_returns g s0 nb l1 v l2 s :
  wf_graph g → vertices g = l1 ++ v :: l2 →
  length (_membership s0) = vcount g →
  (∀ u c, _membership s0 !! u = Some c → c < nb) →
  init_inv g s0 nb l1 s →
  returns (init_admin_vertex g v) s (λ _ s', init_inv g s0 nb (l1 ++ [v]) s').
Proof.
  intros Hg Hl Hm Hr [Hmem Hpe Hempty Hcf Hct Hca Hlc Hls Hli Hlf Hlt Hcs Hmb].
  assert (v < vcount g) as Hv.
  { apply vertices_elem. rewrite Hl. apply elem_of_app. right. left. }
  destruct (lookup_lt_is_Some_2 (_membership s0) v) as [c Hc]; [lia|].
  pose proof (Hr _ _ Hc) as Hcnb.
  unfold init_admin_vertex.
  mstep. eapply returns_index; [by rewrite Hmem|].
  mstep. apply returns_modify_at; [lia|].
  mstep. apply returns_modify_at; [simpl; lia|].
  eapply returns_mono.
  { eapply (init_admin_edges_returns g v c IGRAPH_OUT _ nb); simpl; try done; try lia.
    all: rewrite ?length_alter; try lia.
    - by rewrite Hmem.
    - intros u d. rewrite Hmem. apply Hr. }
  intros [] s' [Em Ec Es Ep Ee Ef Et Ea El1 El2 El3]. simpl in *. split; try congruence.
  - rewrite Ec. by rewrite length_alter.
  - rewrite Es. by rewrite length_alter.
  - intros c' Hc'. rewrite Es, list_lookup_alter, size_in_snoc, Hc.
    destruct (decide (c = c')) as [->|Hne].
    + rewrite (Hcs c' Hc'), decide_True by done. simpl. f_equal.
      apply size_t_add_exact.
      destruct (size_in_prefix g (_membership s0) c' (l1 ++ [v]) l2 Hg) as [H1 H2].
      { by rewrite <-app_assoc. }
      rewrite size_in_snoc, Hc, decide_True in H1, H2 by done.
      pose proof (wf_total_size g Hg). unfold size_t_modulus. lia.
    + rewrite (Hcs c' Hc'), decide_False by congruence. f_equal. lia.
  - intros c' Hc'. rewrite Ec, list_lookup_alter, members_snoc, Hc.
    destruct (decide (c = c')) as [->|Hne].
    + by rewrite (Hmb c' Hc'), decide_True by done.
    + by rewrite (Hmb c' Hc'), decide_False by congruence.
Qed.

Lemma csize_fmap_seq (f : Z → Z) p :
  (λ c, f (csize c p)) <$> seq 0 (length (_csize p)) = f <$> _csize p.
Proof.
  apply list_eq. intros i. rewrite !list_lookup_fmap.
  destruct (_csize p !! i) as [x|] eqn:E; simpl.
  - rewrite lookup_seq_lt by (by eapply lookup_lt_Some). simpl.
    unfold csize. by rewrite E.
  - rewrite lookup_seq_ge; [done|]. by apply lookup_ge_None.
Qed.

Lemma init_possible_edges_returns g s :
  returns (for_each (seq 0 (length (_csize s))) (init_possible_edges g))
    (set_total_possible_edges_in_all_comms 0%Z s)
    (λ _ s', s' = set_total_possible_edges_in_all_comms
                    (possible_edges_sum g (_csize s)) s).
Proof.
  assert (possible_edges_sum g (_csize s)
          = possible_edges_sum g ((λ c, id (csize c s)) <$> seq 0 (length (_csize s))))
    as ->.
  { by rewrite (csize_fmap_seq id), list_fmap_id. }
  generalize (seq 0 (length (_csize s))). intros l.
  apply (returns_for_each _
    (λ l1 s', s' = set_total_possible_edges_in_all_comms
                     (possible_edges_sum g ((λ c, id (csize c s)) <$> l1)) s)).
  { done. }
  intros l1 c l2 s1 _ ->. unfold init_possible_edges. apply returns_modify.
  unfold possible_edges_sum. rewrite fmap_app, foldl_app. done.
Qed.

Lemma possible_edges_nonneg g n : (0 ≤ n)%Z → (0 ≤ possible_edges g n)%Z.
Proof.
  intros Hn. unfold possible_edges.
  assert (0 ≤ n * (n - 1))%Z by nia.
  destruct (is_directed g); [done|]. by apply Z.div_pos.
Qed.

Lemma possible_edges_le_square g n : (0 ≤ n)%Z → (possible_edges g n ≤ n * n)%Z.
Proof.
  intros Hn. unfold possible_edges.
  assert (0 ≤ n * (n - 1))%Z by nia.
  destruct (is_directed g); [nia|].
  etrans; [apply Z.div_le_upper_bound with (q := (n * (n - 1))%Z); lia|nia].
Qed.

(** The sum in [size_t] is the sum when the latter is in range. *)
Lemma possible_edges_sum_exact g csizes :
  Forall (λ n, 0 ≤ n)%Z csizes → (Zsum (possible_edges g <$> csizes) < size_t_modulus)%Z →
  possible_edges_sum g csizes = Zsum (possible_edges g <$> csizes).
Proof.
  intros Hnn. unfold possible_edges_sum.
  assert (∀ acc, (0 ≤ acc)%Z →
            (acc + Zsum (possible_edges g <$> csizes) < size_t_modulus)%Z →
            foldl (λ total n, size_t_add total (possible_edges g n mod size_t_modulus)%Z)
              acc csizes
            = (acc + Zsum (possible_edges g <$> csizes))%Z) as Hgen.
  { induction Hnn as [|n csizes Hn Hnn IH]; intros acc Hacc Hlt; [simpl; lia|].
    rewrite fmap_cons, Zsum_cons in Hlt. cbn [foldl].
    pose proof (possible_edges_nonneg g n Hn).
    assert (0 ≤ Zsum (possible_edges g <$> csizes))%Z.
    { apply Zsum_nonneg, Forall_fmap. eapply Forall_impl; [exact Hnn|].
      intros x Hx. by apply possible_edges_nonneg. }
    rewrite Z.mod_small by lia. rewrite size_t_add_exact by lia.
    rewrite IH by lia. rewrite fmap_cons, Zsum_cons. lia. }
  intros Hlt. rewrite Hgen; lia.
Qed.

Lemma init_admin_returns g p :
  wf_graph g → length (_membership p) = vcount g → valid_ids (_membership p) →
  returns (init_admin g) p (λ _ p', init_post g p p').
Proof.
  intros Hg Hm Hvalid. unfold init_admin.
  mstep. eapply returns_mono.
  { rewrite <-Hm. apply (init_nb_comms_returns p 0 (_membership p)); done. }
  intros nb s' [-> ->].
  set (nb := nb_comms_of (_membership p) 0).
  assert (∀ u c, _membership p !! u = Some c → c < nb) as Hr.
  { intros u c Hu. apply nb_comms_of_bound. by eapply list_elem_of_lookup_2. }
  mstep. mstep. mstep.
  eapply returns_mono.
  { apply (returns_for_each _ (init_inv g (init_reset g nb p) nb)).
    - split; simpl; rewrite ?length_replicate; try done.
      + intros c Hc. by rewrite lookup_replicate_2.
      + intros c Hc. by rewrite lookup_replicate_2.
    - intros l1 v l2 s1 Hl Hs1.
      eapply (init_admin_vertex_returns g _ nb l1 v l2); done. }
  intros [] s1 [Hmem Hpe Hempty Hcf Hct Hca Hlc Hls Hli Hlf Hlt Hcs Hmb]. simpl in *.
  mstep. mstep. rewrite <-Hls at 1.
  eapply returns_mono; [apply init_possible_edges_returns|].
  intros [] s2 ->. simpl. split; simpl; try done.
  split; simpl; rewrite ?Hmem; try congruence.
  - intros v c. rewrite Hls. apply Hr.
  - intros c Hc. apply Hcs. lia.
  - intros c Hc. apply Hmb. lia.
Qed.

Lemma apply_bumps_app bs1 bs2 l :
  apply_bumps (bs1 ++ bs2) l = apply_bumps bs2 (apply_bumps bs1 l).
Proof. apply foldl_app. Qed.

Lemma length_apply_bumps bs l : length (apply_bumps bs l) = length l.
Proof.
  revert l. induction bs as [|b bs IH]; intros l; simpl; [done|].
  rewrite IH. apply length_alter.
Qed.

Lemma net_app c bs1 bs2 : net c (bs1 ++ bs2) = (net c bs1 + net c bs2)%Qc.
Proof.
  induction bs1 as [|b bs1 IH]; simpl; [ring|].
  rewrite IH. case_decide; ring.
Qed.

Lemma net_all_app bs1 bs2 : net_all (bs1 ++ bs2) = (net_all bs1 + net_all bs2)%Qc.
Proof. induction bs1 as [|b bs1 IH]; simpl; [ring|]. rewrite IH. ring. Qed.

Lemma lookup_apply_bumps bs l c :
  apply_bumps bs l !! c = (λ x, x + net c bs)%Qc <$> l !! c.
Proof.
  revert l. induction bs as [|[i d] bs IH]; intros l; simpl.
  - destruct (l !! c); simpl; [f_equal; ring|done].
  - rewrite IH. unfold bump. rewrite list_lookup_alter.
    destruct (decide (i = c)) as [->|Hne]; [|done].
    destruct (l !! c); simpl; [f_equal; ring|done].
Qed.

Lemma apply_bumps_net_zero bs l :
  (∀ c, net c bs = 0%Qc) → apply_bumps bs l = l.
Proof.
  intros Hz. apply list_eq. intros c. rewrite lookup_apply_bumps, Hz.
  destruct (l !! c); simpl; [f_equal; ring|done].
Qed.

Lemma returns_index_lt {A} (vec : MutableVertexPartition → list A) i s
    (Q : A → MutableVertexPartition → Prop) :
  i < length (vec s) → (∀ x, vec s !! i = Some x → Q x s) → returns (index vec i) s Q.
Proof.
  intros Hi HQ. destruct (lookup_lt_is_Some_2 _ _ Hi) as [x Hx].
  eapply returns_index; [done|]. by apply HQ.
Qed.

Lemma with_weights_id s :
  with_weights (_total_weight_in_comm s) (_total_weight_from_comm s)
    (_total_weight_to_comm s) (_total_weight_in_all_comms s) s = s.
Proof. by destruct s. Qed.

Lemma edges_moved_nil g v old_comm new_comm mode s :
  edges_moved g v old_comm new_comm mode [] s = s.
Proof.
  unfold edges_moved. simpl. rewrite Qcplus_0_r. apply with_weights_id.
Qed.

Lemma move_node_edge_returns g v old_comm new_comm mode ue s :
  mode ≠ IGRAPH_ALL →
  ue.1 < length (_membership s) →
  old_comm < length (_total_weight_in_comm s) →
  new_comm < length (_total_weight_in_comm s) →
  old_comm < length (_total_weight_from_comm s) →
  new_comm < length (_total_weight_from_comm s) →
  old_comm < length (_total_weight_to_comm s) →
  new_comm < length (_total_weight_to_comm s) →
  returns (move_node_edge g v old_comm new_comm mode ue) s
    (λ _ s', s' = edges_moved g v old_comm new_comm mode [ue] s).
Proof.
  intros Hmode Hu Hi1 Hi2 Hf1 Hf2 Ht1 Ht2. unfold move_node_edge.
  mstep. apply returns_index_lt; [done|]. intros u_comm Hu_comm.
  mstep.
  assert (∀ (Q : unit → MutableVertexPartition → Prop),
    Q () (with_weights (_total_weight_in_comm s)
            (apply_bumps (from_bumps g old_comm new_comm mode ue) (_total_weight_from_comm s))
            (apply_bumps (to_bumps g old_comm new_comm mode ue) (_total_weight_to_comm s))
            (_total_weight_in_all_comms s) s) →
    returns
      match mode with
      | IGRAPH_OUT =>
          modify_at _total_weight_from_comm set_total_weight_from_comm old_comm
            (λ x : Qc, (x - edge_weight g ue.2)%Qc);;
          modify_at _total_weight_from_comm set_total_weight_from_comm new_comm
            (λ x : Qc, (x + edge_weight g ue.2)%Qc)
      | IGRAPH_IN =>
          modify_at _total_weight_to_comm set_total_weight_to_comm old_comm
            (λ x : Qc, (x - edge_weight g ue.2)%Qc);;
          modify_at _total_weight_to_comm set_total_weight_to_comm new_comm
            (λ x : Qc, (x + edge_weight g ue.2)%Qc)
      | IGRAPH_ALL => throw InvalidDirection
      end s Q) as Hdir.
  { intros Q HQ. destruct mode; [| |done].
    - mstep. apply returns_modify_at; [done|].
      apply returns_modify_at; [simpl; by rewrite length_alter|]. exact HQ.
    - mstep. apply returns_modify_at; [done|].
      apply returns_modify_at; [simpl; by rewrite length_alter|]. exact HQ. }
  apply Hdir. clear Hdir.
  unfold edges_moved, in_bumps. simpl. rewrite !app_nil_r, Hu_comm.
  fold (int_weight g v ue).
  rewrite (bool_decide_ext (Some u_comm = Some old_comm) (old_comm = u_comm)) by naive_solver.
  rewrite (bool_decide_ext (Some u_comm = Some new_comm) (new_comm = u_comm)) by naive_solver.
  assert (∀ s1 (Q : unit → MutableVertexPartition → Prop),
    new_comm < length (_total_weight_in_comm s1) →
    Q () (if bool_decide (new_comm = u_comm) || bool_decide (ue.1 = v)
          then set_total_weight_in_all_comms
                 (_total_weight_in_all_comms s1 + int_weight g v ue)%Qc
                 (set_total_weight_in_comm
                    (bump new_comm (int_weight g v ue) (_total_weight_in_comm s1)) s1)
          else s1) →
    returns (when (bool_decide (new_comm = u_comm) || bool_decide (ue.1 = v))
      (modify_at _total_weight_in_comm set_total_weight_in_comm new_comm
         (λ x : Qc, (x + int_weight g v ue)%Qc);;
       modify (λ p : MutableVertexPartition,
         set_total_weight_in_all_comms
           (_total_weight_in_all_comms p + int_weight g v ue)%Qc p))) s1 Q) as Hnew.
  { intros s1 Q Hlen HQ. mstep.
    - mstep. apply returns_modify_at; [done|]. mstep. by rewrite H in HQ.
    - by rewrite H in HQ. }
  mstep. mstep.
  - mstep. apply returns_modify_at; [done|]. mstep.
    apply Hnew; [simpl; by rewrite length_alter|].
    rewrite H. destruct (bool_decide (new_comm = u_comm) || bool_decide (ue.1 = v));
      apply partition_eq; simpl; try reflexivity; ring.
  - apply Hnew; [done|].
    rewrite H. destruct (bool_decide (new_comm = u_comm) || bool_decide (ue.1 = v));
      apply partition_eq; simpl; try reflexivity; ring.
Qed.

Lemma edges_moved_membership g v old_comm new_comm mode es s :
  _membership (edges_moved g v old_comm new_comm mode es s) = _membership s.
Proof. done. Qed.

Lemma edges_moved_app g v old_comm new_comm mode es1 es2 s :
  edges_moved g v old_comm new_comm mode (es1 ++ es2) s
  = edges_moved g v old_comm new_comm mode es2 (edges_moved g v old_comm new_comm mode es1 s).
Proof.
  apply partition_eq; simpl; try reflexivity.
  - by rewrite bind_app, apply_bumps_app.
  - by rewrite bind_app, apply_bumps_app.
  - by rewrite bind_app, apply_bumps_app.
  - rewrite bind_app, net_all_app. ring.
Qed.

Lemma move_node_edges_returns g v old_comm new_comm mode s :
  mode ≠ IGRAPH_ALL →
  (∀ u, u ∈ get_neighbours g v mode → u < length (_membership s)) →
  old_comm < length (_total_weight_in_comm s) →
  new_comm < length (_total_weight_in_comm s) →
  old_comm < length (_total_weight_from_comm s) →
  new_comm < length (_total_weight_from_comm s) →
  old_comm < length (_total_weight_to_comm s) →
  new_comm < length (_total_weight_to_comm s) →
  returns (move_node_edges g v old_comm new_comm mode) s
    (λ _ s', s' = edges_moved g v old_comm new_comm mode (incident g v mode) s).
Proof.
  intros Hmode Hn Hi1 Hi2 Hf1 Hf2 Ht1 Ht2. unfold move_node_edges.
  apply (returns_for_each _
    (λ l1 s', s' = edges_moved g v old_comm new_comm mode l1 s)).
  { by rewrite edges_moved_nil. }
  intros l1 ue l2 s1 Hl ->.
  eapply returns_mono.
  { apply move_node_edge_returns; simpl; rewrite ?length_apply_bumps; try done.
    apply Hn, incident_neighbour. rewrite Hl. apply elem_of_app. right. left. }
  intros [] s2 ->. by rewrite edges_moved_app.
Qed.


Lemma returns_eq {A} (m : M A) s a s' : returns m s (λ b t, b = a ∧ t = s') → m s = Ok a s'.
Proof. by intros (b & t & -> & -> & ->). Qed.

Lemma move_node_returns g v old_comm new_comm p :
  move_node_pre g v old_comm new_comm p →
  move_node g v new_comm p = Ok () (move_node_result g v old_comm new_comm p).
Proof.
  intros [Hpe Hold Hol Hnl Hlc Hli Hlf Hlt Hn Hpool]. apply returns_eq.
  unfold move_node.
  mstep. eapply returns_index; [done|].
  mstep.
  set (Q := λ (_ : unit) (t : MutableVertexPartition),
    t = set_total_possible_edges_in_all_comms
          (_total_possible_edges_in_all_comms
             (move_node_admin g v old_comm new_comm p)) p).
  apply (returns_mono _ _ Q).
  { subst Q. mstep.
    - mstep. apply returns_index_lt; [done|]. intros x1 Hx1.
      mstep. apply returns_index_lt; [done|]. intros x2 Hx2.
      mstep. destruct (Hpe (bool_decide_eq_true_1 _ H)) as [total' Hpe']. unfold moved_possible_edges in Hpe'.
      rewrite (list_lookup_total_correct _ _ _ Hx1),
        (list_lookup_total_correct _ _ _ Hx2) in Hpe'.
      mstep. rewrite Hpe'. mstep. simpl. rewrite H.
      by rewrite (list_lookup_total_correct _ _ _ Hx1),
        (list_lookup_total_correct _ _ _ Hx2), Hpe'.
    - simpl. rewrite H. by destruct p. }
  intros [] s1 ->. subst Q.
  mstep. apply returns_modify_at; [simpl; lia|].
  mstep. apply returns_modify_at; [done|].
  mstep. apply returns_index_lt; [simpl; by rewrite length_alter|]. intros x1 Hx1. simpl in Hx1.
  mstep.
  set (csize1 := alter (λ x, size_t_sub x (node_size g v)) old_comm (_csize p)) in *.
  set (pool1 := if bool_decide (csize1 !!! old_comm = 0%Z)
                then _empty_communities p ++ [old_comm] else _empty_communities p) in *.
  set (Q := λ (_ : unit) (t : MutableVertexPartition),
    t = set_empty_communities pool1
          (set_csize csize1
             (set_community (alter (λ S : gset nat, S ∖ {[v]}) old_comm (community p))
                (set_total_possible_edges_in_all_comms
                   (_total_possible_edges_in_all_comms
                      (move_node_admin g v old_comm new_comm p)) p)))).
  apply (returns_mono _ _ Q).
  { subst Q pool1. rewrite (list_lookup_total_correct _ _ _ Hx1). mstep.
    - mstep. by rewrite H.
    - by rewrite H. }
  intros [] s1 ->. subst Q.
  mstep. apply returns_index_lt; [simpl; subst csize1; by rewrite length_alter|].
  intros x2 Hx2. simpl in Hx2.
  mstep.
  set (pool2 := if bool_decide (csize1 !!! new_comm = 0%Z)
                then default pool1 (erase_last new_comm pool1) else pool1).
  set (Q := λ (_ : unit) (t : MutableVertexPartition),
    t = set_empty_communities pool2
          (set_csize csize1
             (set_community (alter (λ S : gset nat, S ∖ {[v]}) old_comm (community p))
                (set_total_possible_edges_in_all_comms
                   (_total_possible_edges_in_all_comms
                      (move_node_admin g v old_comm new_comm p)) p)))).
  apply (returns_mono _ _ Q).
  { subst Q pool2. rewrite (list_lookup_total_correct _ _ _ Hx2) in *. mstep.
    - rewrite H. unfold remove_from_empty_communities. mstep. mstep. simpl.
      destruct Hpool as [pool' Hpool']; [by apply bool_decide_eq_true in H|].
      fold pool1. rewrite Hpool'. by mstep.
    - by rewrite H. }
  intros [] s1 ->. subst Q.
  mstep. apply returns_modify_at; [simpl; rewrite length_alter; lia|].
  mstep. apply returns_modify_at; [simpl; subst csize1; by rewrite length_alter|].
  simpl.
  mstep. simpl. mstep.
  eapply returns_mono.
  { apply move_node_edges_returns; simpl; try done; try lia. apply Hn. }
  intros [] s1 ->.
  mstep.
  eapply returns_mono.
  { apply move_node_edges_returns; simpl; rewrite ?length_apply_bumps; try done; try lia.
    apply Hn. }
  intros [] s1 ->.
  simpl. mstep.
  apply returns_modify_at; [simpl; by eapply lookup_lt_Some|].
  split; [done|]. apply partition_eq; reflexivity.
Qed.

Lemma erase_first_cons_eq x l : erase_first x (x :: l) = Some l.
Proof. simpl. by rewrite decide_True. Qed.

Lemma erase_last_snoc x l : erase_last x (l ++ [x]) = Some l.
Proof.
  unfold erase_last. rewrite reverse_app, reverse_singleton.
  change ([x] ++ reverse l) with (x :: reverse l).
  rewrite erase_first_cons_eq. simpl. by rewrite reverse_involutive.
Qed.

Lemma erase_first_is_Some x l : x ∈ l → is_Some (erase_first x l).
Proof.
  induction l as [|y l IH]; intros Hx; [by apply elem_of_nil in Hx|].
  simpl. case_decide; [done|].
  apply elem_of_cons in Hx as [->|Hx]; [done|].
  destruct (IH Hx) as [l' ->]. done.
Qed.

Lemma erase_last_is_Some x l : x ∈ l → is_Some (erase_last x l).
Proof.
  intros Hx. unfold erase_last.
  destruct (erase_first_is_Some x (reverse l)) as [l' ->]; [by apply elem_of_reverse|done].
Qed.

Lemma erase_first_elem x y l l' : erase_first x l = Some l' → y ≠ x → y ∈ l → y ∈ l'.
Proof.
  revert l'. induction l as [|z l IH]; intros l' He Hne Hy; [done|].
  simpl in He. case_decide; simplify_eq.
  - apply elem_of_cons in Hy as [->|Hy]; done.
  - destruct (erase_first x l) as [l''|] eqn:E; simplify_eq/=.
    apply elem_of_cons in Hy as [->|Hy]; [left|right; by apply IH].
Qed.

Lemma erase_last_elem x y l l' : erase_last x l = Some l' → y ≠ x → y ∈ l → y ∈ l'.
Proof.
  unfold erase_last. intros He Hne Hy.
  destruct (erase_first x (reverse l)) as [l''|] eqn:E; simplify_eq/=.
  apply elem_of_reverse. eapply erase_first_elem; [done..|by apply elem_of_reverse].
Qed.

Lemma alter_const_id {A} (l : list A) i x : l !! i = Some x → alter (λ _, x) i l = l.
Proof.
  intros Hi. apply list_eq. intros j. rewrite list_lookup_alter.
  case_decide; subst; by rewrite ?Hi.
Qed.

Lemma net_bind_zero {E} (f : E → list (nat * Qc)) es c :
  (∀ e, e ∈ es → net c (f e) = 0%Qc) → net c (es ≫= f) = 0%Qc.
Proof.
  induction es as [|e es IH]; intros Hz; [done|].
  change ((e :: es) ≫= f) with (f e ++ (es ≫= f)).
  rewrite net_app, Hz, IH; [ring| |left]. intros; apply Hz. by right.
Qed.

Lemma net_all_bind_zero {E} (f : E → list (nat * Qc)) es :
  (∀ e, e ∈ es → net_all (f e) = 0%Qc) → net_all (es ≫= f) = 0%Qc.
Proof.
  induction es as [|e es IH]; intros Hz; [done|].
  change ((e :: es) ≫= f) with (f e ++ (es ≫= f)).
  rewrite net_all_app, Hz, IH; [ring| |left]. intros; apply Hz. by right.
Qed.

Lemma bind_nil_fun {E F} (es : list E) : es ≫= (λ _, @nil F) = [].
Proof. induction es as [|e es IH]; [done|]. by change (([] : list F) ++ (es ≫= (λ _, @nil F)) = []). Qed.

Lemma size_t_sub_add x y :
  (0 ≤ x < size_t_modulus)%Z → size_t_add (size_t_sub x y) y = x.
Proof.
  intros Hx. unfold size_t_add, size_t_sub.
  rewrite Zplus_mod_idemp_l. replace (x - y + y)%Z with x by lia. by apply Z.mod_small.
Qed.

Lemma members_elem m c vs v : v ∈ members m c vs ↔ v ∈ vs ∧ m !! v = Some c.
Proof. unfold members. rewrite elem_of_list_to_set, list_elem_of_filter. naive_solver. Qed.

Lemma consistent_vertex g p v c :
  consistent g p → _membership p !! v = Some c → v < vcount g.
Proof. intros Hp Hv. rewrite <-(cons_membership g p Hp). by eapply lookup_lt_Some. Qed.

Lemma consistent_csize_range g p c x :
  wf_graph g → consistent g p → _csize p !! c = Some x → (0 ≤ x ≤ total_size g)%Z.
Proof.
  intros Hg Hp Hx.
  rewrite (cons_csize g p Hp c) in Hx by (by eapply lookup_lt_Some). simplify_eq.
  apply (size_in_prefix g _ c (vertices g) [] Hg). by rewrite app_nil_r.
Qed.

Lemma consistent_move_node_pre g p v old_comm new_comm :
  wf_graph g → consistent g p → _membership p !! v = Some old_comm →
  new_comm < length (_csize p) →
  (new_comm ≠ old_comm → _csize p !! new_comm = Some 0%Z → new_comm ∈ _empty_communities p) →
  (new_comm ≠ old_comm → is_Some (moved_possible_edges g v old_comm new_comm p)) →
  move_node_pre g v old_comm new_comm p.
Proof.
  intros Hg Hp Hv Hnew Hpool Hpe.
  pose proof (consistent_vertex g p v old_comm Hp Hv) as Hvn.
  destruct Hp as [Hm Hlc Hli Hlf Hlt Hr Hcs Hmb].
  split; try done.
  - by eapply Hr.
  - intros mode u Hu. rewrite Hm. by eapply (wf_neighbours g Hg).
  - intros Hz. destruct (decide (new_comm = old_comm)) as [->|Hne].
    + rewrite bool_decide_eq_true_2 by done. rewrite erase_last_snoc. done.
    + apply erase_last_is_Some.
      rewrite list_lookup_total_alter_ne in Hz by done.
      assert (new_comm ∈ _empty_communities p) as Hin.
      { apply Hpool; [done|]. rewrite <-Hz. by apply list_lookup_lookup_total_lt. }
      case_bool_decide; [apply elem_of_app; by left|done].
Qed.

Lemma from_bumps_out g old_comm new_comm es :
  es ≫= from_bumps g old_comm new_comm IGRAPH_OUT = es ≫= dir_bumps g old_comm new_comm.
Proof. done. Qed.

Lemma from_bumps_in g old_comm new_comm es :
  es ≫= from_bumps g old_comm new_comm IGRAPH_IN = [].
Proof. apply bind_nil_fun. Qed.

Lemma to_bumps_in g old_comm new_comm es :
  es ≫= to_bumps g old_comm new_comm IGRAPH_IN = es ≫= dir_bumps g old_comm new_comm.
Proof. done. Qed.

Lemma to_bumps_out g old_comm new_comm es :
  es ≫= to_bumps g old_comm new_comm IGRAPH_OUT = [].
Proof. apply bind_nil_fun. Qed.

Lemma net_dir_bumps_noop g c c' ue : net c' (dir_bumps g c c ue) = 0%Qc.
Proof. unfold dir_bumps. simpl. case_decide; ring. Qed.

Lemma net_in_bumps_noop g m v c c' ue :
  m !! v = Some c → net c' (in_bumps g m v c c ue) = 0%Qc.
Proof.
  intros Hv. unfold in_bumps.
  destruct (decide (ue.1 = v)) as [Hu|Hu].
  - rewrite Hu, Hv, !bool_decide_eq_true_2 by done. simpl. case_decide; ring.
  - rewrite (bool_decide_eq_false_2 (ue.1 = v)), orb_false_r by done.
    case_bool_decide; simpl; [case_decide; ring|done].
Qed.

Lemma net_all_in_bumps_noop g m v c ue :
  m !! v = Some c → net_all (in_bumps g m v c c ue) = 0%Qc.
Proof.
  intros Hv. unfold in_bumps.
  destruct (decide (ue.1 = v)) as [Hu|Hu].
  - rewrite Hu, Hv, !bool_decide_eq_true_2 by done. simpl. ring.
  - rewrite (bool_decide_eq_false_2 (ue.1 = v)), orb_false_r by done.
    case_bool_decide; simpl; [ring|done].
Qed.

(** A move of [v] to the community it is in leaves the edge
    aggregates as they are. *)
Lemma edges_moved_noop g v c mode es s :
  _membership s !! v = Some c → edges_moved g v c c mode es s = s.
Proof.
  intros Hv. unfold edges_moved.
  rewrite !apply_bumps_net_zero, net_all_bind_zero.
  - rewrite Qcplus_0_r. apply with_weights_id.
  - intros. by apply net_all_in_bumps_noop.
  - intros c'. destruct mode; rewrite ?to_bumps_out, ?to_bumps_in; try done.
    + apply net_bind_zero. intros. apply net_dir_bumps_noop.
    + unfold to_bumps. by rewrite bind_nil_fun.
  - intros c'. destruct mode; rewrite ?from_bumps_out, ?from_bumps_in; try done.
    + apply net_bind_zero. intros. apply net_dir_bumps_noop.
    + unfold from_bumps. by rewrite bind_nil_fun.
  - intros c'. apply net_bind_zero. intros. by apply net_in_bumps_noop.
Qed.

Lemma move_node_admin_noop g p v c :
  wf_graph g → consistent g p → _membership p !! v = Some c →
  move_node_admin g v c c p = p.
Proof.
  intros Hg Hp Hv.
  pose proof (consistent_vertex g p v c Hp Hv) as Hvn.
  pose proof (cons_range g p Hp v c Hv) as Hc.
  pose proof (cons_csize g p Hp c Hc) as Hcs.
  pose proof (cons_members g p Hp c Hc) as Hmb.
  pose proof (consistent_csize_range g p c _ Hg Hp Hcs) as Hrange.
  pose proof (wf_total_size g Hg) as Htot.
  apply partition_eq; simpl; try reflexivity.
  - rewrite list_alter_alter_eq. apply list_eq. intros c'.
    rewrite list_lookup_alter. case_decide; [subst c'|done].
    rewrite Hmb. simpl. f_equal.
    assert (v ∈ members (_membership p) c (vertices g)).
    { apply members_elem. split; [by apply vertices_elem|done]. }
    apply set_eq. intros u. rewrite elem_of_union, elem_of_difference, elem_of_singleton.
    destruct (decide (u = v)); naive_solver.
  - rewrite list_alter_alter_eq. apply list_eq. intros c'.
    rewrite list_lookup_alter. case_decide; [subst c'|done].
    rewrite Hcs. simpl. f_equal. apply size_t_sub_add. unfold size_t_modulus. lia.
  - by rewrite bool_decide_eq_false_2 by naive_solver.
  - case_bool_decide; [|done]. by rewrite erase_last_snoc.
Qed.

Theorem move_node_noop g p v c :
  wf_graph g → consistent g p → _membership p !! v = Some c →
  move_node g v c p = Ok () p.
Proof.
  intros Hg Hp Hv.
  rewrite (move_node_returns g v c c p).
  - f_equal. unfold move_node_result.
    rewrite (move_node_admin_noop g p v c), !edges_moved_noop by done.
    destruct p. unfold set_membership. simpl in *. f_equal. by apply alter_const_id.
  - apply consistent_move_node_pre; try done.
    by eapply (cons_range g p Hp).
Qed.

Lemma lookup_alter_const (m : list nat) v c u :
  v < length m → alter (λ _, c) v m !! u = if decide (u = v) then Some c else m !! u.
Proof.
  intros Hv. rewrite list_lookup_alter. destruct (decide (v = u)) as [->|Hne].
  - rewrite decide_True by done. destruct (lookup_lt_is_Some_2 m u Hv) as [x ->]. done.
  - by rewrite decide_False by congruence.
Qed.

Lemma size_in_alter_notin g m v new_comm c vs :
  v ∉ vs → size_in g (alter (λ _, new_comm) v m) c vs = size_in g m c vs.
Proof.
  induction vs as [|u vs IH]; intros Hv; [done|].
  rewrite !size_in_cons, IH by (intros ?; apply Hv; by right).
  rewrite list_lookup_alter_ne; [done|]. intros ->. apply Hv. left.
Qed.

Lemma size_in_alter g m v old_comm new_comm c vs :
  NoDup vs → v ∈ vs → m !! v = Some old_comm →
  size_in g (alter (λ _, new_comm) v m) c vs
  = (size_in g m c vs
     - (if decide (old_comm = c) then node_size g v else 0)
     + (if decide (new_comm = c) then node_size g v else 0))%Z.
Proof.
  intros Hnd Hv Hm. assert (v < length m) as Hlt by (by eapply lookup_lt_Some).
  induction vs as [|u vs IH]; [by apply elem_of_nil in Hv|].
  apply NoDup_cons in Hnd as [Hu Hnd].
  rewrite !size_in_cons. apply elem_of_cons in Hv as [Heq|Hv].
  - subst u. rewrite size_in_alter_notin by done.
    rewrite lookup_alter_const by done.
    destruct (decide (v = v)) as [_|]; [|done]. rewrite Hm.
    repeat case_decide; simplify_eq; lia.
  - assert (v ≠ u) as Hne by (intros Heq; rewrite Heq in Hv; contradiction).
    rewrite IH by done. rewrite list_lookup_alter_ne by done.
    lia.
Qed.

Lemma members_alter m v old_comm new_comm c vs :
  v ∈ vs → m !! v = Some old_comm →
  members (alter (λ _, new_comm) v m) c vs
  = (if decide (new_comm = c) then {[v]} ∪ members m c vs
     else if decide (old_comm = c) then members m c vs ∖ {[v]} else members m c vs).
Proof.
  intros Hv Hm. assert (v < length m) as Hlt by (by eapply lookup_lt_Some).
  apply set_eq. intros u. rewrite members_elem, lookup_alter_const by done.
  repeat case_decide; subst;
    rewrite ?elem_of_union, ?elem_of_difference, ?elem_of_singleton, ?members_elem;
    naive_solver.
Qed.

Lemma to_ptrdiff_exact x :
  (- 2 ^ 63 ≤ x < 2 ^ 63)%Z → to_ptrdiff (x mod size_t_modulus) = x.
Proof.
  intros Hx. unfold to_ptrdiff, size_t_modulus. destruct (decide (0 ≤ x)%Z).
  - rewrite Z.mod_small by lia. case_match; [done|]. apply Z.ltb_ge in H. lia.
  - replace (x mod 2 ^ 64)%Z with (x + 2 ^ 64)%Z.
    + case_match; [apply Z.ltb_lt in H|]; lia.
    + apply Z.mod_unique with (q := (-1)%Z); lia.
Qed.

Lemma size_t_sub_add_mod a b c :
  size_t_add (size_t_sub a b) c = ((a - b + c) mod size_t_modulus)%Z.
Proof. unfold size_t_add, size_t_sub. by rewrite Zplus_mod_idemp_l. Qed.

Lemma twice_triangle x : (2 * (x * (x - 1) / 2) = x * (x - 1))%Z.
Proof.
  assert ((x * (x - 1)) mod 2 = 0)%Z as Heven.
  { rewrite Z.mul_mod by lia. rewrite (Zminus_mod x 1).
    pose proof (Z.mod_pos_bound x 2 ltac:(lia)).
    assert (x mod 2 = 0 ∨ x mod 2 = 1)%Z as [->| ->] by lia; done. }
  pose proof (Z.div_mod (x * (x - 1)) 2 ltac:(lia)). lia.
Qed.

(** The closed form of [move_node] is the change of the possible edges
    of the two communities. *)
Lemma round_double_exact x : (Z.abs x < 2 ^ 53)%Z → round_double x = x.
Proof. intros Hx. unfold round_double. by rewrite (proj2 (Z.ltb_lt _ _) Hx). Qed.

(** An even number below [2^54] is a [double] as well. *)
Lemma round_double_even x :
  (0 ≤ x < 2 ^ 54)%Z → Z.even x = true → round_double x = x.
Proof.
  intros Hx Heven.
  destruct (decide (x < 2 ^ 53)%Z) as [Hlt|Hge]; [apply round_double_exact; lia|].
  unfold round_double. rewrite Z.abs_eq by lia.
  rewrite (proj2 (Z.ltb_ge _ _)) by lia.
  rewrite (Z.log2_unique x 53) by lia.
  change (53 - 52)%Z with 1%Z. change (2 ^ 1)%Z with 2%Z. change (2 ^ (1 - 1))%Z with 1%Z.
  rewrite Zmod_even, Heven. change (0 <? 1)%Z with true. cbv iota.
  rewrite Z.sgn_pos by lia.
  pose proof (Z.div_mod x 2 ltac:(lia)) as Hdm. rewrite Zmod_even, Heven in Hdm. lia.
Qed.

Lemma delta_possible_edges_exact g s N O :
  (Z.abs s < 2 ^ 52)%Z → (Z.abs (N - O + s) < 2 ^ 53)%Z →
  (Z.abs (2 * s * (N - O + s)) < 2 ^ 53)%Z →
  delta_possible_edges_in_comms g s N O
  = (possible_edges g (O - s) + possible_edges g (N + s)
     - possible_edges g O - possible_edges g N)%Z.
Proof.
  intros Hs Hr Hprod. unfold delta_possible_edges_in_comms, possible_edges.
  rewrite size_t_sub_add_mod, to_ptrdiff_exact by lia.
  rewrite (round_double_exact s), (round_double_exact (2 * s)),
    (round_double_exact (N - O + s)) by lia.
  rewrite (round_double_exact (2 * s * (N - O + s))) by done.
  destruct (is_directed g).
  - rewrite Z.div_1_r. ring.
  - pose proof (twice_triangle (O - s)). pose proof (twice_triangle (N + s)).
    pose proof (twice_triangle O). pose proof (twice_triangle N).
    replace (2 * s * (N - O + s))%Z with ((s * (N - O + s)) * (2 - 0))%Z by ring.
    rewrite Z.div_mul by lia. lia.
Qed.

Lemma move_node_result_noop g p v c :
  wf_graph g → consistent g p → _membership p !! v = Some c →
  move_node_result g v c c p = p.
Proof.
  intros Hg Hp Hv. unfold move_node_result.
  rewrite (move_node_admin_noop g p v c), !edges_moved_noop by done.
  destruct p. unfold set_membership. simpl in *. f_equal. by apply alter_const_id.
Qed.

Lemma vertices_NoDup g : NoDup (vertices g).
Proof. apply NoDup_seq. Qed.

(** The sizes of the two communities of a move, before and after. *)
Lemma move_sizes g p v old_comm new_comm :
  wf_graph g → consistent g p → _membership p !! v = Some old_comm →
  new_comm < length (_csize p) → new_comm ≠ old_comm →
  ∃ O N : Z,
    _csize p !! old_comm = Some O ∧ _csize p !! new_comm = Some N ∧
    (0 ≤ node_size g v ≤ O)%Z ∧ (0 ≤ N)%Z ∧ (O ≤ total_size g)%Z ∧
    (N + node_size g v ≤ total_size g)%Z.
Proof.
  intros Hg Hp Hv Hnew Hne.
  pose proof (consistent_vertex g p v old_comm Hp Hv) as Hvn.
  pose proof (cons_range g p Hp v old_comm Hv) as Hold.
  exists (size_in g (_membership p) old_comm (vertices g)),
         (size_in g (_membership p) new_comm (vertices g)).
  rewrite !(cons_csize g p Hp) by done. split; [done|]. split; [done|].
  pose proof (size_in_alter g (_membership p) v old_comm new_comm old_comm (vertices g)
                (vertices_NoDup g) (proj2 (vertices_elem g v) Hvn) Hv) as H1.
  pose proof (size_in_alter g (_membership p) v old_comm new_comm new_comm (vertices g)
                (vertices_NoDup g) (proj2 (vertices_elem g v) Hvn) Hv) as H2.
  rewrite decide_True, decide_False in H1 by done.
  rewrite decide_False, decide_True in H2 by done.
  pose proof (size_in_prefix g (alter (λ _, new_comm) v (_membership p)) old_comm
                (vertices g) [] Hg (eq_sym (app_nil_r _))) as H3.
  pose proof (size_in_prefix g (alter (λ _, new_comm) v (_membership p)) new_comm
                (vertices g) [] Hg (eq_sym (app_nil_r _))) as H4.
  pose proof (size_in_prefix g (_membership p) old_comm
                (vertices g) [] Hg (eq_sym (app_nil_r _))) as H5.
  pose proof (size_in_prefix g (_membership p) new_comm
                (vertices g) [] Hg (eq_sym (app_nil_r _))) as H6.
  pose proof (wf_node_size g Hg v Hvn). lia.
Qed.

Lemma move_node_consistent g p v old_comm new_comm :
  wf_graph g → consistent g p → _membership p !! v = Some old_comm →
  new_comm < length (_csize p) →
  consistent g (move_node_result g v old_comm new_comm p).
Proof.
  intros Hg Hp Hv Hnew.
  destruct (decide (new_comm = old_comm)) as [->|Hne].
  { by rewrite move_node_result_noop. }
  pose proof (consistent_vertex g p v old_comm Hp Hv) as Hvn.
  pose proof (cons_range g p Hp v old_comm Hv) as Hold.
  destruct (move_sizes g p v old_comm new_comm) as (O & N & HO & HN & Hs & HN0 & HOt & HNt);
    try done.
  pose proof (wf_total_size g Hg) as Htot.
  assert (v < length (_membership p)) as Hvl by (by eapply lookup_lt_Some).
  destruct Hp as [Hm Hlc Hli Hlf Hlt Hr Hcs Hmb].
  split; simpl; rewrite ?length_alter, ?length_apply_bumps; try done.
  - intros u c. rewrite lookup_alter_const by done. case_decide; [naive_solver|apply Hr].
  - intros c Hc.
    rewrite (size_in_alter g _ v old_comm new_comm c) by
      first [done | apply vertices_NoDup | by apply vertices_elem].
    destruct (decide (new_comm = c)) as [<-|Hc1]; [|destruct (decide (old_comm = c)) as [<-|Hc2]].
    + rewrite list_lookup_alter_eq, list_lookup_alter_ne, HN by done.
      rewrite decide_False by done. simpl. f_equal.
      rewrite size_t_add_exact by (unfold size_t_modulus; lia).
      rewrite (Hcs new_comm Hnew) in HN. simplify_eq. lia.
    + rewrite list_lookup_alter_ne, list_lookup_alter_eq, HO by done. simpl. f_equal.
      rewrite size_t_sub_exact by (unfold size_t_modulus; lia).
      rewrite (Hcs old_comm Hold) in HO. simplify_eq. lia.
    + rewrite !list_lookup_alter_ne, (Hcs c Hc) by done. f_equal. lia.
  - intros c Hc.
    rewrite (members_alter _ v old_comm new_comm c) by
      first [done | by apply vertices_elem].
    destruct (decide (new_comm = c)) as [<-|Hc1]; [|destruct (decide (old_comm = c)) as [<-|Hc2]].
    + by rewrite list_lookup_alter_eq, list_lookup_alter_ne, (Hmb new_comm Hc) by done.
    + by rewrite list_lookup_alter_ne, list_lookup_alter_eq, (Hmb old_comm Hc) by done.
    + by rewrite !list_lookup_alter_ne, (Hmb c Hc) by done.
Qed.

(** Every vertex is counted in exactly one community. *)
Lemma Zsum_indicator (c : nat) (x : Z) nb k :
  Zsum ((λ d, if decide (Some c = Some d) then x else 0%Z) <$> seq k nb)
  = if decide (k ≤ c < k + nb) then x else 0%Z.
Proof.
  revert k. induction nb as [|nb IH]; intros k; simpl.
  - case_decide; [lia|done].
  - rewrite IH. destruct (decide (c = k)) as [->|Hne].
    + rewrite (decide_True (P := Some k = Some k)) by done.
      rewrite decide_False by lia. rewrite decide_True by lia. lia.
    + rewrite (decide_False (P := Some c = Some k)) by congruence.
      repeat case_decide; lia.
Qed.

Lemma Zsum_fmap_add {A} (f h : A → Z) (l : list A) :
  Zsum ((λ c, f c + h c)%Z <$> l) = (Zsum (f <$> l) + Zsum (h <$> l))%Z.
Proof.
  induction l as [|a l IH]; [done|]. rewrite !fmap_cons, !Zsum_cons, IH. lia.
Qed.

Lemma Zsum_fmap_zero {A} (l : list A) : Zsum ((λ _, 0%Z) <$> l) = 0%Z.
Proof. induction l as [|a l IH]; [done|]. by rewrite fmap_cons, Zsum_cons, IH. Qed.

Lemma Zsum_size_in g m nb vs :
  (∀ v, v ∈ vs → ∃ c, m !! v = Some c ∧ c < nb) →
  Zsum ((λ c, size_in g m c vs) <$> seq 0 nb) = Zsum (node_size g <$> vs).
Proof.
  induction vs as [|v vs IH]; intros Hvs.
  - apply Zsum_fmap_zero.
  - rewrite fmap_cons, Zsum_cons, <-IH by (intros u Hu; apply Hvs; by right).
    destruct (Hvs v) as (c & Hc & Hlt); [left|].
    erewrite list_fmap_ext; [|intros i d _; apply size_in_cons].
    rewrite Zsum_fmap_add. f_equal. rewrite Hc, Zsum_indicator.
    by rewrite decide_True by lia.
Qed.

Lemma consistent_csize_list g p :
  consistent g p →
  _csize p = (λ c, size_in g (_membership p) c (vertices g)) <$> seq 0 (length (_csize p)).
Proof.
  intros Hp. apply list_eq. intros c. rewrite list_lookup_fmap.
  destruct (decide (c < length (_csize p))) as [Hc|Hc].
  - rewrite (cons_csize g p Hp c Hc), lookup_seq_lt by done. done.
  - rewrite lookup_ge_None_2 by lia. rewrite lookup_seq_ge by lia. done.
Qed.

Lemma consistent_total_size g p : consistent g p → Zsum (_csize p) = total_size g.
Proof.
  intros Hp. rewrite (consistent_csize_list g p Hp) at 1.
  apply Zsum_size_in. intros v Hv%vertices_elem.
  destruct (lookup_lt_is_Some_2 (_membership p) v) as [c Hc].
  { by rewrite (cons_membership g p Hp). }
  exists c. split; [done|]. by apply (cons_range g p Hp v).
Qed.

(** The number of possible edges is at most the square of the sum of
    the sizes, half of it in an undirected graph; in a directed graph it
    is even. *)
Lemma possible_edges_total_bound g l :
  Forall (λ n, 0 ≤ n)%Z l →
  (0 ≤ Zsum l)%Z ∧ (0 ≤ Zsum (possible_edges g <$> l) ≤ Zsum l * Zsum l)%Z
  ∧ (if is_directed g then Z.even (Zsum (possible_edges g <$> l)) = true
     else (2 * Zsum (possible_edges g <$> l) ≤ Zsum l * Zsum l)%Z).
Proof.
  induction 1 as [|n l Hn Hl (IH0 & IH1 & IH2)].
  { simpl. by destruct (is_directed g). }
  rewrite fmap_cons, !Zsum_cons.
  pose proof (possible_edges_nonneg g n Hn). pose proof (possible_edges_le_square g n Hn).
  split; [lia|]. split; [nia|].
  unfold possible_edges in *. destruct (is_directed g).
  - rewrite Z.even_add, IH2, <-(twice_triangle n), Z.even_mul. done.
  - pose proof (twice_triangle n). nia.
Qed.

(** With small sizes the number of possible edges is a [double] and a
    [size_t]. *)
Lemma possible_edges_total_double g l :
  Forall (λ n, 0 ≤ n)%Z l → (Zsum l < 2 ^ 27)%Z →
  round_double (Zsum (possible_edges g <$> l)) = Zsum (possible_edges g <$> l)
  ∧ (0 ≤ Zsum (possible_edges g <$> l) < 2 ^ 54)%Z.
Proof.
  intros Hl Hsmall.
  destruct (possible_edges_total_bound g l Hl) as (H0 & H1 & H2).
  assert (Zsum l * Zsum l < 2 ^ 54)%Z as Hsq by nia.
  split; [|lia].
  destruct (is_directed g); [apply round_double_even; [lia|done]|].
  apply round_double_exact. lia.
Qed.

Lemma consistent_csize_nonneg g p :
  wf_graph g → consistent g p → Forall (λ n, 0 ≤ n)%Z (_csize p).
Proof.
  intros Hg Hp. apply Forall_forall. intros n Hn.
  apply list_elem_of_lookup in Hn as [c Hc].
  by apply (consistent_csize_range g p c n Hg Hp).
Qed.

(** With small sizes the move's computation in [double] is exact, and
    the result is the sum over the communities after the move. *)
Lemma small_moved_possible_edges g p v old_comm new_comm :
  wf_graph g → small_sizes g → consistent g p → exact_possible_edges g p →
  _membership p !! v = Some old_comm →
  new_comm < length (_csize p) → new_comm ≠ old_comm →
  moved_possible_edges g v old_comm new_comm p
  = Some (_total_possible_edges_in_all_comms p
          + delta_possible_edges_in_comms g (node_size g v)
              (_csize p !!! new_comm) (_csize p !!! old_comm))%Z
  ∧ (_total_possible_edges_in_all_comms p
     + delta_possible_edges_in_comms g (node_size g v)
         (_csize p !!! new_comm) (_csize p !!! old_comm))%Z
    = Zsum (possible_edges g <$> _csize (move_node_admin g v old_comm new_comm p)).
Proof.
  intros Hg Hsmall Hp Hpe Hv Hnew Hne.
  destruct (move_sizes g p v old_comm new_comm) as (O & N & HO & HN & Hs & HN0 & HOt & HNt);
    try done.
  pose proof (move_node_consistent g p v old_comm new_comm Hg Hp Hv Hnew) as Hp'.
  change (_csize (move_node_result g v old_comm new_comm p))
    with (_csize (move_node_admin g v old_comm new_comm p)) in *.
  unfold small_sizes in Hsmall.
  destruct (possible_edges_total_double g (_csize p)) as [Hr1 Hb1].
  { by apply (consistent_csize_nonneg g). }
  { by rewrite (consistent_total_size g p Hp). }
  destruct (possible_edges_total_double g
              (_csize (move_node_admin g v old_comm new_comm p))) as [Hr2 Hb2].
  { by apply (consistent_csize_nonneg g _ Hg Hp'). }
  { change (Zsum (_csize (move_node_result g v old_comm new_comm p)) < 2 ^ 27)%Z.
    by rewrite (consistent_total_size g _ Hp'). }
  assert (Z.abs (2 * node_size g v * (N - O + node_size g v)) < 2 ^ 53)%Z as Hprod.
  { pose proof (Z.square_nonneg (node_size g v - N)).
    pose proof (Z.square_nonneg (O - 2 * node_size g v)).
    assert (4 * (node_size g v * N) ≤ (node_size g v + N) * (node_size g v + N))%Z by lia.
    assert (4 * (node_size g v * (O - node_size g v)) ≤ O * O)%Z by lia.
    assert ((node_size g v + N) * (node_size g v + N) < 2 ^ 54)%Z by nia.
    assert (O * O < 2 ^ 54)%Z by nia.
    assert (node_size g v * node_size g v ≤ node_size g v * O)%Z by nia.
    assert (0 ≤ node_size g v * N)%Z by nia.
    apply Z.abs_lt. split; lia. }
  unfold moved_possible_edges, add_possible_edges.
  rewrite (list_lookup_total_correct _ _ _ HO), (list_lookup_total_correct _ _ _ HN).
  rewrite delta_possible_edges_exact by (done || lia).
  unfold exact_possible_edges in Hpe. rewrite Hpe, Hr1.
  assert (Zsum (possible_edges g <$> _csize (move_node_admin g v old_comm new_comm p))
          = (Zsum (possible_edges g <$> _csize p)
             + (possible_edges g (O - node_size g v) + possible_edges g (N + node_size g v)
                - possible_edges g O - possible_edges g N))%Z) as Hsum.
  { simpl.
    rewrite (Zsum_alter _ _ _ new_comm N) by (by rewrite list_lookup_alter_ne).
    rewrite (Zsum_alter _ _ _ old_comm O) by done.
    rewrite size_t_add_exact, size_t_sub_exact by (unfold size_t_modulus; lia).
    lia. }
  rewrite <-Hsum, Hr2. split; [|done].
  unfold size_t_of_double. rewrite bool_decide_eq_true_2; [done|].
  unfold size_t_modulus. lia.
Qed.

Lemma small_moved_is_Some g p v old_comm new_comm :
  wf_graph g → small_sizes g → consistent g p → exact_possible_edges g p →
  _membership p !! v = Some old_comm →
  new_comm < length (_csize p) → new_comm ≠ old_comm →
  is_Some (moved_possible_edges g v old_comm new_comm p).
Proof.
  intros Hg Hsmall Hp Hpe Hv Hnew Hne.
  by rewrite (proj1 (small_moved_possible_edges g p v old_comm new_comm
                       Hg Hsmall Hp Hpe Hv Hnew Hne)).
Qed.

Lemma move_node_exact g p v old_comm new_comm :
  wf_graph g → small_sizes g → consistent g p → exact_possible_edges g p →
  _membership p !! v = Some old_comm → new_comm < length (_csize p) →
  exact_possible_edges g (move_node_result g v old_comm new_comm p).
Proof.
  intros Hg Hsmall Hp Hpe Hv Hnew.
  destruct (decide (new_comm = old_comm)) as [->|Hne].
  { by rewrite move_node_result_noop. }
  destruct (small_moved_possible_edges g p v old_comm new_comm
              Hg Hsmall Hp Hpe Hv Hnew Hne) as [Hm Hsum].
  unfold exact_possible_edges. unfold moved_possible_edges in Hm.
  change (_csize (move_node_result g v old_comm new_comm p))
    with (_csize (move_node_admin g v old_comm new_comm p)).
  rewrite <-Hsum. simpl. rewrite bool_decide_eq_true_2 by done. by rewrite Hm.
Qed.

Lemma net_bind_cancel {E} (f f' : E → list (nat * Qc)) es c :
  (∀ e, e ∈ es → net c (f e) + net c (f' e) = 0)%Qc →
  (net c (es ≫= f) + net c (es ≫= f') = 0)%Qc.
Proof.
  induction es as [|e es IH]; intros Hz; [simpl; ring|].
  change ((e :: es) ≫= f) with (f e ++ (es ≫= f)).
  change ((e :: es) ≫= f') with (f' e ++ (es ≫= f')).
  rewrite !net_app.
  transitivity ((net c (f e) + net c (f' e)) + (net c (es ≫= f) + net c (es ≫= f')))%Qc; [ring|].
  rewrite Hz, IH; [ring| |left]. intros; apply Hz. by right.
Qed.

Lemma net_all_bind_cancel {E} (f f' : E → list (nat * Qc)) es :
  (∀ e, e ∈ es → net_all (f e) + net_all (f' e) = 0)%Qc →
  (net_all (es ≫= f) + net_all (es ≫= f') = 0)%Qc.
Proof.
  induction es as [|e es IH]; intros Hz; [simpl; ring|].
  change ((e :: es) ≫= f) with (f e ++ (es ≫= f)).
  change ((e :: es) ≫= f') with (f' e ++ (es ≫= f')).
  rewrite !net_all_app.
  transitivity ((net_all (f e) + net_all (f' e)) + (net_all (es ≫= f) + net_all (es ≫= f')))%Qc;
    [ring|].
  rewrite Hz, IH; [ring| |left]. intros; apply Hz. by right.
Qed.

Lemma net_dir_bumps_cancel g a b c ue :
  (net c (dir_bumps g a b ue) + net c (dir_bumps g b a ue) = 0)%Qc.
Proof. unfold dir_bumps. simpl. repeat case_decide; ring. Qed.

(** The internal weight that an edge moves on the way out is the one
    it moves back on the way in. *)
Lemma in_bumps_back g m v c0 A ue :
  m !! v = Some c0 → A ≠ c0 →
  in_bumps g (alter (λ _, A) v m) v A c0 ue
  = (if bool_decide (m !! ue.1 = Some A) || bool_decide (ue.1 = v)
     then [(A, - int_weight g v ue)%Qc] else [])
    ++ (if bool_decide (m !! ue.1 = Some c0)
        then [(c0, int_weight g v ue)] else []).
Proof.
  intros Hv Hne. assert (v < length m) as Hlt by (by eapply lookup_lt_Some).
  unfold in_bumps. rewrite lookup_alter_const by done.
  destruct (decide (ue.1 = v)) as [Hu|Hu].
  - rewrite Hu, Hv. rewrite !(bool_decide_eq_true_2 (v = v)) by done.
    rewrite (bool_decide_eq_true_2 (Some A = Some A)) by done.
    rewrite (bool_decide_eq_true_2 (Some c0 = Some c0)) by done.
    by rewrite !orb_true_r.
  - rewrite !(bool_decide_eq_false_2 (ue.1 = v)) by done. by rewrite !orb_false_r.
Qed.

Lemma net_in_bumps_cancel g m v c0 A c ue :
  m !! v = Some c0 → A ≠ c0 →
  (net c (in_bumps g m v c0 A ue) + net c (in_bumps g (alter (λ _, A) v m) v A c0 ue) = 0)%Qc.
Proof.
  intros Hv Hne. rewrite in_bumps_back by done. unfold in_bumps.
  destruct (bool_decide (m !! ue.1 = Some c0)),
           (bool_decide (m !! ue.1 = Some A) || bool_decide (ue.1 = v));
    simpl; repeat case_decide; ring.
Qed.

Lemma net_all_in_bumps_cancel g m v c0 A ue :
  m !! v = Some c0 → A ≠ c0 →
  (net_all (in_bumps g m v c0 A ue)
   + net_all (in_bumps g (alter (λ _, A) v m) v A c0 ue) = 0)%Qc.
Proof.
  intros Hv Hne. rewrite in_bumps_back by done. unfold in_bumps.
  destruct (bool_decide (m !! ue.1 = Some c0)),
           (bool_decide (m !! ue.1 = Some A) || bool_decide (ue.1 = v));
    simpl; ring.
Qed.

Lemma size_t_add_sub x y :
  (0 ≤ x < size_t_modulus)%Z → size_t_sub (size_t_add x y) y = x.
Proof.
  intros Hx. unfold size_t_add, size_t_sub.
  rewrite Zminus_mod_idemp_l. replace (x + y - y)%Z with x by lia. by apply Z.mod_small.
Qed.

Lemma move_node_result_membership g v old_comm new_comm p :
  _membership (move_node_result g v old_comm new_comm p)
  = alter (λ _, new_comm) v (_membership p).
Proof. done. Qed.

Lemma move_node_result_in g v old_comm new_comm p :
  _total_weight_in_comm (move_node_result g v old_comm new_comm p)
  = apply_bumps ((incident g v IGRAPH_OUT ++ incident g v IGRAPH_IN)
                   ≫= in_bumps g (_membership p) v old_comm new_comm)
      (_total_weight_in_comm p).
Proof. simpl. by rewrite bind_app, apply_bumps_app. Qed.

Lemma move_node_result_in_all g v old_comm new_comm p :
  _total_weight_in_all_comms (move_node_result g v old_comm new_comm p)
  = (_total_weight_in_all_comms p
     + net_all ((incident g v IGRAPH_OUT ++ incident g v IGRAPH_IN)
                  ≫= in_bumps g (_membership p) v old_comm new_comm))%Qc.
Proof. simpl. rewrite bind_app, net_all_app. ring. Qed.

Lemma move_node_result_from g v old_comm new_comm p :
  _total_weight_from_comm (move_node_result g v old_comm new_comm p)
  = apply_bumps (incident g v IGRAPH_OUT ≫= dir_bumps g old_comm new_comm)
      (_total_weight_from_comm p).
Proof. simpl. by rewrite from_bumps_in. Qed.

Lemma move_node_result_to g v old_comm new_comm p :
  _total_weight_to_comm (move_node_result g v old_comm new_comm p)
  = apply_bumps (incident g v IGRAPH_IN ≫= dir_bumps g old_comm new_comm)
      (_total_weight_to_comm p).
Proof. simpl. by rewrite to_bumps_out. Qed.


Lemma move_node_back_aggregates g p v c0 A :
  wf_graph g → small_sizes g → consistent g p → exact_possible_edges g p →
  _membership p !! v = Some c0 →
  A < length (_csize p) → A ≠ c0 →
  same_aggregates p (move_node_result g v A c0 (move_node_result g v c0 A p)).
Proof.
  intros Hg Hsmall Hp Hpe Hv HA Hne.
  pose proof (consistent_vertex g p v c0 Hp Hv) as Hvn.
  pose proof (cons_range g p Hp v c0 Hv) as Hc0.
  assert (v < length (_membership p)) as Hvl by (by eapply lookup_lt_Some).
  destruct (move_sizes g p v c0 A) as (O & N & HO & HN & Hs & HN0 & HOt & HNt); try done.
  pose proof (wf_total_size g Hg) as Htot.
  pose proof (move_node_consistent g p v c0 A Hg Hp Hv HA) as Hp1.
  set (p1 := move_node_result g v c0 A p) in *.
  assert (_membership p1 !! v = Some A) as Hv1.
  { unfold p1. rewrite move_node_result_membership, lookup_alter_const by done.
    by rewrite decide_True. }
  assert (_csize p1 = alter (λ x, size_t_add x (node_size g v)) A
                        (alter (λ x, size_t_sub x (node_size g v)) c0 (_csize p))) as Hcs1
    by done.
  assert (c0 < length (_csize p1)) as Hc01 by (by rewrite Hcs1, !length_alter).
  pose proof (move_node_consistent g p1 v A c0 Hg Hp1 Hv1 Hc01) as Hp2.
  set (p2 := move_node_result g v A c0 p1) in *.
  assert (_csize p2 = _csize p) as Hcs2.
  { unfold p2. simpl. apply list_eq. intros c.
    destruct (decide (c = c0)) as [->|Hc1]; [|destruct (decide (c = A)) as [->|Hc2]].
    - rewrite list_lookup_alter_eq, list_lookup_alter_ne by done.
      rewrite list_lookup_alter_ne, list_lookup_alter_eq, HO by done. simpl. f_equal.
      apply size_t_sub_add. unfold size_t_modulus. lia.
    - rewrite list_lookup_alter_ne, list_lookup_alter_eq by done.
      rewrite list_lookup_alter_eq, list_lookup_alter_ne, HN by done. simpl. f_equal.
      apply size_t_add_sub. unfold size_t_modulus. lia.
    - by rewrite !list_lookup_alter_ne by done. }
  split.
  - unfold p2, p1. rewrite !move_node_result_membership. apply list_eq. intros u.
    rewrite lookup_alter_const by (by rewrite length_alter).
    rewrite lookup_alter_const by done. case_decide; by subst.
  - unfold p2. simpl. apply list_eq. intros c.
    pose proof (cons_members g p Hp) as Hmb.
    destruct (decide (c = c0)) as [->|Hc1]; [|destruct (decide (c = A)) as [->|Hc2]].
    + rewrite list_lookup_alter_eq, list_lookup_alter_ne by done.
      rewrite list_lookup_alter_ne, list_lookup_alter_eq, (Hmb c0 Hc0) by done. simpl. f_equal.
      assert (v ∈ members (_membership p) c0 (vertices g)).
      { apply members_elem. split; [by apply vertices_elem|done]. }
      apply set_eq. intros u. rewrite elem_of_union, elem_of_difference, elem_of_singleton.
      destruct (decide (u = v)); naive_solver.
    + rewrite list_lookup_alter_ne, list_lookup_alter_eq by done.
      rewrite list_lookup_alter_eq, list_lookup_alter_ne, (Hmb A HA) by done. simpl. f_equal.
      assert (v ∉ members (_membership p) A (vertices g)).
      { rewrite members_elem. naive_solver. }
      apply set_eq. intros u. rewrite elem_of_difference, elem_of_union, elem_of_singleton.
      destruct (decide (u = v)); naive_solver.
    + by rewrite !list_lookup_alter_ne by done.
  - done.
  - unfold p2. rewrite move_node_result_in. unfold p1 at 2.
    rewrite move_node_result_in, <-apply_bumps_app. apply apply_bumps_net_zero. intros c.
    rewrite net_app. unfold p1. rewrite move_node_result_membership.
    apply net_bind_cancel. intros. by apply net_in_bumps_cancel.
  - unfold p2. rewrite move_node_result_from. unfold p1.
    rewrite move_node_result_from, <-apply_bumps_app. apply apply_bumps_net_zero. intros c.
    rewrite net_app. apply net_bind_cancel. intros. apply net_dir_bumps_cancel.
  - unfold p2. rewrite move_node_result_to. unfold p1.
    rewrite move_node_result_to, <-apply_bumps_app. apply apply_bumps_net_zero. intros c.
    rewrite net_app. apply net_bind_cancel. intros. apply net_dir_bumps_cancel.
  - unfold p2, p1. rewrite !move_node_result_in_all, !move_node_result_membership.
    rewrite <-Qcplus_assoc, net_all_bind_cancel; [ring|].
    intros. by apply net_all_in_bumps_cancel.
  - assert (exact_possible_edges g p1) as He1 by (by apply move_node_exact).
    assert (exact_possible_edges g p2) as He2 by (by apply move_node_exact).
    unfold exact_possible_edges in *. by rewrite He2, Hcs2, Hpe.
Qed.

Lemma same_aggregates_refl p : same_aggregates p p.
Proof. by split. Qed.


Lemma move_node_result_pool_keeps g p v old_comm new_comm :
  new_comm ≠ old_comm →
  _csize (move_node_result g v old_comm new_comm p) !! old_comm = Some 0%Z →
  old_comm ∈ _empty_communities (move_node_result g v old_comm new_comm p).
Proof.
  intros Hne Hz. simpl in *. rewrite list_lookup_alter_ne in Hz by done.
  rewrite (list_lookup_total_correct _ _ _ Hz).
  rewrite (bool_decide_eq_true_2 (0 = 0)%Z) by done.
  assert (old_comm ∈ _empty_communities p ++ [old_comm]) as Hin.
  { apply elem_of_app. right. left. }
  case_bool_decide; [|done].
  destruct (erase_last new_comm (_empty_communities p ++ [old_comm])) as [l'|] eqn:E; [|done].
  simpl. eapply erase_last_elem; done.
Qed.

Lemma move_node_round_trip g p v c0 A :
  wf_graph g → small_sizes g → consistent g p → exact_possible_edges g p →
  _membership p !! v = Some c0 → valid_target p A →
  ∃ p1 p2, move_node g v A p = Ok () p1 ∧ move_node g v c0 p1 = Ok () p2
           ∧ same_aggregates p p2.
Proof.
  intros Hg Hsmall Hp Hpe Hv [HA Hpool].
  destruct (decide (A = c0)) as [->|Hne].
  { exists p, p. rewrite move_node_noop by done. split; [done|]. split; [done|].
    apply same_aggregates_refl. }
  assert (v < length (_membership p)) as Hvl by (by eapply lookup_lt_Some).
  pose proof (cons_range g p Hp v c0 Hv) as Hc0.
  pose proof (move_node_consistent g p v c0 A Hg Hp Hv HA) as Hp1.
  exists (move_node_result g v c0 A p),
         (move_node_result g v A c0 (move_node_result g v c0 A p)).
  assert (_membership (move_node_result g v c0 A p) !! v = Some A) as Hv1.
  { rewrite move_node_result_membership, lookup_alter_const by done.
    by rewrite decide_True. }
  assert (c0 < length (_csize (move_node_result g v c0 A p))) as Hc01.
  { simpl. by rewrite !length_alter. }
  split; [|split].
  - apply move_node_returns. apply consistent_move_node_pre; auto.
    intros _. by apply small_moved_is_Some.
  - apply move_node_returns. apply consistent_move_node_pre; try done.
    + intros _. by apply move_node_result_pool_keeps.
    + intros _. apply small_moved_is_Some; try done. by apply move_node_exact.
  - by apply move_node_back_aggregates.
Qed.

Lemma alter_const_insert {A} (l : list A) i x : alter (λ _, x) i l = <[i := x]> l.
Proof.
  apply list_eq. intros j. rewrite list_lookup_alter.
  destruct (decide (i = j)) as [->|Hne]; [|by rewrite list_lookup_insert_ne].
  destruct (l !! j) as [y|] eqn:E; simpl.
  - rewrite list_lookup_insert_eq; [done|]. by eapply lookup_lt_Some.
  - rewrite list_insert_ge; [done|]. by apply lookup_ge_None.
Qed.

Lemma modify_at_eq {A} (vec : MutableVertexPartition → list A) set i f s :
  i < length (vec s) → modify_at vec set i f s = Ok () (set (alter f i (vec s)) s).
Proof.
  intros Hi. unfold modify_at. by destruct (lookup_lt_is_Some_2 _ _ Hi) as [x ->].
Qed.

(** [add_empty_community] has no undefined behaviour: it throws when
    the communities, the new one included, outnumber the vertices, and
    otherwise returns the new community. *)
Lemma add_empty_community_eq g p :
  add_empty_community g p
  = if bool_decide (vcount g < S (length (community p)))
    then Throw CapacityExceeded (set_community (community p ++ [∅]) p)
    else Ok (length (community p)) (with_empty_community p).
Proof.
  unfold add_empty_community, mbind, M_bind, modify, gets, nb_communities. simpl.
  rewrite length_app. simpl. rewrite Nat.add_1_r.
  case_bool_decide; [done|]. simpl. rewrite Nat.sub_0_r.
  rewrite modify_at_eq by (simpl; rewrite length_resize; lia). simpl.
  rewrite modify_at_eq by (simpl; rewrite length_resize; lia). simpl.
  rewrite modify_at_eq by (simpl; rewrite length_resize; lia). simpl.
  rewrite modify_at_eq by (simpl; rewrite length_resize; lia). simpl.
  unfold mret, M_ret. f_equal. unfold with_empty_community.
  by rewrite !alter_const_insert.
Qed.

Lemma resize_insert_snoc {A} (l : list A) x :
  <[length l := x]> (resize (S (length l)) x l) = l ++ [x].
Proof.
  rewrite resize_ge by lia. replace (S (length l) - length l) with 1 by lia. simpl.
  rewrite insert_app_r_alt by lia. by rewrite Nat.sub_diag.
Qed.

Lemma size_in_none g m c vs :
  (∀ v, v ∈ vs → m !! v ≠ Some c) → size_in g m c vs = 0%Z.
Proof.
  induction vs as [|v vs IH]; intros Hn; [done|].
  rewrite size_in_cons, IH by (intros; apply Hn; by right).
  rewrite decide_False; [done|]. apply Hn. left.
Qed.

Lemma members_none m c vs :
  (∀ v, v ∈ vs → m !! v ≠ Some c) → members m c vs = ∅.
Proof.
  intros Hn. apply set_eq. intros v. rewrite members_elem. set_solver.
Qed.

Lemma possible_edges_0 g : possible_edges g 0 = 0%Z.
Proof. unfold possible_edges. by destruct (is_directed g). Qed.

Lemma with_empty_community_consistent g p :
  consistent g p → consistent g (with_empty_community p).
Proof.
  intros [Hm Hlc Hli Hlf Hlt Hr Hcs Hmb].
  assert (∀ v, v ∈ vertices g → _membership p !! v ≠ Some (length (_csize p))) as Hfresh.
  { intros v _ Hv. apply Hr in Hv. lia. }
  unfold with_empty_community.
  replace (<[length (community p):=0%Z]> (resize (S (length (community p))) 0%Z (_csize p)))
    with (_csize p ++ [0%Z]) by (rewrite Hlc; by rewrite resize_insert_snoc).
  replace (<[length (community p):=0%Qc]>
             (resize (S (length (community p))) 0%Qc (_total_weight_in_comm p)))
    with (_total_weight_in_comm p ++ [0%Qc])
    by (rewrite Hlc, <-Hli; by rewrite resize_insert_snoc).
  replace (<[length (community p):=0%Qc]>
             (resize (S (length (community p))) 0%Qc (_total_weight_from_comm p)))
    with (_total_weight_from_comm p ++ [0%Qc])
    by (rewrite Hlc, <-Hlf; by rewrite resize_insert_snoc).
  replace (<[length (community p):=0%Qc]>
             (resize (S (length (community p))) 0%Qc (_total_weight_to_comm p)))
    with (_total_weight_to_comm p ++ [0%Qc])
    by (rewrite Hlc, <-Hlt; by rewrite resize_insert_snoc).
  split; simpl; rewrite ?length_app; simpl; try lia.
  - intros v c Hv. apply Hr in Hv. lia.
  - intros c Hc. destruct (decide (c = length (_csize p))) as [->|Hne].
    + rewrite lookup_app_r, Nat.sub_diag by lia. simpl. by rewrite size_in_none.
    + rewrite lookup_app_l by lia. apply Hcs. lia.
  - intros c Hc. destruct (decide (c = length (_csize p))) as [->|Hne].
    + rewrite lookup_app_r by lia. rewrite Hlc, Nat.sub_diag. simpl. by rewrite members_none.
    + rewrite lookup_app_l by lia. apply Hmb. lia.
Qed.

Lemma with_empty_community_exact g p :
  consistent g p → exact_possible_edges g p →
  exact_possible_edges g (with_empty_community p).
Proof.
  intros Hp Hpe. unfold exact_possible_edges, with_empty_community. simpl.
  rewrite (cons_community g p Hp), resize_insert_snoc.
  rewrite fmap_app, Zsum_app. simpl. rewrite possible_edges_0. unfold exact_possible_edges in Hpe. lia.
Qed.

Lemma get_empty_community_eq g p :
  get_empty_community g p
  = match last (_empty_communities p) with
    | Some c => Ok c p
    | None =>
        if bool_decide (vcount g < S (length (community p)))
        then Throw CapacityExceeded (set_community (community p ++ [∅]) p)
        else Ok (length (community p)) (with_empty_community p)
    end.
Proof.
  unfold get_empty_community, mbind, M_bind, gets, when.
  destruct (_empty_communities p) as [|c pool] eqn:E.
  - rewrite bool_decide_eq_true_2 by done. unfold mbind, M_bind.
    rewrite add_empty_community_eq. case_bool_decide; [done|].
    unfold mret, M_ret. simpl. rewrite E. done.
  - rewrite bool_decide_eq_false_2 by done. unfold mret, M_ret. rewrite E.
    destruct (last (c :: pool)) eqn:El; [done|]. by apply last_None in El.
Qed.

Lemma seq_split n l1 i l2 : seq 0 n = l1 ++ i :: l2 → i = length l1 ∧ i < n.
Proof.
  intros Hl. assert (seq 0 n !! length l1 = Some i) as Hi.
  { rewrite Hl. by rewrite list_lookup_middle. }
  apply lookup_seq in Hi. lia.
Qed.

(** A loop that overwrites the membership vector entry by entry. *)
Lemma overwrite_loop_returns (body : nat → M unit) (F : nat → nat) s n :
  n ≤ length (_membership s) →
  (∀ i s1, i < n →
     drop i (_membership s1) = drop i (_membership s) →
     body i s1 = Ok () (set_membership (alter (λ _, F i) i (_membership s1)) s1)) →
  returns (for_each (seq 0 n) body) s
    (λ _ s', s' = set_membership ((F <$> seq 0 n) ++ drop n (_membership s)) s).
Proof.
  intros Hn Hbody.
  eapply returns_mono.
  { apply (returns_for_each _
      (λ l1 s1, s1 = set_membership ((F <$> l1) ++ drop (length l1) (_membership s)) s)).
    - simpl. rewrite drop_0. by destruct s.
    - intros l1 i l2 s1 Hl ->. apply seq_split in Hl as [-> Hi].
      exists (), (set_membership ((F <$> l1 ++ [length l1])
                                   ++ drop (length (l1 ++ [length l1])) (_membership s)) s).
      split; [|done]. rewrite Hbody; [|done|].
      + f_equal. unfold set_membership. simpl. f_equal.
        rewrite fmap_app, length_app. simpl. rewrite <-app_assoc. simpl.
        replace (length l1) with (length (F <$> l1) + 0) at 1 by (rewrite length_fmap; lia).
        rewrite alter_app_r.
        destruct (drop (length l1) (_membership s)) as [|x rest] eqn:E.
        { apply (f_equal length) in E. rewrite length_drop in E. simpl in E. lia. }
        simpl. do 2 f_equal.
        rewrite <-(drop_drop _ 1 (length l1)), E. done.
      + simpl. rewrite drop_app_length'; [done|]. by rewrite length_fmap. }
  intros [] s' ->. by rewrite length_seq.
Qed.

Lemma bind_returns_eq {B} (m : M unit) (k : unit → M B) s s1 :
  returns m s (λ _ s', s' = s1) → (m ≫= k) s = k () s1.
Proof. intros ([] & s' & Hm & ->). unfold mbind, M_bind. by rewrite Hm. Qed.

Lemma fmap_seq_take (l : list nat) n :
  n ≤ length l → (λ i, default 0 (l !! i)) <$> seq 0 n = take n l.
Proof.
  intros Hn. apply list_eq. intros i. rewrite list_lookup_fmap.
  destruct (decide (i < n)).
  - rewrite lookup_seq_lt, lookup_take_lt by done. simpl.
    destruct (lookup_lt_is_Some_2 l i) as [x ->]; [lia|]. done.
  - rewrite lookup_seq_ge, lookup_take_ge by lia. done.
Qed.

Lemma fmap_seq_fmap (f : nat → nat) (l : list nat) :
  (λ i, f (default 0 (l !! i))) <$> seq 0 (length l) = f <$> l.
Proof.
  apply list_eq. intros i. rewrite !list_lookup_fmap.
  destruct (l !! i) as [x|] eqn:E; simpl.
  - rewrite lookup_seq_lt by (by eapply lookup_lt_Some). simpl. by rewrite E.
  - rewrite lookup_seq_ge; [done|]. by apply lookup_ge_None.
Qed.

Lemma assign_loop_returns g new_membership s :
  vcount g ≤ length new_membership → length (_membership s) = vcount g →
  returns (for_each (seq 0 (vcount g)) (assign_vertex new_membership)) s
    (λ _ s', s' = set_membership (take (vcount g) new_membership) s).
Proof.
  intros Hnew Hm.
  eapply returns_mono.
  { apply (overwrite_loop_returns _ (λ i, default 0 (new_membership !! i))); [lia|].
    intros i s1 Hi Hd. unfold assign_vertex.
    destruct (lookup_lt_is_Some_2 new_membership i) as [c Hc]; [lia|]. rewrite Hc. simpl.
    apply modify_at_eq.
    apply (f_equal length) in Hd. rewrite !length_drop in Hd. lia. }
  intros [] s' ->. rewrite fmap_seq_take by done.
  by rewrite drop_ge, app_nil_r by lia.
Qed.

Lemma renumber_loop_returns g table s :
  length (_membership s) = vcount g →
  (∀ c, c ∈ _membership s → c < length table) →
  returns (for_each (seq 0 (vcount g)) (renumber_vertex table)) s
    (λ _ s', s' = set_membership ((λ c, default 0 (table !! c)) <$> _membership s) s).
Proof.
  intros Hm Hr.
  eapply returns_mono.
  { apply (overwrite_loop_returns _
             (λ i, default 0 (table !! default 0 (_membership s !! i)))); [lia|].
    intros i s1 Hi Hd. unfold renumber_vertex, mbind, M_bind, index.
    destruct (lookup_lt_is_Some_2 (_membership s) i) as [c Hc]; [lia|].
    assert (_membership s1 !! i = Some c) as Hc1.
    { rewrite <-(Nat.add_0_r i), <-lookup_drop, Hd, lookup_drop, Nat.add_0_r. done. }
    rewrite Hc1, Hc. simpl.
    destruct (lookup_lt_is_Some_2 table c) as [d Hd']; [by eapply Hr, list_elem_of_lookup_2|].
    rewrite Hd'. simpl. apply modify_at_eq. by eapply lookup_lt_Some. }
  intros [] s' ->. rewrite <-Hm.
  rewrite (fmap_seq_fmap (λ c, default 0 (table !! c)) (_membership s)).
  by rewrite drop_ge, app_nil_r by lia.
Qed.

(** The reconstructions are a rewrite of the membership vector followed
    by a full initialisation. *)
Lemma renumber_communities_with_eq g new_membership p :
  vcount g ≤ length new_membership → length (_membership p) = vcount g →
  renumber_communities_with g new_membership p
  = init_admin g (set_community [] (set_membership (take (vcount g) new_membership) p)).
Proof.
  intros Hnew Hm. unfold renumber_communities_with.
  by rewrite (bind_returns_eq _ _ _ _ (assign_loop_returns g new_membership p Hnew Hm)).
Qed.

Lemma from_partition_eq g partition p :
  vcount g ≤ length (_membership partition) → length (_membership p) = vcount g →
  from_partition g partition p
  = init_admin g
      (set_community [] (set_membership (take (vcount g) (_membership partition)) p)).
Proof.
  intros Hnew Hm. unfold from_partition.
  by rewrite (bind_returns_eq _ _ _ _ (assign_loop_returns g _ p Hnew Hm)).
Qed.

Lemma from_coarser_partition_eq g coarser_partition_membership p :
  length (_membership p) = vcount g →
  (∀ c, c ∈ _membership p → c < length coarser_partition_membership) →
  from_coarser_partition g coarser_partition_membership p
  = init_admin g
      (set_community []
         (set_membership
            ((λ c, default 0 (coarser_partition_membership !! c)) <$> _membership p) p)).
Proof.
  intros Hm Hr. unfold from_coarser_partition.
  by rewrite (bind_returns_eq _ _ _ _ (renumber_loop_returns g _ p Hm Hr)).
Qed.

Lemma from_coarser_partition_with_eq g coarser_partition_membership coarser_node p :
  length (_membership p) = vcount g →
  (∀ v, v < vcount g →
     ∃ v_level2, coarser_node !! v = Some v_level2
                 ∧ v_level2 < length coarser_partition_membership) →
  from_coarser_partition_with g coarser_partition_membership coarser_node p
  = init_admin g
      (set_community []
         (set_membership
            ((λ v, default 0 (coarser_partition_membership !! default 0 (coarser_node !! v)))
               <$> seq 0 (vcount g)) p)).
Proof.
  intros Hm Hr. unfold from_coarser_partition_with.
  erewrite bind_returns_eq; [reflexivity|].
  eapply returns_mono.
  { apply (overwrite_loop_returns _
             (λ v, default 0 (coarser_partition_membership !! default 0 (coarser_node !! v))));
      [lia|].
    intros i s1 Hi Hd. unfold coarser_vertex.
    destruct (Hr i Hi) as (v2 & Hv2 & Hlt). rewrite Hv2. simpl.
    destruct (lookup_lt_is_Some_2 coarser_partition_membership v2 Hlt) as [c Hc].
    rewrite Hc. simpl. apply modify_at_eq.
    apply (f_equal length) in Hd. rewrite !length_drop in Hd. lia. }
  intros [] s' ->. by rewrite drop_ge, app_nil_r by lia.
Qed.

Lemma renumber_communities_eq g p :
  length (_membership p) = vcount g →
  (∀ c, c ∈ _membership p → c < length (new_comm_ids p)) →
  renumber_communities g p
  = init_admin g
      (set_community []
         (set_membership ((λ c, default 0 (new_comm_ids p !! c)) <$> _membership p) p)).
Proof.
  intros Hm Hr. unfold renumber_communities, mbind at 1, M_bind at 1, gets.
  by rewrite (bind_returns_eq _ _ _ _ (renumber_loop_returns g _ p Hm Hr)).
Qed.

Lemma cache_of_set_cache mode x p : cache_of mode (set_cache mode x p) = x.
Proof. by destruct mode. Qed.

Lemma set_cache_set_cache mode x y p :
  set_cache mode x (set_cache mode y p) = set_cache mode x p.
Proof. by destruct mode. Qed.

Lemma set_cache_id mode p : set_cache mode (cache_of mode p) p = p.
Proof. by destruct mode, p. Qed.

Lemma set_cache_membership mode x p : _membership (set_cache mode x p) = _membership p.
Proof. done. Qed.

Lemma net_cache_bumps g m v es c :
  (∀ ue, ue ∈ es → is_Some (m !! ue.1)) →
  net c (cache_bumps g m v es)
  = Qcsum ((λ ue, if decide (m !! ue.1 = Some c) then cached_edge_weight g v ue else 0%Qc)
             <$> es).
Proof.
  induction es as [|ue es IH]; intros Hes; [done|].
  simpl. rewrite IH by (intros; apply Hes; by right).
  destruct (Hes ue) as [d Hd]; [left|]. rewrite Hd. simpl.
  destruct (decide (d = c)) as [->|Hne].
  - by rewrite decide_True.
  - rewrite decide_False by congruence. symmetry. apply Qcplus_0_l.
Qed.

Lemma lookup_replicate_bumps bs n c :
  c < n → apply_bumps bs (replicate n 0%Qc) !! c = Some (net c bs).
Proof.
  intros Hc. rewrite lookup_apply_bumps, lookup_replicate_2 by done. simpl. f_equal. ring.
Qed.

(** The loop that zeroes the entries listed as touched leaves a table
    of zeros. *)
Lemma cache_reset_returns mode p n :
  cache_ok n (cache_of mode p) →
  returns (for_each (_cached_neigh_comms (cache_of mode p))
             (λ it, modify_at (cached_weight mode) (set_cached_weight_of mode) it (λ _, 0%Qc))) p
    (λ _ p', p' = set_cached_weight_of mode (replicate n 0%Qc) p).
Proof.
  intros [Hlen Hneighs Hlisted].
  set (neighs := _cached_neigh_comms (cache_of mode p)) in *.
  set (table := _cached_weight_community (cache_of mode p)) in *.
  eapply returns_mono.
  { apply (returns_for_each _
      (λ l1 s1, ∃ t, s1 = set_cached_weight_of mode t p ∧ length t = n
                     ∧ ∀ i, t !! i = if decide (i ∈ l1) then (λ _, 0%Qc) <$> table !! i
                                     else table !! i)).
    - exists table. split; [|split; [done|]].
      + unfold set_cached_weight_of.
        replace (set_cached_weight table (cache_of mode p)) with (cache_of mode p)
          by (subst table; by destruct (cache_of mode p)).
        by rewrite set_cache_id.
      + intros i. rewrite decide_False; [done|]. apply not_elem_of_nil.
    - intros l1 it l2 s1 Hl (t & -> & Ht & Hti).
      assert (it < n) as Hit.
      { apply Hneighs. subst neighs. rewrite Hl. apply elem_of_app. right. left. }
      apply returns_modify_at.
      { unfold cached_weight, set_cached_weight_of. rewrite cache_of_set_cache. simpl. lia. }
      exists (alter (λ _, 0%Qc) it t). split; [|split].
      + unfold cached_weight, set_cached_weight_of.
        rewrite !cache_of_set_cache, set_cache_set_cache. done.
      + by rewrite length_alter.
      + intros i. rewrite list_lookup_alter.
        destruct (decide (it = i)) as [->|Hne]; rewrite Hti.
        * rewrite (decide_True (P := i ∈ l1 ++ [i])) by (apply elem_of_app; right; left).
          case_decide; by destruct (table !! i).
        * destruct (decide (i ∈ l1)) as [Hin|Hin].
          -- rewrite (decide_True (P := i ∈ l1 ++ [it])) by (apply elem_of_app; by left).
             done.
          -- rewrite (decide_False (P := i ∈ l1 ++ [it])); [done|].
             rewrite elem_of_app, list_elem_of_singleton. naive_solver. }
  intros [] p' (t & -> & Ht & Hti). f_equal.
  apply list_eq. intros i. rewrite Hti.
  destruct (table !! i) as [x|] eqn:E.
  - rewrite lookup_replicate_2 by (rewrite <-Hlen; by eapply lookup_lt_Some).
    case_decide as Hin; [done|]. destruct (decide (x = 0%Qc)) as [->|Hx]; [done|].
    destruct Hin. by eapply Hlisted.
  - apply lookup_ge_None in E.
    rewrite (proj1 (lookup_replicate_None n 0%Qc i)) by lia. by case_decide.
Qed.

Lemma cache_edges_returns g v mode p mk es :
  (∀ ue, ue ∈ es → ∃ c, _membership p !! ue.1 = Some c ∧ c < vcount g) →
  returns (for_each es (cache_edge g v mode))
    (set_cache mode {| _current_node_cache_community := mk;
                       _cached_weight_community := replicate (vcount g) 0%Qc;
                       _cached_neigh_comms := [] |} p)
    (λ _ p', ∃ neighs,
       p' = set_cache mode
              {| _current_node_cache_community := mk;
                 _cached_weight_community :=
                   apply_bumps (cache_bumps g (_membership p) v es)
                     (replicate (vcount g) 0%Qc);
                 _cached_neigh_comms := neighs |} p
       ∧ cache_ok (vcount g) (cache_of mode p')).
Proof.
  intros Hes.
  apply (returns_for_each _
    (λ l1 p', ∃ neighs,
       p' = set_cache mode
              {| _current_node_cache_community := mk;
                 _cached_weight_community :=
                   apply_bumps (cache_bumps g (_membership p) v l1)
                     (replicate (vcount g) 0%Qc);
                 _cached_neigh_comms := neighs |} p
       ∧ cache_ok (vcount g) (cache_of mode p'))).
  - exists []. split; [done|]. rewrite cache_of_set_cache.
    split; simpl.
    + by rewrite length_replicate.
    + intros i Hi. by apply elem_of_nil in Hi.
    + intros i x Hi Hx. apply lookup_replicate in Hi as [-> _]. done.
  - intros l1 ue l2 s1 Hl (neighs & -> & Hok). rewrite cache_of_set_cache in Hok.
    destruct Hok as [Hlen Hneighs Hlisted]. simpl in *.
    destruct (Hes ue) as (comm & Hcomm & Hlt).
    { rewrite Hl. apply elem_of_app. right. left. }
    unfold cache_edge.
    apply returns_bind. eapply returns_index; [by rewrite set_cache_membership|].
    apply returns_bind. apply returns_modify_at.
    { unfold cached_weight. rewrite cache_of_set_cache. simpl.
      by rewrite length_apply_bumps, length_replicate. }
    unfold cached_weight, set_cached_weight_of.
    rewrite ?cache_of_set_cache, ?set_cache_set_cache. simpl.
    rewrite ?cache_of_set_cache, ?set_cache_set_cache. simpl.
    fold (cached_edge_weight g v ue).
    set (t1 := alter (λ x, x + cached_edge_weight g v ue)%Qc comm
                 (apply_bumps (cache_bumps g (_membership p) v l1)
                    (replicate (vcount g) 0%Qc))).
    assert (t1 = apply_bumps (cache_bumps g (_membership p) v (l1 ++ [ue]))
                   (replicate (vcount g) 0%Qc)) as Ht1.
    { unfold cache_bumps. rewrite fmap_app, apply_bumps_app. simpl. by rewrite Hcomm. }
    assert (length t1 = vcount g) as Hlen1 by (subst t1; by rewrite length_alter).
    apply returns_bind. apply returns_index_lt.
    { rewrite cache_of_set_cache. simpl. lia. }
    intros x Hx. rewrite cache_of_set_cache in Hx. simpl in Hx.
    apply returns_when; intros Hb.
    + apply returns_modify. rewrite cache_of_set_cache, set_cache_set_cache. simpl.
      exists (neighs ++ [comm]). rewrite <-Ht1. split; [done|].
      rewrite cache_of_set_cache. split; simpl; [done| |].
      * intros i Hi. apply elem_of_app in Hi as [Hi|Hi]; [by apply Hneighs|].
        apply list_elem_of_singleton in Hi. by subst.
      * intros i y Hi Hy. apply elem_of_app.
        destruct (decide (i = comm)) as [->|Hne]; [right; by left|left].
        subst t1. rewrite list_lookup_alter_ne in Hi by done. by eapply Hlisted.
    + exists neighs. rewrite <-Ht1. split; [done|].
      rewrite cache_of_set_cache. split; simpl; [done|done|].
      intros i y Hi Hy.
      destruct (decide (i = comm)) as [->|Hne].
      * apply bool_decide_eq_false in Hb. simplify_eq. by destruct Hb.
      * subst t1. rewrite list_lookup_alter_ne in Hi by done. by eapply Hlisted.
Qed.

Lemma incident_cacheable g p v mode :
  neighbours_cacheable g p v mode →
  ∀ ue, ue ∈ incident g v mode → ∃ c, _membership p !! ue.1 = Some c ∧ c < vcount g.
Proof. intros Hn ue Hue. by apply Hn, incident_neighbour. Qed.

Lemma cache_neigh_communities_returns g v mode p :
  cache_ok (vcount g) (cache_of mode p) → neighbours_cacheable g p v mode →
  returns (cache_neigh_communities g v mode) p
    (λ _ p', ∃ neighs,
       p' = set_cache mode
              {| _current_node_cache_community :=
                   _current_node_cache_community (cache_of mode p);
                 _cached_weight_community :=
                   apply_bumps (cache_bumps g (_membership p) v (incident g v mode))
                     (replicate (vcount g) 0%Qc);
                 _cached_neigh_comms := neighs |} p
       ∧ cache_ok (vcount g) (cache_of mode p')).
Proof.
  intros Hok Hn. unfold cache_neigh_communities.
  apply returns_bind, returns_gets.
  apply returns_bind. eapply returns_mono; [by apply cache_reset_returns|].
  intros [] s1 ->.
  apply returns_bind, returns_modify.
  unfold set_cached_weight_of. rewrite cache_of_set_cache, set_cache_set_cache. simpl.
  by apply cache_edges_returns, incident_cacheable.
Qed.

Lemma cache_filled_holds g v mode p neighs :
  neighbours_cacheable g p v mode →
  cache_holds g (_membership p) v mode
    (set_cache mode
       {| _current_node_cache_community := v;
          _cached_weight_community :=
            apply_bumps (cache_bumps g (_membership p) v (incident g v mode))
              (replicate (vcount g) 0%Qc);
          _cached_neigh_comms := neighs |} p).
Proof.
  intros Hn. unfold cache_holds, cached_weight. rewrite cache_of_set_cache. simpl.
  split; [done|]. intros comm Hcomm.
  rewrite lookup_replicate_bumps by done. f_equal. apply net_cache_bumps.
  intros ue Hue. destruct (incident_cacheable g p v mode Hn ue Hue) as (c & -> & _). done.
Qed.

(** A refill: the slot then holds the weights of [v] for the current
    membership, and nothing but the slot has changed. *)
Lemma ensure_cached_cold g v mode p :
  cache_ok (vcount g) (cache_of mode p) → neighbours_cacheable g p v mode →
  _current_node_cache_community (cache_of mode p) ≠ v →
  ∃ c, ensure_cached g v mode p = Ok () (set_cache mode c p)
       ∧ cache_ok (vcount g) c
       ∧ cache_holds g (_membership p) v mode (set_cache mode c p).
Proof.
  intros Hok Hn Hcold.
  destruct (cache_neigh_communities_returns g v mode p Hok Hn)
    as ([] & p1 & Hrun & neighs & -> & Hok1).
  rewrite cache_of_set_cache in Hok1.
  eexists. split; [|split].
  - unfold ensure_cached, mbind, M_bind, gets, when.
    rewrite bool_decide_eq_true_2 by done. unfold mbind, M_bind. rewrite Hrun.
    unfold modify. rewrite cache_of_set_cache, set_cache_set_cache. unfold set_current_node.
    simpl. reflexivity.
  - destruct Hok1. by split.
  - by apply cache_filled_holds.
Qed.

Lemma ensure_cached_warm g v mode p :
  _current_node_cache_community (cache_of mode p) = v → ensure_cached g v mode p = Ok () p.
Proof.
  intros Hwarm. unfold ensure_cached, mbind, M_bind, gets, when.
  by rewrite bool_decide_eq_false_2 by naive_solver.
Qed.

Lemma cache_holds_query g m v mode p comm :
  cache_holds g m v mode p → comm < vcount g →
  (ensure_cached g v mode ;; index (cached_weight mode) comm) p
  = Ok (weight_between g m v mode comm) p.
Proof.
  intros [Hwarm Hw] Hcomm. unfold mbind, M_bind.
  rewrite ensure_cached_warm by done. unfold index. by rewrite Hw.
Qed.

Lemma cold_query g v mode p comm :
  cache_ok (vcount g) (cache_of mode p) → neighbours_cacheable g p v mode →
  _current_node_cache_community (cache_of mode p) ≠ v → comm < vcount g →
  ∃ c, (ensure_cached g v mode ;; index (cached_weight mode) comm) p
       = Ok (weight_between g (_membership p) v mode comm) (set_cache mode c p)
       ∧ cache_ok (vcount g) c
       ∧ cache_holds g (_membership p) v mode (set_cache mode c p).
Proof.
  intros Hok Hn Hcold Hcomm.
  destruct (ensure_cached_cold g v mode p Hok Hn Hcold) as (c & Hrun & Hok1 & Hholds).
  exists c. split; [|done]. unfold mbind, M_bind. rewrite Hrun.
  destruct Hholds as [_ Hw]. unfold index. by rewrite Hw.
Qed.

Lemma no_throw_ret {A} (a : A) : no_throw (mret a).
Proof. by intros s e s'. Qed.

Lemma no_throw_bind {A B} (m : M A) (k : A → M B) :
  no_throw m → (∀ a, no_throw (k a)) → no_throw (m ≫= k).
Proof.
  intros Hm Hk s e s'. unfold mbind, M_bind.
  destruct (m s) as [a s1|e1 s1|] eqn:E; [apply Hk| |done].
  by destruct (Hm s e1 s1).
Qed.

Lemma no_throw_gets {A} (f : MutableVertexPartition → A) : no_throw (gets f).
Proof. by intros s e s'. Qed.

Lemma no_throw_modify f : no_throw (modify f).
Proof. by intros s e s'. Qed.

Lemma no_throw_undefined {A} : no_throw (@undefined A).
Proof. by intros s e s'. Qed.

Lemma no_throw_index {A} (vec : MutableVertexPartition → list A) i : no_throw (index vec i).
Proof. intros s e s'. unfold index. by destruct (vec s !! i). Qed.

Lemma no_throw_modify_at {A} (vec : MutableVertexPartition → list A) set i f :
  no_throw (modify_at vec set i f).
Proof. intros s e s'. unfold modify_at. by destruct (vec s !! i). Qed.

Lemma no_throw_when b m : no_throw m → no_throw (when b m).
Proof. intros Hm. destruct b; [done|apply no_throw_ret]. Qed.

Lemma no_throw_for_each {A} (l : list A) (body : A → M unit) :
  (∀ a, a ∈ l → no_throw (body a)) → no_throw (for_each l body).
Proof.
  induction l as [|a l IH]; intros Hbody; simpl; [apply no_throw_ret|].
  apply no_throw_bind; [apply Hbody; left|].
  intros _. apply IH. intros b Hb. apply Hbody. by right.
Qed.

Create HintDb no_throw.
#[export] Hint Resolve no_throw_ret no_throw_gets no_throw_modify no_throw_undefined
  no_throw_index no_throw_modify_at : no_throw.

Ltac no_throw :=
  repeat first
    [ apply no_throw_bind; [|intros ?]
    | apply no_throw_when
    | apply no_throw_for_each; intros ? ?
    | solve [auto with no_throw] ].

Lemma no_throw_init_nb_comms vs nb : no_throw (init_nb_comms vs nb).
Proof. revert nb. induction vs as [|v vs IH]; intros nb; simpl; no_throw. Qed.

Lemma no_throw_init_admin g : no_throw (init_admin g).
Proof.
  unfold init_admin. apply no_throw_bind; [apply no_throw_init_nb_comms|]. intros nb.
  unfold init_admin_vertex, init_admin_edge, init_possible_edges. no_throw.
Qed.

Lemma no_throw_move_node g v new_comm : no_throw (move_node g v new_comm).
Proof.
  unfold move_node, remove_from_empty_communities. no_throw.
  all: repeat (lazymatch goal with
               | |- no_throw (match ?x with _ => _ end) => destruct x
               end; no_throw).
Qed.

Lemma no_throw_assign_vertex new_membership i : no_throw (assign_vertex new_membership i).
Proof. unfold assign_vertex. destruct (new_membership !! i); no_throw. Qed.

Lemma no_throw_rebuild g (m : M unit) :
  no_throw m → no_throw (m ;; clean_mem ;; init_admin g).
Proof.
  intros Hm. apply no_throw_bind; [done|]. intros _.
  apply no_throw_bind; [apply no_throw_modify|]. intros _. apply no_throw_init_admin.
Qed.



Lemma no_throw_renumber_vertex table i : no_throw (renumber_vertex table i).
Proof.
  unfold renumber_vertex. apply no_throw_bind; [apply no_throw_index|]. intros a.
  destruct (table !! a); auto with no_throw.
Qed.



Lemma no_throw_renumber_communities g : no_throw (renumber_communities g).
Proof.
  unfold renumber_communities. apply no_throw_bind; [apply no_throw_gets|]. intros ids.
  apply no_throw_rebuild, no_throw_for_each. intros. apply no_throw_renumber_vertex.
Qed.

Lemma undefined_bind {A B} (m : M A) (k : A → M B) s :
  returns m s (λ a s', k a s' = Undefined) → (m ≫= k) s = Undefined.
Proof. intros (a & s' & Hm & Hk). unfold mbind, M_bind. by rewrite Hm. Qed.

Lemma undefined_bind_l {A B} (m : M A) (k : A → M B) s :
  m s = Undefined → (m ≫= k) s = Undefined.
Proof. intros Hm. unfold mbind, M_bind. by rewrite Hm. Qed.

(** A loop whose body never throws runs into undefined behaviour when
    the body does so for one of the values, in every state that the
    loop can have reached. *)
Lemma for_each_undefined {A} (body : A → M unit) (Inv : MutableVertexPartition → Prop)
    (l : list A) s a :
  a ∈ l → Inv s →
  (∀ b s1 s2, Inv s1 → body b s1 = Ok () s2 → Inv s2) →
  (∀ b, no_throw (body b)) →
  (∀ s1, Inv s1 → body a s1 = Undefined) →
  for_each l body s = Undefined.
Proof.
  intros Ha Hs Hinv Hthrow Hundef. revert s Hs.
  induction l as [|b l IH]; intros s Hs; [by apply elem_of_nil in Ha|].
  simpl. unfold mbind, M_bind.
  destruct (body b s) as [[] s2|e s2|] eqn:Hb; [|by destruct (Hthrow b s e s2)|done].
  apply elem_of_cons in Ha as [->|Ha].
  - by rewrite Hundef in Hb.
  - apply IH; [done|]. by apply (Hinv b s).
Qed.


(** A loop that returns has kept what each run of its body keeps. *)
Lemma for_each_keeps {A} (body : A → M unit) (Inv : MutableVertexPartition → Prop)
    (l : list A) s s' :
  (∀ b s1 s2, Inv s1 → body b s1 = Ok () s2 → Inv s2) →
  Inv s → for_each l body s = Ok () s' → Inv s'.
Proof.
  intros Hinv. revert s. induction l as [|b l IH]; intros s Hs Hrun; simpl in Hrun.
  - by injection Hrun as <-.
  - unfold mbind, M_bind in Hrun.
    destruct (body b s) as [[] s2|e s2|] eqn:Hb; [|done..].
    apply (IH s2); [|done]. by apply (Hinv b s).
Qed.

Lemma init_admin_edge_keeps g v_comm ue s1 s2 :
  init_admin_edge g v_comm ue s1 = Ok () s2 →
  _membership s2 = _membership s1 ∧ community s2 = community s1.
Proof.
  unfold init_admin_edge, mbind, M_bind, index, modify_at, when, modify, mret, M_ret.
  destruct (_membership s1 !! ue.1) as [u_comm|]; [|done].
  destruct (_total_weight_from_comm s1 !! v_comm); [|done]. simpl.
  destruct (_total_weight_to_comm s1 !! u_comm); [|done]. simpl.
  case_bool_decide; simpl.
  - destruct (_total_weight_in_comm s1 !! v_comm); [|done]. simpl. by intros [= <-].
  - by intros [= <-].
Qed.

Lemma init_admin_vertex_keeps g v s1 s2 :
  init_admin_vertex g v s1 = Ok () s2 →
  _membership s2 = _membership s1 ∧ length (community s2) = length (community s1).
Proof.
  unfold init_admin_vertex, mbind, M_bind, index, modify_at.
  destruct (_membership s1 !! v) as [v_comm|]; [|done].
  destruct (community s1 !! v_comm); [|done]. simpl.
  destruct (_csize s1 !! v_comm); [|done]. simpl.
  intros Hrun.
  apply (for_each_keeps _
    (λ s, _membership s = _membership s1 ∧ length (community s) = length (community s1)))
    in Hrun; [done| |].
  - intros ue t1 t2 [Hm Hc] Hue. apply init_admin_edge_keeps in Hue as [-> ->]. done.
  - simpl. by rewrite length_alter.
Qed.

Lemma no_throw_init_admin_vertex g v : no_throw (init_admin_vertex g v).
Proof. unfold init_admin_vertex, init_admin_edge. no_throw. Qed.

(** A membership vector that holds the largest [size_t] value, whose
    successor is [0], leaves [init_admin] with fewer communities than
    the id asks for: the vertex of that id is added to a community out
    of range. *)
Lemma init_admin_invalid g p :
  length (_membership p) = vcount g → ¬ valid_ids (_membership p) →
  init_admin g p = Undefined.
Proof.
  intros Hm Hv.
  apply not_Forall_Exists in Hv; [|intros c; apply _].
  apply Exists_exists in Hv as (c & Hc & Hbig).
  apply list_elem_of_lookup in Hc as [v Hvc].
  assert (v < vcount g) as Hvn by (rewrite <-Hm; by eapply lookup_lt_Some).
  unfold init_admin. apply undefined_bind. eapply returns_mono.
  { rewrite <-Hm. by apply (init_nb_comms_wrapped p 0 (_membership p)). }
  intros nb s' [-> ->].
  set (nb := nb_comms_wrapped (_membership p) 0).
  assert (nb ≤ c) as Hnb.
  { pose proof (nb_comms_wrapped_lt (_membership p) 0 ltac:(done)) as Hlt.
    unfold nb, size_t_modulus in *. simpl in Hbig. lia. }
  apply undefined_bind. apply returns_modify.
  apply undefined_bind_l.
  apply (for_each_undefined _
    (λ s, _membership s = _membership p ∧ length (community s) = nb) _ _ v).
  - apply elem_of_seq. lia.
  - simpl. by rewrite length_replicate.
  - intros b s1 s2 [Hm1 Hc1] Hb. apply init_admin_vertex_keeps in Hb as [-> ->]. done.
  - intros b. apply no_throw_init_admin_vertex.
  - intros s1 [Hm1 Hc1]. unfold init_admin_vertex, mbind, M_bind, index, modify_at.
    rewrite Hm1, Hvc. by rewrite lookup_ge_None_2 by lia.
Qed.

Lemma init_cache_ok n c : cache_ok n c ∨ c = empty_cache → cache_ok n (init_cache n c).
Proof.
  intros [[Hlen Hneighs Hlisted]| ->]; split; simpl.
  - by rewrite length_resize.
  - done.
  - intros i x. rewrite <-Hlen, resize_all. apply Hlisted.
  - by rewrite length_resize.
  - intros i Hi. by apply elem_of_nil in Hi.
  - intros i x Hi Hx. rewrite resize_nil in Hi.
    apply lookup_replicate in Hi as [-> _]. done.
Qed.

(** An initialisation that returned had ids that it can count. *)
Lemma init_admin_inv g p p' :
  wf_graph g → length (_membership p) = vcount g → init_admin g p = Ok () p' →
  valid_ids (_membership p) ∧ init_post g p p'.
Proof.
  intros Hg Hm Hrun.
  destruct (decide (valid_ids (_membership p))) as [Hv|Hv];
    [|by rewrite init_admin_invalid in Hrun].
  destruct (init_admin_returns g p Hg Hm Hv) as ([] & p'' & Hrun' & Hpost).
  rewrite Hrun in Hrun'. by injection Hrun' as <-.
Qed.

Lemma init_admin_ok g p p' :
  wf_graph g → length (_membership p) = vcount g →
  (caches_ok g p ∨ (cache_from p = empty_cache ∧ cache_to p = empty_cache
                    ∧ cache_all p = empty_cache)) →
  init_admin g p = Ok () p' →
  consistent g p' ∧ caches_ok g p' ∧ _membership p' = _membership p.
Proof.
  intros Hg Hm Hc Hrun.
  destruct (decide (valid_ids (_membership p))) as [Hv|Hv];
    [|by rewrite init_admin_invalid in Hrun].
  destruct (init_admin_returns g p Hg Hm Hv) as ([] & p'' & Hrun' & Hpost).
  rewrite Hrun in Hrun'. simplify_eq. destruct Hpost as [Hcons Hmem _ _ _ Hcf Hct Hca].
  split; [done|]. split; [|done]. unfold caches_ok. rewrite Hcf, Hct, Hca.
  destruct Hc as [(?&?&?)|(->& -> & ->)]; repeat split; apply init_cache_ok; auto.
Qed.

Lemma move_node_old g v new_comm p p' :
  move_node g v new_comm p = Ok () p' → ∃ old_comm, _membership p !! v = Some old_comm.
Proof.
  unfold move_node, mbind, M_bind, index.
  destruct (_membership p !! v) as [c|]; [eauto|done].
Qed.

(** When the new number of possible edges is outside the range of
    [size_t], the conversion of the [double] is undefined. *)
Lemma move_node_overflow g p v old_comm new_comm :
  _membership p !! v = Some old_comm → new_comm ≠ old_comm →
  old_comm < length (_csize p) → new_comm < length (_csize p) →
  moved_possible_edges g v old_comm new_comm p = None →
  move_node g v new_comm p = Undefined.
Proof.
  intros Hv Hne Hold Hnew Hnone.
  destruct (lookup_lt_is_Some_2 _ _ Hold) as [O HO].
  destruct (lookup_lt_is_Some_2 _ _ Hnew) as [N HN].
  unfold moved_possible_edges in Hnone.
  rewrite (list_lookup_total_correct _ _ _ HO), (list_lookup_total_correct _ _ _ HN)
    in Hnone.
  unfold move_node. apply undefined_bind. eapply returns_index; [done|].
  apply undefined_bind_l. rewrite bool_decide_eq_true_2 by done. unfold when.
  apply undefined_bind. eapply returns_index; [exact HN|].
  apply undefined_bind. eapply returns_index; [exact HO|].
  apply undefined_bind. apply returns_gets. by rewrite Hnone.
Qed.

(** A move that returned was within defined behaviour, and its result
    is [move_node_result]. *)
Lemma move_node_inv g p v old_comm new_comm p' :
  wf_graph g → consistent g p → _membership p !! v = Some old_comm →
  valid_target p new_comm → move_node g v new_comm p = Ok () p' →
  move_node_pre g v old_comm new_comm p ∧ p' = move_node_result g v old_comm new_comm p.
Proof.
  intros Hg Hp Hv [Hlt Hpool] Hrun.
  assert (move_node_pre g v old_comm new_comm p) as Hpre.
  { apply consistent_move_node_pre; auto. intros Hne.
    destruct (moved_possible_edges g v old_comm new_comm p) eqn:E; [done|].
    rewrite (move_node_overflow g p v old_comm new_comm) in Hrun; try done.
    by eapply cons_range. }
  split; [done|]. rewrite (move_node_returns _ _ _ _ _ Hpre) in Hrun. by injection Hrun.
Qed.

Lemma length_assign_new_comm_id i csizes ids :
  length (assign_new_comm_id i csizes ids) = length ids.
Proof.
  revert i ids. induction csizes as [|A csizes IH]; intros i ids; simpl; [done|].
  by rewrite IH, length_insert.
Qed.

Lemma length_new_comm_ids p : length (new_comm_ids p) = length (community p).
Proof. unfold new_comm_ids. by rewrite length_assign_new_comm_id, length_replicate. Qed.

Lemma reachable_ok g p :
  wf_graph g → reachable g p → consistent g p ∧ caches_ok g p.
Proof.
  intros Hg. induction 1 as
    [m p Hrun | p Hrun
    | p v new_comm p' Hp [IHc IHk] Hvalid Hrun
    | p c p' Hp [IHc IHk] Hrun
    | p c p' Hp [IHc IHk] Hrun
    | p p' Hp [IHc IHk] Hrun
    | p m p' Hp [IHc IHk] Hm Hrun
    | p q p' Hp [IHc IHk] Hm Hrun
    | p cm p' Hp [IHc IHk] Hm Hrun
    | p cm cn p' Hp [IHc IHk] Hm Hrun
    | p v comm w p' Hp [IHc IHk] Hn Hrun
    | p v comm w p' Hp [IHc IHk] Hn Hrun
    | p v mode comms p' Hp [IHc IHk] Hn Hrun].
  - unfold create, construct in Hrun. case_bool_decide as Hlen; [done|].
    eapply init_admin_ok in Hrun as (? & ? & _); try done. right. done.
  - unfold create_default, construct_default in Hrun.
    eapply init_admin_ok in Hrun as (? & ? & _); try done.
    + simpl. by rewrite length_seq.
    + right. done.
  - destruct (move_node_old _ _ _ _ _ Hrun) as [old_comm Hold].
    destruct (move_node_inv g p v old_comm new_comm p' Hg IHc Hold Hvalid Hrun) as [_ ->].
    destruct Hvalid as [Hlt Hpool]. split; [by apply move_node_consistent|done].
  - rewrite add_empty_community_eq in Hrun. case_bool_decide; [done|]. simplify_eq.
    split; [by apply with_empty_community_consistent|done].
  - rewrite get_empty_community_eq in Hrun.
    destruct (last (_empty_communities p)); [by simplify_eq|].
    case_bool_decide; [done|]. simplify_eq.
    split; [by apply with_empty_community_consistent|done].
  - pose proof (cons_membership g p IHc) as Hlen.
    rewrite renumber_communities_eq in Hrun; [|done|].
    + eapply init_admin_ok in Hrun as (? & ? & _); try done.
      * simpl. by rewrite length_fmap.
      * by left.
    + intros c Hc. rewrite length_new_comm_ids, (cons_community g p IHc).
      apply list_elem_of_lookup in Hc as [u Hu]. by eapply (cons_range g p IHc).
  - pose proof (cons_membership g p IHc) as Hlen.
    rewrite renumber_communities_with_eq in Hrun by done.
    eapply init_admin_ok in Hrun as (? & ? & _); try done.
    + simpl. rewrite length_take. lia.
    + by left.
  - pose proof (cons_membership g p IHc) as Hlen.
    rewrite from_partition_eq in Hrun by done.
    eapply init_admin_ok in Hrun as (? & ? & _); try done.
    + simpl. rewrite length_take. lia.
    + by left.
  - pose proof (cons_membership g p IHc) as Hlen.
    rewrite from_coarser_partition_eq in Hrun; [|done|].
    + eapply init_admin_ok in Hrun as (? & ? & _); try done.
      * simpl. by rewrite length_fmap.
      * by left.
    + done.
  - pose proof (cons_membership g p IHc) as Hlen.
    rewrite from_coarser_partition_with_eq in Hrun by done.
    eapply init_admin_ok in Hrun as (? & ? & _); try done.
    + simpl. by rewrite length_fmap, length_seq.
    + by left.
  - destruct IHk as (Hkf & Hkt & Hka). unfold weight_to_comm in Hrun.
    destruct (decide (_current_node_cache_community (cache_to p) = v)) as [Hwarm|Hcold].
    + unfold mbind, M_bind in Hrun.
      rewrite (ensure_cached_warm g v IGRAPH_OUT p Hwarm) in Hrun.
      unfold index in Hrun. destruct (cached_weight IGRAPH_OUT p !! comm); by simplify_eq.
    + destruct (ensure_cached_cold g v IGRAPH_OUT p Hkt Hn Hcold) as (c & Hc & Hok & _).
      unfold mbind, M_bind in Hrun. rewrite Hc in Hrun.
      unfold index in Hrun.
      destruct (cached_weight IGRAPH_OUT (set_cache IGRAPH_OUT c p) !! comm);
        simplify_eq.
      split; [by destruct IHc|done].
  - destruct IHk as (Hkf & Hkt & Hka). unfold weight_from_comm in Hrun.
    destruct (decide (_current_node_cache_community (cache_from p) = v)) as [Hwarm|Hcold].
    + unfold mbind, M_bind in Hrun.
      rewrite (ensure_cached_warm g v IGRAPH_IN p Hwarm) in Hrun.
      unfold index in Hrun. destruct (cached_weight IGRAPH_IN p !! comm); by simplify_eq.
    + destruct (ensure_cached_cold g v IGRAPH_IN p Hkf Hn Hcold) as (c & Hc & Hok & _).
      unfold mbind, M_bind in Hrun. rewrite Hc in Hrun.
      unfold index in Hrun.
      destruct (cached_weight IGRAPH_IN (set_cache IGRAPH_IN c p) !! comm);
        simplify_eq.
      split; [by destruct IHc|done].
  - unfold get_neigh_comms, mbind, M_bind, gets in Hrun.
    destruct (decide (_current_node_cache_community (cache_of mode p) = v)) as [Hwarm|Hcold].
    + rewrite (ensure_cached_warm g v mode p Hwarm) in Hrun. by simplify_eq.
    + assert (cache_ok (vcount g) (cache_of mode p)) as Hk.
      { destruct IHk as (Hkf & Hkt & Hka). by destruct mode. }
      destruct (ensure_cached_cold g v mode p Hk Hn Hcold) as (c & Hc & Hok & _).
      rewrite Hc in Hrun. simplify_eq.
      split; [by destruct IHc|]. destruct IHk as (Hkf & Hkt & Hka).
      by destruct mode.
Qed.

(** A property of the administration holds in every reachable state
    when [init_admin] establishes it and [move_node] and
    [add_empty_community] keep it, and it does not depend on the
    caches. *)
Lemma reachable_admin_ind g (I : MutableVertexPartition → Prop) :
  wf_graph g →
  (∀ p p', length (_membership p) = vcount g → init_admin g p = Ok () p' → I p') →
  (∀ p v old_comm new_comm, consistent g p → I p → _membership p !! v = Some old_comm →
     valid_target p new_comm → move_node_pre g v old_comm new_comm p →
     I (move_node_result g v old_comm new_comm p)) →
  (∀ p, consistent g p → I p → nb_communities p < vcount g → I (with_empty_community p)) →
  (∀ p mode c, I p → I (set_cache mode c p)) →
  ∀ p, reachable g p → I p.
Proof.
  intros Hg Hinit Hmove Hadd Hcache p Hreach.
  induction Hreach as
    [m p Hrun | p Hrun
    | p v new_comm p' Hp IH Hvalid Hrun
    | p c p' Hp IH Hrun
    | p c p' Hp IH Hrun
    | p p' Hp IH Hrun
    | p m p' Hp IH Hm Hrun
    | p q p' Hp IH Hm Hrun
    | p cm p' Hp IH Hm Hrun
    | p cm cn p' Hp IH Hm Hrun
    | p v comm w p' Hp IH Hn Hrun
    | p v comm w p' Hp IH Hn Hrun
    | p v mode comms p' Hp IH Hn Hrun].
  - unfold create, construct in Hrun. case_bool_decide as Hlen; [done|].
    by apply (Hinit (set_membership m fresh) p).
  - unfold create_default, construct_default in Hrun.
    apply (Hinit (set_membership (seq 0 (vcount g)) fresh) p); [|done].
    simpl. apply length_seq.
  - destruct (reachable_ok g p Hg Hp) as [Hc Hk].
    destruct (move_node_old _ _ _ _ _ Hrun) as [old_comm Hold].
    destruct (move_node_inv g p v old_comm new_comm p' Hg Hc Hold Hvalid Hrun) as [Hpre ->].
    by apply Hmove.
  - destruct (reachable_ok g p Hg Hp) as [Hc Hk].
    rewrite add_empty_community_eq in Hrun. case_bool_decide; [done|].
    injection Hrun as <- <-. apply Hadd; [done..|]. unfold nb_communities. lia.
  - destruct (reachable_ok g p Hg Hp) as [Hc Hk].
    rewrite get_empty_community_eq in Hrun.
    destruct (last (_empty_communities p)); [by simplify_eq|].
    case_bool_decide; [done|]. injection Hrun as <- <-.
    apply Hadd; [done..|]. unfold nb_communities. lia.
  - destruct (reachable_ok g p Hg Hp) as [Hc Hk].
    pose proof (cons_membership g p Hc) as Hlen.
    rewrite renumber_communities_eq in Hrun; [|done|].
    + eapply Hinit; [|exact Hrun]. simpl. by rewrite length_fmap.
    + intros c Hcm. rewrite length_new_comm_ids, (cons_community g p Hc).
      apply list_elem_of_lookup in Hcm as [u Hu]. by eapply (cons_range g p Hc).
  - destruct (reachable_ok g p Hg Hp) as [Hc Hk].
    pose proof (cons_membership g p Hc) as Hlen.
    rewrite renumber_communities_with_eq in Hrun by done.
    eapply Hinit; [|exact Hrun]. simpl. rewrite length_take. lia.
  - destruct (reachable_ok g p Hg Hp) as [Hc Hk].
    pose proof (cons_membership g p Hc) as Hlen.
    rewrite from_partition_eq in Hrun by done.
    eapply Hinit; [|exact Hrun]. simpl. rewrite length_take. lia.
  - destruct (reachable_ok g p Hg Hp) as [Hc Hk].
    pose proof (cons_membership g p Hc) as Hlen.
    rewrite from_coarser_partition_eq in Hrun by done.
    eapply Hinit; [|exact Hrun]. simpl. by rewrite length_fmap.
  - destruct (reachable_ok g p Hg Hp) as [Hc Hk].
    pose proof (cons_membership g p Hc) as Hlen.
    rewrite from_coarser_partition_with_eq in Hrun by done.
    eapply Hinit; [|exact Hrun]. simpl. by rewrite length_fmap, length_seq.
  - destruct (reachable_ok g p Hg Hp) as [Hc (Hkf & Hkt & Hka)].
    unfold weight_to_comm in Hrun.
    destruct (decide (_current_node_cache_community (cache_to p) = v)) as [Hwarm|Hcold].
    + unfold mbind, M_bind in Hrun.
      rewrite (ensure_cached_warm g v IGRAPH_OUT p Hwarm) in Hrun.
      unfold index in Hrun. destruct (cached_weight IGRAPH_OUT p !! comm); by simplify_eq.
    + destruct (ensure_cached_cold g v IGRAPH_OUT p Hkt Hn Hcold) as (c & Hrun' & _).
      unfold mbind, M_bind in Hrun. rewrite Hrun' in Hrun. unfold index in Hrun.
      destruct (cached_weight IGRAPH_OUT (set_cache IGRAPH_OUT c p) !! comm);
        simplify_eq. by apply Hcache.
  - destruct (reachable_ok g p Hg Hp) as [Hc (Hkf & Hkt & Hka)].
    unfold weight_from_comm in Hrun.
    destruct (decide (_current_node_cache_community (cache_from p) = v)) as [Hwarm|Hcold].
    + unfold mbind, M_bind in Hrun.
      rewrite (ensure_cached_warm g v IGRAPH_IN p Hwarm) in Hrun.
      unfold index in Hrun. destruct (cached_weight IGRAPH_IN p !! comm); by simplify_eq.
    + destruct (ensure_cached_cold g v IGRAPH_IN p Hkf Hn Hcold) as (c & Hrun' & _).
      unfold mbind, M_bind in Hrun. rewrite Hrun' in Hrun. unfold index in Hrun.
      destruct (cached_weight IGRAPH_IN (set_cache IGRAPH_IN c p) !! comm);
        simplify_eq. by apply Hcache.
  - destruct (reachable_ok g p Hg Hp) as [Hc (Hkf & Hkt & Hka)].
    unfold get_neigh_comms, mbind, M_bind, gets in Hrun.
    destruct (decide (_current_node_cache_community (cache_of mode p) = v)) as [Hwarm|Hcold].
    + rewrite (ensure_cached_warm g v mode p Hwarm) in Hrun. by simplify_eq.
    + assert (cache_ok (vcount g) (cache_of mode p)) as Hk by (by destruct mode).
      destruct (ensure_cached_cold g v mode p Hk Hn Hcold) as (c & Hrun' & _).
      rewrite Hrun' in Hrun. simplify_eq. by apply Hcache.
Qed.

(** With small sizes, the number of possible edges that [init_admin]
    leaves is the sum over the communities. *)
Lemma init_admin_exact g p p' :
  wf_graph g → small_sizes g → length (_membership p) = vcount g →
  init_admin g p = Ok () p' → exact_possible_edges g p'.
Proof.
  intros Hg Hsmall Hm Hrun.
  destruct (decide (valid_ids (_membership p))) as [Hv|Hv];
    [|by rewrite init_admin_invalid in Hrun].
  destruct (init_admin_returns g p Hg Hm Hv) as ([] & p'' & Hrun' & Hpost).
  rewrite Hrun in Hrun'. injection Hrun' as <-.
  destruct Hpost as [Hcons _ _ _ Hpe _ _ _].
  unfold exact_possible_edges. rewrite Hpe.
  destruct (possible_edges_total_double g (_csize p')) as [_ Hb].
  { by apply (consistent_csize_nonneg g). }
  { by rewrite (consistent_total_size g p' Hcons). }
  apply possible_edges_sum_exact; [by apply (consistent_csize_nonneg g)|].
  unfold size_t_modulus. lia.
Qed.

Lemma reachable_exact g p :
  wf_graph g → small_sizes g → reachable g p → exact_possible_edges g p.
Proof.
  intros Hg Hsmall. apply (reachable_admin_ind g (exact_possible_edges g) Hg).
  - intros q q' Hm Hrun. by apply (init_admin_exact g q).
  - intros q v old_comm new_comm Hq Hpe Hold [Hlt _] _. by apply move_node_exact.
  - intros q Hq Hpe _. by apply with_empty_community_exact.
  - intros q mode c Hpe. by destruct mode.
Qed.

(** The number of communities is a [size_t] when the vertex count is
    one. *)
Lemma reachable_nb_communities g p :
  wf_graph g → (Z.of_nat (vcount g) < size_t_modulus)%Z → reachable g p →
  (Z.of_nat (nb_communities p) < size_t_modulus)%Z.
Proof.
  intros Hg Hn.
  apply (reachable_admin_ind g (λ p, (Z.of_nat (nb_communities p) < size_t_modulus)%Z) Hg).
  - intros q q' Hm Hrun.
    destruct (decide (valid_ids (_membership q))) as [Hv|Hv];
      [|by rewrite init_admin_invalid in Hrun].
    destruct (init_admin_returns g q Hg Hm Hv) as ([] & p'' & Hrun' & Hpost).
    rewrite Hrun in Hrun'. injection Hrun' as <-.
    unfold nb_communities.
    rewrite (cons_community g q' (ip_consistent g q q' Hpost)), (ip_nb_comms g q q' Hpost).
    rewrite <-(nb_comms_wrapped_valid _ 0 Hv). by apply nb_comms_wrapped_lt.
  - intros q v old_comm new_comm Hq HI Hold Hvalid _. unfold nb_communities in *. simpl.
    by rewrite !length_alter.
  - intros q Hq HI Hlt. unfold nb_communities in *. simpl. rewrite length_app. simpl. lia.
  - intros q mode c HI. by destruct mode.
Qed.

(** A valid move in a reachable state returns when the sizes are
    small. *)
Lemma move_node_valid g p v old_comm new_comm :
  wf_graph g → small_sizes g → consistent g p → exact_possible_edges g p →
  _membership p !! v = Some old_comm → valid_target p new_comm →
  move_node g v new_comm p = Ok () (move_node_result g v old_comm new_comm p).
Proof.
  intros Hg Hsmall Hp Hpe Hold [Hlt Hpool]. apply move_node_returns.
  apply consistent_move_node_pre; auto.
  intros Hne. by apply small_moved_is_Some.
Qed.

Lemma reachable_move_node_valid g p v old_comm new_comm :
  wf_graph g → small_sizes g → reachable g p →
  _membership p !! v = Some old_comm → valid_target p new_comm →
  move_node g v new_comm p = Ok () (move_node_result g v old_comm new_comm p).
Proof.
  intros Hg Hsmall Hp Hold Hvalid. apply move_node_valid; try done.
  - by apply reachable_ok.
  - by apply reachable_exact.
Qed.

(** * The sample graphs *)

Lemma wf_graph_path4 : wf_graph path4.
Proof.
  split.
  - intros v mode u Hv Hu. simpl in *.
    do 4 (destruct v as [|v]; [set_solver by lia|]). lia.
  - intros v _. simpl. lia.
  - by vm_compute.
Qed.

Lemma small_sizes_path4 : small_sizes path4.
Proof. by vm_compute. Qed.

Lemma create_default_path4 : create_default path4 = Ok () path4_singletons.
Proof. vm_compute. reflexivity. Qed.

Lemma reachable_path4_singletons : reachable path4 path4_singletons.
Proof. apply reach_create_default, create_default_path4. Qed.

Lemma move_node_path4 :
  (move_node path4 1 0 ;; move_node path4 2 0) path4_singletons = Ok () path4_moved.
Proof. vm_compute. reflexivity. Qed.

(** The scenario of the specification: after the two moves, community 0
    is {0, 1, 2}, has size 3 and internal weight 2. *)
Example path4_moved_scenario :
  _membership path4_moved = [0; 0; 0; 3]
  ∧ community path4_moved !! 0 = Some {[0; 1; 2]}
  ∧ csize 0 path4_moved = 3%Z
  ∧ this <$> _total_weight_in_comm path4_moved !! 0 = Some (2 # 1)
  ∧ this (_total_weight_in_all_comms path4_moved) = 2 # 1.
Proof. split_and!; vm_compute; reflexivity. Qed.

Lemma reachable_path4_moved : reachable path4 path4_moved.
Proof.
  apply (reach_move_node path4 (after (move_node path4 1 0 path4_singletons)) 2 0).
  - apply (reach_move_node path4 path4_singletons 1 0).
    + apply reachable_path4_singletons.
    + split; [vm_compute; lia|]. vm_compute. discriminate.
    + vm_compute. reflexivity.
  - split; [vm_compute; lia|]. vm_compute. discriminate.
  - vm_compute. reflexivity.
Qed.

(** * The claims *)

(** ** C1: the empty communities after a reconstruction (code defect)

    [init_admin] neither clears nor rebuilds [_empty_communities]. On two
    vertices of size 1 in their own communities, [move_node (0, 1)]
    empties community 0, which is listed as empty;
    [renumber_communities ()] then gives the id 0 to the community of
    size 2, and 0 is still listed as empty: its size is not zero although
    it is in the pool, and [get_empty_community] returns it. *)
Theorem stale_empty_communities_after_renumbering :
  let run := (construct_default (edgeless 2);; move_node (edgeless 2) 0 1;;
              renumber_communities (edgeless 2);; get_empty_community (edgeless 2)) fresh in
  (_membership <$> state_of run) = Some [0; 0]
  ∧ (_csize <$> state_of run) = Some [2%Z]
  ∧ (_empty_communities <$> state_of run) = Some [0]
  ∧ (∃ p, run = Ok 0 p).
Proof. split_and!; [vm_compute; reflexivity..|]. eexists. vm_compute. reflexivity. Qed.

(** ** C2: what a failing call leaves behind *)

(** C2, counterexample: on one vertex in its own community,
    [add_empty_community] throws after it has appended the new
    community set: the state at the throw has two community sets where
    there was one. *)
Lemma add_empty_community_throws_after_push :
  let g := edgeless 1 in
  let p := after (create_default g) in
  ∃ p', create_default g = Ok () p
        ∧ add_empty_community g p = Throw CapacityExceeded p'
        ∧ nb_communities p = 1 ∧ nb_communities p' = 2 ∧ p' ≠ p.
Proof.
  eexists. split; [vm_compute; reflexivity|]. split; [vm_compute; reflexivity|].
  split; [vm_compute; reflexivity|]. split; [vm_compute; reflexivity|].
  intros Heq. apply (f_equal nb_communities) in Heq. vm_compute in Heq. discriminate.
Qed.

(** C2, amended: the constructor checks the length of the membership
    vector before it changes anything, so a throw leaves the state as it
    was; [add_empty_community] appends the new community set before it
    checks the capacity, so at a throw the state is the one before the
    call with one more (empty) community set and nothing else changed;
    no exception leaves [move_node], whose loop only runs over the
    directions OUT and IN. *)
Theorem exceptions_and_state g p e p' :
  (∀ membership, construct g membership p = Throw e p' →
     e = InvalidArgument ∧ length membership ≠ vcount g ∧ p' = p)
  ∧ (add_empty_community g p = Throw e p' →
     e = CapacityExceeded ∧ vcount g < S (nb_communities p)
     ∧ p' = set_community (community p ++ [∅]) p)
  ∧ (∀ v new_comm, move_node g v new_comm p ≠ Throw e p').
Proof.
  split; [|split].
  - intros membership. unfold construct. case_bool_decide as Hlen.
    + unfold throw. intros ?. by simplify_eq.
    + intros Hthrow. exfalso. revert Hthrow.
      apply no_throw_bind; [apply no_throw_modify|]. intros _. apply no_throw_init_admin.
  - rewrite add_empty_community_eq. case_bool_decide; [|done].
    intros ?. by simplify_eq.
  - intros v new_comm. apply no_throw_move_node.
Qed.

Lemma exceptions_and_state_witness :
  let g := edgeless 1 in
  let p := after (create_default g) in
  let p' := after (add_empty_community g p) in
  CapacityExceeded = CapacityExceeded ∧ vcount g < S (nb_communities p)
  ∧ p' = set_community (community p ++ [∅]) p.
Proof.
  intros g p p'.
  apply (proj1 (proj2 (exceptions_and_state g p CapacityExceeded p'))).
  vm_compute. reflexivity.
Defined.

(** ** C3: renumbering with a vector *)



(** The sample vectors hold small ids. *)
Lemma valid_ids_below m : Forall (λ c, c < 1000) m → valid_ids m.
Proof.
  intros H. eapply Forall_impl; [exact H|]. intros c Hc. simpl in *.
  unfold size_t_modulus. lia.
Qed.

Ltac valid_ids :=
  apply valid_ids_below; simpl;
  repeat first [apply Forall_nil_2 | apply Forall_cons_2; [lia|]].



(** ** C4: the length of the membership vector *)




(** ** C5: the possible edges in all communities *)


(** C5, counterexample: on two vertices of sizes [2^27 + 1] and [1]
    of an undirected graph, each in its own community, the number of
    possible edges is [2^53 + 2^26]. The move of vertex 1 to community
    0 adds [2^27 + 1] in [double]: the sum [2^53 + 2^26 + 2^27 + 1] is
    odd and lies between two neighbouring values of [double], and the
    number stored is one less than the possible edges of the community
    of size [2^27 + 2]. *)
Lemma total_possible_edges_rounded_by_move :
  let g := sized [134217729; 1]%Z in
  let p := after (create_default g) in
  let p' := after (move_node g 1 0 p) in
  wf_graph g ∧ create_default g = Ok () p
  ∧ _membership p !! 1 = Some 1 ∧ valid_target p 0
  ∧ move_node g 1 0 p = Ok () p'
  ∧ _csize p' = [134217730; 0]%Z
  ∧ _total_possible_edges_in_all_comms p' = 9007199456067584%Z
  ∧ Zsum (possible_edges g <$> _csize p') = 9007199456067585%Z
  ∧ _total_possible_edges_in_all_comms p' ≠ Zsum (possible_edges g <$> _csize p').
Proof.
  split.
  { split.
    - intros v mode u Hv Hu. simpl in *. destruct v as [|[|v]]; set_solver by lia.
    - intros v _. unfold sized. simpl. destruct v as [|[|v]]; simpl; lia.
    - by vm_compute. }
  split; [vm_compute; reflexivity|]. split; [vm_compute; reflexivity|].
  split; [split; [vm_compute; lia|vm_compute; discriminate]|].
  split; [vm_compute; reflexivity|]. split; [vm_compute; reflexivity|].
  split; [vm_compute; reflexivity|]. split; [vm_compute; reflexivity|].
  vm_compute. discriminate.
Qed.




(** ** C6: a move and the move back (code defect)

    On two vertices of size 1, after [renumber_communities] with the
    vector [1; 1] community 0 is an allocated slot of size zero that
    [init_admin] did not list among the empty communities. The move of
    vertex 0 to community 0 finds the size zero, searches
    [_empty_communities] for 0 down to [rend ()] and erases through
    that iterator: undefined behaviour, where the claim has a move that
    the move back undoes. [get_empty_community] cannot provide the
    community either: the pool is empty, and a new community would
    exceed the vertex count. *)
Theorem move_to_unlisted_empty_community :
  let g := edgeless 2 in
  let p := after ((construct_default g;; renumber_communities_with g [1; 1]) fresh) in
  (construct_default g;; renumber_communities_with g [1; 1]) fresh = Ok () p
  ∧ _membership p = [1; 1] ∧ _csize p = [0%Z; 2%Z] ∧ _empty_communities p = []
  ∧ move_node g 0 0 p = Undefined
  ∧ ∃ p', get_empty_community g p = Throw CapacityExceeded p'.
Proof.
  split_and!; [vm_compute; reflexivity..|]. eexists. vm_compute. reflexivity.
Qed.

(** ** C7: the move of a vertex to its own community *)

(** C7: in every reachable state, [move_node (v, membership[v])]
    returns and leaves the whole state as it was: the membership, the
    community sets, every aggregate, the empty communities and the
    caches. *)
Theorem noop_move_changes_nothing g p v c :
  wf_graph g → reachable g p → _membership p !! v = Some c →
  move_node g v c p = Ok () p.
Proof.
  intros Hg Hp Hv. destruct (reachable_ok g p Hg Hp) as [Hc _].
  by apply move_node_noop.
Qed.

Lemma noop_move_changes_nothing_witness : move_node path4 1 0 path4_moved = Ok () path4_moved.
Proof.
  refine (noop_move_changes_nothing path4 path4_moved 1 0
            wf_graph_path4 reachable_path4_moved _).
  vm_compute. reflexivity.
Defined.

(** ** C8: renumbering by size (code defect)

    Empty communities are recognised by their size. With the node sizes
    1, 0, 1 and every vertex in its own community, [move_node (0, 2)]
    leaves community 0 empty, community 1 with vertex 1 and size 0, and
    community 2 with size 2. [renumber_communities ()] orders the sizes
    2, 0, 0 and, breaking the tie by the original id, gives the empty
    community the id 1 and the community of vertex 1 the id 2: the ids
    in use are 0 and 2, and slot 1 is empty, with two non-empty
    communities. *)
Theorem renumbering_keeps_an_empty_slot :
  let g := sized [1; 0; 1]%Z in
  let p := after ((construct_default g;; move_node g 0 2) fresh) in
  let p' := after (renumber_communities g p) in
  (construct_default g;; move_node g 0 2) fresh = Ok () p
  ∧ _membership p = [2; 1; 2]
  ∧ renumber_communities g p = Ok () p'
  ∧ _membership p' = [0; 2; 0]
  ∧ nb_communities p' = 3
  ∧ community p' !! 1 = Some ∅.
Proof. split_and!; vm_compute; reflexivity. Qed.

(** ** C9: the weights between a vertex and a community *)

(** C9, counterexample: on the path with every vertex in its own
    community, [weight_to_comm (1, 0)] fills the cache of vertex 1 and
    returns 1. [move_node (2, 0)] then brings the other neighbour of
    vertex 1 into community 0, and the repeated query
    [weight_to_comm (1, 0)] still returns 1 from the cache, where the
    edges from vertex 1 into community 0 weigh 2. *)
Lemma weight_to_comm_stale_after_move :
  let run := (weight_to_comm path4 1 0;; move_node path4 2 0;; weight_to_comm path4 1 0)
               path4_singletons in
  ∃ w p, run = Ok w p ∧ this w = 1 # 1
         ∧ this (weight_between path4 (_membership p) 1 IGRAPH_OUT 0) = 2 # 1
         ∧ w ≠ weight_between path4 (_membership p) 1 IGRAPH_OUT 0.
Proof.
  eexists _, _. split; [vm_compute; reflexivity|].
  split; [vm_compute; reflexivity|]. split; [vm_compute; reflexivity|].
  intros Heq. apply (f_equal this) in Heq. vm_compute in Heq. discriminate.
Qed.

Lemma query_cold_then_warm g v mode p comm :
  cache_ok (vcount g) (cache_of mode p) → neighbours_cacheable g p v mode →
  _current_node_cache_community (cache_of mode p) ≠ v → comm < vcount g →
  ∃ p1, (ensure_cached g v mode ;; index (cached_weight mode) comm) p
        = Ok (weight_between g (_membership p) v mode comm) p1
        ∧ _membership p1 = _membership p
        ∧ ∀ comm', comm' < vcount g →
            (ensure_cached g v mode ;; index (cached_weight mode) comm') p1
            = Ok (weight_between g (_membership p) v mode comm') p1.
Proof.
  intros Hok Hn Hcold Hcomm.
  destruct (cold_query g v mode p comm Hok Hn Hcold Hcomm) as (c & Hrun & Hok1 & Hholds).
  exists (set_cache mode c p). split; [done|]. split; [done|].
  intros comm' Hcomm'. by apply cache_holds_query.
Qed.

Lemma Qcsum_cons x l : Qcsum (x :: l) = (x + Qcsum l)%Qc.
Proof. done. Qed.

Lemma Qcsum_fmap_ext {A} (F G : A → Qc) (xs : list A) :
  (∀ x, x ∈ xs → F x = G x) → Qcsum (F <$> xs) = Qcsum (G <$> xs).
Proof.
  induction xs as [|x xs IH]; intros Hxs; [done|].
  rewrite !fmap_cons, !Qcsum_cons, IH by (intros; apply Hxs; by right).
  by rewrite Hxs by left.
Qed.

Lemma weight_between_alter g m v mode comm u d :
  u ∉ get_neighbours g v mode →
  weight_between g (alter (λ _, d) u m) v mode comm = weight_between g m v mode comm.
Proof.
  intros Hu. unfold weight_between. apply Qcsum_fmap_ext. intros ue Hue. simpl.
  rewrite list_lookup_alter_ne; [done|]. intros ->. by apply Hu, incident_neighbour.
Qed.

Lemma move_node_result_caches g v old_comm new_comm p :
  cache_from (move_node_result g v old_comm new_comm p) = cache_from p
  ∧ cache_to (move_node_result g v old_comm new_comm p) = cache_to p
  ∧ cache_all (move_node_result g v old_comm new_comm p) = cache_all p.
Proof. done. Qed.

(** Moves leave the caches as they are, and the state reachable. *)
Lemma moves_caches g P p p' :
  wf_graph g → reachable g p → moves g P p p' →
  reachable g p' ∧ cache_from p' = cache_from p ∧ cache_to p' = cache_to p
  ∧ cache_all p' = cache_all p.
Proof.
  intros Hg Hp Hmoves. induction Hmoves as [p|p u new_comm p1 p2 _ Hvalid Hrun _ IH]; [done|].
  destruct (reachable_ok g p Hg Hp) as [Hc _].
  destruct (move_node_old _ _ _ _ _ Hrun) as [old_comm Hold].
  destruct (move_node_inv g p u old_comm new_comm p1 Hg Hc Hold Hvalid Hrun) as [_ Hp1].
  destruct IH as (Hp2 & Hf & Ht & Ha); [by eapply reach_move_node|].
  split; [done|]. rewrite Hf, Ht, Ha, Hp1. apply move_node_result_caches.
Qed.

(** Moves of vertices that are not neighbours of [v] keep the weights
    between [v] and every community. *)
Lemma moves_weight_between g v mode p p' comm :
  wf_graph g → reachable g p → moves g (λ u, u ∉ get_neighbours g v mode) p p' →
  weight_between g (_membership p') v mode comm = weight_between g (_membership p) v mode comm.
Proof.
  intros Hg Hp Hmoves.
  induction Hmoves as [p|p u new_comm p1 p2 Hu Hvalid Hrun _ IH]; [done|].
  destruct (reachable_ok g p Hg Hp) as [Hc _].
  destruct (move_node_old _ _ _ _ _ Hrun) as [old_comm Hold].
  destruct (move_node_inv g p u old_comm new_comm p1 Hg Hc Hold Hvalid Hrun) as [_ Hp1].
  rewrite IH by (by eapply reach_move_node).
  rewrite Hp1, move_node_result_membership. by apply weight_between_alter.
Qed.

Lemma query_cold_then_moves g v mode p comm :
  wf_graph g → reachable g p →
  cache_ok (vcount g) (cache_of mode p) → neighbours_cacheable g p v mode →
  _current_node_cache_community (cache_of mode p) ≠ v → comm < vcount g →
  (∀ w p1, (ensure_cached g v mode ;; index (cached_weight mode) comm) p = Ok w p1 →
     reachable g p1) →
  ∃ p1, (ensure_cached g v mode ;; index (cached_weight mode) comm) p
        = Ok (weight_between g (_membership p) v mode comm) p1
        ∧ _membership p1 = _membership p
        ∧ ∀ p2 comm', moves g (λ _, True) p1 p2 → comm' < vcount g →
            (ensure_cached g v mode ;; index (cached_weight mode) comm') p2
            = Ok (weight_between g (_membership p) v mode comm') p2
            ∧ (moves g (λ u, u ∉ get_neighbours g v mode) p1 p2 →
               weight_between g (_membership p2) v mode comm'
               = weight_between g (_membership p) v mode comm').
Proof.
  intros Hg Hp Hok Hn Hcold Hcomm Hreach.
  destruct (cold_query g v mode p comm Hok Hn Hcold Hcomm) as (c & Hrun & Hok1 & Hholds).
  pose proof (Hreach _ _ Hrun) as Hp1.
  exists (set_cache mode c p). split; [done|]. split; [done|].
  intros p2 comm' Hmoves Hcomm'. split.
  - destruct (moves_caches g _ _ p2 Hg Hp1 Hmoves) as (_ & Hf & Ht & Ha).
    apply cache_holds_query; [|done].
    assert (cache_of mode p2 = cache_of mode (set_cache mode c p)) as Hc.
    { by destruct mode. }
    destruct Hholds as [Hmark Hw]. unfold cache_holds, cached_weight in *.
    rewrite Hc. done.
  - intros Hmoves'.
    rewrite (moves_weight_between g v mode _ p2 comm' Hg Hp1 Hmoves'). by destruct mode.
Qed.

(** C9, amended: in a reachable state in which the communities of the
    neighbours of [v] are below the vertex count, and for a community
    [comm] below the vertex count, a query on a cold cache (the marker
    of the direction is not [v]) returns the sum of the weights of the
    edges of [v] in that direction whose other end is in [comm], a self
    loop of an undirected graph counting for half at each of its two
    appearances; the membership is unchanged. Every query for [v]
    repeated on the warm cache, at once or after any number of valid
    calls of [move_node], returns the sum for its community that was
    computed when the cache was filled, and leaves the state as it is;
    that sum is the one of the current membership when none of the
    moves was of a neighbour of [v] in that direction. This holds for
    [weight_to_comm] on the outgoing edges and for [weight_from_comm]
    on the incoming ones. *)
Theorem weight_cache_cold_then_warm g p v comm :
  wf_graph g → reachable g p → comm < vcount g →
  (neighbours_cacheable g p v IGRAPH_OUT →
   _current_node_cache_community (cache_to p) ≠ v →
   ∃ p1, weight_to_comm g v comm p
         = Ok (weight_between g (_membership p) v IGRAPH_OUT comm) p1
         ∧ _membership p1 = _membership p
         ∧ ∀ p2 comm', moves g (λ _, True) p1 p2 → comm' < vcount g →
             weight_to_comm g v comm' p2
             = Ok (weight_between g (_membership p) v IGRAPH_OUT comm') p2
             ∧ (moves g (λ u, u ∉ get_neighbours g v IGRAPH_OUT) p1 p2 →
                weight_between g (_membership p2) v IGRAPH_OUT comm'
                = weight_between g (_membership p) v IGRAPH_OUT comm'))
  ∧ (neighbours_cacheable g p v IGRAPH_IN →
     _current_node_cache_community (cache_from p) ≠ v →
     ∃ p1, weight_from_comm g v comm p
           = Ok (weight_between g (_membership p) v IGRAPH_IN comm) p1
           ∧ _membership p1 = _membership p
           ∧ ∀ p2 comm', moves g (λ _, True) p1 p2 → comm' < vcount g →
               weight_from_comm g v comm' p2
               = Ok (weight_between g (_membership p) v IGRAPH_IN comm') p2
               ∧ (moves g (λ u, u ∉ get_neighbours g v IGRAPH_IN) p1 p2 →
                  weight_between g (_membership p2) v IGRAPH_IN comm'
                  = weight_between g (_membership p) v IGRAPH_IN comm')).
Proof.
  intros Hg Hp Hcomm. destruct (reachable_ok g p Hg Hp) as [_ (Hkf & Hkt & _)].
  split; intros Hn Hcold.
  - apply (query_cold_then_moves g v IGRAPH_OUT p comm); try done.
    intros w p1 Hrun. by apply (reach_weight_to_comm g p v comm w p1).
  - apply (query_cold_then_moves g v IGRAPH_IN p comm); try done.
    intros w p1 Hrun. by apply (reach_weight_from_comm g p v comm w p1).
Qed.

Lemma neighbours_cacheable_path4_singletons v mode :
  neighbours_cacheable path4 path4_singletons v mode.
Proof.
  intros u Hu. simpl in Hu.
  assert (u < 4) as Hlt.
  { do 4 (destruct v as [|v]; [set_solver by lia|]). set_solver. }
  exists u. split; [|simpl; lia].
  do 4 (destruct u as [|u]; [vm_compute; reflexivity|]). lia.
Qed.

Lemma path4_query_then_move :
  moves path4 (λ u, u ∉ get_neighbours path4 1 IGRAPH_OUT)
    (after (weight_to_comm path4 1 2 path4_singletons))
    (after ((weight_to_comm path4 1 2 ;; move_node path4 3 2) path4_singletons)).
Proof.
  apply (moves_move_node path4 _ _ 3 2
           (after ((weight_to_comm path4 1 2 ;; move_node path4 3 2) path4_singletons)));
    [|split; [vm_compute; lia|vm_compute; discriminate]|vm_compute; reflexivity
     |apply moves_none].
  simpl. set_solver.
Qed.

Lemma moves_any g (P : nat → Prop) p p' : moves g P p p' → moves g (λ _, True) p p'.
Proof.
  induction 1 as [p|p u new_comm p1 p2 _ Hvalid Hrun _ IH]; [apply moves_none|].
  by apply (moves_move_node g _ p u new_comm p1 p2).
Qed.

Lemma weight_cache_cold_then_warm_witness :
  let p1 := after (weight_to_comm path4 1 2 path4_singletons) in
  let p2 := after ((weight_to_comm path4 1 2 ;; move_node path4 3 2) path4_singletons) in
  weight_to_comm path4 1 2 p2
  = Ok (weight_between path4 (_membership path4_singletons) 1 IGRAPH_OUT 2) p2
  ∧ weight_between path4 (_membership p2) 1 IGRAPH_OUT 2
    = weight_between path4 (_membership path4_singletons) 1 IGRAPH_OUT 2.
Proof.
  intros p1 p2.
  destruct (proj1 (weight_cache_cold_then_warm path4 path4_singletons 1 2
                     wf_graph_path4 reachable_path4_singletons ltac:(simpl; lia))
              (neighbours_cacheable_path4_singletons 1 IGRAPH_OUT)
              ltac:(vm_compute; lia)) as (q1 & Hq1 & _ & Hwarm).
  assert (q1 = p1) as -> by (unfold p1; by rewrite Hq1).
  destruct (Hwarm p2 2 (moves_any _ _ _ _ path4_query_then_move) ltac:(simpl; lia))
    as [Hquery Hsame].
  split; [exact Hquery|]. exact (Hsame path4_query_then_move).
Defined.

(** ** C10: the range of the weight queries *)

(** C10, counterexample: the constructor accepts the membership
    [0; 2] on two vertices and allocates three community slots, more
    than there are vertices; community 2 is allocated and holds vertex
    1, and [weight_to_comm (0, 2)] reads the weight table, of two
    entries, out of range. *)
Lemma allocated_community_outside_weight_table :
  let g := edgeless 2 in
  let p := after (create g [0; 2]) in
  create g [0; 2] = Ok () p
  ∧ nb_communities p = 3 ∧ vcount g = 2
  ∧ community p !! 2 = Some {[1]}
  ∧ length (cached_weight IGRAPH_OUT p) = 2
  ∧ weight_to_comm g 0 2 p = Undefined.
Proof. split_and!; vm_compute; reflexivity. Qed.

Lemma query_returns_iff g v mode p comm :
  cache_ok (vcount g) (cache_of mode p) → neighbours_cacheable g p v mode →
  (∃ w p', (ensure_cached g v mode ;; index (cached_weight mode) comm) p = Ok w p')
  ↔ comm < vcount g.
Proof.
  intros Hok Hn.
  assert (∃ p1, ensure_cached g v mode p = Ok () p1
                ∧ length (cached_weight mode p1) = vcount g) as (p1 & Hrun & Hlen).
  { destruct (decide (_current_node_cache_community (cache_of mode p) = v)) as [Hwarm|Hcold].
    - exists p. split; [by apply ensure_cached_warm|]. by destruct Hok.
    - destruct (ensure_cached_cold g v mode p Hok Hn Hcold) as (c & Hc & Hok1 & _).
      exists (set_cache mode c p). split; [done|].
      unfold cached_weight. rewrite cache_of_set_cache. by destruct Hok1. }
  unfold mbind, M_bind. rewrite Hrun. unfold index. split.
  - intros (w & p' & Hq). rewrite <-Hlen.
    destruct (cached_weight mode p1 !! comm) as [x|] eqn:E; [|done].
    by eapply lookup_lt_Some.
  - intros Hcomm. destruct (lookup_lt_is_Some_2 (cached_weight mode p1) comm) as [x ->];
      [lia|]. eauto.
Qed.

(** C10, amended: in a reachable state the weight tables have exactly
    [vcount] entries; for a vertex whose neighbours have communities
    below the vertex count, [weight_to_comm (v, comm)] and
    [weight_from_comm (v, comm)] return exactly when [comm] is below
    the vertex count, and are undefined otherwise, whereas [csize]
    returns 0 for every id beyond the allocated slots. The slots are
    capped at the vertex count by [add_empty_community] only, not by
    the initialisation; every allocated community is a safe argument
    when there are at most [vcount] slots. *)
Theorem weight_queries_in_range g p v comm :
  wf_graph g → reachable g p →
  neighbours_cacheable g p v IGRAPH_OUT → neighbours_cacheable g p v IGRAPH_IN →
  length (cached_weight IGRAPH_OUT p) = vcount g
  ∧ length (cached_weight IGRAPH_IN p) = vcount g
  ∧ length (cached_weight IGRAPH_ALL p) = vcount g
  ∧ ((∃ w p', weight_to_comm g v comm p = Ok w p') ↔ comm < vcount g)
  ∧ ((∃ w p', weight_from_comm g v comm p = Ok w p') ↔ comm < vcount g)
  ∧ (nb_communities p ≤ comm → csize comm p = 0%Z)
  ∧ (∀ c p', add_empty_community g p = Ok c p' → nb_communities p' ≤ vcount g)
  ∧ (nb_communities p ≤ vcount g → comm < nb_communities p →
     (∃ w p', weight_to_comm g v comm p = Ok w p')
     ∧ (∃ w p', weight_from_comm g v comm p = Ok w p')).
Proof.
  intros Hg Hp Hout Hin. destruct (reachable_ok g p Hg Hp) as [Hc (Hkf & Hkt & Hka)].
  pose proof (query_returns_iff g v IGRAPH_OUT p comm Hkt Hout) as Hto.
  pose proof (query_returns_iff g v IGRAPH_IN p comm Hkf Hin) as Hfrom.
  split_and!.
  - by destruct Hkt.
  - by destruct Hkf.
  - by destruct Hka.
  - exact Hto.
  - exact Hfrom.
  - intros Hge. unfold csize, nb_communities in *.
    rewrite (cons_community g p Hc) in Hge.
    by rewrite (proj2 (lookup_ge_None _ _) Hge).
  - intros c p'. rewrite add_empty_community_eq. case_bool_decide as Hcap; [done|].
    intros ?. simplify_eq. unfold nb_communities. simpl. rewrite length_app. simpl. lia.
  - intros Hcap Hcomm. split; [apply Hto|apply Hfrom]; lia.
Qed.

Lemma weight_queries_in_range_witness :
  (∃ w p', weight_to_comm path4 1 3 path4_singletons = Ok w p') ↔ 3 < vcount path4.
Proof.
  exact (proj1 (proj2 (proj2 (proj2
    (weight_queries_in_range path4 path4_singletons 1 3
       wf_graph_path4 reachable_path4_singletons
       (neighbours_cacheable_path4_singletons 1 IGRAPH_OUT)
       (neighbours_cacheable_path4_singletons 1 IGRAPH_IN)))))).
Defined.

(** * Renumbering by size *)

Lemma not_after_pair_iff (A B : Z * nat) :
  not_after pairCompareReverseSecond A B ↔ (B.1 < A.1)%Z ∨ (A.1 = B.1 ∧ A.2 ≤ B.2).
Proof.
  unfold not_after, pairCompareReverseSecond.
  rewrite orb_false_iff, andb_false_iff, !bool_decide_eq_false. lia.
Qed.

#[export] Instance not_after_pair_total : Total (not_after pairCompareReverseSecond).
Proof. intros A B. rewrite !not_after_pair_iff. lia. Qed.

#[export] Instance not_after_pair_trans : Transitive (not_after pairCompareReverseSecond).
Proof. intros A B C. rewrite !not_after_pair_iff. lia. Qed.

#[export] Instance not_after_pair_antisymm : AntiSymm (=) (not_after pairCompareReverseSecond).
Proof.
  intros [a1 a2] [b1 b2]. rewrite !not_after_pair_iff. simpl. intros ? ?.
  f_equal; lia.
Qed.

(** The comparator orders the pairs totally, so the sorted sequence is
    unique: every sorted permutation of the input is the one that
    [std_sort] computes. *)
Lemma std_sort_unique (l l' : list (Z * nat)) :
  StronglySorted (not_after pairCompareReverseSecond) l' → l' ≡ₚ l →
  l' = std_sort pairCompareReverseSecond l.
Proof.
  intros Hs Hp. apply (StronglySorted_unique (not_after pairCompareReverseSecond)); [done| |].
  - apply StronglySorted_merge_sort; apply _.
  - unfold std_sort. by rewrite merge_sort_Permutation.
Qed.

Lemma StronglySorted_lookup {A} (R : relation A) l i j a b :
  StronglySorted R l → i < j → l !! i = Some a → l !! j = Some b → R a b.
Proof.
  intros Hs Hij Ha Hb. rewrite <-(take_drop j l) in Hs.
  eapply StronglySorted_app_1_elem_of; [done| |].
  - apply list_elem_of_lookup. exists i. by rewrite lookup_take_lt.
  - apply list_elem_of_lookup. exists 0. by rewrite lookup_drop, Nat.add_0_r.
Qed.

Lemma filter_none {A} (P : A → Prop) `{∀ x, Decision (P x)} (l : list A) :
  (∀ x, x ∈ l → ¬ P x) → filter P l = [].
Proof.
  induction l as [|x l IH]; intros Hl; [done|].
  rewrite filter_cons_False by (apply Hl; left). apply IH. intros y Hy. apply Hl. by right.
Qed.

(** A sorted list in which [P] never follows its negation has its [P]
    elements first. *)
Lemma sorted_prefix {A} (R : relation A) (P : A → Prop) `{∀ x, Decision (P x)} l j a :
  StronglySorted R l → (∀ x y, ¬ P x → P y → ¬ R x y) →
  l !! j = Some a → (P a ↔ j < length (filter P l)).
Proof.
  intros Hs HR. revert j. induction l as [|x l IH]; intros j Hj; [done|].
  apply StronglySorted_cons in Hs as [Hx Hs]. rewrite filter_cons.
  destruct (decide (P x)) as [HPx|HPx].
  - destruct j as [|j]; simplify_eq/=; [split; [lia|done]|].
    rewrite (IH Hs j Hj). lia.
  - assert (∀ y, y ∈ l → ¬ P y) as Hnone.
    { intros y Hy HPy. apply (HR x y HPx HPy). by eapply Forall_forall in Hx. }
    rewrite (filter_none P l Hnone). simpl. split; [|lia].
    intros HPa. destruct j as [|j]; simplify_eq/=; [done|].
    destruct (Hnone a); [by eapply list_elem_of_lookup_2|done].
Qed.

Lemma assign_new_comm_id_notin i (l : list (Z * nat)) ids c :
  c ∉ l.*2 → assign_new_comm_id i l ids !! c = ids !! c.
Proof.
  revert i ids. induction l as [|B l IH]; intros i ids Hc; [done|].
  rewrite fmap_cons, not_elem_of_cons in Hc. destruct Hc as [Hne Hc].
  simpl. rewrite IH by done. by apply list_lookup_insert_ne.
Qed.

Lemma assign_new_comm_id_lookup i (l : list (Z * nat)) ids j A :
  NoDup l.*2 → (∀ B, B ∈ l → B.2 < length ids) → l !! j = Some A →
  assign_new_comm_id i l ids !! A.2 = Some (i + j).
Proof.
  revert i ids j. induction l as [|B l IH]; intros i ids j Hnd Hr Hj; [done|].
  rewrite fmap_cons in Hnd. apply NoDup_cons in Hnd as [HB Hnd]. simpl.
  destruct j as [|j]; simplify_eq/=.
  - rewrite assign_new_comm_id_notin by done.
    rewrite list_lookup_insert_eq; [f_equal; lia|]. apply Hr. left.
  - rewrite (IH (S i) _ j); [f_equal; lia|done| |done].
    intros C HC. rewrite length_insert. apply Hr. by right.
Qed.

(** The pairs that [renumber_communities] sorts, and what the sort and
    the assignment of the new ids make of them. *)
Lemma sorted_csizes_Permutation p :
  sorted_csizes p ≡ₚ (λ i, (csize i p, i)) <$> seq 0 (nb_communities p).
Proof. unfold sorted_csizes, std_sort. apply merge_sort_Permutation. Qed.

Lemma sorted_csizes_sorted p :
  StronglySorted (not_after pairCompareReverseSecond) (sorted_csizes p).
Proof. unfold sorted_csizes, std_sort. apply StronglySorted_merge_sort; apply _. Qed.

Lemma sorted_csizes_elem p A :
  A ∈ sorted_csizes p ↔ A.2 < nb_communities p ∧ A.1 = csize A.2 p.
Proof.
  rewrite sorted_csizes_Permutation, list_elem_of_fmap. setoid_rewrite elem_of_seq.
  destruct A as [s c]. simpl. split.
  - intros (i & ? & ?). simplify_eq. split; [lia|done].
  - intros [? ->]. exists c. split; [done|lia].
Qed.

Lemma sorted_csizes_ids p : (sorted_csizes p).*2 ≡ₚ seq 0 (nb_communities p).
Proof.
  rewrite sorted_csizes_Permutation, <-list_fmap_compose.
  assert (∀ l : list nat, (snd ∘ (λ i, (csize i p, i))) <$> l = l) as ->; [|done].
  intros l. induction l as [|x l IH]; [done|]. rewrite fmap_cons, IH. done.
Qed.

Lemma sorted_csizes_NoDup p : NoDup (sorted_csizes p).*2.
Proof. rewrite sorted_csizes_ids. apply NoDup_seq. Qed.

Lemma length_sorted_csizes p : length (sorted_csizes p) = nb_communities p.
Proof. by rewrite sorted_csizes_Permutation, length_fmap, length_seq. Qed.

(** The new id of community [c] is its position in the sorted
    sequence. *)
Lemma new_comm_ids_position p j A :
  sorted_csizes p !! j = Some A → new_comm_ids p !! A.2 = Some j.
Proof.
  intros Hj. unfold new_comm_ids.
  rewrite (assign_new_comm_id_lookup 0 _ _ j A); [done|apply sorted_csizes_NoDup| |done].
  intros B HB. rewrite length_replicate. by apply sorted_csizes_elem in HB as [? _].
Qed.

Lemma new_comm_ids_lookup p c :
  c < nb_communities p →
  ∃ j, new_comm_ids p !! c = Some j ∧ sorted_csizes p !! j = Some (csize c p, c).
Proof.
  intros Hc. assert ((csize c p, c) ∈ sorted_csizes p) as Hin.
  { apply sorted_csizes_elem. done. }
  apply list_elem_of_lookup in Hin as [j Hj]. exists j. split; [|done].
  by apply (new_comm_ids_position p j (csize c p, c)).
Qed.

Lemma length_filter_fmap {A B} (f : A → B) (P : B → Prop) (Q : A → Prop)
    `{∀ x, Decision (P x)} `{∀ x, Decision (Q x)} (l : list A) :
  (∀ x, x ∈ l → P (f x) ↔ Q x) →
  length (filter P (f <$> l)) = length (filter Q l).
Proof.
  induction l as [|x l IH]; intros Hl; [done|].
  rewrite fmap_cons, !filter_cons.
  assert (P (f x) ↔ Q x) as Hx by (apply Hl; left).
  assert (length (filter P (f <$> l)) = length (filter Q l)) as Hrec.
  { apply IH. intros y Hy. apply Hl. by right. }
  destruct (decide (P (f x))), (decide (Q x)); simpl; naive_solver.
Qed.

Lemma size_in_positive g m c vs :
  (∀ v, v ∈ vs → 0 < node_size g v)%Z →
  (0 < size_in g m c vs)%Z ↔ ∃ v, v ∈ vs ∧ m !! v = Some c.
Proof.
  intros Hpos. induction vs as [|u vs IH].
  - split; [by unfold size_in|]. by intros (v & Hv%elem_of_nil & _).
  - rewrite size_in_cons.
    assert (0 < node_size g u)%Z by (apply Hpos; left).
    assert (0 ≤ size_in g m c vs)%Z as Hnn.
    { apply size_in_bounds. intros v Hv. apply Z.lt_le_incl, Hpos. by right. }
    ospecialize (IH _). { intros v Hv. apply Hpos. by right. }
    case_decide as Hu.
    + split; [|lia]. intros _. exists u. split; [left|done].
    + rewrite Z.add_0_l, IH. split.
      * intros (v & Hv & Hc). exists v. split; [by right|done].
      * intros (v & Hv & Hc). apply elem_of_cons in Hv as [->|Hv]; [done|eauto].
Qed.

(** With positive node sizes, a community has a vertex exactly when
    its size is positive. *)
Lemma csize_positive g p c :
  consistent g p → positive_sizes g →
  c < nb_communities p →
  (0 < csize c p)%Z ↔ c ∈ _membership p.
Proof.
  intros Hp Hpos Hc. unfold nb_communities in Hc. rewrite (cons_community g p Hp) in Hc.
  unfold csize. rewrite (cons_csize g p Hp c Hc).
  rewrite size_in_positive by (intros v Hv; by apply Hpos, vertices_elem).
  rewrite list_elem_of_lookup. split.
  - intros (v & _ & Hv). eauto.
  - intros (v & Hv). exists v. split; [|done].
    apply vertices_elem. rewrite <-(cons_membership g p Hp). by eapply lookup_lt_Some.
Qed.

(** The number of communities with a vertex is the number of positive
    sizes among the sorted pairs. *)
Lemma positive_csizes_count g p :
  consistent g p → positive_sizes g →
  length (filter (λ A : Z * nat, 0 < A.1)%Z (sorted_csizes p))
  = length (filter (λ c, c ∈ _membership p) (seq 0 (nb_communities p))).
Proof.
  intros Hp Hpos. rewrite sorted_csizes_Permutation.
  apply length_filter_fmap. intros c Hc. simpl.
  apply (csize_positive g); [done..|]. apply elem_of_seq in Hc. lia.
Qed.

(** The new ids below the number of non-empty communities are those
    of the non-empty communities. *)
Lemma new_comm_ids_nonempty g p c j :
  consistent g p → positive_sizes g →
  c < nb_communities p → new_comm_ids p !! c = Some j →
  j < length (filter (λ c, c ∈ _membership p) (seq 0 (nb_communities p)))
  ↔ c ∈ _membership p.
Proof.
  intros Hp Hpos Hc Hj.
  destruct (new_comm_ids_lookup p c Hc) as (j' & Hj' & Hs).
  rewrite Hj in Hj'. injection Hj' as <-.
  rewrite <-(positive_csizes_count g p Hp Hpos).
  rewrite <-(sorted_prefix (not_after pairCompareReverseSecond)
               (λ A : Z * nat, 0 < A.1)%Z (sorted_csizes p) j (csize c p, c)); simpl.
  - by apply (csize_positive g).
  - apply sorted_csizes_sorted.
  - intros x y Hx Hy. rewrite not_after_pair_iff. lia.
  - done.
Qed.

Lemma new_comm_ids_inj p c c' j :
  c < nb_communities p → c' < nb_communities p →
  new_comm_ids p !! c = Some j → new_comm_ids p !! c' = Some j → c = c'.
Proof.
  intros Hc Hc' Hj Hj'.
  destruct (new_comm_ids_lookup p c Hc) as (i & Hi & Hs).
  destruct (new_comm_ids_lookup p c' Hc') as (i' & Hi' & Hs'). by simplify_eq.
Qed.

(** The order of the new ids: by decreasing size, and by the original
    id among communities of the same size. *)
Lemma new_comm_ids_order p c c' j j' :
  c < nb_communities p → c' < nb_communities p →
  new_comm_ids p !! c = Some j → new_comm_ids p !! c' = Some j' →
  j < j' ↔ (csize c' p < csize c p)%Z ∨ (csize c p = csize c' p ∧ c < c').
Proof.
  intros Hc Hc' Hj Hj'.
  destruct (new_comm_ids_lookup p c Hc) as (i & Hi & Hs).
  destruct (new_comm_ids_lookup p c' Hc') as (i' & Hi' & Hs').
  rewrite Hj in Hi. injection Hi as <-. rewrite Hj' in Hi'. injection Hi' as <-.
  pose proof (sorted_csizes_sorted p) as Hsorted.
  destruct (decide (j < j')) as [Hlt|Hge].
  - pose proof (StronglySorted_lookup _ _ _ _ _ _ Hsorted Hlt Hs Hs') as HR.
    apply not_after_pair_iff in HR. simpl in HR.
    assert (c ≠ c') by (intros ->; simplify_eq; lia). split; [lia|done].
  - split; [lia|]. intros Hord. exfalso.
    destruct (decide (j = j')) as [->|Hne]; [simplify_eq; lia|].
    assert (j' < j) as Hlt by lia.
    pose proof (StronglySorted_lookup _ _ _ _ _ _ Hsorted Hlt Hs' Hs) as HR.
    apply not_after_pair_iff in HR. simpl in HR. lia.
Qed.


Lemma new_comm_ids_onto g p j :
  consistent g p → positive_sizes g → j < nb_nonempty p →
  ∃ c, c ∈ _membership p ∧ c < nb_communities p ∧ new_comm_ids p !! c = Some j.
Proof.
  intros Hp Hpos Hj. unfold nb_nonempty in Hj.
  rewrite <-(positive_csizes_count g p Hp Hpos) in Hj.
  destruct (lookup_lt_is_Some_2 (sorted_csizes p) j) as [A HA].
  { pose proof (length_filter (λ A : Z * nat, 0 < A.1)%Z (sorted_csizes p)). lia. }
  assert (0 < A.1)%Z as HP.
  { apply (sorted_prefix (not_after pairCompareReverseSecond)
             (λ A : Z * nat, 0 < A.1)%Z (sorted_csizes p) j A); try done.
    - apply sorted_csizes_sorted.
    - intros x y Hx Hy. rewrite not_after_pair_iff. lia. }
  assert (A ∈ sorted_csizes p) as Hin by (by eapply list_elem_of_lookup_2).
  apply sorted_csizes_elem in Hin as [Hlt Hsize].
  exists A.2. split; [|split; [done|by apply new_comm_ids_position]].
  apply (csize_positive g p A.2 Hp Hpos Hlt). by rewrite <-Hsize.
Qed.

Lemma size_in_renumber g (m : list nat) (ids : list nat) c j vs :
  (∀ v d, m !! v = Some d → is_Some (ids !! d)) →
  (∀ d, d ∈ m → ids !! d = Some j → d = c) →
  ids !! c = Some j →
  size_in g ((λ c, default 0 (ids !! c)) <$> m) j vs = size_in g m c vs.
Proof.
  intros Hdef Hinj Hc. induction vs as [|v vs IH]; [done|].
  rewrite !size_in_cons, IH. f_equal. rewrite list_lookup_fmap.
  destruct (m !! v) as [d|] eqn:Hv; simpl; [|by repeat case_decide].
  destruct (Hdef v d Hv) as [i Hi]. rewrite Hi. simpl.
  destruct (decide (d = c)) as [->|Hne].
  - rewrite Hc in Hi. injection Hi as <-. by rewrite !decide_True.
  - rewrite !decide_False; [done|congruence|].
    intros [= ->]. apply Hne, Hinj; [by eapply list_elem_of_lookup_2|done].
Qed.

Lemma renumbered_membership_elem p j :
  (∀ c, c ∈ _membership p → c < length (new_comm_ids p)) →
  j ∈ (λ c, default 0 (new_comm_ids p !! c)) <$> _membership p
  ↔ ∃ c, c ∈ _membership p ∧ new_comm_ids p !! c = Some j.
Proof.
  intros Hr. rewrite list_elem_of_fmap. split.
  - intros (c & -> & Hc). exists c. split; [done|].
    destruct (lookup_lt_is_Some_2 (new_comm_ids p) c (Hr c Hc)) as [i Hi]. by rewrite Hi.
  - intros (c & Hc & Hj). exists c. by rewrite Hj.
Qed.

Lemma consistent_elem_range g p c :
  consistent g p → c ∈ _membership p → c < nb_communities p.
Proof.
  intros Hp (v & Hv)%list_elem_of_lookup. unfold nb_communities.
  rewrite (cons_community g p Hp). by apply (cons_range g p Hp v).
Qed.

Lemma consistent_csize g p c :
  consistent g p → c < length (_csize p) →
  csize c p = size_in g (_membership p) c (vertices g).
Proof. intros Hp Hc. unfold csize. by rewrite (cons_csize g p Hp c Hc). Qed.

(** [renumber_communities ()] on a graph whose vertices all have a
    positive size. *)
Lemma positive_sizes_vcount g :
  wf_graph g → positive_sizes g → (Z.of_nat (vcount g) < size_t_modulus)%Z.
Proof.
  intros Hg Hpos.
  assert (∀ vs, (∀ v, v ∈ vs → v < vcount g) →
            (Z.of_nat (length vs) ≤ Zsum (node_size g <$> vs))%Z) as Hsum.
  { induction vs as [|v vs IH]; intros Hvs; [done|].
    rewrite fmap_cons, Zsum_cons. cbn [length].
    pose proof (Hpos v (Hvs v ltac:(left))).
    assert (Z.of_nat (length vs) ≤ Zsum (node_size g <$> vs))%Z.
    { apply IH. intros u Hu. apply Hvs. by right. }
    lia. }
  pose proof (Hsum (vertices g) (λ v, proj1 (vertices_elem g v))) as Hle.
  unfold vertices in Hle at 1. rewrite length_seq in Hle.
  pose proof (wf_total_size g Hg). unfold total_size, size_t_modulus in *. lia.
Qed.

Lemma renumber_communities_returns g p :
  wf_graph g → positive_sizes g → consistent g p →
  (Z.of_nat (nb_communities p) < size_t_modulus)%Z →
  ∃ p', renumber_communities g p = Ok () p' ∧ consistent g p' ∧ renumbered p p'.
Proof.
  intros Hg Hpos Hp Hnbp.
  assert (∀ c, c ∈ _membership p → c < length (new_comm_ids p)) as Hr.
  { intros c Hc. rewrite length_new_comm_ids. by apply (consistent_elem_range g). }
  pose proof (cons_membership g p Hp) as Hlen.
  rewrite (renumber_communities_eq g p Hlen Hr).
  set (m' := (λ c, default 0 (new_comm_ids p !! c)) <$> _membership p).
  assert (∀ j, j ∈ m' ↔ j < nb_nonempty p) as Hids.
  { intros j. unfold m'. rewrite (renumbered_membership_elem p j Hr). split.
    - intros (c & Hc & Hj).
      by apply (new_comm_ids_nonempty g p c j Hp Hpos (consistent_elem_range g p c Hp Hc) Hj).
    - intros Hj. destruct (new_comm_ids_onto g p j Hp Hpos Hj) as (c & ? & ? & ?). eauto. }
  assert (valid_ids m') as Hvalid.
  { apply Forall_forall. intros j Hj%Hids.
    assert (nb_nonempty p ≤ nb_communities p) as Hle.
    { unfold nb_nonempty. etrans; [apply length_filter|]. by rewrite length_seq. }
    lia. }
  destruct (init_admin_returns g (set_community [] (set_membership m' p)) Hg)
    as ([] & p' & Hrun & Hpost).
  { simpl. unfold m'. by rewrite length_fmap. }
  { done. }
  destruct Hpost as [Hp' Hm' _ Hnb _ _ _ _]. simpl in Hm', Hnb.
  exists p'. split; [done|]. split; [done|].
  assert (nb_communities p' = nb_nonempty p) as Hcount.
  { unfold nb_communities. rewrite (cons_community g p' Hp'), Hnb.
    apply Nat.le_antisymm.
    - destruct (nb_comms_of_attained m' 0) as [->|(c & Hc & ->)]; [lia|].
      apply Hids in Hc. lia.
    - destruct (nb_nonempty p) as [|k] eqn:Hk; [lia|].
      assert (k ∈ m') as Hin by (apply Hids; lia).
      pose proof (nb_comms_of_bound m' 0 k Hin). lia. }
  assert (∀ c j, c ∈ _membership p → new_comm_ids p !! c = Some j →
            csize j p' = csize c p) as Hsize.
  { intros c j Hc Hj.
    assert (j < length (_csize p')) as Hjlt.
    { rewrite <-(cons_community g p' Hp'). fold (nb_communities p'). rewrite Hcount.
      apply Hids. unfold m'. apply (renumbered_membership_elem p j Hr). eauto. }
    rewrite (consistent_csize g p' j Hp' Hjlt), Hm'.
    rewrite (consistent_csize g p c Hp).
    2:{ rewrite <-(cons_community g p Hp). by apply (consistent_elem_range g). }
    apply size_in_renumber; [| |done].
    - intros v d Hv. apply lookup_lt_is_Some_2, Hr. by eapply list_elem_of_lookup_2.
    - intros d Hd Hdj. apply (new_comm_ids_inj p d c j); [| |done..];
        by apply (consistent_elem_range g). }
  split.
  - done.
  - intros j. by rewrite Hm'.
  - intros j Hj. exists (members (_membership p') j (vertices g)). split.
    + apply (cons_members g p' Hp'). rewrite <-(cons_community g p' Hp').
      fold (nb_communities p'). by rewrite Hcount.
    + apply Hids in Hj. rewrite <-Hm' in Hj. apply list_elem_of_lookup in Hj as [v Hv].
      intros Hempty. assert (v ∈ members (_membership p') j (vertices g)) as Hin.
      { apply members_elem. split; [|done]. apply vertices_elem.
        rewrite <-(cons_membership g p' Hp'). by eapply lookup_lt_Some. }
      rewrite Hempty in Hin. set_solver.
  - intros i j Hij Hj.
    assert (i < nb_nonempty p) as Hi by lia.
    apply Hids, (renumbered_membership_elem p i Hr) in Hi as (c & Hc & Hci).
    apply Hids, (renumbered_membership_elem p j Hr) in Hj as (c' & Hc' & Hcj).
    rewrite (Hsize c i Hc Hci), (Hsize c' j Hc' Hcj).
    destruct (decide (i = j)) as [->|Hne].
    { assert (c = c') as ->; [|lia].
      apply (new_comm_ids_inj p c c' j); [| |done..]; by apply (consistent_elem_range g). }
    assert (i < j) as Hlt by lia.
    apply (new_comm_ids_order p c c' i j) in Hlt; [lia|..|done|done];
      by apply (consistent_elem_range g).
  - intros u v c c' d d' Hu Hv Hu' Hv'.
    rewrite Hm' in Hu', Hv'. unfold m' in Hu', Hv'.
    rewrite list_lookup_fmap, Hu in Hu'. rewrite list_lookup_fmap, Hv in Hv'.
    simpl in Hu', Hv'.
    assert (c ∈ _membership p) as Hc by (by eapply list_elem_of_lookup_2).
    assert (c' ∈ _membership p) as Hc' by (by eapply list_elem_of_lookup_2).
    destruct (lookup_lt_is_Some_2 (new_comm_ids p) c (Hr c Hc)) as [i Hi].
    destruct (lookup_lt_is_Some_2 (new_comm_ids p) c' (Hr c' Hc')) as [i' Hi'].
    rewrite Hi in Hu'. rewrite Hi' in Hv'. simpl in Hu', Hv'.
    injection Hu' as <-. injection Hv' as <-.
    pose proof (consistent_elem_range g p c Hp Hc) as Hlt.
    pose proof (consistent_elem_range g p c' Hp Hc') as Hlt'.
    split; [|split].
    + split; [|by intros ->; simplify_eq].
      intros <-. by apply (new_comm_ids_inj p c c' i).
    + by apply Hsize.
    + by apply new_comm_ids_order.
Qed.

Lemma positive_sizes_path4 : positive_sizes path4.
Proof. intros v _. simpl. lia. Qed.

(** * Further properties of the code *)

(** ** Renumbering by size *)

(** X1: on a graph whose vertices all have a positive size,
    [renumber_communities ()] returns from every reachable state; the
    new ids in use are exactly [0 .. k-1] for the [k] communities that
    hold a vertex, [nb_communities ()] becomes [k] and no slot is
    empty, sizes do not increase with the id, two vertices share a new
    community exactly when they shared one before, and the new ids are
    ordered by decreasing size, ties by the original id. *)
Theorem renumber_communities_by_size g p :
  wf_graph g → positive_sizes g → reachable g p →
  ∃ p', renumber_communities g p = Ok () p' ∧ consistent g p' ∧ renumbered p p'.
Proof.
  intros Hg Hpos Hp. apply renumber_communities_returns; [done..| |].
  - by apply reachable_ok.
  - apply (reachable_nb_communities g p Hg); [by apply positive_sizes_vcount|done].
Qed.

Lemma renumber_communities_by_size_witness :
  ∃ p', renumber_communities path4 path4_moved = Ok () p'
        ∧ consistent path4 p' ∧ renumbered path4_moved p'.
Proof.
  exact (renumber_communities_by_size path4 path4_moved wf_graph_path4 positive_sizes_path4
           reachable_path4_moved).
Defined.

(** ** The communities partition the vertices *)

Lemma Zsum_Permutation l l' : l ≡ₚ l' → Zsum l = Zsum l'.
Proof. induction 1; simpl; lia. Qed.

Lemma size_in_filter g m c vs :
  size_in g m c vs = Zsum (node_size g <$> filter (λ v, m !! v = Some c) vs).
Proof.
  induction vs as [|v vs IH]; [done|].
  rewrite size_in_cons, filter_cons, IH. by case_decide.
Qed.

Lemma size_in_members g m c vs :
  NoDup vs → size_in g m c vs = set_size g (members m c vs).
Proof.
  intros Hnd. rewrite size_in_filter. unfold set_size, members.
  apply Zsum_Permutation, fmap_Permutation. symmetry.
  apply elements_list_to_set. by apply NoDup_filter.
Qed.

(** X2: in every reachable state the membership vector, the community
    sets and the community sizes describe one partition of the
    vertices: every vertex has a community with an allocated slot, the
    set of a community holds exactly the vertices whose membership
    entry is its id, its size is the total node size of that set, and
    the sizes of all communities add up to the total node size of the
    graph. *)
Theorem communities_partition_vertices g p :
  wf_graph g → reachable g p →
  (∀ v, v < vcount g ↔ ∃ c, _membership p !! v = Some c ∧ c < nb_communities p)
  ∧ (∀ c S, community p !! c = Some S →
       (∀ v, v ∈ S ↔ _membership p !! v = Some c) ∧ csize c p = set_size g S)
  ∧ Zsum (_csize p) = total_size g.
Proof.
  intros Hg Hreach. destruct (reachable_ok g p Hg Hreach) as [Hp _].
  split; [|split].
  - intros v. split.
    + intros Hv. destruct (lookup_lt_is_Some_2 (_membership p) v) as [c Hc].
      { by rewrite (cons_membership g p Hp). }
      exists c. split; [done|]. apply (consistent_elem_range g p c Hp).
      by eapply list_elem_of_lookup_2.
    + intros (c & Hc & _). rewrite <-(cons_membership g p Hp). by eapply lookup_lt_Some.
  - intros c S HS.
    assert (c < length (_csize p)) as Hc.
    { rewrite <-(cons_community g p Hp). by eapply lookup_lt_Some. }
    rewrite (cons_members g p Hp c Hc) in HS. injection HS as <-. split.
    + intros v. rewrite members_elem, vertices_elem. split; [by intros [_ ?]|].
      intros Hv. split; [|done].
      rewrite <-(cons_membership g p Hp). by eapply lookup_lt_Some.
    + rewrite (consistent_csize g p c Hp Hc). apply size_in_members, vertices_NoDup.
  - by apply consistent_total_size.
Qed.

Lemma communities_partition_vertices_witness :
  (∀ v, v < vcount path4 ↔
     ∃ c, _membership path4_moved !! v = Some c ∧ c < nb_communities path4_moved)
  ∧ (∀ c S, community path4_moved !! c = Some S →
       (∀ v, v ∈ S ↔ _membership path4_moved !! v = Some c)
       ∧ csize c path4_moved = set_size path4 S)
  ∧ Zsum (_csize path4_moved) = total_size path4.
Proof.
  exact (communities_partition_vertices path4 path4_moved wf_graph_path4 reachable_path4_moved).
Defined.

(** ** The effect of [move_node] *)

Lemma move_node_result_csize g v old_comm new_comm p :
  _csize (move_node_result g v old_comm new_comm p)
  = alter (λ x, size_t_add x (node_size g v)) new_comm
      (alter (λ x, size_t_sub x (node_size g v)) old_comm (_csize p)).
Proof. done. Qed.

Lemma move_node_result_community g v old_comm new_comm p :
  community (move_node_result g v old_comm new_comm p)
  = alter (λ s, {[v]} ∪ s) new_comm (alter (λ s, s ∖ {[v]}) old_comm (community p)).
Proof. done. Qed.



(** X3: when the node sizes add up to less than [2^27],
    [move_node (v, new_comm)] to another community, from a
    reachable state and with a valid target, returns; it rewrites the
    membership entry of [v], takes [v] out of the set of its old
    community and into that of the new one, moves the node size from
    one community size to the other (without wrap-around), keeps the
    number of slots, leaves every other community as it was and does
    not touch the neighbour-community caches. *)
Theorem move_node_moves_vertex g p v old_comm new_comm :
  wf_graph g → small_sizes g → reachable g p → _membership p !! v = Some old_comm →
  valid_target p new_comm → new_comm ≠ old_comm →
  ∃ p', move_node g v new_comm p = Ok () p'
    ∧ _membership p' = <[v := new_comm]> (_membership p)
    ∧ nb_communities p' = nb_communities p
    ∧ csize old_comm p' = (csize old_comm p - node_size g v)%Z
    ∧ csize new_comm p' = (csize new_comm p + node_size g v)%Z
    ∧ (∀ S, community p !! old_comm = Some S → community p' !! old_comm = Some (S ∖ {[v]}))
    ∧ (∀ S, community p !! new_comm = Some S → community p' !! new_comm = Some ({[v]} ∪ S))
    ∧ (∀ c, c ≠ old_comm → c ≠ new_comm →
         csize c p' = csize c p ∧ community p' !! c = community p !! c)
    ∧ cache_from p' = cache_from p ∧ cache_to p' = cache_to p ∧ cache_all p' = cache_all p.
Proof.
  intros Hg Hsmall Hreach Hold Hvalid Hne.
  destruct (reachable_ok g p Hg Hreach) as [Hp _].
  exists (move_node_result g v old_comm new_comm p).
  split; [by apply reachable_move_node_valid|].
  destruct (move_sizes g p v old_comm new_comm Hg Hp Hold (proj1 Hvalid) Hne)
    as (O & N & HO & HN & Hs & HN0 & HOt & HNt).
  pose proof (wf_total_size g Hg) as Htot.
  assert (size_t_modulus = 2 ^ 64)%Z as Hmod by done.
  unfold csize, nb_communities.
  rewrite move_node_result_membership, move_node_result_csize, move_node_result_community.
  rewrite !length_alter, HO, HN.
  split; [apply alter_const_insert|]. split; [done|].
  split; [|split; [|split; [|split; [|split]]]].
  - rewrite list_lookup_alter_ne, list_lookup_alter_eq, HO by done. simpl.
    apply size_t_sub_exact. lia.
  - rewrite list_lookup_alter_eq, list_lookup_alter_ne, HN by done. simpl.
    apply size_t_add_exact. lia.
  - intros S HS. by rewrite list_lookup_alter_ne, list_lookup_alter_eq, HS by done.
  - intros S HS. by rewrite list_lookup_alter_eq, list_lookup_alter_ne, HS by done.
  - intros c Hc1 Hc2. by rewrite !list_lookup_alter_ne by done.
  - apply move_node_result_caches.
Qed.

Lemma move_node_moves_vertex_witness :
  ∃ p', move_node path4 1 0 path4_singletons = Ok () p'
    ∧ _membership p' = <[1 := 0]> (_membership path4_singletons)
    ∧ nb_communities p' = nb_communities path4_singletons
    ∧ csize 1 p' = (csize 1 path4_singletons - node_size path4 1)%Z
    ∧ csize 0 p' = (csize 0 path4_singletons + node_size path4 1)%Z
    ∧ (∀ S, community path4_singletons !! 1 = Some S → community p' !! 1 = Some (S ∖ {[1]}))
    ∧ (∀ S, community path4_singletons !! 0 = Some S → community p' !! 0 = Some ({[1]} ∪ S))
    ∧ (∀ c, c ≠ 1 → c ≠ 0 →
         csize c p' = csize c path4_singletons
         ∧ community p' !! c = community path4_singletons !! c)
    ∧ cache_from p' = cache_from path4_singletons
    ∧ cache_to p' = cache_to path4_singletons
    ∧ cache_all p' = cache_all path4_singletons.
Proof.
  refine (move_node_moves_vertex path4 path4_singletons 1 1 0 wf_graph_path4
            small_sizes_path4 reachable_path4_singletons _ _ _).
  - vm_compute. reflexivity.
  - split; [vm_compute; lia|]. vm_compute. intros [=].
  - lia.
Defined.

(** ** The pool of empty communities *)

Lemma erase_first_Permutation x l l' : erase_first x l = Some l' → l ≡ₚ x :: l'.
Proof.
  revert l'. induction l as [|y l IH]; intros l' Hl; [done|]. simpl in Hl.
  case_decide as Hy; [by simplify_eq|].
  destruct (erase_first x l) as [l''|]; [|done]. simpl in Hl. simplify_eq.
  rewrite (IH l'' eq_refl). apply Permutation_swap.
Qed.

Lemma erase_last_Permutation x l l' : erase_last x l = Some l' → l ≡ₚ x :: l'.
Proof.
  unfold erase_last. intros Hl.
  destruct (erase_first x (reverse l)) as [l''|] eqn:Hl''; [|done]. simpl in Hl. simplify_eq.
  rewrite reverse_Permutation. rewrite <-(reverse_Permutation l). by apply erase_first_Permutation.
Qed.

Lemma erase_last_NoDup x l l' :
  erase_last x l = Some l' → NoDup l → NoDup l' ∧ ∀ y, y ∈ l' ↔ y ∈ l ∧ y ≠ x.
Proof.
  intros Hl%erase_last_Permutation Hnd. rewrite Hl in Hnd.
  apply NoDup_cons in Hnd as [Hx Hnd]. split; [done|].
  intros y. rewrite Hl, elem_of_cons. split; [|naive_solver].
  intros Hy. split; [by right|]. by intros ->.
Qed.

Lemma move_node_result_pool g v old_comm new_comm p :
  _empty_communities (move_node_result g v old_comm new_comm p)
  = let csize1 := alter (λ x, size_t_sub x (node_size g v)) old_comm (_csize p) in
    let pool1 :=
      if bool_decide (csize1 !!! old_comm = 0%Z)
      then _empty_communities p ++ [old_comm] else _empty_communities p in
    if bool_decide (csize1 !!! new_comm = 0%Z)
    then default pool1 (erase_last new_comm pool1) else pool1.
Proof. done. Qed.

Lemma move_node_pool_exact g p v old_comm new_comm :
  wf_graph g → positive_sizes g → consistent g p → pool_exact p →
  _membership p !! v = Some old_comm → new_comm < length (_csize p) →
  pool_exact (move_node_result g v old_comm new_comm p).
Proof.
  intros Hg Hpos Hp [Hnd Hpool] Hold Hnew.
  destruct (decide (new_comm = old_comm)) as [->|Hne].
  { by rewrite (move_node_result_noop g p v old_comm Hg Hp Hold). }
  destruct (move_sizes g p v old_comm new_comm Hg Hp Hold Hnew Hne)
    as (O & N & HO & HN & Hs & HN0 & HOt & HNt).
  pose proof (wf_total_size g Hg) as Htot.
  assert (size_t_modulus = 2 ^ 64)%Z as Hmod by done.
  assert (0 < node_size g v)%Z as Hsv.
  { apply Hpos. by eapply consistent_vertex. }
  unfold pool_exact. rewrite move_node_result_pool, move_node_result_csize. simpl.
  rewrite (list_lookup_total_correct _ old_comm (size_t_sub O (node_size g v))).
  2:{ by rewrite list_lookup_alter_eq, HO. }
  rewrite (list_lookup_total_correct _ new_comm N).
  2:{ by rewrite list_lookup_alter_ne, HN. }
  rewrite size_t_sub_exact by lia.
  assert (old_comm ∉ _empty_communities p) as Hold_out.
  { rewrite Hpool, HO. intros [=]. lia. }
  set (pool1 := if bool_decide (O - node_size g v = 0)%Z
                then _empty_communities p ++ [old_comm] else _empty_communities p).
  assert (NoDup pool1) as Hnd1.
  { unfold pool1. case_bool_decide; [|done]. apply NoDup_app. split; [done|]. split.
    - intros x Hx ->%list_elem_of_singleton. done.
    - apply NoDup_singleton. }
  assert (∀ c, c ∈ pool1 ↔ c ∈ _empty_communities p
                           ∨ (c = old_comm ∧ O - node_size g v = 0)%Z) as Hin1.
  { intros c. unfold pool1. case_bool_decide.
    - rewrite elem_of_app, list_elem_of_singleton. naive_solver.
    - naive_solver. }
  assert (∀ pool2, NoDup pool2 →
            (∀ c, c ∈ pool2 ↔ c ∈ pool1 ∧ c ≠ new_comm) →
            NoDup pool2 ∧ ∀ c, c ∈ pool2 ↔
              alter (λ x, size_t_add x (node_size g v)) new_comm
                (alter (λ x, size_t_sub x (node_size g v)) old_comm (_csize p)) !! c
              = Some 0%Z) as Hfinal.
  { intros pool2 Hnd2 Hin2. split; [done|]. intros c. rewrite Hin2, Hin1.
    destruct (decide (c = new_comm)) as [->|Hcn].
    - rewrite list_lookup_alter_eq, list_lookup_alter_ne, HN by done. simpl.
      rewrite size_t_add_exact by lia. split; [naive_solver|]. intros [=]. lia.
    - rewrite list_lookup_alter_ne by done.
      destruct (decide (c = old_comm)) as [->|Hco].
      + rewrite list_lookup_alter_eq, HO. simpl. rewrite size_t_sub_exact by lia.
        split; [|intros [=]; naive_solver]. intros [[?|[_ ->]] _]; done.
      + rewrite list_lookup_alter_ne by done. rewrite Hpool. naive_solver. }
  case_bool_decide as HN0'.
  - subst N. assert (new_comm ∈ pool1) as Hin by (apply Hin1; left; by apply Hpool).
    destruct (erase_last_is_Some new_comm pool1 Hin) as [pool2 Hpool2].
    rewrite Hpool2. simpl.
    destruct (erase_last_NoDup new_comm pool1 pool2 Hpool2 Hnd1) as [Hnd2 Hin2].
    by apply Hfinal.
  - apply Hfinal; [done|]. intros c. split; [|naive_solver].
    intros Hc. split; [done|]. intros ->. apply Hin1 in Hc as [Hc|[? _]]; [|done].
    apply Hpool in Hc. rewrite HN in Hc. by simplify_eq.
Qed.

Lemma with_empty_community_csize g p :
  consistent g p → _csize (with_empty_community p) = _csize p ++ [0%Z].
Proof.
  intros Hp. simpl. rewrite (cons_community g p Hp). apply resize_insert_snoc.
Qed.

Lemma with_empty_community_pool_exact g p :
  consistent g p → pool_exact p → pool_exact (with_empty_community p).
Proof.
  intros Hp [Hnd Hpool]. unfold pool_exact.
  rewrite (with_empty_community_csize g p Hp). simpl.
  rewrite (cons_community g p Hp).
  assert (length (_csize p) ∉ _empty_communities p) as Hout.
  { rewrite Hpool. by rewrite lookup_ge_None_2. }
  split.
  - apply NoDup_app. split; [done|]. split; [|apply NoDup_singleton].
    intros x Hx ->%list_elem_of_singleton. done.
  - intros c. rewrite elem_of_app, list_elem_of_singleton, Hpool.
    destruct (decide (c < length (_csize p))) as [Hlt|Hge].
    + rewrite lookup_app_l by done. split; [intros [?|?]; [done|lia]|by left].
    + destruct (decide (c = length (_csize p))) as [->|Hne].
      * rewrite list_lookup_middle by done. naive_solver.
      * rewrite !lookup_ge_None_2 by (rewrite ?length_app; simpl; lia). naive_solver.
Qed.

(** With positive node sizes, a community of size zero has no
    vertex. *)
Lemma csize_zero_empty g p c :
  consistent g p → positive_sizes g → _csize p !! c = Some 0%Z →
  csize c p = 0%Z ∧ community p !! c = Some ∅.
Proof.
  intros Hp Hpos Hc. unfold csize. rewrite Hc. split; [done|].
  assert (c < length (_csize p)) as Hlt by (by eapply lookup_lt_Some).
  rewrite (cons_members g p Hp c Hlt). f_equal.
  apply members_none. intros v Hv Hvc.
  rewrite (cons_csize g p Hp c Hlt) in Hc. injection Hc as Hc.
  assert (0 < size_in g (_membership p) c (vertices g))%Z; [|lia].
  apply size_in_positive; [|by eauto].
  intros u Hu. by apply Hpos, vertices_elem.
Qed.

(** X4: with positive node sizes that add up to less than [2^27], an
    exact pool stays exact: from a state in which the pool lists, once
    each, the communities of size zero and the number of possible
    edges is the sum over the communities, [move_node] to any
    allocated community returns, and it, [add_empty_community] and
    [get_empty_community] leave the pool and the number of possible
    edges exact; the community that [get_empty_community] returns has
    size zero and no vertex. *)
Theorem pool_stays_exact g p :
  wf_graph g → positive_sizes g → small_sizes g →
  consistent g p → exact_possible_edges g p → pool_exact p →
  (∀ v new_comm, v < vcount g → new_comm < nb_communities p →
     ∃ p', move_node g v new_comm p = Ok () p' ∧ consistent g p'
           ∧ exact_possible_edges g p' ∧ pool_exact p')
  ∧ (∀ c p', add_empty_community g p = Ok c p' →
       consistent g p' ∧ exact_possible_edges g p' ∧ pool_exact p')
  ∧ (∀ c p', get_empty_community g p = Ok c p' →
       consistent g p' ∧ exact_possible_edges g p' ∧ pool_exact p'
       ∧ csize c p' = 0%Z ∧ community p' !! c = Some ∅).
Proof.
  intros Hg Hpos Hsmall Hp Hpe Hpool. split; [|split].
  - intros v new_comm Hv Hnew.
    unfold nb_communities in Hnew. rewrite (cons_community g p Hp) in Hnew.
    destruct (lookup_lt_is_Some_2 (_membership p) v) as [old_comm Hold].
    { by rewrite (cons_membership g p Hp). }
    exists (move_node_result g v old_comm new_comm p). split; [|split; [|split]].
    + apply move_node_valid; try done. split; [done|]. apply Hpool.
    + by apply move_node_consistent.
    + by apply move_node_exact.
    + by apply move_node_pool_exact.
  - intros c p'. rewrite add_empty_community_eq. case_bool_decide; [done|].
    intros [= <- <-]. split; [|split].
    + by apply with_empty_community_consistent.
    + by apply with_empty_community_exact.
    + by apply (with_empty_community_pool_exact g).
  - intros c p'. rewrite get_empty_community_eq.
    destruct (last (_empty_communities p)) as [d|] eqn:Hlast.
    + intros [= <- <-]. split; [done|]. split; [done|]. split; [done|].
      apply (csize_zero_empty g); [done..|]. apply Hpool.
      apply last_Some in Hlast as [l ->]. apply elem_of_app. right. left.
    + case_bool_decide; [done|]. intros [= <- <-].
      split; [by apply with_empty_community_consistent|].
      split; [by apply with_empty_community_exact|].
      split; [by apply (with_empty_community_pool_exact g)|].
      split.
      * unfold csize. rewrite (with_empty_community_csize g p Hp).
        rewrite (cons_community g p Hp). by rewrite list_lookup_middle.
      * simpl. by rewrite list_lookup_middle.
Qed.

Lemma consistent_path4_singletons : consistent path4 path4_singletons.
Proof. exact (proj1 (reachable_ok path4 _ wf_graph_path4 reachable_path4_singletons)). Qed.

Lemma exact_possible_edges_path4_singletons : exact_possible_edges path4 path4_singletons.
Proof. by vm_compute. Qed.

Lemma pool_exact_path4_singletons : pool_exact path4_singletons.
Proof.
  split; [apply NoDup_nil_2|]. intros c. split; [by intros ?%elem_of_nil|].
  intros Hc. exfalso. destruct c as [|[|[|[|c]]]]; vm_compute in Hc; discriminate.
Qed.

Lemma pool_stays_exact_witness :
  (∀ v new_comm, v < vcount path4 → new_comm < nb_communities path4_singletons →
     ∃ p', move_node path4 v new_comm path4_singletons = Ok () p'
           ∧ consistent path4 p' ∧ exact_possible_edges path4 p' ∧ pool_exact p')
  ∧ (∀ c p', add_empty_community path4 path4_singletons = Ok c p' →
       consistent path4 p' ∧ exact_possible_edges path4 p' ∧ pool_exact p')
  ∧ (∀ c p', get_empty_community path4 path4_singletons = Ok c p' →
       consistent path4 p' ∧ exact_possible_edges path4 p' ∧ pool_exact p'
       ∧ csize c p' = 0%Z ∧ community p' !! c = Some ∅).
Proof.
  exact (pool_stays_exact path4 path4_singletons wf_graph_path4 positive_sizes_path4
           small_sizes_path4 consistent_path4_singletons
           exact_possible_edges_path4_singletons pool_exact_path4_singletons).
Defined.

Lemma create_post g membership p :
  wf_graph g → create g membership = Ok () p →
  consistent g p ∧ _membership p = membership ∧ _empty_communities p = []
  ∧ length membership = vcount g.
Proof.
  intros Hg. unfold create, construct. case_bool_decide as Hlen; [done|].
  unfold mbind, M_bind, modify. intros Hrun.
  destruct (init_admin_inv g (set_membership membership fresh) p Hg Hlen Hrun)
    as [_ Hpost].
  destruct Hpost as [Hp Hm He _ _ _ _ _]. done.
Qed.

Lemma create_default_eq g : create_default g = create g (seq 0 (vcount g)).
Proof.
  unfold create_default, create, construct_default, construct.
  rewrite bool_decide_eq_false_2; [done|]. rewrite length_seq. by intros ?.
Qed.

Lemma nb_comms_of_seq n : nb_comms_of (seq 0 n) 0 ≤ n.
Proof.
  destruct (nb_comms_of_attained (seq 0 n) 0) as [->|(c & Hc & ->)]; [lia|].
  apply elem_of_seq in Hc. lia.
Qed.

Lemma fresh_pool_exact g p :
  wf_graph g → positive_sizes g → consistent g p → _empty_communities p = [] →
  pool_exact p ↔ ∀ c, c < nb_communities p → c ∈ _membership p.
Proof.
  intros Hg Hpos Hp He. unfold pool_exact. rewrite He. split.
  - intros [_ Hpool] c Hc. apply (csize_positive g p c Hp Hpos Hc).
    unfold nb_communities in Hc. rewrite (cons_community g p Hp) in Hc.
    destruct (lookup_lt_is_Some_2 (_csize p) c Hc) as [x Hx].
    pose proof (consistent_csize_range g p c x Hg Hp Hx) as Hrange.
    unfold csize. rewrite Hx.
    destruct (decide (x = 0%Z)) as [->|?]; [|lia].
    apply Hpool in Hx. by apply elem_of_nil in Hx.
  - intros Hall. split; [apply NoDup_nil_2|]. intros c.
    split; [by intros ?%elem_of_nil|]. intros Hc. exfalso.
    assert (c < nb_communities p) as Hlt.
    { unfold nb_communities. rewrite (cons_community g p Hp). by eapply lookup_lt_Some. }
    pose proof (proj2 (csize_positive g p c Hp Hpos Hlt) (Hall c Hlt)) as Hgt.
    unfold csize in Hgt. rewrite Hc in Hgt. lia.
Qed.

(** X5: with positive node sizes, the default constructor leaves the
    pool of empty communities exact, and the constructor from a
    membership vector does exactly when every allocated slot (every id
    up to the largest one in the vector) holds a vertex: [init_admin]
    does not list the empty slots it allocates. *)
Theorem constructor_pool_exact g :
  wf_graph g → positive_sizes g →
  (∀ p, create_default g = Ok () p → pool_exact p)
  ∧ (∀ membership p, create g membership = Ok () p →
       (pool_exact p ↔ ∀ c, c < nb_communities p → c ∈ membership)).
Proof.
  intros Hg Hpos.
  assert (∀ membership p, create g membership = Ok () p →
       (pool_exact p ↔ ∀ c, c < nb_communities p → c ∈ membership)) as Hcreate.
  { intros membership p Hrun.
    destruct (create_post g membership p Hg Hrun) as (Hp & Hm & He & _).
    rewrite <-Hm. by apply (fresh_pool_exact g). }
  split; [|done]. intros p Hrun. rewrite create_default_eq in Hrun.
  apply (Hcreate _ _ Hrun). intros c Hc. apply elem_of_seq.
  unfold create, construct in Hrun. rewrite bool_decide_eq_false_2 in Hrun.
  2:{ rewrite length_seq. by intros ?. }
  unfold mbind, M_bind, modify in Hrun.
  destruct (init_admin_inv g (set_membership (seq 0 (vcount g)) fresh) p Hg)
    as [_ Hpost]; [simpl; apply length_seq|done|].
  destruct Hpost as [Hp _ _ Hnb _ _ _ _]. simpl in Hnb.
  unfold nb_communities in Hc. rewrite (cons_community g p Hp), Hnb in Hc.
  pose proof (nb_comms_of_seq (vcount g)). lia.
Qed.

Lemma constructor_pool_exact_witness :
  (∀ p, create_default path4 = Ok () p → pool_exact p)
  ∧ (∀ membership p, create path4 membership = Ok () p →
       (pool_exact p ↔ ∀ c, c < nb_communities p → c ∈ membership)).
Proof. exact (constructor_pool_exact path4 wf_graph_path4 positive_sizes_path4). Defined.

(** ** Handing out empty communities *)

Lemma with_empty_community_new_csize p :
  csize (length (community p)) (with_empty_community p) = 0%Z.
Proof.
  unfold csize. simpl. rewrite list_lookup_insert_eq; [done|].
  rewrite length_resize. lia.
Qed.

(** X6: [get_empty_community ()] never runs into undefined behaviour;
    the only exception that leaves it is the capacity error of
    [add_empty_community], raised exactly when the pool is empty and
    there are already as many community slots as vertices (the object
    is then left with one more empty community set); with a non-empty
    pool it returns the last element of the pool and changes
    nothing. *)
Theorem get_empty_community_behaviour g p :
  get_empty_community g p ≠ Undefined
  ∧ (∀ e p', get_empty_community g p = Throw e p' ↔
       e = CapacityExceeded ∧ _empty_communities p = [] ∧ vcount g ≤ nb_communities p
       ∧ p' = set_community (community p ++ [∅]) p)
  ∧ (∀ pool c, _empty_communities p = pool ++ [c] → get_empty_community g p = Ok c p).
Proof.
  rewrite get_empty_community_eq. unfold nb_communities. split; [|split].
  - destruct (last (_empty_communities p)); [done|]. by case_bool_decide.
  - intros e p'. destruct (_empty_communities p) as [|c0 pool] eqn:Hpool using rev_ind.
    + simpl. case_bool_decide.
      * split; [intros [= <- <-]; split_and!; [done..|lia|done]|].
        by intros (-> & _ & _ & ->).
      * split; [done|]. intros (_ & _ & ? & _). lia.
    + rewrite last_snoc. split; [done|]. intros (_ & Habs & _).
      by apply app_nil in Habs as [_ ?].
  - intros pool c ->. by rewrite last_snoc.
Qed.

(** X7: the community handed out stays the one on offer:
    [get_empty_community ()] returns the last element of the pool it
    leaves, so calling it again returns the same community and changes
    nothing; when the pool was empty the community is the new slot
    [nb_communities ()], of size zero. [add_empty_community ()]
    returns the new slot [nb_communities ()], and a following
    [get_empty_community ()] returns that slot. *)
Theorem empty_community_on_offer g p :
  (∀ c p', get_empty_community g p = Ok c p' →
     last (_empty_communities p') = Some c
     ∧ get_empty_community g p' = Ok c p'
     ∧ (_empty_communities p = [] →
          c = nb_communities p ∧ nb_communities p' = S (nb_communities p)
          ∧ csize c p' = 0%Z))
  ∧ (∀ c p', add_empty_community g p = Ok c p' →
       c = nb_communities p ∧ nb_communities p' = S (nb_communities p)
       ∧ csize c p' = 0%Z
       ∧ get_empty_community g p' = Ok c p').
Proof.
  assert (∀ c p', add_empty_community g p = Ok c p' →
       c = nb_communities p ∧ nb_communities p' = S (nb_communities p)
       ∧ csize c p' = 0%Z
       ∧ last (_empty_communities p') = Some c) as Hadd.
  { intros c p'. rewrite add_empty_community_eq. case_bool_decide; [done|].
    intros [= <- <-]. split; [done|]. split.
    { unfold nb_communities. simpl. rewrite length_app. simpl. lia. }
    split; [apply with_empty_community_new_csize|]. simpl. apply last_snoc. }
  split.
  - intros c p' Hrun.
    assert (last (_empty_communities p') = Some c
            ∧ (_empty_communities p = [] →
                 c = nb_communities p ∧ nb_communities p' = S (nb_communities p)
                 ∧ csize c p' = 0%Z)) as [Hlast Hnew].
    { rewrite get_empty_community_eq in Hrun.
      destruct (last (_empty_communities p)) as [d|] eqn:Hd.
      - injection Hrun as <- <-. split; [done|]. intros He. by rewrite He in Hd.
      - rewrite <-add_empty_community_eq in Hrun.
        destruct (Hadd c p' Hrun) as (? & ? & ? & ?). done. }
    split; [done|]. split; [|done].
    rewrite get_empty_community_eq. by rewrite Hlast.
  - intros c p' Hrun. destruct (Hadd c p' Hrun) as (? & ? & ? & Hlast).
    split_and!; [done..|]. rewrite get_empty_community_eq. by rewrite Hlast.
Qed.

Lemma empty_community_on_offer_witness :
  (∀ c p', get_empty_community (edgeless 2) (after (create (edgeless 2) [0; 0])) = Ok c p' →
     last (_empty_communities p') = Some c
     ∧ get_empty_community (edgeless 2) p' = Ok c p'
     ∧ (_empty_communities (after (create (edgeless 2) [0; 0])) = [] →
          c = nb_communities (after (create (edgeless 2) [0; 0]))
          ∧ nb_communities p' = S (nb_communities (after (create (edgeless 2) [0; 0])))
          ∧ csize c p' = 0%Z)).
Proof.
  exact (proj1 (empty_community_on_offer (edgeless 2) (after (create (edgeless 2) [0; 0])))).
Defined.

Lemma erase_first_cons_ne x y l : y ≠ x → erase_first x (y :: l) = cons y <$> erase_first x l.
Proof. intros Hne. simpl. by rewrite decide_False. Qed.

Lemma erase_last_snoc_ne x y l :
  y ≠ x → erase_last x (l ++ [y]) = (λ l', l' ++ [y]) <$> erase_last x l.
Proof.
  intros Hne. unfold erase_last. rewrite reverse_snoc, erase_first_cons_ne by done.
  destruct (erase_first x (reverse l)) as [l'|]; [|done]. simpl.
  by rewrite reverse_cons.
Qed.

(** X8: a community that a move empties is the next one handed out:
    when the node sizes add up to less than [2^27] and [v] makes up the
    whole size of its community and moves to another valid community,
    the move returns, the old community becomes the last
    element of the pool, and [get_empty_community ()] returns it
    without changing the state. *)
Theorem emptied_community_is_recycled g p v old_comm new_comm :
  wf_graph g → small_sizes g → reachable g p → _membership p !! v = Some old_comm →
  valid_target p new_comm → new_comm ≠ old_comm → csize old_comm p = node_size g v →
  ∃ p', move_node g v new_comm p = Ok () p'
        ∧ csize old_comm p' = 0%Z
        ∧ get_empty_community g p' = Ok old_comm p'.
Proof.
  intros Hg Hsmall Hreach Hold Hvalid Hne Hsize.
  destruct (reachable_ok g p Hg Hreach) as [Hp _].
  exists (move_node_result g v old_comm new_comm p).
  split; [by apply reachable_move_node_valid|].
  destruct (move_sizes g p v old_comm new_comm Hg Hp Hold (proj1 Hvalid) Hne)
    as (O & N & HO & HN & Hs & HN0 & HOt & HNt).
  unfold csize in Hsize. rewrite HO in Hsize. subst O.
  assert (size_t_sub (node_size g v) (node_size g v) = 0%Z) as Hzero.
  { unfold size_t_sub. by rewrite Z.sub_diag. }
  split.
  - unfold csize. rewrite move_node_result_csize.
    by rewrite list_lookup_alter_ne, list_lookup_alter_eq, HO; [simpl|].
  - rewrite get_empty_community_eq, move_node_result_pool. simpl.
    rewrite (list_lookup_total_correct _ old_comm 0%Z).
    2:{ by rewrite list_lookup_alter_eq, HO; simpl; rewrite Hzero. }
    rewrite (list_lookup_total_correct _ new_comm N).
    2:{ by rewrite list_lookup_alter_ne, HN. }
    rewrite (bool_decide_eq_true_2 (0 = 0)%Z) by done.
    case_bool_decide as HN'; [|by rewrite last_snoc].
    subst N. rewrite erase_last_snoc_ne by done.
    destruct (erase_last_is_Some new_comm (_empty_communities p)) as [pool' Hpool'].
    { by apply (proj2 Hvalid). }
    rewrite Hpool'. simpl. by rewrite last_snoc.
Qed.

Lemma emptied_community_is_recycled_witness :
  ∃ p', move_node path4 1 0 path4_singletons = Ok () p'
        ∧ csize 1 p' = 0%Z
        ∧ get_empty_community path4 p' = Ok 1 p'.
Proof.
  refine (emptied_community_is_recycled path4 path4_singletons 1 1 0 wf_graph_path4
            small_sizes_path4 reachable_path4_singletons _ _ _ _).
  - vm_compute. reflexivity.
  - split; [vm_compute; lia|]. vm_compute. intros [=].
  - lia.
  - vm_compute. reflexivity.
Defined.

Lemma get_empty_community_behaviour_witness :
  ∀ pool c, _empty_communities (after (move_node path4 1 0 path4_singletons)) = pool ++ [c] →
    get_empty_community path4 (after (move_node path4 1 0 path4_singletons))
    = Ok c (after (move_node path4 1 0 path4_singletons)).
Proof.
  exact (proj2 (proj2 (get_empty_community_behaviour path4
                         (after (move_node path4 1 0 path4_singletons))))).
Defined.


(** ** Reading the communities of a coarser partition *)

Lemma Zsum_indicator_fun (c : nat) (f : nat → Z) nb k :
  Zsum ((λ d, if decide (Some c = Some d) then f d else 0%Z) <$> seq k nb)
  = if decide (k ≤ c < k + nb) then f c else 0%Z.
Proof.
  revert k. induction nb as [|nb IH]; intros k; simpl.
  - case_decide; [lia|done].
  - rewrite IH. destruct (decide (c = k)) as [->|Hne].
    + rewrite (decide_True (P := Some k = Some k)) by done.
      rewrite decide_False by lia. rewrite decide_True by lia. lia.
    + rewrite (decide_False (P := Some c = Some k)) by congruence.
      repeat case_decide; lia.
Qed.

Lemma size_in_coarser g (m cm : list nat) d nb vs :
  (∀ v, v ∈ vs → ∃ c, m !! v = Some c ∧ c < nb ∧ c < length cm) →
  size_in g ((λ c, default 0 (cm !! c)) <$> m) d vs
  = Zsum ((λ c, if decide (cm !! c = Some d) then size_in g m c vs else 0%Z) <$> seq 0 nb).
Proof.
  induction vs as [|v vs IH]; intros Hvs.
  - symmetry. erewrite list_fmap_ext; [apply Zsum_fmap_zero|].
    intros i c _. simpl. by case_decide.
  - rewrite size_in_cons, IH by (intros u Hu; apply Hvs; by right).
    destruct (Hvs v) as (c0 & Hc0 & Hlt & Hcm); [left|].
    destruct (lookup_lt_is_Some_2 cm c0 Hcm) as [d0 Hd0].
    rewrite list_lookup_fmap, Hc0. simpl. rewrite Hd0. simpl.
    transitivity
      (Zsum ((λ c, (if decide (Some c0 = Some c)
                    then (if decide (cm !! c = Some d) then node_size g v else 0)
                    else 0)
                   + (if decide (cm !! c = Some d) then size_in g m c vs else 0))%Z
               <$> seq 0 nb)).
    + rewrite Zsum_fmap_add. f_equal. rewrite Zsum_indicator_fun.
      rewrite (decide_True (P := 0 ≤ c0 < 0 + nb)) by lia. rewrite Hd0.
      by repeat case_decide; simplify_eq.
    + f_equal. apply list_fmap_ext. intros i c _. simpl.
      rewrite size_in_cons, Hc0. repeat case_decide; simplify_eq; lia.
Qed.

Lemma valid_ids_fmap_lookup (ids m : list nat) :
  valid_ids ids → valid_ids ((λ c, default 0 (ids !! c)) <$> m).
Proof.
  intros Hids. apply Forall_fmap, Forall_forall. intros c _. simpl.
  destruct (ids !! c) as [d|] eqn:Hd; simpl.
  - apply (valid_ids_elem ids d Hids). by eapply list_elem_of_lookup_2.
  - unfold size_t_modulus. lia.
Qed.

(** X9: [from_coarser_partition (coarser_partition_membership)] hands
    its own membership vector to the two-argument form, which
    overwrites that vector while it reads it; every entry is read
    before it is written, so the result is the one for a copy of the
    membership: when no entry of the coarser membership is the
    largest [size_t] value, the call returns, each vertex of community
    [c] ends up in community [coarser_partition_membership[c]],
    communities are merged whole, and the size of a new community is
    the total size of the old communities it is made of. *)
Theorem from_coarser_partition_merges g p coarser_partition_membership :
  wf_graph g → reachable g p →
  (∀ c, c ∈ _membership p → c < length coarser_partition_membership) →
  valid_ids coarser_partition_membership →
  from_coarser_partition g coarser_partition_membership p
  = from_coarser_partition_with g coarser_partition_membership (_membership p) p
  ∧ ∃ p', from_coarser_partition g coarser_partition_membership p = Ok () p'
      ∧ consistent g p'
      ∧ (∀ v c, _membership p !! v = Some c →
           _membership p' !! v = coarser_partition_membership !! c)
      ∧ (∀ d, d < nb_communities p' →
           csize d p'
           = Zsum ((λ c, if decide (coarser_partition_membership !! c = Some d)
                         then csize c p else 0%Z) <$> seq 0 (nb_communities p))).
Proof.
  intros Hg Hreach Hcm Hvalid. destruct (reachable_ok g p Hg Hreach) as [Hp Hk].
  pose proof (cons_membership g p Hp) as Hlen.
  set (m' := (λ c, default 0 (coarser_partition_membership !! c)) <$> _membership p).
  assert (from_coarser_partition g coarser_partition_membership p
          = init_admin g (set_community [] (set_membership m' p))) as Heq.
  { by apply from_coarser_partition_eq. }
  split.
  - rewrite Heq, from_coarser_partition_with_eq; [|done|].
    + do 3 f_equal. unfold m'. rewrite <-Hlen. symmetry.
      apply (fmap_seq_fmap (λ c, default 0 (coarser_partition_membership !! c))).

    + intros v Hv. destruct (lookup_lt_is_Some_2 (_membership p) v) as [c Hc]; [lia|].
      exists c. split; [done|]. apply Hcm. by eapply list_elem_of_lookup_2.
  - rewrite Heq.
    destruct (init_admin_returns g (set_community [] (set_membership m' p)) Hg)
      as ([] & p' & Hrun & Hpost).
    { simpl. unfold m'. by rewrite length_fmap. }
    { simpl. unfold m'. by apply valid_ids_fmap_lookup. }
    destruct Hpost as [Hp' Hm' _ _ _ _ _ _]. simpl in Hm'.
    exists p'. split; [done|]. split; [done|]. split.
    + intros v c Hv. rewrite Hm'. unfold m'. rewrite list_lookup_fmap, Hv. simpl.
      destruct (lookup_lt_is_Some_2 coarser_partition_membership c) as [d Hd].
      { apply Hcm. by eapply list_elem_of_lookup_2. }
      by rewrite Hd.
    + intros d Hd. unfold nb_communities in *.
      rewrite (cons_community g p' Hp') in Hd. rewrite (cons_community g p Hp).
      rewrite (consistent_csize g p' d Hp' Hd), Hm'. unfold m'.
      rewrite (size_in_coarser g _ _ d (length (_csize p))).
      * apply (f_equal Zsum), list_fmap_ext. intros i c Hc%lookup_seq. simpl.
        case_decide; [|done]. rewrite (consistent_csize g p c Hp); [done|lia].
      * intros v Hv%vertices_elem.
        destruct (lookup_lt_is_Some_2 (_membership p) v) as [c Hc]; [lia|].
        exists c. split; [done|]. split; [by apply (cons_range g p Hp v)|].
        apply Hcm. by eapply list_elem_of_lookup_2.
Qed.

Lemma membership_path4_singletons_range c :
  c ∈ _membership path4_singletons → c < length [0; 0; 1; 1].
Proof.
  change (_membership path4_singletons) with [0; 1; 2; 3].
  rewrite !elem_of_cons, elem_of_nil. simpl. lia.
Qed.

Lemma from_coarser_partition_merges_witness :
  from_coarser_partition path4 [0; 0; 1; 1] path4_singletons
  = from_coarser_partition_with path4 [0; 0; 1; 1] (_membership path4_singletons)
      path4_singletons
  ∧ ∃ p', from_coarser_partition path4 [0; 0; 1; 1] path4_singletons = Ok () p'
      ∧ consistent path4 p'
      ∧ (∀ v c, _membership path4_singletons !! v = Some c →
           _membership p' !! v = [0; 0; 1; 1] !! c)
      ∧ (∀ d, d < nb_communities p' →
           csize d p'
           = Zsum ((λ c, if decide ([0; 0; 1; 1] !! c = Some d)
                         then csize c path4_singletons else 0%Z)
                     <$> seq 0 (nb_communities path4_singletons))).
Proof.
  refine (from_coarser_partition_merges path4 path4_singletons [0; 0; 1; 1] wf_graph_path4
            reachable_path4_singletons membership_path4_singletons_range _).
  valid_ids.
Defined.

(** ** The weight aggregates that [init_admin] computes *)

Lemma returns_and {A} (m : M A) s (Q Q' : A → MutableVertexPartition → Prop) :
  returns m s Q → returns m s Q' → returns m s (λ a s', Q a s' ∧ Q' a s').
Proof.
  intros (a & s1 & Hrun & HQ) (a' & s1' & Hrun' & HQ').
  rewrite Hrun in Hrun'. injection Hrun' as <- <-. exists a, s1. done.
Qed.

Lemma weights_bumped_refl s : weights_bumped [] [] [] s s.
Proof. split; simpl; try done. by rewrite Qcplus_0_r. Qed.

Lemma weights_bumped_trans I F T I' F' T' s1 s2 s3 :
  weights_bumped I F T s1 s2 → weights_bumped I' F' T' s2 s3 →
  weights_bumped (I ++ I') (F ++ F') (T ++ T') s1 s3.
Proof.
  intros [Hi Hf Ht Ha] [Hi' Hf' Ht' Ha']. split.
  - by rewrite Hi', Hi, apply_bumps_app.
  - by rewrite Hf', Hf, apply_bumps_app.
  - by rewrite Ht', Ht, apply_bumps_app.
  - rewrite Ha', Ha, net_all_app. ring.
Qed.

Lemma init_admin_edge_weights g m v v_comm ue s u_comm :
  m !! v = Some v_comm → m !! ue.1 = Some u_comm → _membership s = m →
  v_comm < length (_total_weight_from_comm s) →
  u_comm < length (_total_weight_to_comm s) →
  v_comm < length (_total_weight_in_comm s) →
  returns (init_admin_edge g v_comm ue) s
    (λ _ s', weights_bumped (init_in_bump g m (v, ue)) [init_from_bump g m (v, ue)]
               [init_to_bump g m (v, ue)] s s').
Proof.
  intros Hv Hu Hm Hfrom Hto Hin. unfold init_admin_edge.
  unfold init_in_bump, init_from_bump, init_to_bump. simpl. rewrite Hv, Hu. simpl.
  mstep. eapply returns_index; [by rewrite Hm|].
  mstep. apply returns_modify_at; [done|].
  mstep. apply returns_modify_at; [done|].
  mstep.
  - mstep. apply returns_modify_at; [done|]. mstep.
    rewrite H. split; simpl; try done. unfold internal_weight.
    destruct (is_directed g); ring.
  - rewrite H. split; simpl; try done. ring.
Qed.

Lemma init_admin_edges_weights g m v v_comm s nb :
  wf_graph g → v < vcount g → length m = vcount g →
  m !! v = Some v_comm → _membership s = m →
  (∀ u c, m !! u = Some c → c < nb) →
  length (_total_weight_from_comm s) = nb →
  length (_total_weight_to_comm s) = nb →
  length (_total_weight_in_comm s) = nb →
  returns (for_each (incident g v IGRAPH_OUT) (init_admin_edge g v_comm)) s
    (λ _ s', weights_bumped (out_edges_of g [v] ≫= init_in_bump g m)
               (init_from_bump g m <$> out_edges_of g [v])
               (init_to_bump g m <$> out_edges_of g [v]) s s').
Proof.
  intros Hg Hv Hlen Hvc Hm Hr Hfrom Hto Hin.
  unfold out_edges_of. simpl. rewrite app_nil_r.
  eapply returns_mono.
  { apply (returns_for_each _
      (λ l1 s', same_but_weights s s'
                ∧ weights_bumped (((λ ue, (v, ue)) <$> l1) ≫= init_in_bump g m)
                    (init_from_bump g m <$> ((λ ue, (v, ue)) <$> l1))
                    (init_to_bump g m <$> ((λ ue, (v, ue)) <$> l1)) s s')).
    { split; [apply same_but_weights_refl|apply weights_bumped_refl]. }
    intros l1 ue l2 s1 Hl [Hs1 Hw1].
    assert (ue.1 < vcount g) as Hu.
    { eapply (wf_neighbours g Hg v IGRAPH_OUT); [done|].
      apply incident_neighbour. rewrite Hl. apply elem_of_app. right. left. }
    destruct (lookup_lt_is_Some_2 m ue.1) as [u_comm Hu_comm]; [lia|].
    pose proof (Hr _ _ Hu_comm) as Hulen. pose proof (Hr _ _ Hvc) as Hvlen.
    destruct Hs1 as [Em Ec Es Ep Ee Ef Et Ea El1 El2 El3].
    eapply returns_mono.
    { apply returns_and.
      - apply (init_admin_edge_returns g v_comm ue s1 u_comm); [congruence|lia..].
      - apply (init_admin_edge_weights g m v v_comm ue s1 u_comm); [done|done|congruence|lia..]. }
    intros [] s2 [Hs2 Hw2]. simpl in Hs2, Hw2. split.
    - eapply same_but_weights_trans; [|exact Hs2]. split; congruence.
    - rewrite !fmap_app, bind_app. simpl. rewrite app_nil_r.
      by apply (weights_bumped_trans _ _ _ _ _ _ s s1 s2). }
  intros [] s' [_ Hw]. exact Hw.
Qed.

Lemma init_admin_vertex_weights g s0 nb l1 v l2 s :
  wf_graph g → vertices g = l1 ++ v :: l2 →
  length (_membership s0) = vcount g →
  (∀ u c, _membership s0 !! u = Some c → c < nb) →
  init_inv g s0 nb l1 s →
  returns (init_admin_vertex g v) s
    (λ _ s', weights_bumped (out_edges_of g [v] ≫= init_in_bump g (_membership s0))
               (init_from_bump g (_membership s0) <$> out_edges_of g [v])
               (init_to_bump g (_membership s0) <$> out_edges_of g [v]) s s').
Proof.
  intros Hg Hl Hm Hr [Hmem Hpe Hempty Hcf Hct Hca Hlc Hls Hli Hlf Hlt Hcs Hmb].
  assert (v < vcount g) as Hv.
  { apply vertices_elem. rewrite Hl. apply elem_of_app. right. left. }
  destruct (lookup_lt_is_Some_2 (_membership s0) v) as [c Hc]; [lia|].
  pose proof (Hr _ _ Hc) as Hcnb.
  unfold init_admin_vertex.
  mstep. eapply returns_index; [by rewrite Hmem|].
  mstep. apply returns_modify_at; [lia|].
  mstep. apply returns_modify_at; [simpl; lia|].
  eapply returns_mono.
  { apply (init_admin_edges_weights g (_membership s0) v c _ nb); simpl; done. }
  intros [] s' [Hi Hf Ht Ha]. by split.
Qed.

Lemma out_edges_of_app g l1 l2 : out_edges_of g (l1 ++ l2) = out_edges_of g l1 ++ out_edges_of g l2.
Proof. unfold out_edges_of. apply bind_app. Qed.

(** The state in which [init_admin] returns, with the updates of the
    weight aggregates that it made. *)
Lemma init_admin_weights g p :
  wf_graph g → length (_membership p) = vcount g → valid_ids (_membership p) →
  returns (init_admin g) p
    (λ _ p', init_post g p p'
       ∧ weights_bumped (out_edges g ≫= init_in_bump g (_membership p))
           (init_from_bump g (_membership p) <$> out_edges g)
           (init_to_bump g (_membership p) <$> out_edges g)
           (init_reset g (nb_comms_of (_membership p) 0) p) p').
Proof.
  intros Hg Hm Hv. apply returns_and; [by apply init_admin_returns|].
  unfold init_admin.
  mstep. eapply returns_mono.
  { rewrite <-Hm. apply (init_nb_comms_returns p 0 (_membership p)); done. }
  intros nb s' [-> ->].
  set (nb := nb_comms_of (_membership p) 0).
  assert (∀ u c, _membership p !! u = Some c → c < nb) as Hr.
  { intros u c Hu. apply nb_comms_of_bound. by eapply list_elem_of_lookup_2. }
  mstep. mstep. mstep.
  eapply returns_mono.
  { apply (returns_for_each _
      (λ l1 s, init_inv g (init_reset g nb p) nb l1 s
               ∧ weights_bumped (out_edges_of g l1 ≫= init_in_bump g (_membership p))
                   (init_from_bump g (_membership p) <$> out_edges_of g l1)
                   (init_to_bump g (_membership p) <$> out_edges_of g l1)
                   (init_reset g nb p) s)).
    - split; [|apply weights_bumped_refl].
      split; simpl; rewrite ?length_replicate; try done.
      + intros c Hc. by rewrite lookup_replicate_2.
      + intros c Hc. by rewrite lookup_replicate_2.
    - intros l1 v l2 s1 Hl [Hs1 Hw1].
      eapply returns_mono.
      { apply returns_and.
        - apply (init_admin_vertex_returns g (init_reset g nb p) nb l1 v l2); done.
        - apply (init_admin_vertex_weights g (init_reset g nb p) nb l1 v l2); done. }
      intros [] s2 [Hs2 Hw2]. simpl in Hw2. split; [done|].
      rewrite out_edges_of_app, fmap_app, fmap_app, bind_app.
      by apply (weights_bumped_trans _ _ _ _ _ _ _ s1 s2). }
  intros [] s1 [[Hmem Hpe Hempty Hcf Hct Hca Hlc Hls Hli Hlf Hlt Hcs Hmb] Hw]. simpl in *.
  mstep. mstep. rewrite <-Hls at 1.
  eapply returns_mono; [apply init_possible_edges_returns|].
  intros [] s2 ->. destruct Hw. by split.
Qed.

Lemma out_edges_of_elem g vs x :
  x ∈ out_edges_of g vs ↔ x.1 ∈ vs ∧ x.2 ∈ incident g x.1 IGRAPH_OUT.
Proof.
  unfold out_edges_of. rewrite list_elem_of_bind. split.
  - intros (v & Hx & Hv). apply list_elem_of_fmap in Hx as (ue & -> & Hue). done.
  - intros [Hv Hx]. exists x.1. split; [|done]. apply list_elem_of_fmap.
    exists x.2. split; [by destruct x|done].
Qed.

Lemma out_edges_range g x :
  wf_graph g → x ∈ out_edges g → x.1 < vcount g ∧ x.2.1 < vcount g.
Proof.
  intros Hg [Hv Hx]%out_edges_of_elem. apply vertices_elem in Hv. split; [done|].
  apply (wf_neighbours g Hg x.1 IGRAPH_OUT); [done|]. by apply incident_neighbour.
Qed.


Lemma net_cons b bs c : net c (b :: bs) = ((if decide (b.1 = c) then b.2 else 0) + net c bs)%Qc.
Proof. simpl. case_decide; [done|]. symmetry. apply Qcplus_0_l. Qed.

Lemma net_init_from g m xs c :
  (∀ x, x ∈ xs → is_Some (m !! x.1)) →
  net c (init_from_bump g m <$> xs)
  = Qcsum ((λ x, if decide (m !! x.1 = Some c) then edge_weight g x.2.2 else 0%Qc) <$> xs).
Proof.
  induction xs as [|x xs IH]; intros Hxs; [done|].
  rewrite !fmap_cons, net_cons, Qcsum_cons, IH by (intros; apply Hxs; by right).
  destruct (Hxs x) as [d Hd]; [left|]. unfold init_from_bump. simpl. rewrite Hd. simpl.
  destruct (decide (d = c)) as [->|Hne].
  - by rewrite decide_True.
  - by rewrite decide_False by congruence.
Qed.

Lemma net_init_to g m xs c :
  (∀ x, x ∈ xs → is_Some (m !! x.2.1)) →
  net c (init_to_bump g m <$> xs)
  = Qcsum ((λ x, if decide (m !! x.2.1 = Some c) then edge_weight g x.2.2 else 0%Qc) <$> xs).
Proof.
  induction xs as [|x xs IH]; intros Hxs; [done|].
  rewrite !fmap_cons, net_cons, Qcsum_cons, IH by (intros; apply Hxs; by right).
  destruct (Hxs x) as [d Hd]; [left|]. unfold init_to_bump. simpl. rewrite Hd. simpl.
  destruct (decide (d = c)) as [->|Hne].
  - by rewrite decide_True.
  - by rewrite decide_False by congruence.
Qed.

Lemma net_init_in g m xs c :
  (∀ x, x ∈ xs → is_Some (m !! x.1) ∧ is_Some (m !! x.2.1)) →
  net c (xs ≫= init_in_bump g m)
  = Qcsum ((λ x, if decide (m !! x.1 = Some c ∧ m !! x.2.1 = Some c)
                 then internal_weight g x.2.2 else 0%Qc) <$> xs).
Proof.
  induction xs as [|x xs IH]; intros Hxs; [done|].
  rewrite bind_cons, net_app, fmap_cons, Qcsum_cons, IH by (intros; apply Hxs; by right).
  f_equal. destruct (Hxs x) as [[d Hd] [d' Hd']]; [left|].
  unfold init_in_bump. rewrite Hd, Hd'. simpl.
  case_bool_decide as Hdd.
  - subst d'. rewrite net_cons. simpl. rewrite Qcplus_0_r.
    destruct (decide (d = c)) as [->|Hne].
    + by rewrite decide_True.
    + rewrite decide_False; [done|]. intros [? _]. congruence.
  - simpl. rewrite decide_False; [done|]. intros [? ?]. congruence.
Qed.

Lemma net_all_init_in g m xs :
  (∀ x, x ∈ xs → is_Some (m !! x.1) ∧ is_Some (m !! x.2.1)) →
  net_all (xs ≫= init_in_bump g m)
  = Qcsum ((λ x, if decide (m !! x.1 = m !! x.2.1) then internal_weight g x.2.2 else 0%Qc)
             <$> xs).
Proof.
  induction xs as [|x xs IH]; intros Hxs; [done|].
  rewrite bind_cons, net_all_app, fmap_cons, Qcsum_cons, IH by (intros; apply Hxs; by right).
  f_equal. destruct (Hxs x) as [[d Hd] [d' Hd']]; [left|].
  unfold init_in_bump. rewrite Hd, Hd'. simpl.
  case_bool_decide as Hdd.
  - subst d'. simpl. rewrite Qcplus_0_r. by rewrite decide_True.
  - simpl. rewrite decide_False; [done|]. congruence.
Qed.

Lemma membership_is_Some g (m : list nat) x :
  wf_graph g → length m = vcount g → x ∈ out_edges g →
  is_Some (m !! x.1) ∧ is_Some (m !! x.2.1).
Proof.
  intros Hg Hm Hx. destruct (out_edges_range g x Hg Hx).
  split; apply lookup_lt_is_Some_2; lia.
Qed.

(** [init_admin] computes the weight aggregates of the membership
    vector. *)
Lemma init_admin_weights_consistent g p :
  wf_graph g → length (_membership p) = vcount g → valid_ids (_membership p) →
  returns (init_admin g) p (λ _ p', init_post g p p' ∧ weights_consistent g p').
Proof.
  intros Hg Hm Hv. eapply returns_mono; [by apply init_admin_weights|].
  intros [] p' [Hpost [Hi Hf Ht Ha]]. split; [done|].
  destruct Hpost as [Hp' Hm' _ Hnb _ _ _ _]. simpl in Hi, Hf, Ht, Ha.
  pose proof (membership_is_Some g (_membership p)) as Hsome.
  split; rewrite ?Hm', ?Hnb.
  - intros c Hc. rewrite Hf, lookup_replicate_bumps by done. f_equal.
    apply net_init_from. intros x Hx. by apply Hsome.
  - intros c Hc. rewrite Ht, lookup_replicate_bumps by done. f_equal.
    apply net_init_to. intros x Hx. by apply Hsome.
  - intros c Hc. rewrite Hi, lookup_replicate_bumps by done. f_equal.
    apply net_init_in. intros x Hx. by apply Hsome.
  - rewrite Ha, Qcplus_0_l. apply net_all_init_in. intros x Hx. by apply Hsome.
Qed.

(** X10: the constructor from a membership vector of the right length
    that does not hold the largest [size_t] value
    returns, keeps the vector as the membership and computes the
    weight aggregates from the out-edges of all vertices: for every
    community the total weight of the out-edges leaving it, of those
    arriving in it and of those within it (halved in an undirected
    graph, where an edge is met from both ends), and the total weight
    within communities. *)
Theorem constructor_computes_weights g membership :
  wf_graph g → length membership = vcount g → valid_ids membership →
  ∃ p, create g membership = Ok () p ∧ _membership p = membership
       ∧ weights_consistent g p.
Proof.
  intros Hg Hlen Hvalid. unfold create, construct.
  rewrite bool_decide_eq_false_2 by (by intros ?).
  destruct (init_admin_weights_consistent g (set_membership membership fresh)
              Hg Hlen Hvalid) as ([] & p & Hrun & Hpost & Hw).
  exists p. split; [done|]. split; [|done]. by destruct Hpost.
Qed.

Lemma constructor_computes_weights_witness :
  ∃ p, create path4 [0; 0; 0; 3] = Ok () p ∧ _membership p = [0; 0; 0; 3]
       ∧ weights_consistent path4 p.
Proof.
  refine (constructor_computes_weights path4 [0; 0; 0; 3] wf_graph_path4 eq_refl _).
  valid_ids.
Defined.

(** ** Invariants of the reachable states *)


Lemma Qcsum_app l1 l2 : Qcsum (l1 ++ l2) = (Qcsum l1 + Qcsum l2)%Qc.
Proof.
  induction l1 as [|x l1 IH]; simpl; [by rewrite Qcplus_0_l|]. rewrite IH. ring.
Qed.

Lemma Qcsum_bump i d l : i < length l → Qcsum (bump i d l) = (Qcsum l + d)%Qc.
Proof.
  revert i. induction l as [|x l IH]; intros i Hi; simpl in *; [lia|].
  destruct i as [|i]; simpl; [ring|]. rewrite IH by lia. ring.
Qed.

Lemma Qcsum_apply_bumps bs l :
  (∀ b, b ∈ bs → b.1 < length l) →
  Qcsum (apply_bumps bs l) = (Qcsum l + net_all bs)%Qc.
Proof.
  revert l. induction bs as [|b bs IH]; intros l Hbs; simpl.
  - by rewrite Qcplus_0_r.
  - rewrite IH.
    + rewrite Qcsum_bump by (apply Hbs; left). ring.
    + intros b' Hb'. unfold bump. rewrite length_alter. apply Hbs. by right.
Qed.

Lemma Qcsum_replicate n : Qcsum (replicate n 0%Qc) = 0%Qc.
Proof. induction n as [|n IH]; simpl; [done|]. rewrite IH. ring. Qed.

Lemma net_all_init_from_to g m xs :
  net_all (init_from_bump g m <$> xs) = net_all (init_to_bump g m <$> xs).
Proof.
  induction xs as [|x xs IH]; [done|]. rewrite !fmap_cons. simpl. by rewrite IH.
Qed.

Lemma init_bumps_range g (m : list nat) x :
  wf_graph g → length m = vcount g → x ∈ out_edges g →
  default 0 (m !! x.1) < nb_comms_of m 0 ∧ default 0 (m !! x.2.1) < nb_comms_of m 0.
Proof.
  intros Hg Hm Hx. destruct (membership_is_Some g m x Hg Hm Hx) as [[c Hc] [c' Hc']].
  rewrite Hc, Hc'. simpl. split; apply nb_comms_of_bound; by eapply list_elem_of_lookup_2.
Qed.

Lemma net_all_init_from g m xs :
  net_all (init_from_bump g m <$> xs) = Qcsum ((λ x, edge_weight g x.2.2) <$> xs).
Proof.
  induction xs as [|x xs IH]; [done|]. rewrite !fmap_cons. simpl. by rewrite IH.
Qed.

Lemma init_admin_balanced g p p' :
  wf_graph g → length (_membership p) = vcount g → init_admin g p = Ok () p' →
  weights_balanced g p'.
Proof.
  intros Hg Hm Hrun.
  destruct (init_admin_inv g p p' Hg Hm Hrun) as [Hv _].
  destruct (init_admin_weights g p Hg Hm Hv) as ([] & p'' & Hrun' & _ & [Hi Hf Ht Ha]).
  rewrite Hrun in Hrun'. injection Hrun' as <-. simpl in Hi, Hf, Ht, Ha.
  pose proof (init_bumps_range g (_membership p)) as Hrange.
  unfold weights_balanced. rewrite Hi, Hf, Ht, Ha, !Qcsum_apply_bumps, !Qcsum_replicate.
  - rewrite !Qcplus_0_l, <-net_all_init_from_to. split; [done|].
    split; apply net_all_init_from.
  - intros b (x & -> & Hx)%list_elem_of_fmap. rewrite length_replicate. simpl.
    by apply Hrange.
  - intros b (x & -> & Hx)%list_elem_of_fmap. rewrite length_replicate. simpl.
    by apply Hrange.
  - intros b (x & Hb & Hx)%list_elem_of_bind. rewrite length_replicate.
    unfold init_in_bump in Hb. case_bool_decide; [|by apply elem_of_nil in Hb].
    apply list_elem_of_singleton in Hb as ->. simpl. by apply Hrange.
Qed.

Lemma net_all_dir_bumps g old_comm new_comm es :
  net_all (es ≫= dir_bumps g old_comm new_comm) = 0%Qc.
Proof.
  apply net_all_bind_zero. intros ue _. unfold dir_bumps. simpl. ring.
Qed.

Lemma in_bumps_range g m v old_comm new_comm ue b n :
  old_comm < n → new_comm < n → b ∈ in_bumps g m v old_comm new_comm ue → b.1 < n.
Proof.
  intros Ho Hn. unfold in_bumps. rewrite elem_of_app.
  intros [Hb|Hb].
  - case_bool_decide; [|by apply elem_of_nil in Hb].
    by apply list_elem_of_singleton in Hb as ->.
  - destruct (_ || _); [|by apply elem_of_nil in Hb].
    by apply list_elem_of_singleton in Hb as ->.
Qed.

Lemma dir_bumps_range g old_comm new_comm ue b n :
  old_comm < n → new_comm < n → b ∈ dir_bumps g old_comm new_comm ue → b.1 < n.
Proof.
  intros Ho Hn. unfold dir_bumps. rewrite elem_of_cons, list_elem_of_singleton.
  by intros [->| ->].
Qed.

Lemma move_node_balanced g p v old_comm new_comm :
  consistent g p → weights_balanced g p → _membership p !! v = Some old_comm →
  new_comm < length (_csize p) →
  weights_balanced g (move_node_result g v old_comm new_comm p).
Proof.
  intros Hp (Hin & Hf & Ht) Hold Hnew.
  assert (old_comm < length (_csize p)) as Hold_lt by (by apply (cons_range g p Hp v)).
  unfold weights_balanced.
  rewrite move_node_result_in, move_node_result_in_all, move_node_result_from,
    move_node_result_to, !Qcsum_apply_bumps.
  - rewrite !net_all_dir_bumps, !Qcplus_0_r, Hin. done.
  - intros b (ue & Hb & _)%list_elem_of_bind. rewrite (cons_to g p Hp).
    by apply (dir_bumps_range g old_comm new_comm ue).
  - intros b (ue & Hb & _)%list_elem_of_bind. rewrite (cons_from g p Hp).
    by apply (dir_bumps_range g old_comm new_comm ue).
  - intros b (ue & Hb & _)%list_elem_of_bind. rewrite (cons_in g p Hp).
    by apply (in_bumps_range g (_membership p) v old_comm new_comm ue).
Qed.

Lemma with_empty_community_weights g p :
  consistent g p →
  _total_weight_in_comm (with_empty_community p) = _total_weight_in_comm p ++ [0%Qc]
  ∧ _total_weight_from_comm (with_empty_community p) = _total_weight_from_comm p ++ [0%Qc]
  ∧ _total_weight_to_comm (with_empty_community p) = _total_weight_to_comm p ++ [0%Qc].
Proof.
  intros Hp. simpl. rewrite (cons_community g p Hp).
  rewrite <-(cons_in g p Hp) at 1 2. rewrite <-(cons_from g p Hp) at 1 2.
  rewrite <-(cons_to g p Hp). by rewrite !resize_insert_snoc.
Qed.

Lemma with_empty_community_balanced g p :
  consistent g p → weights_balanced g p → weights_balanced g (with_empty_community p).
Proof.
  intros Hp (Hin & Hf & Ht). unfold weights_balanced.
  destruct (with_empty_community_weights g p Hp) as (-> & -> & ->).
  rewrite !Qcsum_app. simpl. rewrite !Qcplus_0_r. done.
Qed.

(** X11: in every reachable state the total weight within communities
    is the sum of the weights within each community (the check that
    [move_node] prints when it is built with DEBUG), and the weights
    leaving the communities, like the weights arriving in them, add up
    to the total weight of the out-edges of the graph: a move neither
    creates nor loses weight. *)
Theorem weight_totals_balanced g p :
  wf_graph g → reachable g p →
  _total_weight_in_all_comms p = Qcsum (_total_weight_in_comm p)
  ∧ Qcsum (_total_weight_from_comm p) = total_weight g
  ∧ Qcsum (_total_weight_to_comm p) = total_weight g.
Proof.
  intros Hg. apply (reachable_admin_ind g (weights_balanced g) Hg).
  - intros p0 p' Hlen Hrun. by apply (init_admin_balanced g p0).
  - intros p0 v old_comm new_comm Hp HI Hold [Hlt _] _. by apply (move_node_balanced g).
  - intros p0 Hp HI _. by apply (with_empty_community_balanced g).
  - intros p0 mode c HI. by destruct mode.
Qed.

Lemma weight_totals_balanced_witness :
  _total_weight_in_all_comms path4_moved = Qcsum (_total_weight_in_comm path4_moved)
  ∧ Qcsum (_total_weight_from_comm path4_moved) = total_weight path4
  ∧ Qcsum (_total_weight_to_comm path4_moved) = total_weight path4.
Proof. exact (weight_totals_balanced path4 path4_moved wf_graph_path4 reachable_path4_moved). Defined.

(** ** [move_node] keeps the weight aggregates up to date *)

Lemma Qcsum_Permutation l l' : l ≡ₚ l' → Qcsum l = Qcsum l'.
Proof. induction 1; simpl; [done|by f_equal|ring|congruence]. Qed.

Lemma Qcsum_fmap_add {A} (F G : A → Qc) (xs : list A) :
  Qcsum ((λ x, F x + G x)%Qc <$> xs) = (Qcsum (F <$> xs) + Qcsum (G <$> xs))%Qc.
Proof.
  induction xs as [|x xs IH]; [simpl; ring|].
  rewrite !fmap_cons, !Qcsum_cons, IH. ring.
Qed.


Lemma Qcsum_fmap_zero {A} (xs : list A) : Qcsum ((λ _, 0%Qc) <$> xs) = 0%Qc.
Proof. induction xs as [|x xs IH]; [done|]. rewrite fmap_cons, Qcsum_cons, IH. ring. Qed.

Lemma net_bind {E} (f : E → list (nat * Qc)) es c :
  net c (es ≫= f) = Qcsum ((λ e, net c (f e)) <$> es).
Proof.
  induction es as [|e es IH]; [done|].
  by rewrite bind_cons, net_app, fmap_cons, Qcsum_cons, IH.
Qed.

Lemma net_all_bind {E} (f : E → list (nat * Qc)) es :
  net_all (es ≫= f) = Qcsum ((λ e, net_all (f e)) <$> es).
Proof.
  induction es as [|e es IH]; [done|].
  by rewrite bind_cons, net_all_app, fmap_cons, Qcsum_cons, IH.
Qed.

(** The out-edges with source [v] are the outgoing list of [v]. *)
Lemma Qcsum_out_edges_of_source g v (h : nat * nat → Qc) vs :
  NoDup vs →
  Qcsum ((λ x, if decide (x.1 = v) then h x.2 else 0%Qc) <$> out_edges_of g vs)
  = if decide (v ∈ vs) then Qcsum (h <$> incident g v IGRAPH_OUT) else 0%Qc.
Proof.
  induction vs as [|u vs IH]; intros Hnd.
  - rewrite decide_False; [done|]. apply not_elem_of_nil.
  - apply NoDup_cons in Hnd as [Hu Hnd].
    change (out_edges_of g (u :: vs))
      with (((λ ue, (u, ue)) <$> incident g u IGRAPH_OUT) ++ out_edges_of g vs).
    rewrite fmap_app, Qcsum_app, IH by done. rewrite <-list_fmap_compose.
    destruct (decide (u = v)) as [->|Hne].
    + rewrite (decide_False (P := v ∈ vs)) by done.
      rewrite decide_True by left. rewrite Qcplus_0_r.
      apply Qcsum_fmap_ext. intros ue _. simpl. by rewrite decide_True.
    + erewrite (Qcsum_fmap_ext _ (λ _, 0%Qc)).
      2:{ intros ue _. simpl. by rewrite decide_False. }
      rewrite Qcsum_fmap_zero, Qcplus_0_l.
      destruct (decide (v ∈ vs)) as [Hin|Hout].
      * rewrite decide_True; [done|by right].
      * rewrite decide_False; [done|]. rewrite not_elem_of_cons. split; [congruence|done].
Qed.

Lemma Qcsum_out_edges_source g v (h : nat * nat → Qc) :
  v < vcount g →
  Qcsum ((λ x, if decide (x.1 = v) then h x.2 else 0%Qc) <$> out_edges g)
  = Qcsum (h <$> incident g v IGRAPH_OUT).
Proof.
  intros Hv. unfold out_edges.
  rewrite Qcsum_out_edges_of_source by apply vertices_NoDup.
  rewrite decide_True; [done|]. by apply vertices_elem.
Qed.

(** The out-edges with target [v] are the incoming list of [v]. *)
Lemma Qcsum_out_edges_target g v (h : nat * nat → Qc) :
  adjacency_coherent g → v < vcount g →
  Qcsum ((λ x, if decide (x.2.1 = v) then h (x.1, x.2.2) else 0%Qc) <$> out_edges g)
  = Qcsum (h <$> incident g v IGRAPH_IN).
Proof.
  intros Hcoh Hv.
  rewrite (Qcsum_Permutation (h <$> incident g v IGRAPH_IN) (h <$> in_edges_of_out g v)).
  2:{ apply fmap_Permutation. by apply Hcoh. }
  unfold in_edges_of_out. induction (out_edges g) as [|x xs IH]; [done|].
  rewrite fmap_cons, Qcsum_cons, bind_cons, fmap_app, Qcsum_app, IH.
  f_equal. case_decide; simpl; [ring|done].
Qed.

Lemma net_dir_bumps g old_comm new_comm c ue :
  net c (dir_bumps g old_comm new_comm ue)
  = ((if decide (new_comm = c) then edge_weight g ue.2 else 0)
     - (if decide (old_comm = c) then edge_weight g ue.2 else 0))%Qc.
Proof. unfold dir_bumps. simpl. repeat case_decide; ring. Qed.

Lemma moved_weight_from g m v old_comm new_comm c :
  v < vcount g → m !! v = Some old_comm →
  weight_from_of g (alter (λ _, new_comm) v m) c
  = (weight_from_of g m c
     + net c (incident g v IGRAPH_OUT ≫= dir_bumps g old_comm new_comm))%Qc.
Proof.
  intros Hv Hold. assert (v < length m) as Hlt by (by eapply lookup_lt_Some).
  rewrite net_bind, <-(Qcsum_out_edges_source g v) by done.
  unfold weight_from_of. rewrite <-Qcsum_fmap_add. apply Qcsum_fmap_ext.
  intros [a [b e]] _. cbv beta. rewrite net_dir_bumps. simpl.
  rewrite lookup_alter_const by done.
  destruct (decide (a = v)) as [->|Hne]; [|ring].
  rewrite Hold. repeat case_decide; try congruence; ring.
Qed.

Lemma moved_weight_to g m v old_comm new_comm c :
  adjacency_coherent g → v < vcount g → m !! v = Some old_comm →
  weight_to_of g (alter (λ _, new_comm) v m) c
  = (weight_to_of g m c
     + net c (incident g v IGRAPH_IN ≫= dir_bumps g old_comm new_comm))%Qc.
Proof.
  intros Hcoh Hv Hold. assert (v < length m) as Hlt by (by eapply lookup_lt_Some).
  rewrite net_bind.
  rewrite <-(Qcsum_out_edges_target g v (λ ue, net c (dir_bumps g old_comm new_comm ue)))
    by done.
  unfold weight_to_of. rewrite <-Qcsum_fmap_add. apply Qcsum_fmap_ext.
  intros [a [b e]] _. cbv beta. rewrite net_dir_bumps. simpl.
  rewrite lookup_alter_const by done.
  destruct (decide (b = v)) as [->|Hne]; [|ring].
  rewrite Hold. repeat case_decide; try congruence; ring.
Qed.

Ltac weight_cases :=
  repeat (first [case_bool_decide | case_decide]; simplify_eq/=;
          try solve [exfalso; intuition congruence]);
  try solve [field; done].

Lemma moved_weight_in g m v old_comm new_comm c :
  wf_graph g → adjacency_coherent g → length m = vcount g →
  m !! v = Some old_comm → new_comm ≠ old_comm →
  weight_in_of g (alter (λ _, new_comm) v m) c
  = (weight_in_of g m c
     + net c ((incident g v IGRAPH_OUT ++ incident g v IGRAPH_IN)
                ≫= in_bumps g m v old_comm new_comm))%Qc.
Proof.
  intros Hg Hcoh Hlen Hold Hne.
  assert (v < vcount g) as Hv by (rewrite <-Hlen; by eapply lookup_lt_Some).
  rewrite bind_app, net_app, !net_bind.
  rewrite <-(Qcsum_out_edges_source g v
               (λ ue, net c (in_bumps g m v old_comm new_comm ue))) by done.
  rewrite <-(Qcsum_out_edges_target g v
               (λ ue, net c (in_bumps g m v old_comm new_comm ue))) by done.
  unfold weight_in_of. rewrite <-!Qcsum_fmap_add. apply Qcsum_fmap_ext.
  intros [a [b e]] Hx.
  destruct (membership_is_Some g m _ Hg Hlen Hx) as [[ca Ha] [cb Hb]]. simpl in Ha, Hb.
  cbv beta. unfold in_bumps, int_weight, internal_weight. simpl.
  rewrite !lookup_alter_const by lia. rewrite Ha, Hb.
  destruct (decide (a = v)) as [->|Hav], (decide (b = v)) as [->|Hbv];
    simplify_eq; destruct (is_directed g); weight_cases.
Qed.


Lemma moved_weight_in_all g m v old_comm new_comm :
  wf_graph g → adjacency_coherent g → length m = vcount g →
  m !! v = Some old_comm → new_comm ≠ old_comm →
  weight_in_all_of g (alter (λ _, new_comm) v m)
  = (weight_in_all_of g m
     + net_all ((incident g v IGRAPH_OUT ++ incident g v IGRAPH_IN)
                  ≫= in_bumps g m v old_comm new_comm))%Qc.
Proof.
  intros Hg Hcoh Hlen Hold Hne.
  assert (v < vcount g) as Hv by (rewrite <-Hlen; by eapply lookup_lt_Some).
  rewrite bind_app, net_all_app, !net_all_bind.
  rewrite <-(Qcsum_out_edges_source g v
               (λ ue, net_all (in_bumps g m v old_comm new_comm ue))) by done.
  rewrite <-(Qcsum_out_edges_target g v
               (λ ue, net_all (in_bumps g m v old_comm new_comm ue))) by done.
  unfold weight_in_all_of. rewrite <-!Qcsum_fmap_add. apply Qcsum_fmap_ext.
  intros [a [b e]] Hx.
  destruct (membership_is_Some g m _ Hg Hlen Hx) as [[ca Ha] [cb Hb]]. simpl in Ha, Hb.
  cbv beta. unfold in_bumps, int_weight, internal_weight. simpl.
  rewrite !lookup_alter_const by lia. rewrite Ha, Hb.
  destruct (decide (a = v)) as [->|Hav], (decide (b = v)) as [->|Hbv];
    simplify_eq; destruct (is_directed g); weight_cases.
Qed.

Lemma move_node_weights_consistent g p v old_comm new_comm :
  wf_graph g → adjacency_coherent g → consistent g p → weights_consistent g p →
  _membership p !! v = Some old_comm → new_comm < length (_csize p) →
  weights_consistent g (move_node_result g v old_comm new_comm p).
Proof.
  intros Hg Hcoh Hp [Hf Ht Hi Ha] Hold Hnew.
  destruct (decide (new_comm = old_comm)) as [->|Hne].
  { by rewrite (move_node_result_noop g p v old_comm Hg Hp Hold). }
  pose proof (cons_membership g p Hp) as Hlen.
  assert (v < vcount g) as Hv by (by eapply consistent_vertex).
  split; rewrite ?move_node_result_membership, ?move_node_result_csize, ?length_alter.
  - intros c Hc. rewrite move_node_result_from, lookup_apply_bumps, (Hf c Hc). simpl.
    f_equal. symmetry. by apply moved_weight_from.
  - intros c Hc. rewrite move_node_result_to, lookup_apply_bumps, (Ht c Hc). simpl.
    f_equal. symmetry. by apply moved_weight_to.
  - intros c Hc. rewrite move_node_result_in, lookup_apply_bumps, (Hi c Hc). simpl.
    f_equal. symmetry. by apply moved_weight_in.
  - rewrite move_node_result_in_all, Ha. symmetry. by apply moved_weight_in_all.
Qed.

Lemma with_empty_community_weights_consistent g p :
  consistent g p → weights_consistent g p → weights_consistent g (with_empty_community p).
Proof.
  intros Hp [Hf Ht Hi Ha].
  destruct (with_empty_community_weights g p Hp) as (Ei & Ef & Et).
  assert (∀ (F : nat → Qc) (l : list Qc),
            length l = length (_csize p) →
            (∀ c, c < length (_csize p) → l !! c = Some (F c)) →
            F (length (_csize p)) = 0%Qc →
            ∀ c, c < length (_csize p ++ [0%Z]) → (l ++ [0%Qc]) !! c = Some (F c)) as Hsnoc.
  { intros F l Hl HF H0 c Hc. rewrite length_app in Hc. simpl in Hc.
    destruct (decide (c < length (_csize p))) as [Hlt|Hge].
    - rewrite lookup_app_l by lia. by apply HF.
    - assert (c = length l) as -> by lia. rewrite list_lookup_middle by done.
      by rewrite Hl, H0. }
  assert (∀ x, x ∈ out_edges g →
            _membership p !! x.1 ≠ Some (length (_csize p))
            ∧ _membership p !! x.2.1 ≠ Some (length (_csize p))) as Hfresh.
  { intros x Hx. split; intros Hc%(cons_range g p Hp); lia. }
  split; rewrite ?(with_empty_community_csize g p Hp); simpl _membership.
  - rewrite Ef. apply Hsnoc; [apply (cons_from g p Hp)|done|].
    unfold weight_from_of. erewrite Qcsum_fmap_ext; [apply Qcsum_fmap_zero|].
    intros x Hx. simpl. rewrite decide_False; [done|]. by apply Hfresh.
  - rewrite Et. apply Hsnoc; [apply (cons_to g p Hp)|done|].
    unfold weight_to_of. erewrite Qcsum_fmap_ext; [apply Qcsum_fmap_zero|].
    intros x Hx. simpl. rewrite decide_False; [done|]. by apply Hfresh.
  - rewrite Ei. apply Hsnoc; [apply (cons_in g p Hp)|done|].
    unfold weight_in_of. erewrite Qcsum_fmap_ext; [apply Qcsum_fmap_zero|].
    intros x Hx. simpl. rewrite decide_False; [done|].
    destruct (Hfresh x Hx) as [Hx1 _]. by intros [? _].
  - done.
Qed.

Lemma set_cache_weights_consistent g mode c p :
  weights_consistent g p → weights_consistent g (set_cache mode c p).
Proof. intros [Hf Ht Hi Ha]. by split. Qed.

(** X12: the incremental updates of [move_node] agree with a
    computation from scratch. On a graph whose incoming and outgoing
    lists describe the same edges, in every reachable state the weight
    leaving each community, the weight arriving in it, the weight
    within it and the total weight within communities are the sums
    over the out-edges of the graph for the current membership, as
    [init_admin] would compute them. *)
Theorem weights_match_recomputation g p :
  wf_graph g → adjacency_coherent g → reachable g p →
  (∀ c, c < nb_communities p →
     _total_weight_from_comm p !! c = Some (weight_from_of g (_membership p) c)
     ∧ _total_weight_to_comm p !! c = Some (weight_to_of g (_membership p) c)
     ∧ _total_weight_in_comm p !! c = Some (weight_in_of g (_membership p) c))
  ∧ _total_weight_in_all_comms p = weight_in_all_of g (_membership p).
Proof.
  intros Hg Hcoh Hreach.
  assert (weights_consistent g p) as [Hf Ht Hi Ha].
  { revert p Hreach. apply (reachable_admin_ind g (weights_consistent g) Hg).
    - intros p0 p' Hlen Hrun.
      destruct (init_admin_inv g p0 p' Hg Hlen Hrun) as [Hv _].
      destruct (init_admin_weights_consistent g p0 Hg Hlen Hv)
        as ([] & p'' & Hrun' & _ & Hw).
      rewrite Hrun in Hrun'. by injection Hrun' as <-.
    - intros p0 v old_comm new_comm Hp HI Hold [Hlt _] _.
      by apply move_node_weights_consistent.
    - intros p0 Hp HI _. by apply with_empty_community_weights_consistent.
    - intros p0 mode c HI. by apply set_cache_weights_consistent. }
  destruct (reachable_ok g p Hg Hreach) as [Hp _].
  split; [|done]. intros c Hc. unfold nb_communities in Hc.
  rewrite (cons_community g p Hp) in Hc. auto.
Qed.

Lemma adjacency_coherent_path4 : adjacency_coherent path4.
Proof.
  intros v Hv. simpl in Hv.
  do 4 (destruct v as [|v]; [by vm_compute|]). lia.
Qed.

Lemma weights_match_recomputation_witness :
  (∀ c, c < nb_communities path4_moved →
     _total_weight_from_comm path4_moved !! c
     = Some (weight_from_of path4 (_membership path4_moved) c)
     ∧ _total_weight_to_comm path4_moved !! c
       = Some (weight_to_of path4 (_membership path4_moved) c)
     ∧ _total_weight_in_comm path4_moved !! c
       = Some (weight_in_of path4 (_membership path4_moved) c))
  ∧ _total_weight_in_all_comms path4_moved
    = weight_in_all_of path4 (_membership path4_moved).
Proof.
  exact (weights_match_recomputation path4 path4_moved wf_graph_path4
           adjacency_coherent_path4 reachable_path4_moved).
Defined.

(** ** The list of neighbouring communities *)

Lemma net_nonneg c bs : (∀ b, b ∈ bs → (0 ≤ b.2)%Qc) → (0 ≤ net c bs)%Qc.
Proof.
  induction bs as [|b bs IH]; intros Hbs; [apply Qcle_refl|].
  rewrite net_cons. rewrite <-(Qcplus_0_l 0) at 1. apply Qcplus_le_compat.
  - case_decide; [apply Hbs; left|apply Qcle_refl].
  - apply IH. intros b' Hb'. apply Hbs. by right.
Qed.

Lemma net_snoc_pos c d bs :
  (∀ b, b ∈ bs → (0 ≤ b.2)%Qc) → (0 < d)%Qc → net c (bs ++ [(c, d)]) ≠ 0%Qc.
Proof.
  intros Hbs Hd. rewrite net_app, net_cons. simpl. rewrite decide_True by done.
  rewrite Qcplus_0_r. symmetry. apply Qclt_not_eq.
  apply (Qclt_le_trans _ d); [done|].
  rewrite <-(Qcplus_0_l d) at 1. apply Qcplus_le_compat; [|apply Qcle_refl].
  by apply net_nonneg.
Qed.

(** The communities that the loop of [cache_neigh_communities] lists
    as touched. *)
Lemma cache_edges_neighs g v mode p mk es :
  (∀ ue, ue ∈ es → ∃ c, _membership p !! ue.1 = Some c ∧ c < vcount g) →
  returns (for_each es (cache_edge g v mode))
    (set_cache mode {| _current_node_cache_community := mk;
                       _cached_weight_community := replicate (vcount g) 0%Qc;
                       _cached_neigh_comms := [] |} p)
    (λ _ p',
       (∀ c, c ∈ _cached_neigh_comms (cache_of mode p') →
          c ∈ (λ ue, default 0 (_membership p !! ue.1)) <$> es)
       ∧ ((∀ ue, ue ∈ es → (0 < cached_edge_weight g v ue)%Qc) →
          _cached_neigh_comms (cache_of mode p')
          = (λ ue, default 0 (_membership p !! ue.1)) <$> es)).
Proof.
  intros Hes.
  set (comm_of := λ ue : nat * nat, default 0 (_membership p !! ue.1)).
  eapply returns_mono.
  { apply (returns_for_each _
      (λ l1 p', ∃ neighs,
         p' = set_cache mode
                {| _current_node_cache_community := mk;
                   _cached_weight_community :=
                     apply_bumps (cache_bumps g (_membership p) v l1)
                       (replicate (vcount g) 0%Qc);
                   _cached_neigh_comms := neighs |} p
         ∧ (∀ c, c ∈ neighs → c ∈ comm_of <$> l1)
         ∧ ((∀ ue, ue ∈ es → (0 < cached_edge_weight g v ue)%Qc) →
            neighs = comm_of <$> l1))).
    - exists []. split; [done|]. split; [|done]. intros c Hc. by apply elem_of_nil in Hc.
    - intros l1 ue l2 s1 Hl (neighs & -> & Hsub & Hpos).
      destruct (Hes ue) as (comm & Hcomm & Hlt).
      { rewrite Hl. apply elem_of_app. right. left. }
      assert (comm_of ue = comm) as Hcomm_of by (unfold comm_of; by rewrite Hcomm).
      unfold cache_edge.
      apply returns_bind. eapply returns_index; [by rewrite set_cache_membership|].
      apply returns_bind. apply returns_modify_at.
      { unfold cached_weight. rewrite cache_of_set_cache. simpl.
        by rewrite length_apply_bumps, length_replicate. }
      unfold cached_weight, set_cached_weight_of.
      rewrite ?cache_of_set_cache, ?set_cache_set_cache. simpl.
      rewrite ?cache_of_set_cache, ?set_cache_set_cache. simpl.
      fold (cached_edge_weight g v ue).
      set (t1 := alter (λ x, x + cached_edge_weight g v ue)%Qc comm
                   (apply_bumps (cache_bumps g (_membership p) v l1)
                      (replicate (vcount g) 0%Qc))).
      assert (t1 = apply_bumps (cache_bumps g (_membership p) v (l1 ++ [ue]))
                     (replicate (vcount g) 0%Qc)) as Ht1.
      { unfold cache_bumps. rewrite fmap_app, apply_bumps_app. simpl. by rewrite Hcomm. }
      assert (length t1 = vcount g) as Hlen1.
      { subst t1. by rewrite length_alter, length_apply_bumps, length_replicate. }
      apply returns_bind. apply returns_index_lt.
      { rewrite cache_of_set_cache. simpl. lia. }
      intros x Hx. rewrite cache_of_set_cache in Hx. simpl in Hx.
      apply returns_when; intros Hb.
      + apply returns_modify. rewrite cache_of_set_cache, set_cache_set_cache. simpl.
        exists (neighs ++ [comm]). rewrite <-Ht1. split; [done|].
        rewrite fmap_app. simpl. rewrite Hcomm_of. split.
        * intros c [Hc|Hc]%elem_of_app; apply elem_of_app; [left; by apply Hsub|by right].
        * intros Hall. by rewrite (Hpos Hall).
      + exists neighs. rewrite <-Ht1. split; [done|].
        rewrite fmap_app. split.
        * intros c Hc. apply elem_of_app. left. by apply Hsub.
        * intros Hall. exfalso. apply bool_decide_eq_false in Hb. apply Hb.
          rewrite Ht1, lookup_replicate_bumps in Hx by done. injection Hx as <-.
          unfold cache_bumps. rewrite fmap_app. simpl. rewrite Hcomm.
          apply net_snoc_pos.
          -- intros b (ue' & -> & Hue')%list_elem_of_fmap. simpl.
             apply Qclt_le_weak, Hall. rewrite Hl. apply elem_of_app. by left.
          -- apply Hall. rewrite Hl. apply elem_of_app. right. left. }
  intros [] p' (neighs & -> & Hsub & Hpos). by rewrite cache_of_set_cache.
Qed.

Lemma cache_neigh_communities_neighs g v mode p :
  cache_ok (vcount g) (cache_of mode p) → neighbours_cacheable g p v mode →
  returns (cache_neigh_communities g v mode) p
    (λ _ p',
       (∀ c, c ∈ _cached_neigh_comms (cache_of mode p') →
          c ∈ neighbour_comms g (_membership p) v mode)
       ∧ ((∀ ue, ue ∈ incident g v mode → (0 < cached_edge_weight g v ue)%Qc) →
          _cached_neigh_comms (cache_of mode p') = neighbour_comms g (_membership p) v mode)).
Proof.
  intros Hok Hn. unfold cache_neigh_communities.
  apply returns_bind, returns_gets.
  apply returns_bind. eapply returns_mono; [by apply cache_reset_returns|].
  intros [] s1 ->.
  apply returns_bind, returns_modify.
  unfold set_cached_weight_of. rewrite cache_of_set_cache, set_cache_set_cache. simpl.
  by apply cache_edges_neighs, incident_cacheable.
Qed.

Lemma get_neigh_comms_cold g v mode p :
  cache_ok (vcount g) (cache_of mode p) → neighbours_cacheable g p v mode →
  _current_node_cache_community (cache_of mode p) ≠ v →
  ∃ c, get_neigh_comms g v mode p = Ok (_cached_neigh_comms c) (set_cache mode c p)
       ∧ cache_ok (vcount g) c
       ∧ cache_holds g (_membership p) v mode (set_cache mode c p)
       ∧ (∀ d, d ∈ _cached_neigh_comms c → d ∈ neighbour_comms g (_membership p) v mode)
       ∧ ((∀ ue, ue ∈ incident g v mode → (0 < cached_edge_weight g v ue)%Qc) →
          _cached_neigh_comms c = neighbour_comms g (_membership p) v mode).
Proof.
  intros Hok Hn Hcold.
  destruct (returns_and _ _ _ _ (cache_neigh_communities_returns g v mode p Hok Hn)
              (cache_neigh_communities_neighs g v mode p Hok Hn))
    as ([] & p1 & Hrun & (neighs & -> & Hok1) & Hsub & Hpos).
  rewrite cache_of_set_cache in Hok1, Hsub, Hpos. simpl in Hsub, Hpos.
  exists {| _current_node_cache_community := v;
            _cached_weight_community :=
              apply_bumps (cache_bumps g (_membership p) v (incident g v mode))
                (replicate (vcount g) 0%Qc);
            _cached_neigh_comms := neighs |}.
  split; [|split; [|split; [|split]]].
  - unfold get_neigh_comms, ensure_cached, mbind, M_bind, gets, when.
    rewrite bool_decide_eq_true_2 by done. unfold mbind, M_bind. rewrite Hrun.
    unfold modify. rewrite !cache_of_set_cache, set_cache_set_cache. unfold set_current_node.
    simpl. reflexivity.
  - destruct Hok1. by split.
  - by apply cache_filled_holds.
  - done.
  - done.
Qed.

Lemma get_neigh_comms_warm g v mode p :
  _current_node_cache_community (cache_of mode p) = v →
  get_neigh_comms g v mode p = Ok (_cached_neigh_comms (cache_of mode p)) p.
Proof.
  intros Hwarm. unfold get_neigh_comms, mbind, M_bind.
  by rewrite ensure_cached_warm.
Qed.

(** X13: [get_neigh_comms (v, mode)] on a cache that does not hold
    [v] refills the slot of [mode] (nothing else changes) and returns
    the list of touched communities. The list holds every community to
    which [v] has a non-zero weight, and only communities of
    neighbours of [v]; when the incident edges of [v] have positive
    weights it is the list of the communities of the neighbours, one
    entry per incident edge and in their order (a community shared by
    two neighbours is listed twice). Asking again returns the same list
    and changes nothing. *)
Theorem get_neigh_comms_lists_neighbours g p v mode :
  wf_graph g → reachable g p → neighbours_cacheable g p v mode →
  _current_node_cache_community (cache_of mode p) ≠ v →
  ∃ comms c,
    get_neigh_comms g v mode p = Ok comms (set_cache mode c p)
    ∧ (∀ d, d < vcount g → weight_between g (_membership p) v mode d ≠ 0%Qc → d ∈ comms)
    ∧ (∀ d, d ∈ comms → ∃ u, u ∈ get_neighbours g v mode ∧ _membership p !! u = Some d)
    ∧ ((∀ ue, ue ∈ incident g v mode → (0 < cached_edge_weight g v ue)%Qc) →
       comms = neighbour_comms g (_membership p) v mode)
    ∧ get_neigh_comms g v mode (set_cache mode c p) = Ok comms (set_cache mode c p).
Proof.
  intros Hg Hreach Hn Hcold.
  destruct (reachable_ok g p Hg Hreach) as [_ (Hkf & Hkt & Hka)].
  assert (cache_ok (vcount g) (cache_of mode p)) as Hok by (by destruct mode).
  destruct (get_neigh_comms_cold g v mode p Hok Hn Hcold)
    as (c & Hrun & Hokc & [Hmark Hholds] & Hsub & Hpos).
  exists (_cached_neigh_comms c), c. split; [done|]. split; [|split; [|split]].
  - intros d Hd Hw. apply (co_listed _ c Hokc d (weight_between g (_membership p) v mode d));
      [|done].
    specialize (Hholds d Hd). unfold cached_weight in Hholds.
    by rewrite cache_of_set_cache in Hholds.
  - intros d Hd. apply Hsub in Hd. unfold neighbour_comms in Hd.
    apply list_elem_of_fmap in Hd as (ue & -> & Hue).
    exists ue.1. split; [by apply incident_neighbour|].
    destruct (incident_cacheable g p v mode Hn ue Hue) as (d & -> & _). done.
  - done.
  - rewrite get_neigh_comms_warm by done. by rewrite cache_of_set_cache.
Qed.

Lemma get_neigh_comms_lists_neighbours_witness :
  ∃ comms c,
    get_neigh_comms path4 1 IGRAPH_ALL path4_moved = Ok comms (set_cache IGRAPH_ALL c path4_moved)
    ∧ (∀ d, d < vcount path4 →
         weight_between path4 (_membership path4_moved) 1 IGRAPH_ALL d ≠ 0%Qc → d ∈ comms)
    ∧ (∀ d, d ∈ comms →
         ∃ u, u ∈ get_neighbours path4 1 IGRAPH_ALL ∧ _membership path4_moved !! u = Some d)
    ∧ ((∀ ue, ue ∈ incident path4 1 IGRAPH_ALL →
          (0 < cached_edge_weight path4 1 ue)%Qc) →
       comms = neighbour_comms path4 (_membership path4_moved) 1 IGRAPH_ALL)
    ∧ get_neigh_comms path4 1 IGRAPH_ALL (set_cache IGRAPH_ALL c path4_moved)
      = Ok comms (set_cache IGRAPH_ALL c path4_moved).
Proof.
  refine (get_neigh_comms_lists_neighbours path4 path4_moved 1 IGRAPH_ALL wf_graph_path4
            reachable_path4_moved _ _).
  - intros u Hu. assert (u < 4) as Hlt.
    { simpl in Hu. set_solver by lia. }
    assert (_membership path4_moved = [0; 0; 0; 3]) as -> by (by vm_compute).
    do 4 (destruct u as [|u]; [eexists; split; [reflexivity|simpl; lia]|]). lia.
  - vm_compute. lia.
Defined.

(** ** The communities of the neighbours within a group *)

Lemma comms_in_group_elem m cm v us c :
  c ∈ comms_in_group m cm v us ↔ ∃ u, u ∈ us ∧ cm !! u = cm !! v ∧ m !! u = Some c.
Proof.
  unfold comms_in_group. rewrite elem_of_list_to_set, list_elem_of_omap. split.
  - intros (u & Hu & Hc). case_decide; [eauto|done].
  - intros (u & Hu & Hcm & Hc). exists u. split; [done|]. by rewrite decide_True.
Qed.

Lemma constrained_neigh_comms_returns neigh v cm p k rest acc :
  drop k neigh = rest → is_Some (cm !! v) →
  (∀ u, u ∈ rest → is_Some (_membership p !! u) ∧ is_Some (cm !! u)) →
  constrained_neigh_comms neigh v cm (seq k (length rest)) acc p
  = Ok (comms_in_group (_membership p) cm v rest ∪ acc) p.
Proof.
  intros Hdrop [cv Hcv]. revert k acc Hdrop.
  induction rest as [|u rest IH]; intros k acc Hdrop Hrest.
  - simpl. unfold mret, M_ret. f_equal. unfold comms_in_group. simpl. set_solver.
  - assert (neigh !! k = Some u) as Hk.
    { rewrite <-(Nat.add_0_r k), <-lookup_drop, Hdrop. done. }
    assert (drop (S k) neigh = rest) as Hdrop'.
    { replace (S k) with (k + 1) by lia. by rewrite <-drop_drop, Hdrop. }
    destruct (Hrest u) as [[c Hc] [cu Hcu]]; [left|].
    simpl. rewrite Hk, Hcv, Hcu.
    assert (comms_in_group (_membership p) cm v (u :: rest)
            = (if decide (cu = cv) then {[c]} else ∅)
              ∪ comms_in_group (_membership p) cm v rest) as ->.
    { unfold comms_in_group. simpl. rewrite Hcu, Hcv, Hc.
      destruct (decide (cu = cv)) as [->|Hne].
      - rewrite decide_True by done. simpl. done.
      - rewrite decide_False by congruence. set_solver. }
    case_bool_decide as Heq.
    + subst cu. unfold mbind, M_bind, index. rewrite Hc.
      rewrite (IH (S k) _ Hdrop') by (intros; apply Hrest; by right).
      f_equal. rewrite decide_True by done. set_solver.
    + rewrite (IH (S k) _ Hdrop') by (intros; apply Hrest; by right).
      f_equal. rewrite decide_False by congruence. set_solver.
Qed.

(** X14: [get_neigh_comms (v, mode, constrained_membership)], when the
    graph reports as degree the length of the neighbour list and the
    vectors cover [v] and its neighbours, returns the set of the
    communities of those neighbours of [v] whose entry in
    [constrained_membership] is that of [v]; it leaves the partition
    and its caches as they are. *)
Theorem get_neigh_comms_constrained_spec g p v mode constrained_membership :
  is_Some (constrained_membership !! v) →
  (∀ u, u ∈ get_neighbours g v mode →
     is_Some (_membership p !! u) ∧ is_Some (constrained_membership !! u)) →
  ∃ neigh_comms : gset nat,
    get_neigh_comms_constrained g (length (get_neighbours g v mode)) v mode
      constrained_membership p = Ok neigh_comms p
    ∧ ∀ c, c ∈ neigh_comms ↔
        ∃ u, u ∈ get_neighbours g v mode
             ∧ constrained_membership !! u = constrained_membership !! v
             ∧ _membership p !! u = Some c.
Proof.
  intros Hv Hn. eexists. split.
  - unfold get_neigh_comms_constrained. by apply constrained_neigh_comms_returns.
  - intros c. rewrite elem_of_union, comms_in_group_elem. set_solver.
Qed.

Lemma get_neigh_comms_constrained_spec_witness :
  ∃ neigh_comms : gset nat,
    get_neigh_comms_constrained path4 (length (get_neighbours path4 1 IGRAPH_ALL)) 1
      IGRAPH_ALL [0; 0; 1; 1] path4_moved = Ok neigh_comms path4_moved
    ∧ ∀ c, c ∈ neigh_comms ↔
        ∃ u, u ∈ get_neighbours path4 1 IGRAPH_ALL
             ∧ [0; 0; 1; 1] !! u = [0; 0; 1; 1] !! 1
             ∧ _membership path4_moved !! u = Some c.
Proof.
  refine (get_neigh_comms_constrained_spec path4 path4_moved 1 IGRAPH_ALL [0; 0; 1; 1] _ _).
  - by eexists.
  - intros u Hu. assert (u < 4) as Hlt.
    { simpl in Hu. set_solver by lia. }
    assert (_membership path4_moved = [0; 0; 0; 3]) as -> by (by vm_compute).
    do 4 (destruct u as [|u]; [split; by eexists|]). lia.
Defined.

(** ** The cache across reconstructions and moves *)

Lemma init_admin_cold_query g q p' v mode comm :
  wf_graph g → length (_membership q) = vcount g → caches_ok g q →
  init_admin g q = Ok () p' →
  v < vcount g → comm < vcount g → neighbours_cacheable g p' v mode →
  ∃ p1, (ensure_cached g v mode ;; index (cached_weight mode) comm) p'
        = Ok (weight_between g (_membership p') v mode comm) p1.
Proof.
  intros Hg Hlen Hk Hrun Hv Hcomm Hn.
  destruct (init_admin_inv g q p' Hg Hlen Hrun) as [_ Hpost].
  destruct (init_admin_ok g q p' Hg Hlen (or_introl Hk) Hrun) as (_ & (Hkf & Hkt & Hka) & _).
  assert (cache_ok (vcount g) (cache_of mode p')) as Hok by (by destruct mode).
  assert (_current_node_cache_community (cache_of mode p') ≠ v) as Hcold.
  { destruct Hpost as [_ _ _ _ _ Hcf Hct Hca].
    destruct mode; simpl; rewrite ?Hcf, ?Hct, ?Hca; simpl; lia. }
  destruct (cold_query g v mode p' comm Hok Hn Hcold Hcomm) as (c & Hq & _). eauto.
Qed.

(** X15: a reconstruction invalidates the caches. After
    [renumber_communities (new_membership)] (and [from_partition],
    which runs the same code on the membership of the other partition)
    the queries [weight_to_comm] and [weight_from_comm] for every
    vertex of the graph recompute: they return the weight between the
    vertex and the community under the new membership. *)
Theorem reconstruction_invalidates_cache g p new_membership p' v comm :
  wf_graph g → reachable g p → vcount g ≤ length new_membership →
  renumber_communities_with g new_membership p = Ok () p' →
  v < vcount g → comm < vcount g →
  from_partition g (set_membership new_membership fresh) p = Ok () p'
  ∧ (neighbours_cacheable g p' v IGRAPH_OUT →
     ∃ p1, weight_to_comm g v comm p'
           = Ok (weight_between g (_membership p') v IGRAPH_OUT comm) p1)
  ∧ (neighbours_cacheable g p' v IGRAPH_IN →
     ∃ p1, weight_from_comm g v comm p'
           = Ok (weight_between g (_membership p') v IGRAPH_IN comm) p1).
Proof.
  intros Hg Hreach Hlen Hrun Hv Hcomm.
  destruct (reachable_ok g p Hg Hreach) as [Hp Hk].
  split; [exact Hrun|].
  rewrite renumber_communities_with_eq in Hrun by (done || apply (cons_membership g p Hp)).
  assert (length (_membership (set_community []
            (set_membership (take (vcount g) new_membership) p))) = vcount g) as Hlen'.
  { simpl. rewrite length_take. lia. }
  split; intros Hn.
  - by apply (init_admin_cold_query g _ p' v IGRAPH_OUT comm Hg Hlen' Hk).
  - by apply (init_admin_cold_query g _ p' v IGRAPH_IN comm Hg Hlen' Hk).
Qed.

Lemma reconstruction_invalidates_cache_witness :
  let p' := after (renumber_communities_with path4 [1; 1; 0; 0] path4_moved) in
  from_partition path4 (set_membership [1; 1; 0; 0] fresh) path4_moved = Ok () p'
  ∧ (neighbours_cacheable path4 p' 1 IGRAPH_OUT →
     ∃ p1, weight_to_comm path4 1 0 p'
           = Ok (weight_between path4 (_membership p') 1 IGRAPH_OUT 0) p1)
  ∧ (neighbours_cacheable path4 p' 1 IGRAPH_IN →
     ∃ p1, weight_from_comm path4 1 0 p'
           = Ok (weight_between path4 (_membership p') 1 IGRAPH_IN 0) p1).
Proof.
  refine (reconstruction_invalidates_cache path4 path4_moved [1; 1; 0; 0] _ 1 0
            wf_graph_path4 reachable_path4_moved _ _ _ _).
  - simpl. lia.
  - vm_compute. reflexivity.
  - simpl. lia.
  - simpl. lia.
Defined.


(** X16: a move elsewhere keeps a filled cache right. When the cache
    slot of [mode] holds the weights of [v] for the current
    membership and a vertex that is not a neighbour of [v] in that
    direction is moved, the slot holds the weights of [v] for the new
    membership, so the warm queries [weight_to_comm] and
    [weight_from_comm] for [v] still return the weight between [v]
    and the community. *)
Theorem cache_survives_move_elsewhere g p v mode u new_comm p' :
  wf_graph g → reachable g p → cache_holds g (_membership p) v mode p →
  u ∉ get_neighbours g v mode → valid_target p new_comm →
  move_node g u new_comm p = Ok () p' →
  cache_holds g (_membership p') v mode p'
  ∧ (mode = IGRAPH_OUT → ∀ comm, comm < vcount g →
       weight_to_comm g v comm p'
       = Ok (weight_between g (_membership p') v IGRAPH_OUT comm) p')
  ∧ (mode = IGRAPH_IN → ∀ comm, comm < vcount g →
       weight_from_comm g v comm p'
       = Ok (weight_between g (_membership p') v IGRAPH_IN comm) p').
Proof.
  intros Hg Hreach [Hmark Hw] Hu Hvalid Hrun.
  destruct (reachable_ok g p Hg Hreach) as [Hp _].
  destruct (move_node_old _ _ _ _ _ Hrun) as [old_comm Hold].
  destruct (move_node_inv g p u old_comm new_comm p' Hg Hp Hold Hvalid Hrun) as [_ ->].
  assert (cache_holds g (_membership (move_node_result g u old_comm new_comm p)) v mode
            (move_node_result g u old_comm new_comm p)) as Hholds.
  { destruct (move_node_result_caches g u old_comm new_comm p) as (Ef & Et & Ea).
    assert (cache_of mode (move_node_result g u old_comm new_comm p) = cache_of mode p) as Ec.
    { by destruct mode. }
    unfold cache_holds, cached_weight. rewrite Ec. split; [done|].
    intros comm Hcomm. rewrite move_node_result_membership, weight_between_alter by done.
    by apply Hw. }
  split; [done|]. split; intros -> comm Hcomm.
  - by apply (cache_holds_query g _ v IGRAPH_OUT).
  - by apply (cache_holds_query g _ v IGRAPH_IN).
Qed.

Lemma cache_survives_move_elsewhere_witness :
  let p := after (weight_to_comm path4 0 1 path4_singletons) in
  let p' := after (move_node path4 3 2 p) in
  cache_holds path4 (_membership p') 0 IGRAPH_OUT p'
  ∧ (IGRAPH_OUT = IGRAPH_OUT → ∀ comm, comm < vcount path4 →
       weight_to_comm path4 0 comm p'
       = Ok (weight_between path4 (_membership p') 0 IGRAPH_OUT comm) p')
  ∧ (IGRAPH_OUT = IGRAPH_IN → ∀ comm, comm < vcount path4 →
       weight_from_comm path4 0 comm p'
       = Ok (weight_between path4 (_membership p') 0 IGRAPH_IN comm) p').
Proof.
  refine (cache_survives_move_elsewhere path4
            (after (weight_to_comm path4 0 1 path4_singletons)) 0 IGRAPH_OUT 3 2 _
            wf_graph_path4 _ _ _ _ _).
  - apply (reach_weight_to_comm path4 path4_singletons 0 1 1%Qc);
      [apply reachable_path4_singletons|apply neighbours_cacheable_path4_singletons|].
    vm_compute. reflexivity.
  - split; [by vm_compute|]. intros comm Hcomm. simpl in Hcomm.
    do 4 (destruct comm as [|comm]; [by vm_compute|]). lia.
  - simpl. set_solver.
  - split; [vm_compute; lia|]. vm_compute. intros [=].
  - vm_compute. reflexivity.
Defined.

(** ** Reconstruction starts afresh *)

Lemma list_eq_lookup {A} (l k : list A) (F : nat → A) n :
  length l = n → length k = n →
  (∀ c, c < n → l !! c = Some (F c)) → (∀ c, c < n → k !! c = Some (F c)) → l = k.
Proof.
  intros Hl Hk HlF HkF. apply list_eq. intros c.
  destruct (decide (c < n)) as [Hc|Hc].
  - by rewrite HlF, HkF.
  - by rewrite !lookup_ge_None_2 by lia.
Qed.

(** Two states with the same membership whose administration and
    weight aggregates are those of the membership, with the same
    number of slots, have the same aggregates. *)
Lemma aggregates_determined g p q :
  consistent g p → weights_consistent g p → consistent g q → weights_consistent g q →
  _membership q = _membership p → length (_csize q) = length (_csize p) →
  _total_possible_edges_in_all_comms p = possible_edges_sum g (_csize p) →
  _total_possible_edges_in_all_comms q = possible_edges_sum g (_csize q) →
  same_aggregates p q.
Proof.
  intros Hp [Hpf Hpt Hpi Hpa] Hq [Hqf Hqt Hqi Hqa] Hm Hn Hpe Hqe.
  assert (_csize q = _csize p) as Hcsize.
  { apply (list_eq_lookup _ _ (λ c, size_in g (_membership p) c (vertices g))
             (length (_csize p))); [done|done| |].
    - intros c Hc. rewrite <-Hm. apply (cons_csize g q Hq). lia.
    - apply (cons_csize g p Hp). }
  split; [done| |done|..].
  - apply (list_eq_lookup _ _ (λ c, members (_membership p) c (vertices g))
             (length (_csize p))).
    + by rewrite (cons_community g q Hq).
    + by rewrite (cons_community g p Hp).
    + intros c Hc. rewrite <-Hm. apply (cons_members g q Hq). lia.
    + apply (cons_members g p Hp).
  - apply (list_eq_lookup _ _ (weight_in_of g (_membership p)) (length (_csize p))).
    + by rewrite (cons_in g q Hq).
    + by rewrite (cons_in g p Hp).
    + intros c Hc. rewrite <-Hm. apply Hqi. lia.
    + done.
  - apply (list_eq_lookup _ _ (weight_from_of g (_membership p)) (length (_csize p))).
    + by rewrite (cons_from g q Hq).
    + by rewrite (cons_from g p Hp).
    + intros c Hc. rewrite <-Hm. apply Hqf. lia.
    + done.
  - apply (list_eq_lookup _ _ (weight_to_of g (_membership p)) (length (_csize p))).
    + by rewrite (cons_to g q Hq).
    + by rewrite (cons_to g p Hp).
    + intros c Hc. rewrite <-Hm. apply Hqt. lia.
    + done.
  - by rewrite Hqa, Hpa, Hm.
  - by rewrite Hpe, Hqe, Hcsize.
Qed.

(** [init_admin] rebuilds every aggregate from the membership alone:
    what the object held before does not show in them. *)
Lemma init_admin_aggregates g p q p' q' :
  wf_graph g → length (_membership p) = vcount g → _membership q = _membership p →
  init_admin g p = Ok () p' → init_admin g q = Ok () q' → same_aggregates p' q'.
Proof.
  intros Hg Hlen Hm Hp Hq.
  destruct (init_admin_inv g p p' Hg Hlen Hp) as [Hv _].
  destruct (init_admin_weights_consistent g p Hg Hlen Hv)
    as ([] & p'' & Hp' & Hpost & Hw).
  rewrite Hp in Hp'. injection Hp' as <-.
  destruct (init_admin_weights_consistent g q Hg) as ([] & q'' & Hq' & Hpostq & Hwq).
  { by rewrite Hm. }
  { by rewrite Hm. }
  rewrite Hq in Hq'. injection Hq' as <-.
  destruct Hpost as [Hcp Hmp _ Hnp Hep _ _ _]. destruct Hpostq as [Hcq Hmq _ Hnq Heq _ _ _].
  apply (aggregates_determined g); try done.
  - by rewrite Hmq, Hmp.
  - by rewrite Hnq, Hnp, Hm.
Qed.

(** X17: a reconstruction starts afresh: [from_partition (partition)]
    on any reachable state, for a partition whose membership does not
    hold the largest [size_t] value, leaves the membership, the
    community sets,
    the sizes, all weight aggregates and the possible edges exactly as
    the constructor builds them from the membership vector of
    [partition]; what the object held before shows only in the pool of
    empty communities, which is kept as it was. *)
Theorem from_partition_like_construction g p partition :
  wf_graph g → reachable g p → length (_membership partition) = vcount g →
  valid_ids (_membership partition) →
  ∃ p' p0, from_partition g partition p = Ok () p'
           ∧ create g (_membership partition) = Ok () p0
           ∧ same_aggregates p0 p'
           ∧ _empty_communities p' = _empty_communities p.
Proof.
  intros Hg Hreach Hlen Hvalid. destruct (reachable_ok g p Hg Hreach) as [Hp _].
  rewrite from_partition_eq by (lia || apply (cons_membership g p Hp)).
  rewrite <-Hlen, firstn_all.
  destruct (init_admin_returns g
              (set_community [] (set_membership (_membership partition) p)) Hg Hlen Hvalid)
    as ([] & p' & Hrun & Hpost).
  unfold create, construct. rewrite bool_decide_eq_false_2 by (by intros ?).
  destruct (init_admin_returns g (set_membership (_membership partition) fresh)
              Hg Hlen Hvalid) as ([] & p0 & Hrun0 & Hpost0).
  exists p', p0. split; [done|]. split; [done|]. split.
  - by apply (init_admin_aggregates g (set_membership (_membership partition) fresh)
                (set_community [] (set_membership (_membership partition) p))).
  - by destruct Hpost.
Qed.

Lemma from_partition_like_construction_witness :
  ∃ p' p0, from_partition path4 path4_moved path4_singletons = Ok () p'
           ∧ create path4 (_membership path4_moved) = Ok () p0
           ∧ same_aggregates p0 p'
           ∧ _empty_communities p' = _empty_communities path4_singletons.
Proof.
  refine (from_partition_like_construction path4 path4_singletons path4_moved wf_graph_path4
            reachable_path4_singletons eq_refl _).
  change (_membership path4_moved) with [0; 0; 0; 3]. valid_ids.
Defined.

(** ** Renumbering twice *)

Lemma StronglySorted_lookup_2 {A} (R : relation A) (l : list A) :
  (∀ i j a b, i < j → l !! i = Some a → l !! j = Some b → R a b) → StronglySorted R l.
Proof.
  induction l as [|x l IH]; intros Hl; [constructor|].
  constructor.
  - apply IH. intros i j a b Hij Ha Hb. by apply (Hl (S i) (S j)); [lia|..].
  - apply Forall_forall. intros y [j Hj]%list_elem_of_lookup.
    by apply (Hl 0 (S j)); [lia|..].
Qed.

(** When the sizes do not increase with the id, the sort leaves the
    pairs in place and every community keeps its id. *)
Lemma new_comm_ids_sorted p c :
  (∀ i j, i ≤ j → j < nb_communities p → (csize j p ≤ csize i p)%Z) →
  c < nb_communities p → new_comm_ids p !! c = Some c.
Proof.
  intros Hsizes Hc.
  assert ((λ i, (csize i p, i)) <$> seq 0 (nb_communities p) = sorted_csizes p) as Hsorted.
  { apply std_sort_unique; [|done]. apply StronglySorted_lookup_2.
    intros i j a b Hij Ha Hb. rewrite list_lookup_fmap in Ha, Hb.
    destruct (seq 0 (nb_communities p) !! i) as [i'|] eqn:Hi; [|done].
    destruct (seq 0 (nb_communities p) !! j) as [j'|] eqn:Hj; [|done].
    apply lookup_seq in Hi as [-> _]. apply lookup_seq in Hj as [-> Hjlt].
    simpl in Ha, Hb. injection Ha as <-. injection Hb as <-.
    apply not_after_pair_iff. simpl.
    pose proof (Hsizes i j ltac:(lia) Hjlt). lia. }
  apply (new_comm_ids_position p c (csize c p, c)).
  rewrite <-Hsorted, list_lookup_fmap, lookup_seq_lt by done. done.
Qed.

Lemma renumber_communities_twice g p :
  wf_graph g → positive_sizes g → consistent g p →
  (Z.of_nat (nb_communities p) < size_t_modulus)%Z →
  ∃ p' p'', renumber_communities g p = Ok () p'
            ∧ renumber_communities g p' = Ok () p''
            ∧ same_aggregates p' p''.
Proof.
  intros Hg Hpos Hp Hnbp.
  assert (∀ q, consistent g q → ∀ c, c ∈ _membership q → c < length (new_comm_ids q)) as Hr.
  { intros q Hq c Hc. rewrite length_new_comm_ids. by apply (consistent_elem_range g). }
  destruct (renumber_communities_returns g p Hg Hpos Hp Hnbp) as (p' & Hrun & Hp' & Hren).
  pose proof Hrun as Hrun0.
  rewrite (renumber_communities_eq g p (cons_membership g p Hp) (Hr p Hp)) in Hrun0.
  assert (length (_membership (set_community []
            (set_membership ((λ c, default 0 (new_comm_ids p !! c)) <$> _membership p) p)))
          = vcount g) as Hlen1.
  { simpl. rewrite length_fmap. apply (cons_membership g p Hp). }
  destruct (init_admin_inv g _ p' Hg Hlen1 Hrun0) as [Hv1 _].
  destruct (init_admin_weights_consistent g _ Hg Hlen1 Hv1)
    as ([] & p1 & Hrun1 & Hpost1 & Hw').
  rewrite Hrun0 in Hrun1. injection Hrun1 as <-.
  assert ((λ c, default 0 (new_comm_ids p' !! c)) <$> _membership p' = _membership p') as Hid.
  { apply list_eq. intros v. rewrite list_lookup_fmap.
    destruct (_membership p' !! v) as [c|] eqn:Hv; [|done]. simpl.
    rewrite (new_comm_ids_sorted p' c); [done| |].
    - intros i j Hij Hj. apply (rn_sizes p p' Hren); [done|].
      by rewrite <-(rn_nb_communities p p' Hren).
    - apply (consistent_elem_range g p' c Hp'). by eapply list_elem_of_lookup_2. }
  destruct (init_admin_weights_consistent g (set_community [] p') Hg)
    as ([] & p'' & Hrun2 & Hpost2 & Hw'').
  { apply (cons_membership g p' Hp'). }
  { simpl. by rewrite (ip_membership _ _ _ Hpost1). }
  exists p', p''. split; [done|]. split.
  - rewrite (renumber_communities_eq g p' (cons_membership g p' Hp') (Hr p' Hp')), Hid.
    replace (set_membership (_membership p') p') with p' by (by destruct p').
    done.
  - destruct Hpost1 as [_ Hm1 _ Hn1 He1 _ _ _].
    destruct Hpost2 as [Hp'' Hm2 _ Hn2 He2 _ _ _].
    simpl in Hm1, Hn1, Hm2, Hn2.
    apply (aggregates_determined g); try done.
    by rewrite Hn2, Hn1, Hm1.
Qed.

(** X18: renumbering by size is idempotent on a graph with positive
    node sizes: a second [renumber_communities ()] right after the
    first returns and leaves the membership, the community sets, the
    sizes, the weight aggregates and the possible edges exactly as the
    first one left them. *)
Theorem renumber_communities_idempotent g p :
  wf_graph g → positive_sizes g → reachable g p →
  ∃ p' p'', renumber_communities g p = Ok () p'
            ∧ renumber_communities g p' = Ok () p''
            ∧ same_aggregates p' p''.
Proof.
  intros Hg Hpos Hreach. apply renumber_communities_twice; [done..| |].
  - by apply reachable_ok.
  - apply (reachable_nb_communities g p Hg); [by apply positive_sizes_vcount|done].
Qed.

Lemma renumber_communities_idempotent_witness :
  ∃ p' p'', renumber_communities path4 path4_moved = Ok () p'
            ∧ renumber_communities path4 p' = Ok () p''
            ∧ same_aggregates p' p''.
Proof.
  exact (renumber_communities_idempotent path4 path4_moved wf_graph_path4 positive_sizes_path4
           reachable_path4_moved).
Defined.

(** ** Moving a vertex to a community of its own *)

Lemma get_empty_community_exact g p c p1 :
  wf_graph g → positive_sizes g → consistent g p → pool_exact p →
  get_empty_community g p = Ok c p1 →
  consistent g p1 ∧ pool_exact p1 ∧ _csize p1 !! c = Some 0%Z ∧ community p1 !! c = Some ∅.
Proof.
  intros Hg Hpos Hp Hpool. rewrite get_empty_community_eq.
  destruct (last (_empty_communities p)) as [d|] eqn:Hlast.
  - intros [= <- <-]. split; [done|]. split; [done|].
    assert (_csize p !! d = Some 0%Z) as Hd.
    { apply Hpool. apply last_Some in Hlast as [l ->]. apply elem_of_app. right. left. }
    split; [done|]. by apply (csize_zero_empty g).
  - case_bool_decide; [done|]. intros [= <- <-].
    split; [by apply with_empty_community_consistent|].
    split; [by apply (with_empty_community_pool_exact g)|].
    split.
    + rewrite (with_empty_community_csize g p Hp), (cons_community g p Hp).
      by rewrite list_lookup_middle.
    + simpl. by rewrite list_lookup_middle.
Qed.

Lemma get_empty_community_keeps_exact g p c p1 :
  consistent g p → exact_possible_edges g p → get_empty_community g p = Ok c p1 →
  exact_possible_edges g p1.
Proof.
  intros Hp Hpe. rewrite get_empty_community_eq.
  destruct (last (_empty_communities p)) as [d|]; [by intros [= <- <-]|].
  case_bool_decide; [done|]. intros [= <- <-]. by apply with_empty_community_exact.
Qed.

(** X19: a vertex can be set apart: on a graph with positive node
    sizes that add up to less than [2^27], with an exact pool and an
    exact number of possible edges, moving a vertex to the community
    that [get_empty_community ()] has just returned succeeds; the
    vertex is then the only member of that community, whose size is
    the size of the vertex, and the pool is exact again. *)
Theorem vertex_set_apart g p v c p1 :
  wf_graph g → positive_sizes g → small_sizes g →
  consistent g p → exact_possible_edges g p → pool_exact p →
  v < vcount g → get_empty_community g p = Ok c p1 →
  ∃ p2, move_node g v c p1 = Ok () p2
        ∧ _membership p2 !! v = Some c
        ∧ community p2 !! c = Some {[v]}
        ∧ csize c p2 = node_size g v
        ∧ consistent g p2 ∧ pool_exact p2.
Proof.
  intros Hg Hpos Hsmall Hp Hpe Hpool Hv Hget.
  destruct (get_empty_community_exact g p c p1 Hg Hpos Hp Hpool Hget)
    as (Hp1 & Hpool1 & Hc0 & Hcset).
  pose proof (get_empty_community_keeps_exact g p c p1 Hp Hpe Hget) as Hpe1.
  assert (c < length (_csize p1)) as Hc by (by eapply lookup_lt_Some).
  destruct (lookup_lt_is_Some_2 (_membership p1) v) as [old_comm Hold].
  { by rewrite (cons_membership g p1 Hp1). }
  assert (c ≠ old_comm) as Hne.
  { intros ->.
    assert (0 < csize old_comm p1)%Z as Hgt.
    { apply (csize_positive g p1 old_comm Hp1 Hpos).
      - unfold nb_communities. by rewrite (cons_community g p1 Hp1).
      - by eapply list_elem_of_lookup_2. }
    unfold csize in Hgt. rewrite Hc0 in Hgt. lia. }
  exists (move_node_result g v old_comm c p1).
  split; [|split; [|split; [|split; [|split]]]].
  - apply move_node_valid; try done. split; [done|]. intros _. by apply Hpool1.
  - rewrite move_node_result_membership, list_lookup_alter_eq, Hold. done.
  - rewrite move_node_result_community, list_lookup_alter_eq, list_lookup_alter_ne, Hcset
      by done. simpl. f_equal. set_solver.
  - unfold csize.
    rewrite move_node_result_csize, list_lookup_alter_eq, list_lookup_alter_ne, Hc0 by done.
    simpl. apply size_t_add_exact.
    pose proof (wf_node_size g Hg v Hv). pose proof (wf_total_size g Hg) as Htot.
    assert (node_size g v ≤ total_size g)%Z.
    { destruct (move_sizes g p1 v old_comm c Hg Hp1 Hold Hc Hne)
        as (O & N & HO & HN & Hs & HN0 & HOt & HNt). lia. }
    assert (size_t_modulus = 2 ^ 64)%Z as -> by done. lia.
  - by apply move_node_consistent.
  - by apply move_node_pool_exact.
Qed.

Lemma pool_exact_lists (pool : list nat) (csizes : list Z) p :
  _empty_communities p = pool → _csize p = csizes →
  NoDup pool → (∀ c, c ∈ pool ↔ csizes !! c = Some 0%Z) → pool_exact p.
Proof. intros <- <-. by split. Qed.

Lemma pool_exact_path4_moved : pool_exact path4_moved.
Proof.
  apply (pool_exact_lists [1; 2] [3; 0; 0; 1]%Z); [by vm_compute|by vm_compute| |].
  - apply (bool_decide_unpack _). by vm_compute.
  - intros c. rewrite !elem_of_cons, elem_of_nil.
    do 4 (destruct c as [|c];
          [simpl; split; [intros [?|[?|[]]]; by simplify_eq|intros ?; simplify_eq; auto]|]).
    simpl. split; [intros [?|[?|[]]]; by simplify_eq|intros ?; simplify_eq].
Qed.

Lemma vertex_set_apart_witness :
  ∃ p2, move_node path4 3 2 (after (get_empty_community path4 path4_moved)) = Ok () p2
        ∧ _membership p2 !! 3 = Some 2
        ∧ community p2 !! 2 = Some {[3]}
        ∧ csize 2 p2 = node_size path4 3
        ∧ consistent path4 p2 ∧ pool_exact p2.
Proof.
  refine (vertex_set_apart path4 path4_moved 3 2 _ wf_graph_path4 positive_sizes_path4
            small_sizes_path4
            (proj1 (reachable_ok path4 path4_moved wf_graph_path4 reachable_path4_moved))
            (reachable_exact path4 path4_moved wf_graph_path4 small_sizes_path4
               reachable_path4_moved)
            pool_exact_path4_moved _ _).
  - simpl. lia.
  - vm_compute. reflexivity.
Defined.

(** ** Where [move_node] is defined *)

Lemma erase_first_None x l : x ∉ l → erase_first x l = None.
Proof.
  induction l as [|y l IH]; intros Hx; [done|]. simpl.
  apply not_elem_of_cons in Hx as [Hne Hx]. rewrite decide_False by done.
  by rewrite IH.
Qed.

Lemma erase_last_None x l : x ∉ l → erase_last x l = None.
Proof.
  intros Hx. unfold erase_last. rewrite erase_first_None; [done|]. by rewrite elem_of_reverse.
Qed.

(** [move_node] to an empty community that the pool does not list
    erases through the end iterator. *)
Lemma move_node_unlisted g p v old_comm new_comm :
  consistent g p → _membership p !! v = Some old_comm →
  new_comm < length (_csize p) → new_comm ≠ old_comm →
  _csize p !! new_comm = Some 0%Z → new_comm ∉ _empty_communities p →
  move_node g v new_comm p = Undefined.
Proof.
  intros Hp Hold Hnew Hne Hzero Hout.
  assert (old_comm < length (_csize p)) as Hol by (by apply (cons_range g p Hp v)).
  pose proof (cons_community g p Hp) as Hlc.
  destruct (moved_possible_edges g v old_comm new_comm p) as [total'|] eqn:Hmoved;
    [|by apply (move_node_overflow g p v old_comm new_comm)].
  unfold moved_possible_edges in Hmoved.
  unfold move_node.
  apply undefined_bind. eapply returns_index; [done|].
  apply undefined_bind. apply returns_when; intros Hb.
  2:{ apply bool_decide_eq_false in Hb. by destruct Hb. }
  mstep. apply returns_index_lt; [done|]. intros x1 Hx1.
  mstep. apply returns_index_lt; [done|]. intros x2 Hx2.
  rewrite (list_lookup_total_correct _ _ _ Hx1), (list_lookup_total_correct _ _ _ Hx2)
    in Hmoved.
  mstep. mstep. rewrite Hmoved. mstep.
  apply undefined_bind. apply returns_modify_at; [simpl; lia|].
  apply undefined_bind. apply returns_modify_at; [done|].
  apply undefined_bind. apply returns_index_lt; [simpl; by rewrite length_alter|].
  intros x3 Hx3.
  assert (∀ s (Q : unit → MutableVertexPartition → Prop),
            (∀ pool, (∀ c, c ∈ pool → c ∈ _empty_communities s ∨ c = old_comm) →
                     Q () (set_empty_communities pool s)) →
            returns (when (bool_decide (x3 = 0%Z))
                       (modify (λ p0, set_empty_communities
                                        (_empty_communities p0 ++ [old_comm]) p0))) s Q)
    as Hpush.
  { intros s Q HQ. apply returns_when; intros _.
    - apply returns_modify. apply HQ. intros c [?|?%list_elem_of_singleton]%elem_of_app; auto.
    - replace s with (set_empty_communities (_empty_communities s) s) by (by destruct s).
      apply HQ. auto. }
  apply undefined_bind. apply Hpush. intros pool Hpool. simpl in Hpool.
  apply undefined_bind. apply returns_index_lt; [simpl; by rewrite length_alter|].
  intros x4 Hx4. simpl in Hx4. rewrite list_lookup_alter_ne, Hzero in Hx4 by done.
  injection Hx4 as <-.
  apply undefined_bind_l. unfold when. rewrite bool_decide_eq_true_2 by done.
  unfold remove_from_empty_communities, mbind, M_bind, gets. simpl.
  rewrite erase_last_None; [done|].
  intros [Hin| ->]%Hpool; done.
Qed.

(** X20: [move_node] checks nothing. From a state whose
    administration agrees with the membership it returns exactly when
    [v] is a vertex, [new_comm] is an allocated community and, if it is
    another community than that of [v], the number of possible edges
    that the [double] computation gives is in the range of [size_t]
    and the pool of empty communities lists [new_comm] when its size
    is zero; otherwise its behaviour is undefined (a vector is indexed
    out of range, a [double] out of range is converted, or the end
    iterator of the pool is erased). *)
Theorem move_node_defined_iff g p v new_comm :
  wf_graph g → consistent g p →
  ((∃ p', move_node g v new_comm p = Ok () p') ↔
   ∃ old_comm, _membership p !! v = Some old_comm ∧ new_comm < nb_communities p
     ∧ (new_comm ≠ old_comm →
        is_Some (moved_possible_edges g v old_comm new_comm p)
        ∧ (csize new_comm p = 0%Z → new_comm ∈ _empty_communities p)))
  ∧ ((∀ p', move_node g v new_comm p ≠ Ok () p') → move_node g v new_comm p = Undefined).
Proof.
  intros Hg Hp. unfold nb_communities. rewrite (cons_community g p Hp). split.
  - split.
    + intros [p' Hrun]. destruct (move_node_old _ _ _ _ _ Hrun) as [old_comm Hold].
      exists old_comm. split; [done|].
      assert (old_comm < length (_csize p)) as Hol by (by apply (cons_range g p Hp v)).
      destruct (decide (new_comm < length (_csize p))) as [Hnew|Hnew].
      * split; [done|]. intros Hne. split.
        { destruct (moved_possible_edges g v old_comm new_comm p) eqn:Hmoved; [done|].
          by rewrite (move_node_overflow g p v old_comm new_comm) in Hrun. }
        intros Hzero.
        destruct (decide (new_comm ∈ _empty_communities p)) as [|Hout]; [done|].
        rewrite (move_node_unlisted g p v old_comm new_comm) in Hrun; try done.
        unfold csize in Hzero.
        destruct (lookup_lt_is_Some_2 (_csize p) new_comm Hnew) as [x Hx].
        rewrite Hx in Hzero. by subst x.
      * exfalso. unfold move_node, mbind, M_bind, index, when in Hrun.
        rewrite Hold in Hrun. rewrite bool_decide_eq_true_2 in Hrun by (intros ->; lia).
        unfold mbind, M_bind in Hrun. by rewrite lookup_ge_None_2 in Hrun by lia.
    + intros (old_comm & Hold & Hnew & Hpool).
      exists (move_node_result g v old_comm new_comm p).
      apply move_node_returns, consistent_move_node_pre; try done.
      * intros Hne Hzero. apply Hpool; [done|]. unfold csize. by rewrite Hzero.
      * intros Hne. by apply Hpool.
  - intros Hno. destruct (move_node g v new_comm p) as [[] p'|e p'|] eqn:Hrun; [|exfalso|done].
    + by destruct (Hno p').
    + by apply (no_throw_move_node g v new_comm p e p').
Qed.

Lemma move_node_defined_iff_witness :
  ((∃ p', move_node path4 1 0 path4_singletons = Ok () p') ↔
   ∃ old_comm, _membership path4_singletons !! 1 = Some old_comm
     ∧ 0 < nb_communities path4_singletons
     ∧ (0 ≠ old_comm →
        is_Some (moved_possible_edges path4 1 old_comm 0 path4_singletons)
        ∧ (csize 0 path4_singletons = 0%Z → 0 ∈ _empty_communities path4_singletons)))
  ∧ ((∀ p', move_node path4 1 0 path4_singletons ≠ Ok () p') →
     move_node path4 1 0 path4_singletons = Undefined).
Proof.
  exact (move_node_defined_iff path4 path4_singletons 1 0 wf_graph_path4
           (proj1 (reachable_ok path4 path4_singletons wf_graph_path4
                     reachable_path4_singletons))).
Defined.

(** ** Vectors that are too short *)

Lemma no_throw_coarser_vertex cm cn v : no_throw (coarser_vertex cm cn v).
Proof.
  unfold coarser_vertex. destruct (cn !! v) as [v2|]; [|apply no_throw_undefined].
  destruct (cm !! v2); [apply no_throw_modify_at|apply no_throw_undefined].
Qed.

Lemma no_throw_coarser_vertex_self cm v : no_throw (coarser_vertex_self cm v).
Proof.
  unfold coarser_vertex_self. apply no_throw_bind; [apply no_throw_index|].
  intros c. destruct (cm !! c); [apply no_throw_modify_at|apply no_throw_undefined].
Qed.

(** X21: the reconstructions read their vectors without a check: a
    membership vector shorter than the vertex count, given to
    [renumber_communities (new_membership)] or held by the partition
    given to [from_partition], and a coarser membership or a
    coarse-node vector that does not cover what
    [from_coarser_partition] looks up, are read out of range, which is
    undefined behaviour. *)
Theorem reconstruction_reads_out_of_range g p :
  (∀ new_membership, length new_membership < vcount g →
     renumber_communities_with g new_membership p = Undefined)
  ∧ (∀ partition, length (_membership partition) < vcount g →
       from_partition g partition p = Undefined)
  ∧ (∀ coarser_membership v c, v < vcount g → _membership p !! v = Some c →
       length coarser_membership ≤ c →
       from_coarser_partition g coarser_membership p = Undefined)
  ∧ (∀ coarser_membership coarser_node v, v < vcount g →
       (∀ v_level2, coarser_node !! v = Some v_level2 →
          length coarser_membership ≤ v_level2) →
       from_coarser_partition_with g coarser_membership coarser_node p = Undefined).
Proof.
  assert (∀ new_membership, length new_membership < vcount g →
            for_each (seq 0 (vcount g)) (assign_vertex new_membership) p = Undefined) as Hassign.
  { intros nm Hlen.
    apply (for_each_undefined _ (λ _, True) _ _ (length nm)); [|done|done| |].
    - apply elem_of_seq. lia.
    - intros b. apply no_throw_assign_vertex.
    - intros s1 _. unfold assign_vertex. by rewrite lookup_ge_None_2. }
  split; [|split; [|split]].
  - intros nm Hlen. unfold renumber_communities_with. by apply undefined_bind_l, Hassign.
  - intros q Hlen. unfold from_partition. by apply undefined_bind_l, Hassign.
  - intros cm v c Hv Hc Hlen. unfold from_coarser_partition. apply undefined_bind_l.
    apply (for_each_undefined _ (λ s, _membership s !! v = Some c) _ _ v); [|done| | |].
    + apply elem_of_seq. lia.
    + intros b s1 s2 Hs1. unfold coarser_vertex_self, mbind, M_bind, index, modify_at.
      destruct (_membership s1 !! b) as [cb|] eqn:Hb; [|done].
      destruct (cm !! cb) as [d|] eqn:Hd; [|done]. rewrite Hb. intros [= <-]. simpl.
      destruct (decide (b = v)) as [->|Hne].
      * rewrite Hs1 in Hb. injection Hb as <-. apply lookup_lt_Some in Hd. lia.
      * by rewrite list_lookup_alter_ne.
    + intros b. apply no_throw_coarser_vertex_self.
    + intros s1 Hs1. unfold coarser_vertex_self, mbind, M_bind, index. rewrite Hs1.
      by rewrite lookup_ge_None_2.
  - intros cm cn v Hv Hcn. unfold from_coarser_partition_with. apply undefined_bind_l.
    apply (for_each_undefined _ (λ _, True) _ _ v); [|done|done| |].
    + apply elem_of_seq. lia.
    + intros b. apply no_throw_coarser_vertex.
    + intros s1 _. unfold coarser_vertex. destruct (cn !! v) as [v2|]; [|done].
      by rewrite lookup_ge_None_2 by (by apply Hcn).
Qed.

Lemma reconstruction_reads_out_of_range_witness :
  renumber_communities_with path4 [0; 0; 1] path4_singletons = Undefined.
Proof.
  apply (proj1 (reconstruction_reads_out_of_range path4 path4_singletons) [0; 0; 1]).
  simpl. lia.
Defined.


(** ** The largest community id *)

(** X22: the community ids are counted in [size_t]. When the
    membership vector holds the largest [size_t] value, [init_admin]
    computes its successor as [0], allocates fewer communities than
    the id asks for and adds the vertex of that id to a community set
    out of range: the constructor, on a vector of the right length,
    and [renumber_communities (new_membership)] and [from_partition],
    on such a vector, run into undefined behaviour. *)
Theorem largest_id_is_out_of_range g membership :
  length membership = vcount g → ¬ valid_ids membership →
  create g membership = Undefined
  ∧ (∀ p, length (_membership p) = vcount g →
       renumber_communities_with g membership p = Undefined
       ∧ from_partition g (set_membership membership fresh) p = Undefined).
Proof.
  intros Hlen Hinvalid. split.
  - unfold create, construct. rewrite bool_decide_eq_false_2 by (by intros ?).
    apply undefined_bind. apply returns_modify. by apply init_admin_invalid.
  - intros p Hp.
    assert (renumber_communities_with g membership p = Undefined) as Hrun.
    { rewrite renumber_communities_with_eq by (done || lia).
      rewrite <-Hlen, firstn_all. by apply init_admin_invalid. }
    split; [done|]. exact Hrun.
Qed.

Lemma largest_id_is_out_of_range_witness :
  create (edgeless 1) [Z.to_nat (2 ^ 64 - 1)] = Undefined.
Proof.
  refine (proj1 (largest_id_is_out_of_range (edgeless 1) [Z.to_nat (2 ^ 64 - 1)] eq_refl _)).
  intros Hvalid. apply Forall_cons_1 in Hvalid as [Hlt _].
  rewrite Z2Nat.id in Hlt by lia. unfold size_t_modulus in Hlt. lia.
Defined.
